(* ===== verification/_CoqProject ===== *)
-Q . S2P
Prelude.v
Utf8.v
Strs.v
Json.v
JsonText.v
Policy.v
Event.v
Wire.v
Texts.v
Api.v
Control.v
Channel.v
OrigDst.v
Sni.v
Http1.v
Splice.v
Tls.v
Netfilter.v
H2.v
Conn.v
Typed.v
Trail.v
Proxy.v
Cli.v
Runs.v
WireRuns.v
Tests.v
Shell.v
Bashkit.v
Microsandbox.v
