(* ===== verification/Prelude.v ===== *)
(** * Verification of the native (Rust) components of Condukt

    Condukt runs coding agents in sandboxes. Its Rust code, [src/native], has
    three crates: [condukt_egress], the Kubernetes sidecar that mediates all
    outbound traffic of a workspace; [condukt_bashkit], a virtual sandbox (an
    in-memory file system and a bash interpreter) behind BEAM NIFs; and
    [condukt_microsandbox], microVM sessions behind NIFs. This library models
    the three and proves what makes them correct. The centre of it is the
    sidecar, because it is the security boundary.

    ** How the sidecar works, and where it is modelled

    An init container ([netfilter.rs]) installs [iptables] rules that redirect
    the workspace's TCP traffic to ports 80 and 443 into the proxy. The proxy
    ([mod.rs]) reads a policy, loads a CA, opens a control channel to the BEAM
    and accepts connections. Each connection ([conn.rs]) recovers its original
    destination ([orig_dst.rs]), learns its host from the peeked bytes ([sni.rs],
    or a Host line), evaluates the policy ([policy.rs]), possibly asks the BEAM
    ([control.rs]), reports events ([event.rs]) and, when allowed, forwards:
    plain HTTP by capturing the head ([http1.rs]) and splicing bytes, HTTPS by
    terminating TLS with a leaf minted for the host ([tls.rs]) and then as
    HTTP/1 or per HTTP/2 stream ([h2.rs]).

    - [Prelude]: [Result], strings, the [?] operator, shared lemmas.
    - [Utf8], [Strs]: the standard library's UTF-8 codec ([from_utf8],
      [from_utf8_lossy], [as_bytes]) and [str] methods the code calls, with
      panics as [None].
    - [Json], [JsonText]: JSON values, the interface [SerdeJson] to the text layer
      of [serde_json], and a printer and reader of RFC 8259 that implement it.
    - [Policy] ([proxy/policy.rs]): rules, glob compilation and matching,
      [evaluate].
    - [Event] ([proxy/event.rs]): requests, events and frames.
    - [Wire] (the [serde] attributes of [policy.rs] and [event.rs]): a [codec] per
      type, with the law that decoding inverts encoding.
    - [Texts]: the policy file, the lines [write_loop] writes and [read_loop]
      reads, down to the bytes of the stream.
    - [Api]: the two interfaces between the connection handler and the rest of
      the sidecar, [ControlApi] and [CertApi]: operations and promises.
    - [Control] ([proxy/control.rs]): the control channel. State [ctl]: the
      bounded queue, the pending map, the oneshot channels, the calls in
      progress, the acceptor. Each atomic piece of the source is a function;
      [step] is their interleaving; [request_decision] is the whole call run
      against a timed schedule of the other tasks. Discharges [ControlApi].
    - [Channel]: [Control] over the lines of [Texts], and the progress of the
      writer along infinite fair runs.
    - [OrigDst] ([proxy/orig_dst.rs], the Linux version), [Sni]
      ([proxy/sni.rs]), [Http1] ([proxy/http1.rs]).
    - [Splice] (the byte pumps of [proxy/conn.rs], [splice_pairs]).
    - [Tls] ([proxy/tls.rs]): CA loading, leaf minting, and the per-host cache
      under concurrent callers ([tls_step]); [server_config_for] is the whole
      call with what the others do between its two critical sections.
      Discharges [CertApi].
    - [Netfilter] ([netfilter.rs]): the rule list and its installation, over the
      interface [Iptables] to the kernel.
    - [H2] ([proxy/h2.rs]): the streams of a terminated HTTP/2 connection.
    - [Conn] ([proxy/conn.rs]): host identification, the whole handler [handle],
      forwarding, interception, the upstream trust store. The handler's result
      is the list of its [action]s in program order with the states of the
      channel and of the certificate cache.
    - [Typed]: that the events of a connection are values of their Rust types.
    - [Trail]: the events of [Conn] in the queue of [Control]: what a connection
      reports, among what the other tasks report meanwhile.
    - [Proxy] ([proxy/mod.rs], [main.rs]): start-up, accept loop, exit status,
      and the composition of [Conn] with [Control] and [Tls].
    - [Cli] ([main.rs], [netfilter::Args], [proxy::Args]): the command line.
    - [Runs], [WireRuns]: the components evaluated on concrete connections, texts
      and command lines.
    - [Tests]: the unit tests of the crate, as booleans over the model that
      evaluate to [true].

    ** The sandboxes

    - [Shell]: the token rules of a POSIX shell and how a utility tells options
      from operands, as a reference.
    - [Bashkit] ([condukt_bashkit/src/lib.rs]): every NIF and helper, over the
      interface [BashLib] to the interpreter.
    - [Microsandbox] ([condukt_microsandbox/src/lib.rs]): every NIF and helper,
      over [MicroLib]; sessions with concurrent NIFs and the finaliser are the
      runs of [m_step].

    ** What is proved

    - Mediation ([Proxy], [Conn], [Trail]): serving any connections, an upstream is
      contacted only with a permission of the policy, or with the peer's answer
      to the question this very connection asked; a decide rule fails closed;
      every connection has a complete event lifecycle, and all of it reaches the
      queue in order unless the buffer fills up; interception goes through its
      stages in order and offers only certificates minted for the evaluated host.
    - Policy: [evaluate] never panics and is the first-match pipeline over the
      declarative glob language; compilation and printing are inverse; case does
      not matter; and the patterns a greedy [*] can never match.
    - Control channel: no pending entry leaks, a decision is authentic and used
      exactly when in time, whatever happens in between, the queue is bounded and
      FIFO, in every reachable state; a frame the buffer accepted is eventually written, in its turn, as
      long as the writer is scheduled fairly and writes succeed.
    - Wire formats: a policy file is read back up to member order, unknown and
      missing members; the bytes of any frames are read back as these frames; a
      decision line settles exactly the call it answers, and any other line does
      nothing.
    - Certificates: one configuration per host under any interleaving; what a
      client reads in the certificate it presents; [server_config_for] on every
      branch.
    - Bytes: the pumps and the HTTP/1 path lose, add and reorder nothing, and the
      pumps end; the byte counters; original destinations on either endianness;
      the host a plain-text client names.
    - Redirection: the installed rules redirect exactly the intended IPv4 packets;
      a failed command stops the installation and is reported; from the two command
      lines on, the IPv4 traffic of a pod ends at the port its proxy listens on.
    - Sandboxes: quoting and glob filtering let no text become shell syntax, and
      which arguments of a search are options; the glob matcher decides its
      specification; edits are all or nothing; search output is read back; a
      microVM is stopped exactly once.

    ** Bounds and fuel

    Integers keep their width where it matters: byte counters wrap at 64 bits
    ([Splice.u64]), parsed numbers are checked against [u64::MAX], ports and
    counters of a frame against their types ([Wire]). Fuel appears in decimal
    printing ([Strs.dec]), where it is the binary size of the number, which
    [dec_fuel_enough] shows sufficient, and in the JSON reader ([JsonText.read]),
    where it is the length of the text: [cost_length] and [read_print] show that
    every printed value is read back. The law of [SerdeJson] is limited to values
    of at most [Json.depth_limit] levels, as the reader of [serde_json] is; every
    frame and policy is within it ([Wire.Outbound_value_depth], [enc_height]). A
    byte pump ([Splice.pump]) has one unit of fuel per read and one for the end of
    the stream, after which [read] returns zero bytes for ever: [pump_run_end] shows
    that the source's own exits end the loop within it. Unbounded inputs (reads, accepts,
    schedules of other tasks) are lists of any length, an exhausted one meaning
    end of input or silence; every theorem holds for all of them.

    ** What is not modelled

    Third-party crates are parameters or interfaces, with the laws the proofs
    use: the text layer of [serde_json] ([SerdeJson]), the alternative forms its
    derived decoders accept (structs as arrays, unit variants as objects:
    [serde_alt]), [chrono]'s time format ([Chrono]), [tls-parser], [httparse],
    [rcgen] and [rustls] ([CryptoLib], with the fields a client reads in a signed
    certificate), [hyper], the splitting of words into options by [clap],
    [bashkit], [microsandbox], and the kernel's [getsockopt] and [iptables] (the
    laws of [Iptables] are for a binary that is [iptables], which sees IPv4).
    The decoders of frames ([Wire.Outbound_from], [Texts.peer_frames]) are
    specifications of the encoding; the code of the peer is not modelled.
    Logging to standard error is left out but for the final error of [main]. The
    two [build.rs] scripts, the non-Linux fallback of [original_dst], and the
    Elixir and web code are not modelled. *)

From stdpp Require Export base tactics option list numbers gmap.
From Stdlib Require Export ZArith Lia.
From stdpp Require Export strings.
From Stdlib Require Ascii.

#[global] Open Scope Z_scope.
#[global] Set Default Goal Selector "!".

(** ** [Result<T, E>] *)

Inductive result (A E : Type) : Type :=
| Ok (a : A)
| Err (e : E).
Arguments Ok {A E} a.
Arguments Err {A E} e.

(** [Result::map_err]. *)
Definition map_err {A E F} (f : E → F) (r : result A E) : result A F :=
  match r with Ok a => Ok a | Err e => Err (f e) end.

(** [Result::ok]. *)
Definition ok {A E} (r : result A E) : option A :=
  match r with Ok a => Some a | Err _ => None end.

(** ** Strings

    A Rust [char] is its code point, a [str]/[String] the list of its chars,
    a byte slice a list of values in [0, 256). *)

Abbreviation char := Z (only parsing).
Abbreviation str := (list Z) (only parsing).
Abbreviation bytes := (list Z) (only parsing).

(** A Rust string literal (all the literals of the sources are ASCII). *)
Definition lit (s : String.string) : str :=
  map (λ a, Z.of_N (Ascii.N_of_ascii a)) (String.list_ascii_of_string s).
Arguments lit s%_string.

Declare Scope rust_scope.
Delimit Scope rust_scope with rust.
Notation "'s!' x" := (lit x%string) (at level 9, x at level 8, format "'s!' x") : rust_scope.

(** The [?] operator on a [Result]. *)
Definition and_then {A B E} (r : result A E) (k : A → result B E) : result B E :=
  match r with Ok a => k a | Err e => Err e end.
Notation "x ←? r ; k" := (and_then r (λ x, k))
  (at level 20, r at level 100, k at level 200, right associativity) : rust_scope.

#[global] Open Scope rust_scope.

(** Equality of strings as a bool ([==] on [str]). *)
Definition str_eqb (a b : str) : bool := bool_decide (a = b).

Definition is_empty {A} (l : list A) : bool :=
  match l with [] => true | _ => false end.

(** ** Automation *)

(** Lemmas that carry an invariant across one operation; each component adds
    its own. *)
Create HintDb preserve.

(** ** Generic lemmas *)

(** Induction on the length of a list. *)
Lemma list_len_ind {A} (P : list A → Prop) :
  (∀ l, (∀ l', (length l' < length l)%nat → P l') → P l) → ∀ l, P l.
Proof.
  intros H l. remember (length l) as n eqn:E.
  revert l E. induction (lt_wf n) as [n _ IH]; intros l ->.
  apply H. intros l' Hl. by eapply IH.
Qed.
