(* ===== verification/Utf8.v ===== *)
(** * UTF-8: the model of [std::str::from_utf8], [String::from_utf8_lossy] and
    [str::as_bytes]

    The sources decode wire bytes with [from_utf8] (SNI names, HTTP heads,
    header values) and file contents with [from_utf8_lossy] ([edit_file]), and
    compare and slice strings at byte offsets. [utf8_items] is one pass of the
    decoder: each scalar value it reads, or [None] for each maximal ill-formed
    subpart, as the standard library defines them. The lemmas show that
    decoding and encoding are inverse. *)

From S2P Require Import Prelude.

(** A Unicode scalar value: what a Rust [char] can hold. *)
Definition scalar (c : Z) : bool :=
  ((0 <=? c) && (c <? 0xD800)) || ((0xE000 <=? c) && (c <? 0x110000)).

Definition wf_str (s : str) : Prop := Forall (λ c, scalar c = true) s.

Definition is_byte (b : Z) : bool := (0 <=? b) && (b <? 256).

Definition wf_bytes (bs : bytes) : Prop := Forall (λ b, is_byte b = true) bs.

(** A continuation byte in the range [lo..=hi]. *)
Definition in_range (lo hi b : Z) : bool := (lo <=? b) && (b <=? hi).
Definition cont (b : Z) : bool := in_range 0x80 0xBF b.

(** Range allowed for the second byte of a three- or four-byte sequence. *)
Definition second3 (b0 b1 : Z) : bool :=
  if b0 =? 0xE0 then in_range 0xA0 0xBF b1
  else if b0 =? 0xED then in_range 0x80 0x9F b1
  else cont b1.

Definition second4 (b0 b1 : Z) : bool :=
  if b0 =? 0xF0 then in_range 0x90 0xBF b1
  else if b0 =? 0xF4 then in_range 0x80 0x8F b1
  else cont b1.

Definition join2 (b0 b1 : Z) : Z := (b0 - 0xC0) * 64 + (b1 - 0x80).
Definition join3 (b0 b1 b2 : Z) : Z :=
  (b0 - 0xE0) * 4096 + (b1 - 0x80) * 64 + (b2 - 0x80).
Definition join4 (b0 b1 b2 b3 : Z) : Z :=
  (b0 - 0xF0) * 262144 + (b1 - 0x80) * 4096 + (b2 - 0x80) * 64 + (b3 - 0x80).

Fixpoint utf8_items (bs : bytes) : list (option Z) :=
  match bs with
  | [] => []
  | b0 :: r0 =>
      if b0 <? 0x80 then Some b0 :: utf8_items r0
      else if in_range 0xC2 0xDF b0 then
        match r0 with
        | b1 :: r1 =>
            if cont b1 then Some (join2 b0 b1) :: utf8_items r1
            else None :: utf8_items r0
        | [] => [None]
        end
      else if in_range 0xE0 0xEF b0 then
        match r0 with
        | b1 :: r1 =>
            if second3 b0 b1 then
              match r1 with
              | b2 :: r2 =>
                  if cont b2 then Some (join3 b0 b1 b2) :: utf8_items r2
                  else None :: utf8_items r1
              | [] => [None]
              end
            else None :: utf8_items r0
        | [] => [None]
        end
      else if in_range 0xF0 0xF4 b0 then
        match r0 with
        | b1 :: r1 =>
            if second4 b0 b1 then
              match r1 with
              | b2 :: r2 =>
                  if cont b2 then
                    match r2 with
                    | b3 :: r3 =>
                        if cont b3 then Some (join4 b0 b1 b2 b3) :: utf8_items r3
                        else None :: utf8_items r2
                    | [] => [None]
                    end
                  else None :: utf8_items r1
              | [] => [None]
              end
            else None :: utf8_items r0
        | [] => [None]
        end
      else None :: utf8_items r0
  end.

Fixpoint all_some {A} (l : list (option A)) : option (list A) :=
  match l with
  | [] => Some []
  | x :: l => a ← x; s ← all_some l; Some (a :: s)
  end.

(** [std::str::from_utf8(bs).ok()]. *)
Definition from_utf8 (bs : bytes) : option str := all_some (utf8_items bs).

#[global] Arguments from_utf8 : simpl never.

(** [String::from_utf8_lossy(bs)]: U+FFFD for each ill-formed subpart. *)
Definition from_utf8_lossy (bs : bytes) : str :=
  map (default 0xFFFD) (utf8_items bs).

Definition utf8_char (c : Z) : bytes :=
  if c <? 0x80 then [c]
  else if c <? 0x800 then [0xC0 + c / 64; 0x80 + c mod 64]
  else if c <? 0x10000 then
    [0xE0 + c / 4096; 0x80 + (c / 64) mod 64; 0x80 + c mod 64]
  else
    [0xF0 + c / 262144; 0x80 + (c / 4096) mod 64; 0x80 + (c / 64) mod 64;
     0x80 + c mod 64].

(** [str::as_bytes]. *)
Definition as_bytes (s : str) : bytes := s ≫= utf8_char.

(** [char::len_utf8]. *)
Definition len_utf8 (c : Z) : nat := length (utf8_char c).

(** ** Decoding inverts encoding, and encoding inverts decoding *)

Ltac unfold_ranges :=
  unfold second3, second4 in *;
  unfold scalar, is_byte, cont, in_range, join2, join3, join4 in *.

(** Split every boolean test of the goal and of the hypotheses. *)
Ltac split_ifs :=
  repeat (case_match; try done);
  repeat match goal with
  | H : (_ && _) = true |- _ => apply andb_true_iff in H as [? ?]
  | H : (_ || _) = true |- _ => apply orb_true_iff in H
  end.

Lemma div_mod_64 c : c = 64 * (c / 64) + c mod 64 ∧ 0 <= c mod 64 < 64.
Proof.
  pose proof (Z.div_mod c 64 ltac:(lia)).
  pose proof (Z.mod_pos_bound c 64 ltac:(lia)). lia.
Qed.

Lemma utf8_items_char c rest :
  scalar c = true →
  utf8_items (utf8_char c ++ rest) = Some c :: utf8_items rest.
Proof.
  intros Hc. unfold utf8_char.
  assert (c / 262144 = c / 4096 / 64) as -> by (by rewrite Z.div_div by lia).
  assert (c / 4096 = c / 64 / 64) as -> by (by rewrite Z.div_div by lia).
  destruct (div_mod_64 c) as [Hq Hr], (div_mod_64 (c / 64)) as [Hq2 Hr2],
    (div_mod_64 (c / 64 / 64)) as [Hq3 Hr3].
  generalize dependent (c mod 64). generalize dependent ((c / 64) mod 64).
  generalize dependent ((c / 64 / 64) mod 64).
  intros r3 Hq3 Hr3 r2 Hq2 Hr2 r1 Hq1 Hr1.
  generalize dependent (c / 64 / 64 / 64). intros q4 Hq3.
  generalize dependent (c / 64 / 64). intros q3 Hq2 Hq3.
  generalize dependent (c / 64). intros q2 Hq1 Hq2.
  unfold scalar in Hc.
  destruct (c <? 0x80) eqn:E1; [cbn; by rewrite E1|].
  destruct (c <? 0x800) eqn:E2; [|destruct (c <? 0x10000) eqn:E3];
    cbn [app utf8_items]; unfold_ranges;
    repeat (case_match; try lia); do 2 f_equal; lia.
Qed.

Lemma utf8_items_as_bytes s :
  wf_str s → utf8_items (as_bytes s) = Some <$> s.
Proof.
  induction 1 as [|c s Hc _ IH]; [done|].
  cbn. unfold as_bytes in *. cbn. by rewrite utf8_items_char, IH.
Qed.

Lemma all_some_Some {A} (s : list A) : all_some (Some <$> s) = Some s.
Proof. induction s as [|a s IH]; [done|]. cbn in *. by rewrite IH. Qed.

Lemma from_utf8_as_bytes s : wf_str s → from_utf8 (as_bytes s) = Some s.
Proof. intros. unfold from_utf8. by rewrite utf8_items_as_bytes, all_some_Some. Qed.

Lemma lossy_as_bytes s : wf_str s → from_utf8_lossy (as_bytes s) = s.
Proof.
  intros. unfold from_utf8_lossy. rewrite utf8_items_as_bytes by done.
  rewrite <-list_fmap_compose. apply list_fmap_id.
Qed.

Lemma div_64_add x y : 0 <= y < 64 → (x * 64 + y) / 64 = x.
Proof. intros. symmetry. apply Z.div_unique with y; lia. Qed.

Lemma mod_64_add x y : 0 <= y < 64 → (x * 64 + y) mod 64 = y.
Proof. intros. symmetry. apply Z.mod_unique with x; lia. Qed.

Lemma utf8_char_join2 b0 b1 :
  in_range 0xC2 0xDF b0 = true → cont b1 = true →
  scalar (join2 b0 b1) = true ∧ utf8_char (join2 b0 b1) = [b0; b1].
Proof.
  unfold_ranges. intros. split; [lia|]. unfold utf8_char.
  repeat (case_match; try lia).
  rewrite div_64_add, mod_64_add by lia. repeat f_equal; lia.
Qed.

Lemma utf8_char_join3 b0 b1 b2 :
  in_range 0xE0 0xEF b0 = true → second3 b0 b1 = true → cont b2 = true →
  scalar (join3 b0 b1 b2) = true ∧ utf8_char (join3 b0 b1 b2) = [b0; b1; b2].
Proof.
  unfold_ranges. intros.
  assert (128 <= b1 <= 191) by (repeat case_match; lia).
  split; [repeat case_match; lia|]. unfold utf8_char.
  assert (∀ x, x / 4096 = x / 64 / 64) as E by (intros; by rewrite Z.div_div by lia).
  rewrite E.
  replace ((b0 - 224) * 4096 + (b1 - 128) * 64 + (b2 - 128))
    with (((b0 - 224) * 64 + (b1 - 128)) * 64 + (b2 - 128)) by lia.
  repeat (case_match; try lia);
  rewrite ?div_64_add, ?mod_64_add by lia; repeat f_equal; lia.
Qed.

Lemma utf8_char_join4 b0 b1 b2 b3 :
  in_range 0xF0 0xF4 b0 = true → second4 b0 b1 = true →
  cont b2 = true → cont b3 = true →
  scalar (join4 b0 b1 b2 b3) = true ∧
  utf8_char (join4 b0 b1 b2 b3) = [b0; b1; b2; b3].
Proof.
  unfold_ranges. intros.
  assert (128 <= b1 <= 191) by (repeat case_match; lia).
  split; [repeat case_match; lia|]. unfold utf8_char.
  assert (∀ x, x / 4096 = x / 64 / 64) as E by (intros; by rewrite Z.div_div by lia).
  assert (∀ x, x / 262144 = x / 64 / 64 / 64) as E'
    by (intros; by rewrite !Z.div_div by lia).
  rewrite E, E'.
  replace ((b0 - 240) * 262144 + (b1 - 128) * 4096 + (b2 - 128) * 64 + (b3 - 128))
    with ((((b0 - 240) * 64 + (b1 - 128)) * 64 + (b2 - 128)) * 64 + (b3 - 128)) by lia.
  repeat (case_match; try lia);
  rewrite ?div_64_add, ?mod_64_add by lia; repeat f_equal; lia.
Qed.

(** One step of the decoder: a scalar value and the bytes that encode it, or
    an ill-formed subpart. *)
Lemma utf8_items_step b0 r0 :
  wf_bytes (b0 :: r0) →
  (∃ c rest, utf8_items (b0 :: r0) = Some c :: utf8_items rest ∧ scalar c = true
     ∧ b0 :: r0 = utf8_char c ++ rest) ∨
  (∃ rest, utf8_items (b0 :: r0) = None :: utf8_items rest).
Proof.
  intros [Hb0 _]%Forall_cons. cbn [utf8_items].
  destruct (b0 <? 0x80) eqn:E.
  { left. exists b0, r0. unfold utf8_char. rewrite E. unfold_ranges.
    split_and!; [done|lia|done]. }
  repeat (case_match; try (right; (by eexists) || (by exists [])));
  simplify_eq; left; do 2 eexists; (split_and!; [reflexivity|..]);
  match goal with
  | |- context [join2 ?a ?b] => destruct (utf8_char_join2 a b) as [? Hj]
  | |- context [join3 ?a ?b ?c] => destruct (utf8_char_join3 a b c) as [? Hj]
  | |- context [join4 ?a ?b ?c ?d] => destruct (utf8_char_join4 a b c d) as [? Hj]
  end; rewrite ?Hj; done.
Qed.

(** Bytes accepted by [from_utf8] are exactly the encoding of the string it
    returns, and every char of that string is a scalar value. *)
Lemma from_utf8_Some bs s :
  wf_bytes bs → from_utf8 bs = Some s → as_bytes s = bs ∧ wf_str s.
Proof.
  unfold from_utf8. revert s.
  induction bs as [[|b0 r0] IH] using list_len_ind; intros s Hwf Hs.
  { cbn in Hs. simplify_eq. by split; [|constructor]. }
  destruct (utf8_items_step b0 r0 Hwf) as [(c & rest & Hi & Hc & Hr)|[rest Hi]];
    rewrite Hi in Hs; cbn in Hs; [|done].
  destruct (all_some (utf8_items rest)) as [s'|] eqn:E; cbn in Hs; simplify_eq.
  rewrite Hr in Hwf. apply Forall_app in Hwf as [_ Hwf].
  destruct (IH rest) with s' as [IHb IHs]; [|done..|].
  { apply (f_equal length) in Hr. rewrite length_app in Hr. cbn in *.
    unfold utf8_char in Hr. repeat case_match; cbn in *; lia. }
  split; [|by constructor]. cbn. unfold as_bytes in *. by rewrite Hr, IHb.
Qed.

Lemma as_bytes_app a b : as_bytes (a ++ b) = as_bytes a ++ as_bytes b.
Proof. apply bind_app. Qed.

(** Well-formed strings are determined by their bytes. *)
Lemma as_bytes_inj a b : wf_str a → wf_str b → as_bytes a = as_bytes b → a = b.
Proof.
  intros Ha Hb E. apply (f_equal from_utf8) in E.
  rewrite !from_utf8_as_bytes in E by done. congruence.
Qed.
