(* ===== verification/Strs.v ===== *)
(** * The [str] operations of the standard library the sources use

    Case mapping, prefixes, lines, trimming, byte offsets and slicing, decimal
    printing and parsing. Operations that can panic return [option]. *)

From S2P Require Import Prelude Utf8.

(** ** Case *)

Definition ascii_lower (c : char) : char :=
  if (65 <=? c) && (c <=? 90) then c + 32 else c.

Definition to_ascii_lowercase (s : str) : str := ascii_lower <$> s.

Lemma ascii_lower_idem c : ascii_lower (ascii_lower c) = ascii_lower c.
Proof. unfold ascii_lower. repeat case_match; lia. Qed.

Lemma to_ascii_lowercase_idem s :
  to_ascii_lowercase (to_ascii_lowercase s) = to_ascii_lowercase s.
Proof.
  unfold to_ascii_lowercase. rewrite <-list_fmap_compose.
  apply list_fmap_ext. intros. apply ascii_lower_idem.
Qed.

Lemma ascii_lower_wf s : wf_str s → wf_str (to_ascii_lowercase s).
Proof.
  intros H. apply Forall_fmap. eapply Forall_impl; [exact H|]. cbn.
  intros c. unfold ascii_lower, scalar. case_match; lia.
Qed.

(** ** Prefixes and substrings *)

(** [s.strip_prefix(p)]. *)
Fixpoint strip_prefix (p s : str) : option str :=
  match p, s with
  | [], _ => Some s
  | a :: p, b :: s => if a =? b then strip_prefix p s else None
  | _ :: _, [] => None
  end.

Lemma strip_prefix_Some p s r : strip_prefix p s = Some r ↔ s = p ++ r.
Proof.
  revert s. induction p as [|a p IH]; intros s; cbn; [naive_solver|].
  destruct s as [|b s]; [naive_solver|].
  destruct (Z.eqb_spec a b); [rewrite IH|]; naive_solver.
Qed.

Lemma strip_prefix_app p r : strip_prefix p (p ++ r) = Some r.
Proof. by apply strip_prefix_Some. Qed.

(** [s.contains(needle)]. *)
Fixpoint contains (needle s : str) : bool :=
  match strip_prefix needle s with
  | Some _ => true
  | None => match s with [] => false | _ :: s => contains needle s end
  end.

Lemma contains_spec needle s :
  contains needle s = true ↔ ∃ a b, s = a ++ needle ++ b.
Proof.
  induction s as [|c s IH]; cbn.
  - destruct (strip_prefix needle []) eqn:E.
    + apply strip_prefix_Some in E. split; [intros _; exists []|]; naive_solver.
    + split; [done|]. intros (a & b & Hab). symmetry in Hab.
      apply app_eq_nil in Hab as [-> [-> ->]%app_eq_nil]. done.
  - destruct (strip_prefix needle (c :: s)) eqn:E.
    + apply strip_prefix_Some in E. split; [intros _; exists []; naive_solver|done].
    + rewrite IH. split; intros (a & b & Hab).
      * exists (c :: a), b. by rewrite Hab.
      * destruct a as [|a0 a]; [|naive_solver].
        change (c :: s = needle ++ b) in Hab.
        apply strip_prefix_Some in Hab. congruence.
Qed.

(** ** Byte offsets *)

(** [s.char_indices()], starting at byte offset [off]. *)
Fixpoint char_indices_from (off : nat) (s : str) : list (nat * char) :=
  match s with
  | [] => []
  | c :: s => (off, c) :: char_indices_from (off + len_utf8 c) s
  end.

Definition char_indices (s : str) : list (nat * char) := char_indices_from 0 s.

(** [&s[idx..]]: [None] is the panic on an offset that is not a char boundary
    or past the end. *)
Fixpoint slice_from (s : str) (idx : nat) : option str :=
  match idx with
  | O => Some s
  | S _ =>
      match s with
      | [] => None
      | c :: s => if (len_utf8 c <=? idx)%nat then slice_from s (idx - len_utf8 c) else None
      end
  end.

Definition byte_len (s : str) : nat := length (as_bytes s).

#[global] Arguments len_utf8 : simpl never.
#[global] Arguments byte_len : simpl never.

Lemma len_utf8_pos c : (0 < len_utf8 c)%nat.
Proof. unfold len_utf8, utf8_char. repeat case_match; cbn; lia. Qed.

Lemma byte_len_cons c s : byte_len (c :: s) = (len_utf8 c + byte_len s)%nat.
Proof. unfold byte_len, as_bytes. cbn. by rewrite length_app. Qed.

Lemma byte_len_snoc p c : byte_len (p ++ [c]) = (byte_len p + len_utf8 c)%nat.
Proof.
  unfold byte_len. rewrite as_bytes_app, length_app. f_equal.
  unfold as_bytes, len_utf8. cbn. by rewrite app_nil_r.
Qed.

(** Slicing at the end of a prefix never panics and drops the prefix. *)
Lemma slice_from_app p s : slice_from (p ++ s) (byte_len p) = Some s.
Proof.
  induction p as [|c p IH]; [by destruct s|].
  rewrite byte_len_cons. pose proof (len_utf8_pos c). cbn.
  destruct (len_utf8 c + byte_len p)%nat as [|k] eqn:E; [lia|].
  rewrite <-E, (proj2 (Nat.leb_le _ _)) by lia.
  by replace (len_utf8 c + byte_len p - len_utf8 c)%nat with (byte_len p) by lia.
Qed.

Lemma char_indices_from_app off p s :
  char_indices_from off (p ++ s) =
  char_indices_from off p ++ char_indices_from (off + byte_len p) s.
Proof.
  revert off. induction p as [|c p IH]; intros off; cbn.
  - unfold byte_len. by rewrite Nat.add_0_r.
  - rewrite IH, byte_len_cons. do 3 f_equal. lia.
Qed.

(** ** Lines and trimming *)

Definition strip_cr (s : str) : str :=
  match last s with Some 13 => removelast s | _ => s end.

(** [s.lines()]: lines end in LF or CRLF; no empty last line. [cur] holds the
    chars of the current line, reversed. *)
Fixpoint lines_from (cur s : str) : list str :=
  match s with
  | [] => if is_empty cur then [] else [rev cur]
  | c :: s =>
      if c =? 10 then strip_cr (rev cur) :: lines_from [] s
      else lines_from (c :: cur) s
  end.

Definition lines (s : str) : list str := lines_from [] s.

(** [char::is_whitespace] (the Unicode White_Space property). *)
Definition is_whitespace (c : char) : bool :=
  ((9 <=? c) && (c <=? 13)) || (c =? 32) || (c =? 0x85) || (c =? 0xA0)
  || (c =? 0x1680) || ((0x2000 <=? c) && (c <=? 0x200A)) || (c =? 0x2028)
  || (c =? 0x2029) || (c =? 0x202F) || (c =? 0x205F) || (c =? 0x3000).

Fixpoint trim_start (s : str) : str :=
  match s with
  | c :: s' => if is_whitespace c then trim_start s' else s
  | [] => []
  end.

(** [s.trim()]. *)
Definition trim (s : str) : str := rev (trim_start (rev (trim_start s))).

Lemma trim_start_nil s : trim_start s = [] ↔ Forall (λ c, is_whitespace c = true) s.
Proof.
  induction s as [|c s IH]; cbn; [by split|]. rewrite Forall_cons.
  destruct (is_whitespace c); [|naive_solver]. rewrite IH. naive_solver.
Qed.

(** Nothing is left of a string only when it is blank. *)
Lemma trim_nil s : trim s = [] → Forall (λ c, is_whitespace c = true) s.
Proof.
  unfold trim. intros H. apply (f_equal (@rev Z)) in H. rewrite rev_involutive in H.
  apply trim_start_nil, Forall_rev in H. rewrite rev_involutive in H.
  induction s as [|c s IH]; [constructor|]. cbn in H.
  destruct (is_whitespace c) eqn:Hc; [constructor; auto|].
  apply Forall_cons in H as [Hc' _]. congruence.
Qed.

Lemma lines_from_line cur l s :
  10 ∉ l → lines_from cur (l ++ 10 :: s) = strip_cr (rev cur ++ l) :: lines s.
Proof.
  revert cur. induction l as [|c l IH]; intros cur Hl; cbn.
  - by rewrite app_nil_r.
  - apply not_elem_of_cons in Hl as [Hc Hl].
    rewrite (proj2 (Z.eqb_neq c 10)) by done. rewrite IH by done. cbn.
    by rewrite <-app_assoc.
Qed.

(** A CRLF-terminated line is read back without its terminator. *)
Lemma lines_crlf l s : 10 ∉ l → lines (l ++ 13 :: 10 :: s) = l :: lines s.
Proof.
  intros Hl. unfold lines at 1.
  replace (l ++ 13 :: 10 :: s) with ((l ++ [13]) ++ 10 :: s) by (by rewrite <-app_assoc).
  rewrite lines_from_line by set_solver. cbn. f_equal.
  unfold strip_cr. rewrite last_snoc. by rewrite removelast_last.
Qed.

(** An LF-terminated line, when it does not itself end in CR. *)
Lemma lines_lf l s : 10 ∉ l → last l ≠ Some 13 → lines (l ++ 10 :: s) = l :: lines s.
Proof.
  intros Hl Hcr. unfold lines at 1. rewrite lines_from_line by done.
  cbn. f_equal. unfold strip_cr. repeat case_match; congruence.
Qed.

(** ** Decimal numbers *)

Definition u16_max : Z := 65535.
Definition u64_max : Z := 18446744073709551615.

(** [n.to_string()] for an unsigned integer; the fuel is the binary size. *)
Fixpoint dec_fuel (fuel : nat) (n : Z) : str :=
  match fuel with
  | O => [48 + n]
  | S fuel => if n <? 10 then [48 + n] else dec_fuel fuel (n / 10) ++ [48 + n mod 10]
  end.

Definition dec (n : Z) : str := dec_fuel (Z.to_nat (Z.log2 n)) n.

Definition digit_of (c : char) : option Z :=
  if (48 <=? c) && (c <=? 57) then Some (c - 48) else None.

Fixpoint digits_value (acc : Z) (s : str) : option Z :=
  match s with
  | [] => Some acc
  | c :: s => d ← digit_of c; digits_value (acc * 10 + d) s
  end.

(** [s.parse::<u64>().ok()]: an optional plus sign, then at least one digit;
    a value that does not fit is an error. *)
Definition parse_u64 (s : str) : option Z :=
  let ds := match s with 43 :: (_ :: _) as r => tail r | _ => s end in
  if is_empty ds then None
  else v ← digits_value 0 ds; if v <=? u64_max then Some v else None.

Lemma digits_value_app acc s t :
  digits_value acc (s ++ t) = v ← digits_value acc s; digits_value v t.
Proof.
  revert acc. induction s as [|c s IH]; intros acc; [done|].
  cbn. destruct (digit_of c); cbn; auto.
Qed.

Lemma digit_of_add d : 0 <= d < 10 → digit_of (48 + d) = Some d.
Proof. intros. unfold digit_of. case_match; [f_equal; lia|lia]. Qed.

Lemma digits_value_dec_fuel fuel n :
  0 <= n < 10 * 2 ^ Z.of_nat fuel → digits_value 0 (dec_fuel fuel n) = Some n.
Proof.
  revert n. induction fuel as [|fuel IH]; intros n Hn.
  - cbn -[digit_of Z.add]. rewrite digit_of_add by (cbn in Hn; lia). done.
  - cbn [dec_fuel]. destruct (Z.ltb_spec n 10).
    + cbn -[digit_of Z.add]. by rewrite digit_of_add by lia.
    + rewrite Nat2Z.inj_succ, Z.pow_succ_r in Hn by lia.
      pose proof (Z.div_mod n 10 ltac:(lia)). pose proof (Z.mod_pos_bound n 10 ltac:(lia)).
      rewrite digits_value_app, IH by (split; [apply Z.div_pos; lia|
        apply Z.div_lt_upper_bound; lia]).
      cbn -[digit_of Z.add]. rewrite digit_of_add by lia. cbn. f_equal. lia.
Qed.

(** The fuel of [dec] is enough. *)
Lemma dec_fuel_enough n : 0 <= n → 0 <= n < 10 * 2 ^ Z.of_nat (Z.to_nat (Z.log2 n)).
Proof.
  intros Hn. split; [done|]. rewrite Z2Nat.id by apply Z.log2_nonneg.
  destruct (decide (n = 0)) as [->|]; [done|].
  pose proof (Z.log2_spec n ltac:(lia)) as [_ H].
  rewrite Z.pow_succ_r in H by apply Z.log2_nonneg. lia.
Qed.

Lemma digits_value_dec n : 0 <= n → digits_value 0 (dec n) = Some n.
Proof. intros Hn. by apply digits_value_dec_fuel, dec_fuel_enough. Qed.

Lemma dec_fuel_digit fuel n : 0 <= n < 10 * 2 ^ Z.of_nat fuel →
  Forall (λ c, 48 <= c <= 57) (dec_fuel fuel n) ∧ dec_fuel fuel n ≠ [].
Proof.
  revert n. induction fuel as [|fuel IH]; intros n Hn; cbn [dec_fuel].
  - cbn in Hn. split; [constructor; [lia|constructor]|done].
  - destruct (Z.ltb_spec n 10).
    + split; [constructor; [lia|constructor]|done].
    + rewrite Nat2Z.inj_succ, Z.pow_succ_r in Hn by lia.
      pose proof (Z.mod_pos_bound n 10 ltac:(lia)).
      destruct (IH (n / 10)) as [IH1 IH2];
        [split; [apply Z.div_pos; lia|apply Z.div_lt_upper_bound; lia]|].
      split; [apply Forall_app; split; [done|constructor; [lia|constructor]]|].
      intros E. by apply app_eq_nil in E as [_ ?].
Qed.

Lemma dec_digits n : 0 <= n → Forall (λ c, 48 <= c <= 57) (dec n) ∧ dec n ≠ [].
Proof. intros Hn. by apply dec_fuel_digit, dec_fuel_enough. Qed.

(** Printing then parsing is the identity on [u64]. *)
Lemma parse_u64_dec n : 0 <= n <= u64_max → parse_u64 (dec n) = Some n.
Proof.
  intros Hn. destruct (dec_digits n) as [Hd Hne]; [lia|].
  unfold parse_u64. destruct (dec n) as [|c s] eqn:E; [done|].
  assert (c ≠ 43) by (apply Forall_inv in Hd; lia).
  assert (digits_value 0 (c :: s) = Some n) as Hv
    by (rewrite <-E; apply digits_value_dec; lia).
  replace (match c :: s with 43 :: (_ :: _) as r => tail r | _ => c :: s end)
    with (c :: s) by (repeat case_match; congruence).
  cbn [is_empty]. rewrite Hv. cbn. by rewrite (proj2 (Z.leb_le _ _)) by lia.
Qed.
