(* ===== verification/Json.v ===== *)
(** * JSON values and texts

    The values the wire formats are made of, and the interface [SerdeJson] to
    the [serde_json] crate: printing a value, reading a text, and what the
    sidecar relies on. *)

From S2P Require Import Prelude Utf8 Strs.

#[local] Set Warnings "-register-all".

(** A number is an integer that fits 64 bits, signed or unsigned, or else kept
    as its literal. Object members stay in order, duplicates included. *)
Inductive json :=
| JNull
| JBool (b : bool)
| JInt (n : Z)
| JFloat (literal : str)
| JStr (s : str)
| JArr (l : list json)
| JObj (kvs : list (str * json)).

Definition int_ok (n : Z) : bool := (- 2 ^ 63 <=? n) && (n <=? u64_max).

(** The values the program builds: valid strings, 64-bit integers, no floats. *)
Fixpoint wf_json (v : json) : Prop :=
  match v with
  | JNull | JBool _ => True
  | JInt n => int_ok n = true
  | JFloat _ => False
  | JStr s => wf_str s
  | JArr l => foldr (λ x P, wf_json x ∧ P) True l
  | JObj kvs => foldr (λ '(k, x) P, (wf_str k ∧ wf_json x) ∧ P) True kvs
  end.

Lemma wf_arr l : wf_json (JArr l) ↔ Forall wf_json l.
Proof.
  cbn. induction l as [|x l IH]; cbn; [by split|]. by rewrite Forall_cons, IH.
Qed.

Lemma wf_obj kvs : wf_json (JObj kvs) ↔ Forall (λ kv, wf_str kv.1 ∧ wf_json kv.2) kvs.
Proof.
  cbn. induction kvs as [|[k x] kvs IH]; cbn; [by split|]. by rewrite Forall_cons, IH.
Qed.

(** Induction through the nested lists. *)
Section induction.

Context (P : json → Prop).
Hypothesis Hnull : P JNull.
Hypothesis Hbool : ∀ b, P (JBool b).
Hypothesis Hint : ∀ n, P (JInt n).
Hypothesis Hfloat : ∀ s, P (JFloat s).
Hypothesis Hstr : ∀ s, P (JStr s).
Hypothesis Harr : ∀ l, Forall P l → P (JArr l).
Hypothesis Hobj : ∀ kvs, Forall (λ kv, P kv.2) kvs → P (JObj kvs).

Fixpoint json_nested_ind (v : json) : P v :=
  match v with
  | JNull => Hnull
  | JBool b => Hbool b
  | JInt n => Hint n
  | JFloat s => Hfloat s
  | JStr s => Hstr s
  | JArr l =>
      Harr l ((fix go l : Forall P l :=
                 match l with
                 | [] => Forall_nil_2 _
                 | x :: l => Forall_cons_2 _ _ _ (json_nested_ind x) (go l)
                 end) l)
  | JObj kvs =>
      Hobj kvs ((fix go l : Forall (λ kv, P kv.2) l :=
                   match l with
                   | [] => Forall_nil_2 _
                   | kv :: l =>
                       Forall_cons_2 _ _ _ (let '(k, x) as kv := kv return P kv.2
                                            in json_nested_ind x) (go l)
                   end) kvs)
  end.

End induction.

(** How deep arrays and objects nest. *)
Fixpoint depth (v : json) : nat :=
  match v with
  | JArr l => S (foldr (λ x n, depth x `max` n)%nat 0%nat l)
  | JObj kvs => S (foldr (λ '(k, x) n, depth x `max` n)%nat 0%nat kvs)
  | _ => 0
  end.

Lemma depth_arr l n : Forall (λ x, depth x ≤ n)%nat l → (depth (JArr l) ≤ S n)%nat.
Proof. intros Hl. cbn. apply le_n_S. induction Hl; cbn; lia. Qed.

Lemma depth_obj kvs n : Forall (λ kv, depth kv.2 ≤ n)%nat kvs → (depth (JObj kvs) ≤ S n)%nat.
Proof. intros Hl. cbn. apply le_n_S. induction Hl as [|[k x] kvs Hx _ IH]; cbn in *; lia. Qed.

(** The default recursion limit of the reader, 128, admits 127 levels of arrays
    and objects. *)
Definition depth_limit : nat := 127.

(** [serde_json]: [to_string], and the value a text denotes for the derived
    decoders. A printed value within the depth limit reads back; its text is a
    valid string in which control characters are escaped, so it is one line; a
    blank text is not a value. *)
Class SerdeJson := {
  to_string : json → str;
  from_str : str → option json;
  from_to_string v : wf_json v → (depth v ≤ depth_limit)%nat →
    from_str (to_string v) = Some v;
  to_string_wf v : wf_json v → wf_str (to_string v);
  to_string_line v c : wf_json v → c ∈ to_string v → 32 <= c;
  from_str_blank s v : trim s = [] → from_str s ≠ Some v;
}.
