(* ===== verification/JsonText.v ===== *)
(** * A reference codec for JSON texts (RFC 8259)

    A compact printer and a reader, with the proof that reading inverts printing.
    It satisfies the interface [SerdeJson], and lets the wire formats be run on
    the texts of the sources' own tests. *)

From S2P Require Import Prelude Utf8 Strs Json.

(** ** Printing *)

Definition hex (d : Z) : char := if d <? 10 then 48 + d else 87 + d.

Definition esc_char (c : char) : str :=
  if c =? 34 then [92; 34]
  else if c =? 92 then [92; 92]
  else if c =? 8 then [92; 98]
  else if c =? 9 then [92; 116]
  else if c =? 10 then [92; 110]
  else if c =? 12 then [92; 102]
  else if c =? 13 then [92; 114]
  else if c <? 32 then [92; 117; 48; 48; hex (c / 16); hex (c mod 16)]
  else [c].

Definition print_str (s : str) : str := 34 :: (s ≫= esc_char) ++ [34].

Definition print_int (n : Z) : str := if n <? 0 then 45 :: dec (- n) else dec n.

Fixpoint commas (l : list str) : str :=
  match l with
  | [] => []
  | [x] => x
  | x :: l => x ++ 44 :: commas l
  end.

Fixpoint print (v : json) : str :=
  match v with
  | JNull => s!"null"
  | JBool true => s!"true"
  | JBool false => s!"false"
  | JInt n => print_int n
  | JFloat s => s
  | JStr s => print_str s
  | JArr l => 91 :: commas (map print l) ++ [93]
  | JObj kvs => 123 :: commas (map (λ '(k, x), print_str k ++ 58 :: print x) kvs) ++ [125]
  end.

(** ** Reading *)

Definition is_ws (c : char) : bool := (c =? 32) || (c =? 9) || (c =? 10) || (c =? 13).

Fixpoint skip_ws (s : str) : str :=
  match s with c :: s' => if is_ws c then skip_ws s' else s | [] => [] end.

Definition unhex (c : char) : option Z :=
  if (48 <=? c) && (c <=? 57) then Some (c - 48)
  else if (97 <=? c) && (c <=? 102) then Some (c - 87)
  else if (65 <=? c) && (c <=? 70) then Some (c - 55)
  else None.

Definition unhex4 (a b c d : char) : option Z :=
  a ← unhex a; b ← unhex b; c ← unhex c; d ← unhex d;
  Some (((a * 16 + b) * 16 + c) * 16 + d).

Definition unesc (c : char) : option char :=
  if (c =? 34) || (c =? 92) || (c =? 47) then Some c
  else if c =? 98 then Some 8
  else if c =? 116 then Some 9
  else if c =? 110 then Some 10
  else if c =? 102 then Some 12
  else if c =? 114 then Some 13
  else None.

(** The characters of a string up to the closing quote, and what follows. *)
Fixpoint p_chars (s : str) : option (str * str) :=
  match s with
  | [] => None
  | c :: s1 =>
      if c =? 34 then Some ([], s1)
      else if c =? 92 then
        match s1 with
        | e :: s2 =>
            if e =? 117 then
              match s2 with
              | a :: b :: c :: d :: s3 =>
                  u ← unhex4 a b c d;
                  if (0xD800 <=? u) && (u <? 0xDC00) then
                    match s3 with
                    | 92 :: 117 :: a :: b :: c :: d :: s4 =>
                        w ← unhex4 a b c d;
                        if (0xDC00 <=? w) && (w <? 0xE000) then
                          '(r, s5) ← p_chars s4;
                          Some (0x10000 + (u - 0xD800) * 1024 + (w - 0xDC00) :: r, s5)
                        else None
                    | _ => None
                    end
                  else if (0xDC00 <=? u) && (u <? 0xE000) then None
                  else '(r, s4) ← p_chars s3; Some (u :: r, s4)
              | _ => None
              end
            else x ← unesc e; '(r, s3) ← p_chars s2; Some (x :: r, s3)
        | [] => None
        end
      else if c <? 32 then None
      else '(r, s2) ← p_chars s1; Some (c :: r, s2)
  end.

(** The rest of [s] behind the character [c]. *)
Definition expect (c : char) (s : str) : option str :=
  match s with d :: r => if d =? c then Some r else None | [] => None end.

Definition is_digit (c : char) : bool := (48 <=? c) && (c <=? 57).

Fixpoint digits (s : str) : str * str :=
  match s with
  | c :: s' => if is_digit c then let '(d, r) := digits s' in (c :: d, r) else ([], s)
  | [] => ([], [])
  end.

(** A fraction and an exponent, if there are any; [None] if malformed. *)
Definition p_frac (s : str) : option (str * str) :=
  match expect 46 s with
  | Some s' => let '(d, r) := digits s' in if is_empty d then None else Some (46 :: d, r)
  | None => Some ([], s)
  end.

Definition p_exp (s : str) : option (str * str) :=
  match s with
  | c :: s' =>
      if (c =? 101) || (c =? 69) then
        let '(sign, s') := match expect 43 s', expect 45 s' with
                           | Some r, _ => ([43], r)
                           | None, Some r => ([45], r)
                           | None, None => ([], s')
                           end in
        let '(d, r) := digits s' in
        if is_empty d then None else Some (c :: sign ++ d, r)
      else Some ([], s)
  | [] => Some ([], [])
  end.

Definition leading_zero (ds : str) : bool :=
  match ds with c :: _ :: _ => c =? 48 | _ => false end.

Definition p_number (s : str) : option (json * str) :=
  let '(neg, s1) := match expect 45 s with Some r => (true, r) | None => (false, s) end in
  let '(ds, s2) := digits s1 in
  if is_empty ds || leading_zero ds then None
  else
      '(frac, s3) ← p_frac s2;
      '(exp, s4) ← p_exp s3;
      n ← digits_value 0 ds;
      let n := if (neg : bool) then - n else n in
      let literal := (if neg then [45] else []) ++ ds ++ frac ++ exp in
      Some (if is_empty frac && is_empty exp && int_ok n then JInt n else JFloat literal, s4).

Fixpoint p_value (fuel : nat) (s : str) : option (json * str) :=
  match fuel with
  | O => None
  | S fuel =>
      let s := skip_ws s in
      match s with
      | [] => None
      | c :: s' =>
          if c =? 34 then '(x, r) ← p_chars s'; Some (JStr x, r)
          else if c =? 91 then
            match expect 93 (skip_ws s') with
            | Some r => Some (JArr [], r)
            | None => '(l, r) ← p_items fuel s'; Some (JArr l, r)
            end
          else if c =? 123 then
            match expect 125 (skip_ws s') with
            | Some r => Some (JObj [], r)
            | None => '(l, r) ← p_members fuel s'; Some (JObj l, r)
            end
          else if c =? 110 then r ← strip_prefix (s!"null") s; Some (JNull, r)
          else if c =? 116 then r ← strip_prefix (s!"true") s; Some (JBool true, r)
          else if c =? 102 then r ← strip_prefix (s!"false") s; Some (JBool false, r)
          else p_number s
      end
  end
with p_items (fuel : nat) (s : str) : option (list json * str) :=
  match fuel with
  | O => None
  | S fuel =>
      '(v, r) ← p_value fuel s;
      match skip_ws r with
      | c :: r =>
          if c =? 44 then '(vs, r) ← p_items fuel r; Some (v :: vs, r)
          else if c =? 93 then Some ([v], r)
          else None
      | [] => None
      end
  end
with p_members (fuel : nat) (s : str) : option (list (str * json) * str) :=
  match fuel with
  | O => None
  | S fuel =>
      r ← expect 34 (skip_ws s);
      '(k, r) ← p_chars r;
      r ← expect 58 (skip_ws r);
      '(v, r) ← p_value fuel r;
      match skip_ws r with
      | c :: r =>
          if c =? 44 then '(vs, r) ← p_members fuel r; Some ((k, v) :: vs, r)
          else if c =? 125 then Some ([(k, v)], r)
          else None
      | [] => None
      end
  end.

(** A whole text: a value and nothing else. Each step of the reader takes a
    character, so the length of the text is fuel enough. *)
Definition read (s : str) : option json :=
  '(v, r) ← p_value (S (length s)) s;
  if is_empty (skip_ws r) then Some v else None.

Example read_example :
  read (s!" [ 1, -20 , 1.5e3, true,{} ]") =
  Some (JArr [JInt 1; JInt (-20); JFloat (s!"1.5e3"); JBool true; JObj []]).
Proof. vm_compute. reflexivity. Qed.

Example read_escapes :
  read ([34; 92; 117] ++ s!"d83d" ++ [92; 117] ++ s!"de00" ++ [92] ++ s!"n" ++ [34]) =
  Some (JStr [0x1F600; 10]).
Proof. vm_compute. reflexivity. Qed.

(** ** Reading inverts printing *)

Lemma unhex_hex d : 0 <= d < 16 → unhex (hex d) = Some d.
Proof.
  intros Hd. unfold unhex, hex. destruct (Z.ltb_spec d 10).
  - rewrite (proj2 (Z.leb_le _ _)), (proj2 (Z.leb_le _ _)) by lia. cbn. f_equal. lia.
  - destruct (Z.leb_spec 48 (87 + d)); [|lia]. destruct (Z.leb_spec (87 + d) 57); [lia|].
    cbn. rewrite (proj2 (Z.leb_le _ _)), (proj2 (Z.leb_le _ _)) by lia. cbn. f_equal. lia.
Qed.

Lemma unhex4_control c : 0 <= c < 32 → unhex4 48 48 (hex (c / 16)) (hex (c mod 16)) = Some c.
Proof.
  intros Hc. pose proof (Z.mod_pos_bound c 16 ltac:(lia)).
  assert (0 <= c / 16 < 16) by (split; [apply Z.div_pos|apply Z.div_lt_upper_bound]; lia).
  unfold unhex4. rewrite !unhex_hex by done. cbn. f_equal.
  pose proof (Z.div_mod c 16). lia.
Qed.

(** One printed character is read as itself. *)
Lemma p_chars_esc c s :
  scalar c = true →
  p_chars (esc_char c ++ s) = '(r, s') ← p_chars s; Some (c :: r, s').
Proof.
  intros Hc. assert (0 <= c) by (unfold scalar in Hc; lia). unfold esc_char.
  repeat match goal with
  | |- context [if c =? ?k then _ else _] =>
      destruct (Z.eqb_spec c k) as [->|]; [reflexivity|]
  end.
  destruct (Z.ltb_spec c 32).
  - cbn [app p_chars]. change (92 =? 34) with false. change (92 =? 92) with true.
    change (117 =? 117) with true. cbv iota. rewrite unhex4_control by lia.
    cbn [mbind option_bind]. destruct (Z.leb_spec 0xD800 c); [lia|]. cbn [andb].
    destruct (Z.leb_spec 0xDC00 c); [lia|]. done.
  - cbn [app p_chars]. rewrite (proj2 (Z.eqb_neq c 34)), (proj2 (Z.eqb_neq c 92)) by done.
    by rewrite (proj2 (Z.ltb_ge c 32)).
Qed.

Lemma p_chars_print s rest :
  wf_str s → p_chars ((s ≫= esc_char) ++ 34 :: rest) = Some (s, rest).
Proof.
  induction 1 as [|c s Hc _ IH]; [done|]. cbn [mbind list_bind].
  rewrite <-app_assoc, p_chars_esc by done. by rewrite IH.
Qed.

(** What may follow a number. *)
Definition stops (s : str) : bool :=
  match s with
  | [] => true
  | c :: _ => negb (is_digit c || (c =? 46) || (c =? 101) || (c =? 69))
  end.

Lemma digits_app ds rest :
  Forall (λ c, 48 <= c <= 57) ds → stops rest = true → digits (ds ++ rest) = (ds, rest).
Proof.
  intros Hd Hr. induction Hd as [|c ds Hc _ IH]; cbn.
  - destruct rest as [|c rest]; [done|]. cbn in *. by destruct (is_digit c).
  - unfold is_digit. rewrite (proj2 (Z.leb_le _ _)), (proj2 (Z.leb_le _ _)) by lia.
    cbn. by rewrite IH.
Qed.

Lemma expect_ne c s : head s ≠ Some c → expect c s = None.
Proof. destruct s as [|d s]; cbn; [done|]. destruct (Z.eqb_spec d c); congruence. Qed.

Lemma stops_frac rest : stops rest = true → p_frac rest = Some ([], rest).
Proof.
  intros H. unfold p_frac. rewrite expect_ne; [done|].
  destruct rest as [|c rest]; [done|]. intros [= ->]. done.
Qed.

Lemma stops_exp rest : stops rest = true → p_exp rest = Some ([], rest).
Proof.
  intros H. destruct rest as [|c rest]; [done|]. unfold p_exp. cbn in H.
  destruct (c =? 101), (c =? 69), (is_digit c), (c =? 46); done.
Qed.

Lemma dec_fuel_leading fuel n :
  0 <= n < 10 * 2 ^ Z.of_nat fuel → leading_zero (dec_fuel fuel n) = false.
Proof.
  intros Hn.
  assert (∀ m k, 1 <= m → 0 <= m < 10 * 2 ^ Z.of_nat k →
    ∃ c s, dec_fuel k m = c :: s ∧ c ≠ 48) as Hhead.
  { clear. intros m k. revert m. induction k as [|k IH]; intros m Hm Hb; cbn [dec_fuel].
    - exists (48 + m), []. split; [done|lia].
    - destruct (Z.ltb_spec m 10); [exists (48 + m), []; split; [done|lia]|].
      rewrite Nat2Z.inj_succ, Z.pow_succ_r in Hb by lia.
      destruct (IH (m / 10)) as (c & s & -> & Hc).
      + apply Z.div_le_lower_bound; lia.
      + split; [apply Z.div_pos; lia|apply Z.div_lt_upper_bound; lia].
      + cbn. by eexists _, _. }
  destruct (decide (n = 0)) as [->|]; [by destruct fuel|].
  destruct (Hhead n fuel) as (c & s & -> & Hc); [lia|done|]. cbn.
  destruct s; [done|]. by apply Z.eqb_neq.
Qed.

(** The digits of a natural number, as [p_number] takes them. *)
Lemma dec_number n :
  0 <= n → is_empty (dec n) || leading_zero (dec n) = false ∧
  (∀ rest, stops rest = true → digits (dec n ++ rest) = (dec n, rest)) ∧
  digits_value 0 (dec n) = Some n ∧ ∃ c s, dec n = c :: s ∧ 48 <= c <= 57.
Proof.
  intros Hn. destruct (dec_digits n Hn) as [Hd Hne]. split_and!.
  - destruct (dec n) eqn:E; [done|]. cbn [is_empty orb]. rewrite <-E.
    by apply dec_fuel_leading, dec_fuel_enough.
  - intros rest Hr. by apply digits_app.
  - by apply digits_value_dec.
  - destruct (dec n) as [|c s]; [done|]. apply Forall_cons in Hd as [Hc _]. eauto.
Qed.

Lemma p_number_print n rest :
  int_ok n = true → stops rest = true → p_number (print_int n ++ rest) = Some (JInt n, rest).
Proof.
  intros Hn Hr. unfold p_number, print_int. destruct (Z.ltb_spec n 0).
  - destruct (dec_number (- n)) as (H1 & H2 & H3 & _); [lia|].
    cbn [app expect]. change (45 =? 45) with true. cbv iota.
    rewrite H2, H1, stops_frac by done. cbn [mbind option_bind].
    rewrite stops_exp by done. cbn [mbind option_bind]. rewrite H3. cbn [mbind option_bind].
    rewrite Z.opp_involutive, Hn. done.
  - destruct (dec_number n) as (H1 & H2 & H3 & c & s & Hc & Hcd); [lia|].
    rewrite expect_ne by (rewrite Hc; cbn; intros [= ->]; lia).
    rewrite H2, H1, stops_frac by done. cbn [mbind option_bind].
    rewrite stops_exp by done. cbn [mbind option_bind]. rewrite H3. cbn [mbind option_bind].
    by rewrite Hn.
Qed.

(** The fuel a value takes. *)
Fixpoint cost (v : json) : nat :=
  match v with
  | JArr l => S (sum_list_with (λ x, S (cost x)) l)
  | JObj kvs => S (sum_list_with (λ '(_, x), S (cost x)) kvs)
  | _ => 1
  end.

Lemma skip_ws_head c s : is_ws c = false → skip_ws (c :: s) = c :: s.
Proof. intros H. cbn. by rewrite H. Qed.

(** Every printed value starts with a visible character that closes nothing. *)
Lemma print_head v :
  wf_json v → ∃ c s, print v = c :: s ∧ is_ws c = false ∧ c ≠ 93 ∧ c ≠ 125 ∧ 32 <= c.
Proof.
  destruct v as [|[]|n|f|s|l|kvs]; intros Hv; try done; try (by eexists _, _).
  cbn. unfold print_int. destruct (Z.ltb_spec n 0); [by eexists _, _|].
  destruct (dec_number n) as (_ & _ & _ & c & s & -> & Hc); [lia|].
  exists c, s. unfold is_ws. split_and!; [done|lia..].
Qed.

Lemma commas_cons x l : l ≠ [] → commas (x :: l) = x ++ 44 :: commas l.
Proof. by destruct l. Qed.

Section round_trip.

(** [Reads v]: enough fuel reads [v] back, whatever follows it. *)
Definition Reads (v : json) : Prop :=
  ∀ fuel rest, (cost v ≤ fuel)%nat → stops rest = true →
    p_value fuel (print v ++ rest) = Some (v, rest).

Lemma p_items_print l fuel rest :
  l ≠ [] → Forall Reads l → Forall wf_json l →
  (sum_list_with (λ x, S (cost x)) l ≤ fuel)%nat →
  p_items fuel (commas (map print l) ++ 93 :: rest) = Some (l, rest).
Proof.
  revert fuel. induction l as [|x l IH]; intros fuel Hne Hr Hwf Hf; [done|].
  apply Forall_cons in Hr as [Hx Hl]. apply Forall_cons in Hwf as [Hwx Hwl]. cbn in Hf.
  destruct fuel as [|fuel]; [lia|]. cbn [p_items]. destruct l as [|y l].
  - cbn [map commas]. rewrite Hx by (done || lia). done.
  - change (map print (x :: y :: l)) with (print x :: map print (y :: l)).
    rewrite commas_cons by done. rewrite <-app_assoc. cbn [app].
    rewrite Hx by (done || lia). cbn [mbind option_bind].
    rewrite skip_ws_head by done. change (44 =? 44) with true. cbv iota.
    rewrite IH by (done || lia). done.
Qed.

Lemma p_members_print kvs fuel rest :
  kvs ≠ [] → Forall (λ kv, Reads kv.2) kvs →
  Forall (λ kv, wf_str kv.1 ∧ wf_json kv.2) kvs →
  (sum_list_with (λ '(_, x), S (cost x)) kvs ≤ fuel)%nat →
  p_members fuel (commas (map (λ '(k, x), print_str k ++ 58 :: print x) kvs) ++ 125 :: rest) =
  Some (kvs, rest).
Proof.
  revert fuel. induction kvs as [|[k x] kvs IH]; intros fuel Hne Hr Hwf Hf; [done|].
  apply Forall_cons in Hr as [Hx Hl]. apply Forall_cons in Hwf as [[Hwk Hwx] Hwl].
  cbn in Hf, Hx, Hwk, Hwx. destruct fuel as [|fuel]; [lia|].
  assert (∀ tl, stops tl = true →
    p_members (S fuel) ((print_str k ++ 58 :: print x) ++ tl) =
    match skip_ws tl with
    | c :: r =>
        if c =? 44 then '(vs, r) ← p_members fuel r; Some ((k, x) :: vs, r)
        else if c =? 125 then Some ([(k, x)], r)
        else None
    | [] => None
    end) as Hstep.
  { intros tl Htl. cbn [p_members]. unfold print_str. cbn [app].
    rewrite skip_ws_head by done. cbn [expect]. change (34 =? 34) with true.
    cbn [mbind option_bind]. rewrite <-!app_assoc. cbn [app].
    rewrite p_chars_print by done. cbn [mbind option_bind].
    rewrite skip_ws_head by done. cbn [expect]. change (58 =? 58) with true.
    cbn [mbind option_bind]. by rewrite Hx by (done || lia). }
  destruct kvs as [|kv kvs].
  - cbn [map commas]. rewrite Hstep by done. done.
  - change (map ?f ((k, x) :: kv :: kvs)) with (f (k, x) :: map f (kv :: kvs)).
    rewrite commas_cons by done. rewrite <-app_assoc, Hstep by done. cbn [app].
    rewrite skip_ws_head by done. change (44 =? 44) with true. cbv iota.
    rewrite IH by (done || lia). done.
Qed.

(** Closes the tests [c =? k] of the dispatch for a character in a range. *)
Ltac neq_tests c :=
  repeat match goal with
  | |- context [c =? ?k] => rewrite (proj2 (Z.eqb_neq c k)) by lia
  end.

Lemma reads_int n : int_ok n = true → Reads (JInt n).
Proof.
  intros Hn fuel rest Hf Hr. destruct fuel as [|fuel]; [cbn in Hf; lia|].
  pose proof (p_number_print n rest Hn Hr) as Hp.
  assert (∃ c s, print_int n ++ rest = c :: s ∧ is_ws c = false ∧ 45 <= c <= 57)
    as (c & s & Hc & Hw & Hcd).
  { unfold print_int in *. destruct (Z.ltb_spec n 0); [by eexists _, _|].
    destruct (dec_number n) as (_ & _ & _ & c & s & -> & Hc); [lia|].
    exists c, (s ++ rest). unfold is_ws. split_and!; [done|lia..]. }
  cbn [print p_value]. rewrite Hc in *. rewrite skip_ws_head by done. neq_tests c. exact Hp.
Qed.

Lemma reads v : wf_json v → Reads v.
Proof.
  induction v as [|b|n|f|s|l IH|kvs IH] using json_nested_ind; intros Hv;
    [..|intros fuel rest Hf Hr|intros fuel rest Hf Hr].
  - intros fuel rest Hf _. by destruct fuel; [cbn in Hf; lia|].
  - intros fuel rest Hf _. destruct fuel; [cbn in Hf; lia|]. by destruct b.
  - by apply reads_int.
  - done.
  - intros fuel rest Hf _. destruct fuel; [cbn in Hf; lia|].
    cbn [print p_value]. unfold print_str. cbn [app]. rewrite skip_ws_head by done.
    change (34 =? 34) with true. cbv iota. rewrite <-app_assoc. cbn [app].
    by rewrite p_chars_print.
  - apply wf_arr in Hv. cbn in Hf. destruct fuel as [|fuel]; [lia|].
    cbn [print p_value app]. rewrite skip_ws_head by done.
    change (91 =? 34) with false. change (91 =? 91) with true. cbv iota.
    rewrite <-app_assoc. cbn [app]. destruct l as [|x l]; [done|].
    rewrite (expect_ne 93).
    + rewrite p_items_print; [done|done| |done|lia].
      apply Forall_forall. intros y Hy. rewrite Forall_forall in IH, Hv. auto.
    + apply Forall_cons in Hv as [Hx _].
      destruct (print_head x Hx) as (c & s & E & Hw & Hc & _).
      destruct l; cbn [map commas]; rewrite E; cbn [app]; rewrite skip_ws_head by done;
        cbn; congruence.
  - apply wf_obj in Hv. cbn in Hf. destruct fuel as [|fuel]; [lia|].
    cbn [print p_value app]. rewrite skip_ws_head by done.
    change (123 =? 34) with false. change (123 =? 91) with false.
    change (123 =? 123) with true. cbv iota.
    rewrite <-app_assoc. cbn [app]. destruct kvs as [|[k x] kvs]; [done|].
    rewrite (expect_ne 125).
    + rewrite p_members_print; [done|done| |done|lia].
      apply Forall_forall. intros y Hy. rewrite Forall_forall in IH, Hv. apply IH; [done|].
      by apply Hv.
    + by destruct kvs.
Qed.

End round_trip.

(** The text of a value is at least as long as the fuel it takes. *)
Lemma commas_length l :
  (length (concat l) + pred (length l) ≤ length (commas l))%nat.
Proof.
  induction l as [|x [|y l] IH]; cbn; rewrite ?app_nil_r; [lia..|].
  rewrite !length_app. cbn in *. rewrite ?length_app in *. cbn in *. lia.
Qed.

Lemma cost_length v : wf_json v → (cost v ≤ length (print v))%nat.
Proof.
  induction v as [|b|n|f|s|l IH|kvs IH] using json_nested_ind; intros Hv.
  - cbn. lia.
  - destruct b; cbn; lia.
  - destruct (print_head (JInt n) Hv) as (c & r & E & _). rewrite E. cbn. lia.
  - done.
  - cbn. lia.
  - apply wf_arr in Hv. cbn [print cost length]. rewrite length_app. cbn [length].
    pose proof (commas_length (map print l)) as Hc. rewrite length_map in Hc.
    assert (sum_list_with (λ x, S (cost x)) l ≤ length (concat (map print l)) + length l)%nat.
    { clear Hc. induction l as [|x l IHl]; cbn; [lia|]. rewrite length_app.
      apply Forall_cons in IH as [IHx IH]. apply Forall_cons in Hv as [Hx Hv].
      specialize (IHx Hx). specialize (IHl IH Hv). lia. }
    lia.
  - apply wf_obj in Hv. cbn [print cost length]. rewrite length_app. cbn [length].
    set (f := λ '(k, x), print_str k ++ 58 :: print x).
    pose proof (commas_length (map f kvs)) as Hc. rewrite length_map in Hc.
    assert (sum_list_with (λ '(_, x), S (cost x)) kvs
            ≤ length (concat (map f kvs)) + length kvs)%nat.
    { clear Hc. induction kvs as [|[k x] l IHl]; cbn; [lia|]. rewrite !length_app. cbn.
      apply Forall_cons in IH as [IHx IH]. apply Forall_cons in Hv as [[_ Hx] Hv].
      specialize (IHx Hx). specialize (IHl IH Hv). cbn in *. lia. }
    lia.
Qed.

Lemma read_print v : wf_json v → read (print v) = Some v.
Proof.
  intros Hv. unfold read. pose proof (cost_length v Hv).
  rewrite <-(app_nil_r (print v)) at 2. by rewrite reads by (done || lia).
Qed.

(** ** A printed value is one line *)

(** Characters that are neither control characters nor surrogates. *)
Definition visible (s : str) : Prop := Forall (λ c, 32 <= c ∧ scalar c = true) s.

Lemma visible_ascii s : Forall (λ c, 32 <= c < 128) s → visible s.
Proof. intros Hs. eapply Forall_impl; [exact Hs|]. cbn. intros c Hc. unfold scalar. lia. Qed.

Lemma visible_cons c s : 32 <= c < 128 → visible s → visible (c :: s).
Proof. intros Hc Hs. constructor; [|done]. unfold scalar. lia. Qed.

Lemma visible_app s t : visible s → visible t → visible (s ++ t).
Proof. intros Hs Ht. by apply Forall_app. Qed.

Lemma visible_esc c : scalar c = true → visible (esc_char c).
Proof.
  intros Hc. unfold esc_char, hex.
  repeat (case_match; [apply visible_ascii; repeat constructor; lia|]).
  case_match; [|constructor; [|constructor]; unfold scalar in *; lia].
  pose proof (Z.mod_pos_bound c 16 ltac:(lia)).
  assert (0 <= c / 16 < 2) by (split; [apply Z.div_pos|apply Z.div_lt_upper_bound];
    unfold scalar in Hc; lia).
  apply visible_ascii. repeat constructor; try lia; case_match; lia.
Qed.

Lemma visible_str s : wf_str s → visible (print_str s).
Proof.
  intros Hs. unfold print_str. apply visible_cons, visible_app; [lia| |by apply visible_ascii; repeat constructor].
  induction Hs as [|c s Hc _ IH]; [constructor|]. cbn.
  by apply visible_app; [apply visible_esc|].
Qed.

Lemma visible_commas l : Forall visible l → visible (commas l).
Proof.
  induction 1 as [|x l Hx Hl IH]; [constructor|]. destruct l; [done|].
  cbn. apply visible_app, visible_cons; [done|lia|done].
Qed.

Lemma visible_print v : wf_json v → visible (print v).
Proof.
  assert (∀ n, 0 <= n → visible (dec n)) as Hdec.
  { intros n Hn. destruct (dec_digits n Hn) as [Hd _]. apply visible_ascii.
    eapply Forall_impl; [exact Hd|]. cbn. lia. }
  assert (∀ c, 32 <= c < 128 → visible [c]) as H1 by (intros; apply visible_cons; [done|constructor]).
  induction v as [|b|n|f|s|l IH|kvs IH] using json_nested_ind; intros Hv.
  - by apply visible_ascii; repeat constructor.
  - by destruct b; apply visible_ascii; repeat constructor.
  - cbn. unfold print_int. destruct (Z.ltb_spec n 0); [|apply Hdec; lia].
    apply visible_cons; [lia|]. apply Hdec. lia.
  - done.
  - by apply visible_str.
  - apply wf_arr in Hv. cbn [print]. apply visible_cons, visible_app; [lia| |apply H1; lia].
    apply visible_commas, Forall_fmap. rewrite Forall_forall in *. cbn. auto.
  - apply wf_obj in Hv. cbn [print]. apply visible_cons, visible_app; [lia| |apply H1; lia].
    apply visible_commas, Forall_fmap. rewrite Forall_forall in *. intros [k x] Hin.
    destruct (Hv _ Hin) as [Hk Hx].
    change (visible (print_str k ++ 58 :: print x)).
    apply visible_app, visible_cons; [by apply visible_str|lia|by apply (IH (k, x))].
Qed.

(** ** A blank text is not a value *)

Lemma read_blank s v : trim s = [] → read s ≠ Some v.
Proof.
  intros Hs%trim_nil. unfold read. cbn [p_value].
  assert (skip_ws s = [] ∨ ∃ c r, skip_ws s = c :: r ∧ is_whitespace c = true)
    as [->|(c & r & -> & Hc)].
  { induction Hs as [|c s Hc Hs IH]; [by left|]. cbn. destruct (is_ws c); [done|].
    right. by eexists _, _. }
  { done. }
  assert (¬ (45 <= c <= 57) ∧ c ≠ 34 ∧ c ≠ 91 ∧ c ≠ 123 ∧ c ≠ 110 ∧ c ≠ 116 ∧ c ≠ 102)
    as (Hd & ? & ? & ? & ? & ? & ?) by (unfold is_whitespace in Hc; lia).
  rewrite !(proj2 (Z.eqb_neq c _)) by done. unfold p_number.
  rewrite expect_ne by (cbn; intros [= ->]; lia). cbn [digits].
  replace (is_digit c) with false by (unfold is_digit; lia). done.
Qed.

#[export, refine] Instance rfc8259 : SerdeJson := {|
  to_string := print;
  from_str := read;
|}.
Proof.
  - intros v Hv _. by apply read_print.
  - intros v Hv. eapply Forall_impl; [by apply visible_print|]. by intros c [].
  - intros v c Hv Hc. pose proof (visible_print v Hv) as H. unfold visible in H.
    rewrite Forall_forall in H. by apply H.
  - apply read_blank.
Defined.
