(* ===== verification/Policy.v ===== *)
(** * [condukt_egress/src/proxy/policy.rs]: the egress policy

    The policy is an ordered rule pipeline over host globs. [compile] turns a
    pattern into tokens and [match_tokens] runs them over the host; both follow
    the source, byte-offset slicing included ([None] is a panic). The file
    proves that no pattern and host can make the matcher panic, relates it to
    the declarative glob language [glob_lang], and characterises [evaluate] as
    first-match-wins with a default. *)

From S2P Require Import Prelude Utf8 Strs.

(** ** Data *)

Inductive Action := ActionAllow | ActionDeny.

Inductive Rule :=
| RuleAllow (hosts : list str)
| RuleDeny (hosts : list str)
| RuleDecide.

Record Policy := {
  rules : list Rule;
  default_action : Action;
  redact : list str;
  max_body_capture : Z;
  decide_timeout_ms : Z;
}.

Inductive DenyReason := MatchedDenyList | DefaultDeny.

Inductive Decision :=
| DecisionAllow
| DecisionDeny (reason : DenyReason)
| DecisionDecide.

Record MatchedRule := { mr_index : nat; mr_kind : str }.

Definition DenyReason_as_str (r : DenyReason) : str :=
  match r with
  | MatchedDenyList => s!"matched_deny_list"
  | DefaultDeny => s!"default_deny"
  end.

Inductive Token :=
| Literal (lit : str)
| Star
| DoubleStar.

#[global] Instance Action_eq_dec : EqDecision Action.
Proof. solve_decision. Defined.
#[global] Instance Rule_eq_dec : EqDecision Rule.
Proof. solve_decision. Defined.
#[global] Instance DenyReason_eq_dec : EqDecision DenyReason.
Proof. solve_decision. Defined.
#[global] Instance Decision_eq_dec : EqDecision Decision.
Proof. solve_decision. Defined.
#[global] Instance MatchedRule_eq_dec : EqDecision MatchedRule.
Proof. solve_decision. Defined.
#[global] Instance Token_eq_dec : EqDecision Token.
Proof. solve_decision. Defined.

(** ['*'] and ['.']. *)
Definition star_char : char := 42.
Definition dot : char := 46.

(** ** Compiling a pattern *)

(** [if !literal.is_empty() { tokens.push(Token::Literal(literal)) }]; the
    literal under construction is kept in order, as the source's [String]. *)
Definition flush (literal : str) (tokens : list Token) : list Token :=
  if is_empty literal then tokens else tokens ++ [Literal literal].

(** The [while i < chars.len()] loop, on the chars from [i] on. *)
Fixpoint compile_loop (chars literal : str) (tokens : list Token) : list Token :=
  match chars with
  | [] => flush literal tokens
  | c :: chars' =>
      if c =? star_char then
        let tokens := flush literal tokens in
        match chars' with
        | c' :: chars'' =>
            if c' =? star_char then compile_loop chars'' [] (tokens ++ [DoubleStar])
            else compile_loop chars' [] (tokens ++ [Star])
        | [] => compile_loop chars' [] (tokens ++ [Star])
        end
      else compile_loop chars' (literal ++ [c]) tokens
  end.

Definition compile (pattern : str) : list Token := compile_loop pattern [] [].

(** ** Matching

    [None] is a panic (a slice at an offset that is not a char boundary). *)

(** The [Star] arm: [k] is the recursive call on the remaining tokens, the list
    is what is left of [input.char_indices()]. *)
Fixpoint star_scan (k : str → option bool) (input : str) (cis : list (nat * char))
    : option bool :=
  match cis with
  | (idx, ch) :: cis =>
      if ch =? dot then
        if (idx =? 0)%nat then Some false
        else sub ← slice_from input idx; k sub
      else star_scan k input cis
  | [] => if is_empty input then Some false else k []
  end.

(** The loop of the [DoubleStar] arm and the call after it. *)
Fixpoint double_star_scan (k : str → option bool) (input : str) (cis : list (nat * char))
    : option bool :=
  match cis with
  | (idx, _) :: cis =>
      sub ← slice_from input idx;
      b ← k sub;
      if (b : bool) then Some true else double_star_scan k input cis
  | [] => k []
  end.

Fixpoint match_tokens (tokens : list Token) (input : str) : option bool :=
  match tokens with
  | [] => Some (is_empty input)
  | Literal l :: rest =>
      match strip_prefix l input with
      | Some remaining => match_tokens rest remaining
      | None => Some false
      end
  | Star :: rest => star_scan (match_tokens rest) input (char_indices input)
  | DoubleStar :: rest =>
      if is_empty input then Some false
      else double_star_scan (match_tokens rest) input (drop 1 (char_indices input))
  end.

Definition matches_one (host pattern : str) : option bool :=
  let pattern := to_ascii_lowercase pattern in
  let tokens := compile pattern in
  match_tokens tokens host.

(** [patterns.iter().any(..)]: stops at the first hit. *)
Fixpoint matches_any (host : str) (patterns : list str) : option bool :=
  match patterns with
  | [] => Some false
  | p :: ps => b ← matches_one host p; if (b : bool) then Some true else matches_any host ps
  end.

(** ** Evaluation *)

Definition matched (index : nat) (kind : str) : MatchedRule :=
  {| mr_index := index; mr_kind := kind |}.

Fixpoint evaluate_rules (host_lc : str) (index : nat) (rs : list Rule) (dflt : Action)
    : option (Decision * option MatchedRule) :=
  match rs with
  | [] =>
      let decision :=
        match dflt with
        | ActionAllow => DecisionAllow
        | ActionDeny => DecisionDeny DefaultDeny
        end in
      Some (decision, None)
  | RuleAllow hosts :: rs =>
      b ← matches_any host_lc hosts;
      if (b : bool) then Some (DecisionAllow, Some (matched index (s!"allow")))
      else evaluate_rules host_lc (S index) rs dflt
  | RuleDeny hosts :: rs =>
      b ← matches_any host_lc hosts;
      if (b : bool) then Some (DecisionDeny MatchedDenyList, Some (matched index (s!"deny")))
      else evaluate_rules host_lc (S index) rs dflt
  | RuleDecide :: rs => Some (DecisionDecide, Some (matched index (s!"decide")))
  end.

Definition evaluate (self : Policy) (host : str) : option (Decision * option MatchedRule) :=
  let host_lc := to_ascii_lowercase host in
  evaluate_rules host_lc 0 (rules self) (default_action self).

(** ** The glob language

    What a token list means: a literal matches itself, [*] one or more chars
    other than a dot, [**] one or more arbitrary chars
    ([Condukt.Sandbox.NetworkPolicy.Hosts] states it so). *)
Inductive glob_lang : list Token → str → Prop :=
| gl_nil : glob_lang [] []
| gl_literal l ts s : glob_lang ts s → glob_lang (Literal l :: ts) (l ++ s)
| gl_star w ts s :
    w ≠ [] → dot ∉ w → glob_lang ts s → glob_lang (Star :: ts) (w ++ s)
| gl_double_star w ts s :
    w ≠ [] → glob_lang ts s → glob_lang (DoubleStar :: ts) (w ++ s).

Create HintDb glob.
#[export] Hint Constructors glob_lang : glob.

(** Tokens [match_tokens] decides exactly: the text after each [*] starts with
    a dot, so that the label the [*] covers ends where the greedy scan stops. *)
Fixpoint label_aligned (ts : list Token) : bool :=
  match ts with
  | [] => true
  | Star :: ts' =>
      match ts' with
      | [] => true
      | Literal (c :: _) :: _ => (c =? dot) && label_aligned ts'
      | _ => false
      end
  | _ :: ts' => label_aligned ts'
  end.

(** *** The two scans without offsets *)

(** [input] split before its first dot. *)
Fixpoint split_dot (s : str) : str * str :=
  match s with
  | [] => ([], [])
  | c :: s' => if c =? dot then ([], s) else let '(a, b) := split_dot s' in (c :: a, b)
  end.

Lemma split_dot_app s :
  let '(a, b) := split_dot s in
  s = a ++ b ∧ (dot ∉ a) ∧ (b = [] ∨ (∃ b', b = dot :: b')).
Proof.
  induction s as [|c s IH]; cbn; [set_solver|].
  destruct (Z.eqb_spec c dot) as [->|Hc]; [set_solver|].
  destruct (split_dot s) as [a b], IH as (-> & Ha & Hb).
  split_and!; [done| |done]. by apply not_elem_of_cons.
Qed.

Lemma split_dot_prefix w s :
  dot ∉ w → s = [] ∨ (∃ s', s = dot :: s') → split_dot (w ++ s) = (w, s).
Proof.
  intros Hw Hs. induction w as [|c w IH]; cbn.
  - destruct Hs as [->|[s' ->]]; done.
  - apply not_elem_of_cons in Hw as [Hc Hw].
    rewrite (proj2 (Z.eqb_neq c dot)) by done. by rewrite IH.
Qed.

Lemma star_scan_spec k p s :
  dot ∉ p →
  star_scan k (p ++ s) (char_indices_from (byte_len p) s) =
  let '(a, b) := split_dot s in
  if is_empty (p ++ a) then Some false else k b.
Proof.
  revert p. induction s as [|c s IH]; intros p Hp; cbn.
  - by rewrite !app_nil_r.
  - destruct (Z.eqb_spec c dot) as [->|Hc].
    + rewrite app_nil_r. destruct p as [|c0 p]; [done|].
      cbn [is_empty]. rewrite slice_from_app.
      destruct (Nat.eqb_spec (byte_len (c0 :: p)) 0) as [E|E]; [|done].
      rewrite byte_len_cons in E. pose proof (len_utf8_pos c0). lia.
    + specialize (IH (p ++ [c])).
      rewrite <-app_assoc in IH. cbn in IH. rewrite byte_len_snoc in IH.
      rewrite IH by (apply not_elem_of_app; set_solver).
      destruct (split_dot s) as [a b]. by rewrite <-app_assoc.
Qed.

Lemma match_star ts s :
  match_tokens (Star :: ts) s =
  let '(a, b) := split_dot s in if is_empty a then Some false else match_tokens ts b.
Proof. apply (star_scan_spec (match_tokens ts) [] s). set_solver. Qed.

(** Try every suffix, the longest first, the empty one last. *)
Fixpoint try_suffixes (k : str → option bool) (s : str) : option bool :=
  match s with
  | [] => k []
  | _ :: s' => b ← k s; if (b : bool) then Some true else try_suffixes k s'
  end.

Lemma double_star_scan_spec k p s :
  double_star_scan k (p ++ s) (char_indices_from (byte_len p) s) = try_suffixes k s.
Proof.
  revert p. induction s as [|c s IH]; intros p; cbn; [done|].
  rewrite slice_from_app. cbn. destruct (k (c :: s)) as [[]|]; cbn; [done| |done].
  specialize (IH (p ++ [c])). by rewrite <-app_assoc, byte_len_snoc in IH.
Qed.

Lemma match_double_star ts c s :
  match_tokens (DoubleStar :: ts) (c :: s) = try_suffixes (match_tokens ts) s.
Proof.
  cbn. rewrite drop_0. rewrite <-(double_star_scan_spec _ [c] s).
  by rewrite (byte_len_snoc [] c : byte_len [c] = _).
Qed.

Lemma try_suffixes_total k s : (∀ s', is_Some (k s')) → is_Some (try_suffixes k s).
Proof.
  intros Hk. induction s as [|c s IH]; cbn; [done|].
  destruct (Hk (c :: s)) as [[] ->]; cbn; eauto.
Qed.

Lemma try_suffixes_true k s :
  (∀ s', is_Some (k s')) →
  try_suffixes k s = Some true ↔ ∃ a b, s = a ++ b ∧ k b = Some true.
Proof.
  intros Hk. induction s as [|c s IH]; cbn.
  - split; [intros; by exists [], []|].
    intros (a & b & E & Hb). symmetry in E. by apply app_eq_nil in E as [-> ->].
  - destruct (Hk (c :: s)) as [[] Hc]; rewrite Hc; cbn.
    + split; [intros _; by exists [], (c :: s)|done].
    + rewrite IH. split; intros (a & b & E & Hb).
      * exists (c :: a), b. by rewrite E.
      * destruct a as [|a0 a]; cbn in E; simplify_eq; eauto.
Qed.

(** *** No panic, soundness, completeness on label-aligned tokens *)

Lemma match_tokens_total ts s : is_Some (match_tokens ts s).
Proof.
  revert s. induction ts as [|[l| |] ts IH]; intros s; [done|..].
  - cbn. by destruct (strip_prefix l s).
  - rewrite match_star. destruct (split_dot s) as [a b]. by destruct (is_empty a).
  - destruct s as [|c s]; [done|]. rewrite match_double_star.
    by apply try_suffixes_total.
Qed.

Lemma match_tokens_sound ts s : match_tokens ts s = Some true → glob_lang ts s.
Proof.
  revert s. induction ts as [|[l| |] ts IH]; intros s H.
  - destruct s; [constructor|done].
  - cbn in H. destruct (strip_prefix l s) as [r|] eqn:E; [|done].
    apply strip_prefix_Some in E as ->. auto with glob.
  - rewrite match_star in H. pose proof (split_dot_app s).
    destruct (split_dot s) as [a b], a as [|a0 a]; [done|].
    destruct_and!; subst. constructor; auto.
  - destruct s as [|c s]; [done|]. rewrite match_double_star in H.
    apply try_suffixes_true in H as (a & b & -> & Hb); [|apply match_tokens_total].
    apply (gl_double_star (c :: a)); auto.
Qed.

Lemma glob_lang_literal_dot l ts s : glob_lang (Literal (dot :: l) :: ts) s →
  ∃ s', s = dot :: s'.
Proof. inversion 1; subst. by eexists. Qed.

Lemma match_tokens_complete ts s :
  label_aligned ts = true → glob_lang ts s → match_tokens ts s = Some true.
Proof.
  intros Hal Hg. induction Hg as [|l ts s _ IH|w ts s Hw Hd Hg IH|w ts s Hw _ IH]; [done|..].
  - cbn. rewrite strip_prefix_app. auto.
  - rewrite match_star.
    assert (label_aligned ts = true ∧ (s = [] ∨ ∃ s', s = dot :: s')) as [Hal' Hs].
    { destruct ts as [|[[|c l]| |] ts]; cbn in Hal; try done.
      - inversion Hg; auto.
      - apply andb_true_iff in Hal as [Hc%Z.eqb_eq ?]. subst c.
        apply glob_lang_literal_dot in Hg. auto. }
    rewrite split_dot_prefix by done. destruct w; [done|]. auto.
  - destruct w as [|c w]; [done|]. cbn [app]. rewrite match_double_star.
    apply try_suffixes_true; [apply match_tokens_total|]. eauto.
Qed.

(** *** Compilation is lossless and canonical *)

Definition token_text (t : Token) : str :=
  match t with
  | Literal l => l
  | Star => [star_char]
  | DoubleStar => [star_char; star_char]
  end.

Definition render (ts : list Token) : str := ts ≫= token_text.

(** Literals are non-empty, star-free and maximal, and a [*] is not followed by
    another star: the lists [compile] can return. *)
Fixpoint canonical (ts : list Token) : bool :=
  match ts with
  | [] => true
  | Literal l :: ts' =>
      negb (is_empty l) && bool_decide (star_char ∉ l)
      && (match ts' with Literal _ :: _ => false | _ => true end) && canonical ts'
  | Star :: ts' =>
      match ts' with [] | Literal _ :: _ => canonical ts' | _ => false end
  | DoubleStar :: ts' => canonical ts'
  end.

Lemma flush_app l ts : flush l ts = ts ++ flush l [].
Proof. unfold flush. case_match; [by rewrite app_nil_r|done]. Qed.

Lemma compile_loop_app chars l ts :
  compile_loop chars l ts = ts ++ compile_loop chars l [].
Proof.
  revert l ts. induction chars as [[|c chars] IH] using list_len_ind; intros l ts; cbn.
  - apply flush_app.
  - rewrite (flush_app l ts).
    destruct (c =? star_char); [|by rewrite IH by (cbn; lia)].
    destruct chars as [|c' chars]; cbn; [by rewrite app_assoc|].
    destruct (c' =? star_char).
    + rewrite (IH chars) by (cbn; lia).
      rewrite (IH chars) with (ts := _ ++ [DoubleStar]) by (cbn; lia).
      by rewrite <-!app_assoc.
    + rewrite (IH chars) by (cbn; lia).
      rewrite (IH chars) with (ts := _ ++ [Star]) by (cbn; lia).
      by rewrite <-!app_assoc.
Qed.

#[global] Arguments compile : simpl never.

(** What a star does to the literal under construction. *)
Lemma compile_loop_double_star chars l :
  compile_loop (star_char :: star_char :: chars) l [] =
  flush l [] ++ DoubleStar :: compile chars.
Proof.
  cbn [compile_loop]. rewrite Z.eqb_refl, compile_loop_app. by rewrite <-app_assoc.
Qed.

Lemma compile_loop_star chars l :
  head chars ≠ Some star_char →
  compile_loop (star_char :: chars) l [] = flush l [] ++ Star :: compile chars.
Proof.
  intros Hc. cbn [compile_loop]. rewrite Z.eqb_refl.
  destruct chars as [|c chars].
  - done.
  - rewrite (proj2 (Z.eqb_neq c star_char)) by (cbn in Hc; congruence).
    rewrite compile_loop_app. by rewrite <-app_assoc.
Qed.

Lemma compile_loop_literal l chars l0 :
  star_char ∉ l → compile_loop (l ++ chars) l0 [] = compile_loop chars (l0 ++ l) [].
Proof.
  revert l0. induction l as [|c l IH]; intros l0 Hl; cbn; [by rewrite app_nil_r|].
  apply not_elem_of_cons in Hl as [Hc Hl].
  rewrite (proj2 (Z.eqb_neq c star_char)) by done.
  rewrite IH by done. by rewrite <-app_assoc.
Qed.

(** The pattern, cut at its first star. *)
Lemma pattern_cases (p : str) :
  (star_char ∉ p) ∨
  (∃ l r, (star_char ∉ l) ∧ p = l ++ star_char :: star_char :: r) ∨
  (∃ l r, (star_char ∉ l) ∧ head r ≠ Some star_char ∧ p = l ++ star_char :: r).
Proof.
  induction p as [|c p IH]; [left; set_solver|].
  destruct (decide (c = star_char)) as [->|Hc].
  - right. destruct p as [|c' p].
    + right. exists [], []. set_solver.
    + destruct (decide (c' = star_char)) as [->|].
      * left. exists [], p. set_solver.
      * right. exists [], (c' :: p). split_and!; [set_solver|cbn; congruence|done].
  - destruct IH as [IH|[(l & r & ? & ->)|(l & r & ? & ? & ->)]].
    + left. by apply not_elem_of_cons.
    + right. left. exists (c :: l), r. split; [by apply not_elem_of_cons|done].
    + right. right. exists (c :: l), r. split; [by apply not_elem_of_cons|done].
Qed.

(** [compile] on each of the three cases. *)
Lemma compile_plain p : star_char ∉ p → compile p = flush p [].
Proof.
  intros. unfold compile. rewrite <-(app_nil_r p) at 1.
  by rewrite compile_loop_literal.
Qed.

Lemma compile_at_double_star l r :
  star_char ∉ l →
  compile (l ++ star_char :: star_char :: r) = flush l [] ++ DoubleStar :: compile r.
Proof.
  intros. unfold compile at 1. rewrite compile_loop_literal by done.
  apply compile_loop_double_star.
Qed.

Lemma compile_at_star l r :
  star_char ∉ l → head r ≠ Some star_char →
  compile (l ++ star_char :: r) = flush l [] ++ Star :: compile r.
Proof.
  intros. unfold compile at 1. rewrite compile_loop_literal by done.
  by apply compile_loop_star.
Qed.

Lemma compile_double_star r :
  compile (star_char :: star_char :: r) = DoubleStar :: compile r.
Proof. apply (compile_at_double_star []). set_solver. Qed.

Lemma compile_star r :
  head r ≠ Some star_char → compile (star_char :: r) = Star :: compile r.
Proof. apply (compile_at_star []). set_solver. Qed.

Lemma render_flush l : render (flush l []) = l.
Proof. unfold flush, render. destruct l; [done|]. cbn. by rewrite app_nil_r. Qed.

Lemma render_app ts ts' : render (ts ++ ts') = render ts ++ render ts'.
Proof. apply bind_app. Qed.

Lemma render_compile p : render (compile p) = p.
Proof.
  induction p as [p IH] using list_len_ind.
  destruct (pattern_cases p) as [?|[(l & r & ? & ->)|(l & r & ? & ? & ->)]].
  - rewrite compile_plain by done. apply render_flush.
  - rewrite compile_at_double_star, render_app, render_flush by done. cbn.
    unfold render in IH. by rewrite IH by (rewrite length_app; cbn; lia).
  - rewrite compile_at_star, render_app, render_flush by done. cbn.
    unfold render in IH. by rewrite IH by (rewrite length_app; cbn; lia).
Qed.

Lemma compile_head p :
  match head p with
  | None => compile p = []
  | Some c => if c =? star_char then True
              else ∃ l ts, compile p = Literal l :: ts
  end.
Proof.
  destruct p as [|c p]; cbn; [done|].
  destruct (Z.eqb_spec c star_char) as [|Hc]; [done|].
  destruct (pattern_cases (c :: p)) as [?|[(l & r & ? & E)|(l & r & ? & ? & E)]].
  - rewrite compile_plain by done. cbn. eauto.
  - rewrite E, compile_at_double_star by done. destruct l; cbn in E; [congruence|]. cbn. eauto.
  - rewrite E, compile_at_star by done. destruct l; cbn in E; [congruence|]. cbn. eauto.
Qed.

Lemma canonical_flush l t ts :
  star_char ∉ l → (∀ l', t ≠ Literal l') → canonical (t :: ts) = true →
  canonical (flush l [] ++ t :: ts) = true.
Proof.
  intros Hl Ht Hts. unfold flush. destruct l as [|c l]; [done|].
  change (negb (is_empty (c :: l)) && bool_decide (star_char ∉ c :: l)
    && (match t :: ts with Literal _ :: _ => false | _ => true end)
    && canonical (t :: ts) = true).
  rewrite Hts, bool_decide_eq_true_2 by done. destruct t; naive_solver.
Qed.

Lemma canonical_compile p : canonical (compile p) = true.
Proof.
  induction p as [p IH] using list_len_ind.
  destruct (pattern_cases p) as [?|[(l & r & ? & ->)|(l & r & ? & ? & ->)]].
  - rewrite compile_plain by done. unfold flush. destruct p; [done|].
    cbn. by rewrite bool_decide_eq_true_2.
  - rewrite compile_at_double_star by done. apply canonical_flush; [done..|].
    cbn. apply IH. rewrite length_app. cbn. lia.
  - rewrite compile_at_star by done. apply canonical_flush; [done..|].
    assert (canonical (compile r) = true) as Hr
      by (apply IH; rewrite length_app; cbn; lia).
    pose proof (compile_head r) as Hh. destruct r as [|c r]; [done|]. cbn in Hh.
    destruct (Z.eqb_spec c star_char); [naive_solver|].
    destruct Hh as (l' & ts & E). cbn in Hr |- *. by rewrite E in Hr |- *.
Qed.

Lemma compile_literal_star l r :
  star_char ∉ l → l ≠ [] →
  compile (l ++ star_char :: r) = Literal l :: compile (star_char :: r).
Proof.
  intros Hl Hne. assert (flush l [] = [Literal l]) as Hf by (by destruct l).
  destruct (decide (head r = Some star_char)) as [Hr|Hr].
  - destruct r as [|c r]; [done|]. cbn in Hr. simplify_eq.
    by rewrite compile_at_double_star, compile_double_star, Hf.
  - by rewrite compile_at_star, compile_star, Hf.
Qed.

Lemma canonical_after_star ts :
  canonical (Star :: ts) = true →
  canonical ts = true ∧ head (render ts) ≠ Some star_char.
Proof.
  intros Hts. destruct ts as [|[[|c l]| |] ts]; try done.
  split; [exact Hts|]. cbn in Hts |- *.
  rewrite !andb_true_iff, bool_decide_eq_true in Hts. set_solver.
Qed.

Lemma compile_render ts : canonical ts = true → compile (render ts) = ts.
Proof.
  induction ts as [|[l| |] ts IH]; intros Hc; [done|..].
  - cbn [canonical] in Hc. rewrite !andb_true_iff, bool_decide_eq_true in Hc.
    destruct Hc as [[[Hne Hl] Hhd] Hts]. specialize (IH Hts).
    change (render (Literal l :: ts)) with (l ++ render ts).
    destruct ts as [|[l'| |] ts]; [|done|..].
    + change (render []) with (@nil Z). rewrite app_nil_r, compile_plain by done.
      by destruct l.
    + change (render (Star :: ts)) with (star_char :: render ts) in IH |- *.
      rewrite compile_literal_star, IH by (done || by destruct l). done.
    + change (render (DoubleStar :: ts)) with (star_char :: star_char :: render ts) in IH |- *.
      rewrite compile_literal_star, IH by (done || by destruct l). done.
  - apply canonical_after_star in Hc as [Hts Hh].
    change (render (Star :: ts)) with (star_char :: render ts).
    by rewrite compile_star, IH.
  - change (render (DoubleStar :: ts)) with (star_char :: star_char :: render ts).
    by rewrite compile_double_star, IH.
Qed.

(** *** Evaluation is the first rule that hits *)

(** Whether a pattern hits, as a bool: the matcher never panics. *)
Definition pattern_hit (host_lc p : str) : bool := default false (matches_one host_lc p).

Definition rule_hit (host_lc : str) (r : Rule) : bool :=
  match r with
  | RuleAllow hosts | RuleDeny hosts => existsb (pattern_hit host_lc) hosts
  | RuleDecide => true
  end.

Definition rule_decision (r : Rule) : Decision :=
  match r with
  | RuleAllow _ => DecisionAllow
  | RuleDeny _ => DecisionDeny MatchedDenyList
  | RuleDecide => DecisionDecide
  end.

Definition rule_kind (r : Rule) : str :=
  match r with
  | RuleAllow _ => s!"allow"
  | RuleDeny _ => s!"deny"
  | RuleDecide => s!"decide"
  end.

Definition default_decision (a : Action) : Decision :=
  match a with ActionAllow => DecisionAllow | ActionDeny => DecisionDeny DefaultDeny end.

(** The abstract specification of a rule pipeline. *)
Definition pipeline (p : Policy) (host : str) : Decision * option MatchedRule :=
  match list_find (λ r, rule_hit (to_ascii_lowercase host) r = true) (rules p) with
  | Some (i, r) => (rule_decision r, Some (matched i (rule_kind r)))
  | None => (default_decision (default_action p), None)
  end.

Lemma matches_one_hit host p : matches_one host p = Some (pattern_hit host p).
Proof.
  unfold pattern_hit, matches_one.
  by destruct (match_tokens_total (compile (to_ascii_lowercase p)) host) as [b ->].
Qed.

Lemma matches_any_hit host ps : matches_any host ps = Some (existsb (pattern_hit host) ps).
Proof.
  induction ps as [|p ps IH]; cbn; [done|].
  rewrite matches_one_hit. cbn. by destruct (pattern_hit host p).
Qed.

(** One rule: its hit is decided first, whatever its kind. *)
Lemma evaluate_rules_cons host i r rs d :
  evaluate_rules host i (r :: rs) d =
  if rule_hit host r then Some (rule_decision r, Some (matched i (rule_kind r)))
  else evaluate_rules host (S i) rs d.
Proof. destruct r; cbn; rewrite ?matches_any_hit; cbn; by try case_match. Qed.

Lemma evaluate_rules_find host i rs d :
  evaluate_rules host i rs d =
  Some (match list_find (λ r, rule_hit host r = true) rs with
        | Some (j, r) => (rule_decision r, Some (matched (i + j) (rule_kind r)))
        | None => (default_decision d, None)
        end).
Proof.
  revert i. induction rs as [|r rs IH]; intros i; [by destruct d|].
  rewrite evaluate_rules_cons. cbn [list_find].
  destruct (rule_hit host r) eqn:E.
  - rewrite decide_True by done. by rewrite Nat.add_0_r.
  - rewrite decide_False by done. rewrite IH.
    destruct (list_find _ rs) as [[j r']|]; cbn; [|done].
    by rewrite Nat.add_succ_r.
Qed.

Lemma evaluate_pipeline p host : evaluate p host = Some (pipeline p host).
Proof. apply evaluate_rules_find. Qed.

Lemma pattern_hit_sound host p :
  pattern_hit host p = true → glob_lang (compile (to_ascii_lowercase p)) host.
Proof.
  intros H. apply match_tokens_sound. fold (matches_one host p).
  by rewrite matches_one_hit, H.
Qed.

Lemma pattern_hit_complete host p :
  label_aligned (compile (to_ascii_lowercase p)) = true →
  glob_lang (compile (to_ascii_lowercase p)) host → pattern_hit host p = true.
Proof.
  intros Ha Hg. pose proof (matches_one_hit host p) as H.
  unfold matches_one in H. rewrite match_tokens_complete in H by done. congruence.
Qed.

(** *** Case folding *)

(** The rule with its patterns folded to lower case. *)
Definition fold_rule (r : Rule) : Rule :=
  match r with
  | RuleAllow hosts => RuleAllow (to_ascii_lowercase <$> hosts)
  | RuleDeny hosts => RuleDeny (to_ascii_lowercase <$> hosts)
  | RuleDecide => RuleDecide
  end.

Lemma pattern_hit_fold host p : pattern_hit host (to_ascii_lowercase p) = pattern_hit host p.
Proof. unfold pattern_hit, matches_one. by rewrite to_ascii_lowercase_idem. Qed.

Lemma existsb_hit_fold host ps :
  existsb (pattern_hit host) (to_ascii_lowercase <$> ps) = existsb (pattern_hit host) ps.
Proof. induction ps as [|p ps IH]; [done|]. cbn. by rewrite pattern_hit_fold, IH. Qed.

Lemma rule_hit_fold host r : rule_hit host (fold_rule r) = rule_hit host r.
Proof. by destruct r; cbn; rewrite ?existsb_hit_fold. Qed.

(** ** Properties *)

(** C3: [evaluate] refines the pipeline specification: it never panics, returns
    the decision and provenance (index and kind) of the first rule that hits,
    and the default action with no provenance when none does. *)
Theorem evaluate_refines_pipeline (p : Policy) (host : str) :
  evaluate p host = Some (pipeline p host) ∧
  (∀ d m, pipeline p host = (d, Some m) →
     ∃ r, rules p !! mr_index m = Some r ∧ d = rule_decision r ∧ mr_kind m = rule_kind r ∧
          rule_hit (to_ascii_lowercase host) r = true ∧
          ∀ j r', (j < mr_index m)%nat → rules p !! j = Some r' →
            rule_hit (to_ascii_lowercase host) r' = false) ∧
  (∀ d, pipeline p host = (d, None) →
     d = default_decision (default_action p) ∧
     Forall (λ r, rule_hit (to_ascii_lowercase host) r = false) (rules p)).
Proof.
  split; [apply evaluate_pipeline|]. unfold pipeline.
  destruct (list_find _ _) as [[i r]|] eqn:E; split; intros; simplify_eq.
  - apply list_find_Some in E as (Hi & Hr & Hj). cbn. exists r.
    split_and!; try done. intros j r' Hlt Hj'.
    apply not_true_iff_false. by eapply Hj.
  - split; [done|]. apply list_find_None in E.
    eapply Forall_impl; [exact E|]. intros. by apply not_true_iff_false.
Qed.

(** C4: the host matcher against the documented glob language: for every host
    and pattern [matches_one] returns (no slice panics); a hit is always a word
    of the language; and when the text after each [*] starts with a dot, every
    word of the language is a hit. *)
Theorem matches_one_glob (host pattern : str) :
  let ts := compile (to_ascii_lowercase pattern) in
  ∃ b, matches_one host pattern = Some b ∧
    (b = true → glob_lang ts host) ∧
    (label_aligned ts = true → glob_lang ts host → b = true).
Proof.
  exists (pattern_hit host pattern).
  split_and!; [apply matches_one_hit|apply pattern_hit_sound|apply pattern_hit_complete].
Qed.

(** [compile] loses nothing and is canonical: printing the tokens gives the
    pattern back, literals are maximal, and compiling the text of any canonical
    token list returns that list. *)
Theorem compile_round_trip :
  (∀ p, render (compile p) = p ∧ canonical (compile p) = true) ∧
  (∀ ts, canonical ts = true → compile (render ts) = ts).
Proof. split; [split|]; auto using render_compile, canonical_compile, compile_render. Qed.

(** C31: ASCII case plays no part: folding the case of the host, or of any
    pattern of the policy, changes neither the decision nor its provenance. *)
Theorem evaluate_case_insensitive (p : Policy) (host : str) :
  evaluate p (to_ascii_lowercase host) = evaluate p host ∧
  evaluate {| rules := fold_rule <$> rules p; default_action := default_action p;
              redact := redact p; max_body_capture := max_body_capture p;
              decide_timeout_ms := decide_timeout_ms p |} host = evaluate p host.
Proof.
  split; [unfold evaluate; by rewrite to_ascii_lowercase_idem|].
  rewrite !evaluate_pipeline. f_equal. unfold pipeline. cbn [rules default_action].
  rewrite list_find_fmap.
  rewrite (list_find_ext _ (λ r, rule_hit (to_ascii_lowercase host) r = true)).
  - destruct (list_find _ _) as [[i []]|]; done.
  - intros r. cbn. by rewrite rule_hit_fold.
Qed.

(** An allow is authorised: when [evaluate] allows a host, either an allow
    rule of the policy lists a pattern whose glob language contains the host
    and no earlier deny or decide rule hits it, or no rule at all hits and the
    default action is allow. *)
Theorem evaluate_allow_authorised (p : Policy) (host : str) (m : option MatchedRule)
    (H : evaluate p host = Some (DecisionAllow, m)) :
  let host_lc := to_ascii_lowercase host in
  (∃ i hosts pat, m = Some (matched i (s!"allow")) ∧
     rules p !! i = Some (RuleAllow hosts) ∧ pat ∈ hosts ∧
     glob_lang (compile (to_ascii_lowercase pat)) host_lc ∧
     ∀ j r, (j < i)%nat → rules p !! j = Some r → rule_hit host_lc r = false) ∨
  (m = None ∧ default_action p = ActionAllow ∧
     Forall (λ r, rule_hit host_lc r = false) (rules p)).
Proof.
  rewrite evaluate_pipeline in H. unfold pipeline in H.
  destruct (list_find _ _) as [[i r]|] eqn:E; simplify_eq.
  - left. apply list_find_Some in E as (Hi & Hr & Hj). destruct r as [hosts| |]; try done.
    cbn [rule_hit] in Hr. apply existsb_exists in Hr as (pat & Hin & Hpat).
    exists i, hosts, pat. split_and!; try done.
    + by apply list_elem_of_In.
    + by apply pattern_hit_sound.
    + intros j r Hlt Hjr. apply not_true_iff_false. by eapply Hj.
  - right. destruct (default_action p); [|done]. split_and!; [done..|].
    apply list_find_None in E. eapply Forall_impl; [exact E|].
    intros. by apply not_true_iff_false.
Qed.

Lemma evaluate_allow_authorised_witness :
  let p := {| rules := [RuleDeny [s!"*.internal.example.com"]; RuleAllow [s!"**.OpenAI.com"]];
              default_action := ActionDeny; redact := []; max_body_capture := 4096;
              decide_timeout_ms := 5000 |} in
  let host := s!"a.b.openai.com" in
  evaluate p host = Some (DecisionAllow, Some (matched 1 (s!"allow"))) ∧
  ∃ i, Some (matched 1 (s!"allow")) = Some (matched i (s!"allow")).
Proof.
  cbv zeta. split; [vm_compute; reflexivity|].
  destruct (evaluate_allow_authorised
    {| rules := [RuleDeny [s!"*.internal.example.com"]; RuleAllow [s!"**.OpenAI.com"]];
       default_action := ActionDeny; redact := []; max_body_capture := 4096;
       decide_timeout_ms := 5000 |} (s!"a.b.openai.com") (Some (matched 1 (s!"allow"))))
    as [(i & _ & _ & Hi & _)|[Hn _]].
  - vm_compute. reflexivity.
  - exists i. exact Hi.
  - discriminate Hn.
Defined.

(** C40: a [*] followed by literal text that does not start with a dot never
    matches: the scan of [*] runs to the next dot, so the literal is compared
    with a dot or with the end of the host. Deny and allow patterns such as
    [*-internal.example.com] hit no host at all, although the documented glob
    language has words for them. *)
Theorem star_before_text_is_dead (c : char) (l : str) (ts : list Token) (host w s : str) :
  (c ≠ dot → match_tokens (Star :: Literal (c :: l) :: ts) host = Some false) ∧
  (w ≠ [] → (dot ∉ w) → glob_lang ts s →
   glob_lang (Star :: Literal (c :: l) :: ts) (w ++ (c :: l) ++ s)).
Proof.
  split; [intros Hc|intros; by repeat constructor].
  rewrite match_star. pose proof (split_dot_app host) as H.
  destruct (split_dot host) as [a b], H as (_ & _ & Hb).
  destruct (is_empty a); [done|]. destruct Hb as [->|[b' ->]]; [done|].
  cbn. by rewrite (proj2 (Z.eqb_neq c dot)).
Qed.
