(* ===== verification/Event.v ===== *)
(** * [condukt_egress/src/proxy/event.rs]: the frames of the control channel

    The lifecycle events the sidecar reports, the request they describe, and
    the decision frames. Values the source takes from outside the program (a
    fresh UUID, the clock) are arguments. *)

From S2P Require Import Prelude Utf8 Strs Policy.

(** ** Addresses ([std::net]) *)

(** An IPv4 address by its four octets; an IPv6 address by its text. *)
Inductive IpAddr :=
| IpV4 (a b c d : Z)
| IpV6 (text : str).

Record SocketAddr := { sa_ip : IpAddr; sa_port : Z }.

Definition IpAddr_to_string (ip : IpAddr) : str :=
  match ip with
  | IpV4 a b c d => dec a ++ s!"." ++ dec b ++ s!"." ++ dec c ++ s!"." ++ dec d
  | IpV6 text => text
  end.

Definition SocketAddr_to_string (a : SocketAddr) : str :=
  match sa_ip a with
  | IpV4 _ _ _ _ => IpAddr_to_string (sa_ip a) ++ s!":" ++ dec (sa_port a)
  | IpV6 text => s!"[" ++ text ++ s!"]:" ++ dec (sa_port a)
  end.

(** A [DateTime<Utc>], as the instant it denotes. *)
Abbreviation DateTime := Z (only parsing).

(** ** Events *)

Inductive Kind :=
| RequestOpened
| RequestClosed
| RequestAllowed
| RequestDenied
| RequestFailed.

Record Request := {
  rq_id : str;
  rq_session_id : option str;
  rq_host : str;
  rq_port : Z;
  rq_remote_addr : option str;
  rq_scheme : str;
  rq_method : option str;
  rq_path : option str;
  rq_request_headers : option (gmap str str);
  rq_response_status : option Z;
  rq_bytes_in : Z;
  rq_bytes_out : Z;
  rq_started_at : DateTime;
  rq_finished_at : option DateTime;
}.

(** [if port == 443 { "https" } else { "http" }]. *)
Definition scheme_of_port (port : Z) : str :=
  if port =? 443 then s!"https" else s!"http".

Definition Request_new (uuid : str) (now : DateTime)
    (host : str) (port : Z) (remote : option SocketAddr) (session_id : option str)
    : Request :=
  {| rq_id := uuid;
     rq_session_id := session_id;
     rq_host := host;
     rq_port := port;
     rq_remote_addr := SocketAddr_to_string <$> remote;
     rq_scheme := scheme_of_port port;
     rq_method := None;
     rq_path := None;
     rq_request_headers := None;
     rq_response_status := None;
     rq_bytes_in := 0;
     rq_bytes_out := 0;
     rq_started_at := now;
     rq_finished_at := None |}.

Record Event := {
  ev_kind : Kind;
  ev_request : Request;
  ev_reason : option str;
  ev_matched_rule : option MatchedRule;
  ev_at : DateTime;
}.

Definition Event_new (now : DateTime) (k : Kind) (r : Request) : Event :=
  {| ev_kind := k; ev_request := r; ev_reason := None; ev_matched_rule := None; ev_at := now |}.

Definition with_reason (e : Event) (r : str) : Event :=
  {| ev_kind := ev_kind e; ev_request := ev_request e; ev_reason := Some r;
     ev_matched_rule := ev_matched_rule e; ev_at := ev_at e |}.

Definition with_matched_rule (e : Event) (m : MatchedRule) : Event :=
  {| ev_kind := ev_kind e; ev_request := ev_request e; ev_reason := ev_reason e;
     ev_matched_rule := Some m; ev_at := ev_at e |}.

(** ** Frames *)

Inductive Outbound :=
| OutEvent (e : Event)
| OutDecisionRequest (id : str) (session_id : option str) (host : str) (port : Z)
    (scheme : str).

Inductive DecisionAction := DAllow | DDeny.

Inductive Inbound :=
| InDecision (id : str) (action : DecisionAction) (reason : option str)
| InUnknown.

#[global] Instance Kind_eq_dec : EqDecision Kind.
Proof. solve_decision. Defined.
#[global] Instance IpAddr_eq_dec : EqDecision IpAddr.
Proof. solve_decision. Defined.
#[global] Instance SocketAddr_eq_dec : EqDecision SocketAddr.
Proof. solve_decision. Defined.
#[global] Instance Request_eq_dec : EqDecision Request.
Proof. solve_decision. Defined.
#[global] Instance Event_eq_dec : EqDecision Event.
Proof. solve_decision. Defined.
#[global] Instance Outbound_eq_dec : EqDecision Outbound.
Proof. solve_decision. Defined.
#[global] Instance DecisionAction_eq_dec : EqDecision DecisionAction.
Proof. solve_decision. Defined.
#[global] Instance Inbound_eq_dec : EqDecision Inbound.
Proof. solve_decision. Defined.
