(* ===== verification/Wire.v ===== *)
(** * The wire formats of [policy.rs] and [event.rs]

    What the [serde] attributes of the sources make of the policy and of the
    frames: a [codec] per type, with the law that decoding inverts encoding on
    the values the Rust type can hold ([valid]). The derived decoders also accept
    a few alternative forms (a struct as an array of its fields, a unit variant
    as an object); these are the parameter [serde_alt]. The text of a value is
    [serde_json]'s, the text of a timestamp [chrono]'s. *)

From S2P Require Import Prelude Utf8 Strs Json Policy Event.

(** ** Codecs *)

Record codec (A : Type) := {
  enc : A → json;
  decode : json → option A;
  valid : A → Prop;
  height : nat;  (** how deep its values nest *)
  enc_height x : (depth (enc x) ≤ height)%nat;
  enc_wf x : valid x → wf_json (enc x);
  enc_nonnull x : enc x ≠ JNull;
  decode_enc x : valid x → decode (enc x) = Some x;
}.
Arguments enc {A}.
Arguments decode {A}.
Arguments valid {A}.
Arguments height {A}.
Arguments enc_height {A}.
Arguments enc_wf {A}.
Arguments enc_nonnull {A}.
Arguments decode_enc {A}.

Create HintDb wire.
#[export] Hint Resolve enc_wf decode_enc enc_nonnull : wire.

(** [String]. *)
#[refine] Definition c_str : codec str := {|
  enc := JStr;
  decode v := match v with JStr s => Some s | _ => None end;
  valid := wf_str;
  height := 0;
|}.
Proof. all: done. Defined.

(** An integer type with the given bounds. *)
Section c_int.

Context (lo hi : Z).
Hypothesis Hlo : - 2 ^ 63 <= lo.
Hypothesis Hhi : hi <= u64_max.

#[refine] Definition c_int : codec Z := {|
  enc := JInt;
  decode v := match v with
              | JInt n => if (lo <=? n) && (n <=? hi) then Some n else None
              | _ => None
              end;
  valid n := lo <= n <= hi;
  height := 0;
|}.
Proof.
  - done.
  - intros n Hn. cbn. unfold int_ok. lia.
  - done.
  - intros n Hn. cbn. by replace ((lo <=? n) && (n <=? hi)) with true by lia.
Defined.

End c_int.

Definition c_u16 : codec Z := c_int 0 u16_max ltac:(lia) ltac:(unfold u16_max, u64_max; lia).
Definition c_u64 : codec Z := c_int 0 u64_max ltac:(lia) ltac:(lia).
Definition c_i32 : codec Z :=
  c_int (- 2 ^ 31) (2 ^ 31 - 1) ltac:(lia) ltac:(unfold u64_max; lia).

Fixpoint traverse {A B} (f : A → option B) (l : list A) : option (list B) :=
  match l with
  | [] => Some []
  | x :: l => y ← f x; ys ← traverse f l; Some (y :: ys)
  end.

Lemma traverse_map {A B C} (f : B → option C) (g : A → B) (h : A → C) l :
  Forall (λ x, f (g x) = Some (h x)) l → traverse f (map g l) = Some (map h l).
Proof. induction 1 as [|x l Hx _ IH]; cbn; [done|]. by rewrite Hx, IH. Qed.

(** [Vec<T>]. *)
#[refine] Definition c_list {A} (c : codec A) : codec (list A) := {|
  enc l := JArr (map (enc c) l);
  decode v := match v with JArr l => traverse (decode c) l | _ => None end;
  valid := Forall (valid c);
  height := S (height c);
|}.
Proof.
  - intros l. apply depth_arr, Forall_fmap, Forall_true. intros x. apply enc_height.
  - intros l Hl. apply wf_arr, Forall_fmap. eapply Forall_impl; [exact Hl|].
    cbn. auto with wire.
  - done.
  - intros l Hl. rewrite (traverse_map _ _ id), map_id; [done|].
    eapply Forall_impl; [exact Hl|]. cbn. auto with wire.
Defined.

(** [HashMap<String, String>]: a later member of the same name wins. *)
Definition insert_pairs (l : list (str * str)) : gmap str str :=
  foldl (λ m '(k, v), <[k := v]> m) ∅ l.

Lemma insert_pairs_rev l : insert_pairs l = list_to_map (rev l).
Proof.
  induction l as [|[k v] l IH] using rev_ind; [done|].
  unfold insert_pairs in *. rewrite foldl_app, rev_app_distr. cbn. by rewrite IH.
Qed.

Lemma insert_pairs_map m : insert_pairs (map_to_list m) = m.
Proof.
  rewrite insert_pairs_rev. rewrite <-(list_to_map_to_list m) at 2. symmetry.
  apply list_to_map_proper; [apply NoDup_fst_map_to_list|apply Permutation_rev].
Qed.

#[refine] Definition c_map : codec (gmap str str) := {|
  enc m := JObj (map (λ '(k, v), (k, JStr v)) (map_to_list m));
  decode v :=
    match v with
    | JObj kvs =>
        l ← traverse (λ '(k, v), match v with JStr s => Some (k, s) | _ => None end) kvs;
        Some (insert_pairs l)
    | _ => None
    end;
  valid m := map_Forall (λ k v, wf_str k ∧ wf_str v) m;
  height := 1;
|}.
Proof.
  - intros m. apply (depth_obj _ 0), Forall_fmap, Forall_true. intros [k v]. cbn. lia.
  - intros m Hm. apply wf_obj, Forall_fmap, Forall_forall. intros [k v] Hin.
    apply elem_of_map_to_list in Hin. by apply (Hm k v).
  - done.
  - intros m _. rewrite (traverse_map _ _ id), map_id.
    + cbn. by rewrite insert_pairs_map.
    + apply Forall_true. by intros [k v].
Defined.

(** [Option<T>]: [null] or the value. *)
Definition enc_opt {A} (c : codec A) (o : option A) : json :=
  match o with Some x => enc c x | None => JNull end.

Definition decode_opt {A} (c : codec A) (v : json) : option (option A) :=
  match v with JNull => Some None | _ => Some <$> decode c v end.

Definition valid_opt {A} (P : A → Prop) (o : option A) : Prop :=
  match o with Some x => P x | None => True end.

Lemma decode_enc_opt {A} (c : codec A) o :
  valid_opt (valid c) o → decode_opt c (enc_opt c o) = Some o.
Proof.
  intros Ho. destruct o as [x|]; [|done]. cbn in *. unfold decode_opt.
  pose proof (enc_nonnull c x). pose proof (decode_enc c x Ho) as E.
  destruct (enc c x); try done; by rewrite E.
Qed.

Lemma enc_opt_wf {A} (c : codec A) o : valid_opt (valid c) o → wf_json (enc_opt c o).
Proof. destruct o; cbn; auto with wire. Qed.
#[export] Hint Resolve enc_opt_wf decode_enc_opt : wire.

Lemma enc_opt_height {A} (c : codec A) o : (depth (enc_opt c o) ≤ height c)%nat.
Proof. destruct o; cbn; [apply enc_height|lia]. Qed.

(** ** Members of an object *)

Definition lookups (k : str) (kvs : list (str * json)) : list json :=
  omap (λ '(k', v), if str_eqb k' k then Some v else None) kvs.

(** A member by name; the derived visitors reject a repeated one. *)
Definition get (k : str) (kvs : list (str * json)) : option (option json) :=
  match lookups k kvs with
  | [] => Some None
  | [v] => Some (Some v)
  | _ => None
  end.

(** A required field, a field with a default, and an [Option] field (which may
    be absent). *)
Definition req {A} (d : json → option A) (k : str) (kvs : list (str * json)) : option A :=
  o ← get k kvs; v ← o; d v.

Definition dflt {A} (d : json → option A) (k : str) (x : A) (kvs : list (str * json))
    : option A :=
  o ← get k kvs; match o with Some v => d v | None => Some x end.

(** [#[serde(skip_serializing_if = "Option::is_none")]]. *)
Definition maybe {A} (c : codec A) (k : str) (o : option A) : list (str * json) :=
  match o with Some x => [(k, enc c x)] | None => [] end.

Lemma lookups_app k a b : lookups k (a ++ b) = lookups k a ++ lookups k b.
Proof. unfold lookups. apply omap_app. Qed.

Lemma lookups_maybe {A} (c : codec A) k k' o :
  lookups k (maybe c k' o) =
  if str_eqb k' k then match o with Some x => [enc c x] | None => [] end else [].
Proof. destruct o; cbn; by destruct (str_eqb k' k). Qed.

Lemma maybe_wf {A} (c : codec A) k o :
  wf_str k → valid_opt (valid c) o →
  Forall (λ kv, wf_str kv.1 ∧ wf_json kv.2) (maybe c k o).
Proof. destruct o; cbn; repeat constructor; cbn; auto with wire. Qed.
#[export] Hint Resolve maybe_wf : wire.

Lemma maybe_height {A} (c : codec A) k o n :
  (height c ≤ n)%nat → Forall (λ kv, depth kv.2 ≤ n)%nat (maybe c k o).
Proof.
  intros Hn. destruct o; repeat constructor. cbn. by etrans; [apply enc_height|].
Qed.

(** Literal keys are valid strings. *)
Definition ascii_str (s : str) : bool := forallb (λ c, (0 <=? c) && (c <? 128)) s.

Lemma ascii_wf s : ascii_str s = true → wf_str s.
Proof.
  unfold ascii_str. intros H. apply Forall_forall. intros c Hc.
  rewrite List.forallb_forall in H. apply list_elem_of_In, H in Hc. unfold scalar. lia.
Qed.

Lemma lookups_cons k k' v l :
  lookups k ((k', v) :: l) = if str_eqb k' k then v :: lookups k l else lookups k l.
Proof. unfold lookups. cbn. by destruct (str_eqb k' k). Qed.

(** Finds the members with literal names in an object under construction. *)
Ltac find_members :=
  unfold req, dflt, get;
  repeat first [rewrite lookups_cons | rewrite lookups_app | rewrite lookups_maybe];
  repeat match goal with
  | |- context [str_eqb ?a ?b] =>
      let r := eval vm_compute in (str_eqb a b) in change (str_eqb a b) with r
  end;
  cbn [app lookups omap list_omap].

(** A field that is left out when it is [None] decodes to what it was. *)
Lemma decode_maybe {A} (c : codec A) o :
  valid_opt (valid c) o →
  (o' ← match match o with Some x => [enc c x] | None => [] end with
        | [] => Some None
        | [v] => Some (Some v)
        | _ => None
        end;
   match o' with Some v => decode_opt c v | None => Some None end) = Some o.
Proof. destruct o as [x|]; [|done]. apply (decode_enc_opt c (Some x)). Qed.

Lemma bind_some {A B} (m : option A) (f : A → option B) x r :
  m = Some x → f x = r → (m ≫= f) = r.
Proof. by intros -> <-. Qed.

(** Reads the fields of an object one by one, given its members. *)
Ltac read_fields members :=
  repeat (eapply bind_some;
    [unfold members; find_members; rewrite ?app_nil_r; cbn [mbind option_bind];
     first [apply decode_enc; done | apply decode_enc_opt; done | apply decode_maybe; done]|]).

(** Shows that an object with literal names is well-formed. *)
Ltac wf_members :=
  apply wf_obj;
  repeat match goal with
  | |- Forall _ (_ ++ _) => apply Forall_app; split
  | |- Forall _ [] => apply Forall_nil_2
  | |- Forall _ (_ :: _) => apply Forall_cons; split; cbn [fst snd]
  | |- Forall _ (maybe _ _ _) => apply maybe_wf
  | |- _ ∧ _ => split
  | |- wf_json (enc_opt _ _) => apply enc_opt_wf
  | |- wf_str _ => solve [apply ascii_wf; reflexivity]
  | |- wf_json (JStr _) => solve [apply ascii_wf; reflexivity]
  | |- wf_json (enc _ _) => apply enc_wf
  end; try done; auto using ascii_wf with wire.

(** Bounds the depth of an object with literal names. *)
Ltac height_members :=
  apply depth_obj;
  repeat match goal with
  | |- Forall _ (_ ++ _) => apply Forall_app; split
  | |- Forall _ [] => apply Forall_nil_2
  | |- Forall _ (_ :: _) => apply Forall_cons; split; cbn [fst snd]
  | |- Forall _ (maybe _ _ _) => apply maybe_height
  | |- (depth (JStr _) ≤ _)%nat => apply Nat.le_0_l
  | |- (depth (enc_opt _ _) ≤ _)%nat => etrans; [apply enc_opt_height|]
  | |- (depth (enc _ _) ≤ _)%nat => etrans; [apply enc_height|]
  end; apply Nat.leb_le; reflexivity.

(** ** Alternatives and timestamps *)

(** The other forms the derived decoders accept: unit variants as objects, and
    structs and tagged enums as arrays; and the texts of their errors. *)
Record serde_alt := {
  alt_enum : json → option str;
  alt_matched : list json → option MatchedRule;
  alt_rule : list json → option Rule;
  alt_policy : list json → option Policy;
  alt_request : list json → option Request;
  alt_event : list json → option Event;
  alt_inbound : list json → option Inbound;
  de_error : str → str;  (** the error for a text that is not accepted *)
}.

(** [chrono]'s text of a [DateTime<Utc>], for the instants it can represent. *)
Class Chrono := {
  time_ok : DateTime → Prop;
  fmt_time : DateTime → str;
  parse_time : str → option DateTime;
  fmt_time_wf t : time_ok t → wf_str (fmt_time t);
  parse_fmt_time t : time_ok t → parse_time (fmt_time t) = Some t;
}.

Section formats.

Context (alt : serde_alt) `{!Chrono}.

#[refine] Definition c_time : codec DateTime := {|
  enc t := JStr (fmt_time t);
  decode v := match v with JStr s => parse_time s | _ => None end;
  valid := time_ok;
  height := 0;
|}.
Proof.
  - done.
  - intros t Ht. by apply fmt_time_wf.
  - done.
  - intros t Ht. by apply parse_fmt_time.
Defined.

(** The name of a unit variant. *)
Definition enum_name (v : json) : option str :=
  match v with JStr s => Some s | _ => alt_enum alt v end.

(** The tag of an internally tagged enum. *)
Definition tag (kvs : list (str * json)) : option str :=
  v ← req Some (s!"type") kvs; match v with JStr s => Some s | _ => None end.

(** ** The policy *)

(** [#[serde(rename_all = "lowercase")] enum Action]. *)
#[refine] Definition c_action : codec Action := {|
  enc a := JStr (match a with ActionAllow => s!"allow" | ActionDeny => s!"deny" end);
  decode v :=
    name ← enum_name v;
    if str_eqb name (s!"allow") then Some ActionAllow
    else if str_eqb name (s!"deny") then Some ActionDeny
    else None;
  valid _ := True;
  height := 0;
|}.
Proof.
  - done.
  - intros [] _; by apply ascii_wf.
  - by intros [].
  - by intros [] _.
Defined.

(** [#[serde(tag = "type", rename_all = "lowercase")] enum Rule]. *)
Definition Rule_value (r : Rule) : json :=
  match r with
  | RuleAllow hosts =>
      JObj [(s!"type", JStr (s!"allow")); (s!"hosts", enc (c_list c_str) hosts)]
  | RuleDeny hosts =>
      JObj [(s!"type", JStr (s!"deny")); (s!"hosts", enc (c_list c_str) hosts)]
  | RuleDecide => JObj [(s!"type", JStr (s!"decide"))]
  end.

Definition Rule_from (v : json) : option Rule :=
  match v with
  | JObj kvs =>
      t ← tag kvs;
      if str_eqb t (s!"allow")
      then RuleAllow <$> dflt (decode (c_list c_str)) (s!"hosts") [] kvs
      else if str_eqb t (s!"deny")
      then RuleDeny <$> dflt (decode (c_list c_str)) (s!"hosts") [] kvs
      else if str_eqb t (s!"decide") then Some RuleDecide
      else None
  | JArr l => alt_rule alt l
  | _ => None
  end.

Definition rule_valid (r : Rule) : Prop :=
  match r with
  | RuleAllow hosts | RuleDeny hosts => Forall wf_str hosts
  | RuleDecide => True
  end.

#[refine] Definition c_rule : codec Rule := {|
  enc := Rule_value; decode := Rule_from; valid := rule_valid; height := 2;
|}.
Proof.
  - intros [hosts|hosts|]; unfold Rule_value; height_members.
  - intros [hosts|hosts|] Hr; unfold Rule_value; wf_members.
  - by intros [].
  - intros [hosts|hosts|] Hr; unfold Rule_from, Rule_value, tag; find_members;
      cbn [mbind option_bind]; rewrite ?(decode_enc (c_list c_str)) by done; done.
Defined.

Definition default_deny : Action := ActionDeny.
Definition default_max_body_capture : Z := 4096.
Definition default_decide_timeout_ms : Z := 5000.

Definition policy_members (p : Policy) : list (str * json) :=
  [(s!"rules", enc (c_list c_rule) (rules p));
   (s!"default", enc c_action (default_action p));
   (s!"redact", enc (c_list c_str) (redact p));
   (s!"max_body_capture", enc c_u64 (max_body_capture p));
   (s!"decide_timeout_ms", enc c_u64 (decide_timeout_ms p))].

Definition Policy_value (p : Policy) : json := JObj (policy_members p).

Definition Policy_from (v : json) : option Policy :=
  match v with
  | JObj kvs =>
      rules ← dflt (decode (c_list c_rule)) (s!"rules") [] kvs;
      action ← dflt (decode c_action) (s!"default") default_deny kvs;
      redact ← dflt (decode (c_list c_str)) (s!"redact") [] kvs;
      capture ← dflt (decode c_u64) (s!"max_body_capture") default_max_body_capture kvs;
      timeout ← dflt (decode c_u64) (s!"decide_timeout_ms") default_decide_timeout_ms kvs;
      Some {| rules := rules; default_action := action; redact := redact;
              max_body_capture := capture; decide_timeout_ms := timeout |}
  | JArr l => alt_policy alt l
  | _ => None
  end.

(** The values a [Policy] can hold. *)
Definition policy_valid (p : Policy) : Prop :=
  Forall rule_valid (rules p) ∧ Forall wf_str (redact p) ∧
  0 <= max_body_capture p <= u64_max ∧ 0 <= decide_timeout_ms p <= u64_max.

#[refine] Definition c_policy : codec Policy := {|
  enc := Policy_value; decode := Policy_from; valid := policy_valid; height := 4;
|}.
Proof.
  - intros p. unfold Policy_value, policy_members. height_members.
  - intros p (H1 & H2 & H3 & H4). unfold Policy_value, policy_members. wf_members.
  - done.
  - intros p (H1 & H2 & H3 & H4). unfold Policy_from, Policy_value.
    read_fields policy_members. by destruct p.
Defined.

(** ** Frames *)

#[refine] Definition c_kind : codec Kind := {|
  enc k := JStr (match k with
                 | RequestOpened => s!"request_opened"
                 | RequestClosed => s!"request_closed"
                 | RequestAllowed => s!"request_allowed"
                 | RequestDenied => s!"request_denied"
                 | RequestFailed => s!"request_failed"
                 end);
  decode v :=
    name ← enum_name v;
    if str_eqb name (s!"request_opened") then Some RequestOpened
    else if str_eqb name (s!"request_closed") then Some RequestClosed
    else if str_eqb name (s!"request_allowed") then Some RequestAllowed
    else if str_eqb name (s!"request_denied") then Some RequestDenied
    else if str_eqb name (s!"request_failed") then Some RequestFailed
    else None;
  valid _ := True;
  height := 0;
|}.
Proof.
  - done.
  - intros [] _; by apply ascii_wf.
  - by intros [].
  - by intros [] _.
Defined.

Definition matched_valid (m : MatchedRule) : Prop :=
  Z.of_nat (mr_index m) <= u64_max ∧ wf_str (mr_kind m).

#[refine] Definition c_matched : codec MatchedRule := {|
  enc m := JObj [(s!"index", enc c_u64 (Z.of_nat (mr_index m)));
                 (s!"kind", enc c_str (mr_kind m))];
  decode v :=
    match v with
    | JObj kvs =>
        index ← req (decode c_u64) (s!"index") kvs;
        kind ← req (decode c_str) (s!"kind") kvs;
        Some {| mr_index := Z.to_nat index; mr_kind := kind |}
    | JArr l => alt_matched alt l
    | _ => None
    end;
  valid := matched_valid;
  height := 1;
|}.
Proof.
  - intros m. height_members.
  - intros m [H1 H2]. wf_members. cbn. lia.
  - done.
  - intros m [H1 H2]. find_members. cbn [mbind option_bind].
    rewrite (decode_enc c_u64) by (cbn; lia). cbn [mbind option_bind].
    rewrite (decode_enc c_str) by done. cbn. rewrite Nat2Z.id. by destruct m.
Defined.

Definition request_members (r : Request) : list (str * json) :=
  [(s!"id", enc c_str (rq_id r));
   (s!"session_id", enc_opt c_str (rq_session_id r));
   (s!"host", enc c_str (rq_host r));
   (s!"port", enc c_u16 (rq_port r));
   (s!"remote_addr", enc_opt c_str (rq_remote_addr r));
   (s!"scheme", enc c_str (rq_scheme r))]
  ++ maybe c_str (s!"method") (rq_method r)
  ++ maybe c_str (s!"path") (rq_path r)
  ++ maybe c_map (s!"request_headers") (rq_request_headers r)
  ++ maybe c_i32 (s!"response_status") (rq_response_status r)
  ++ [(s!"bytes_in", enc c_u64 (rq_bytes_in r));
      (s!"bytes_out", enc c_u64 (rq_bytes_out r));
      (s!"started_at", enc c_time (rq_started_at r));
      (s!"finished_at", enc_opt c_time (rq_finished_at r))].

(** [Option] fields may be absent whatever their attributes. *)
Definition Request_from (v : json) : option Request :=
  match v with
  | JObj kvs =>
      id ← req (decode c_str) (s!"id") kvs;
      session_id ← dflt (decode_opt c_str) (s!"session_id") None kvs;
      host ← req (decode c_str) (s!"host") kvs;
      port ← req (decode c_u16) (s!"port") kvs;
      remote_addr ← dflt (decode_opt c_str) (s!"remote_addr") None kvs;
      scheme ← req (decode c_str) (s!"scheme") kvs;
      method ← dflt (decode_opt c_str) (s!"method") None kvs;
      path ← dflt (decode_opt c_str) (s!"path") None kvs;
      headers ← dflt (decode_opt c_map) (s!"request_headers") None kvs;
      status ← dflt (decode_opt c_i32) (s!"response_status") None kvs;
      bytes_in ← dflt (decode c_u64) (s!"bytes_in") 0 kvs;
      bytes_out ← dflt (decode c_u64) (s!"bytes_out") 0 kvs;
      started_at ← req (decode c_time) (s!"started_at") kvs;
      finished_at ← dflt (decode_opt c_time) (s!"finished_at") None kvs;
      Some {| rq_id := id; rq_session_id := session_id; rq_host := host; rq_port := port;
              rq_remote_addr := remote_addr; rq_scheme := scheme; rq_method := method;
              rq_path := path; rq_request_headers := headers; rq_response_status := status;
              rq_bytes_in := bytes_in; rq_bytes_out := bytes_out; rq_started_at := started_at;
              rq_finished_at := finished_at |}
  | JArr l => alt_request alt l
  | _ => None
  end.

(** The values a [Request] can hold. *)
Record request_valid (r : Request) : Prop := {
  rv_id : wf_str (rq_id r);
  rv_session : valid_opt wf_str (rq_session_id r);
  rv_host : wf_str (rq_host r);
  rv_port : 0 <= rq_port r <= u16_max;
  rv_remote : valid_opt wf_str (rq_remote_addr r);
  rv_scheme : wf_str (rq_scheme r);
  rv_method : valid_opt wf_str (rq_method r);
  rv_path : valid_opt wf_str (rq_path r);
  rv_headers : valid_opt (map_Forall (λ k v, wf_str k ∧ wf_str v)) (rq_request_headers r);
  rv_status : valid_opt (λ n, - 2 ^ 31 <= n <= 2 ^ 31 - 1) (rq_response_status r);
  rv_in : 0 <= rq_bytes_in r <= u64_max;
  rv_out : 0 <= rq_bytes_out r <= u64_max;
  rv_started : time_ok (rq_started_at r);
  rv_finished : valid_opt time_ok (rq_finished_at r);
}.

#[refine] Definition c_request : codec Request := {|
  enc r := JObj (request_members r); decode := Request_from; valid := request_valid;
  height := 2;
|}.
Proof.
  - intros r. unfold request_members. height_members.
  - intros r []. unfold request_members. wf_members.
  - done.
  - intros r []. unfold Request_from. read_fields request_members. by destruct r.
Defined.

Definition event_members (e : Event) : list (str * json) :=
  [(s!"kind", enc c_kind (ev_kind e)); (s!"request", enc c_request (ev_request e))]
  ++ maybe c_str (s!"reason") (ev_reason e)
  ++ maybe c_matched (s!"matched_rule") (ev_matched_rule e)
  ++ [(s!"at", enc c_time (ev_at e))].

Definition Event_from (v : json) : option Event :=
  match v with
  | JObj kvs =>
      kind ← req (decode c_kind) (s!"kind") kvs;
      request ← req (decode c_request) (s!"request") kvs;
      reason ← dflt (decode_opt c_str) (s!"reason") None kvs;
      matched ← dflt (decode_opt c_matched) (s!"matched_rule") None kvs;
      at_ ← req (decode c_time) (s!"at") kvs;
      Some {| ev_kind := kind; ev_request := request; ev_reason := reason;
              ev_matched_rule := matched; ev_at := at_ |}
  | JArr l => alt_event alt l
  | _ => None
  end.

(** The values an [Event] can hold. *)
Record event_valid (e : Event) : Prop := {
  ev_request_ok : request_valid (ev_request e);
  ev_reason_ok : valid_opt wf_str (ev_reason e);
  ev_matched_ok : valid_opt matched_valid (ev_matched_rule e);
  ev_at_ok : time_ok (ev_at e);
}.

(** [#[serde(tag = "type", rename_all = "snake_case")] enum Outbound]: the tag
    comes first, beside the members of the variant. *)
Definition outbound_members (f : Outbound) : list (str * json) :=
  match f with
  | OutEvent e => (s!"type", JStr (s!"event")) :: event_members e
  | OutDecisionRequest id session_id host port scheme =>
      [(s!"type", JStr (s!"decision_request"));
       (s!"id", enc c_str id);
       (s!"session_id", enc_opt c_str session_id);
       (s!"host", enc c_str host);
       (s!"port", enc c_u16 port);
       (s!"scheme", enc c_str scheme)]
  end.

Definition Outbound_value (f : Outbound) : json := JObj (outbound_members f).

(** The values an [Outbound] can hold. *)
Definition frame_valid (f : Outbound) : Prop :=
  match f with
  | OutEvent e => event_valid e
  | OutDecisionRequest id session_id host port scheme =>
      wf_str id ∧ valid_opt wf_str session_id ∧ wf_str host ∧ 0 <= port <= u16_max ∧
      wf_str scheme
  end.

(** A specification, not code of the crate, which only serialises an [Outbound]:
    the decoder the derived attributes determine, for stating that the encoding
    loses nothing. *)
Definition Outbound_from (v : json) : option Outbound :=
  match v with
  | JObj kvs =>
      t ← tag kvs;
      if str_eqb t (s!"event") then OutEvent <$> Event_from v
      else if str_eqb t (s!"decision_request") then
        id ← req (decode c_str) (s!"id") kvs;
        session_id ← req (decode_opt c_str) (s!"session_id") kvs;
        host ← req (decode c_str) (s!"host") kvs;
        port ← req (decode c_u16) (s!"port") kvs;
        scheme ← req (decode c_str) (s!"scheme") kvs;
        Some (OutDecisionRequest id session_id host port scheme)
      else None
  | _ => None
  end.

(** The tag does not get in the way of the event's own members. *)
Lemma event_from_tagged e :
  event_valid e → Event_from (Outbound_value (OutEvent e)) = Some e.
Proof.
  intros []. unfold Event_from, Outbound_value, outbound_members.
  read_fields event_members. by destruct e.
Qed.

Lemma Outbound_value_wf f : frame_valid f → wf_json (Outbound_value f).
Proof.
  destruct f as [e|id session host port scheme]; unfold Outbound_value, outbound_members.
  - intros []. unfold event_members. wf_members.
  - intros (H1 & H2 & H3 & H4 & H5). wf_members.
Qed.

Lemma Outbound_value_depth f : (depth (Outbound_value f) ≤ 3)%nat.
Proof.
  destruct f; unfold Outbound_value, outbound_members, event_members; height_members.
Qed.

Lemma outbound_tag f :
  tag (outbound_members f) =
  Some (match f with OutEvent _ => s!"event" | _ => s!"decision_request" end).
Proof. destruct f; unfold tag, outbound_members, event_members; by find_members. Qed.

Lemma Outbound_from_value f :
  frame_valid f → Outbound_from (Outbound_value f) = Some f.
Proof.
  intros Hf. eapply bind_some; [apply outbound_tag|].
  destruct f as [e|id session host port scheme].
  - replace (str_eqb (s!"event") (s!"event")) with true by reflexivity.
    change (JObj (outbound_members (OutEvent e))) with (Outbound_value (OutEvent e)).
    by rewrite event_from_tagged.
  - destruct Hf as (H1 & H2 & H3 & H4 & H5).
    replace (str_eqb (s!"decision_request") (s!"event")) with false by reflexivity.
    replace (str_eqb (s!"decision_request") (s!"decision_request")) with true by reflexivity.
    by read_fields outbound_members.
Qed.

(** ** Decisions *)

(** [#[serde(rename_all = "lowercase")] enum DecisionAction]. *)
Definition DecisionAction_from (v : json) : option DecisionAction :=
  name ← enum_name v;
  if str_eqb name (s!"allow") then Some DAllow
  else if str_eqb name (s!"deny") then Some DDeny
  else None.

(** [enum Inbound]: any other tag is [Unknown], whatever the other members. *)
Definition Inbound_from (v : json) : option Inbound :=
  match v with
  | JObj kvs =>
      t ← tag kvs;
      if str_eqb t (s!"decision") then
        id ← req (decode c_str) (s!"id") kvs;
        action ← req DecisionAction_from (s!"action") kvs;
        reason ← dflt (decode_opt c_str) (s!"reason") None kvs;
        Some (InDecision id action reason)
      else Some InUnknown
  | JArr l => alt_inbound alt l
  | _ => None
  end.

End formats.
