(* ===== verification/Texts.v ===== *)
(** * Policy files and control-channel lines

    The texts of the values of [Wire]: the policy file [run_async] parses, the
    lines [write_loop] writes and the lines [read_loop] reads, down to the bytes
    of the stream. *)

From S2P Require Import Prelude Utf8 Strs Json Policy Event Wire.

(** ** Lines of a byte stream *)

(** The lines of a stream, each with its terminator ([read_until(b'\n')]). *)
Fixpoint split_lf (b : bytes) : list bytes :=
  match b with
  | [] => []
  | c :: r =>
      if c =? 10 then [c] :: split_lf r
      else match split_lf r with [] => [[c]] | l :: ls => (c :: l) :: ls end
  end.

(** [next_line] drops the terminator, with a carriage return before it. *)
Definition chop (s : str) : str :=
  match rev s with
  | 10 :: 13 :: r => rev r
  | 10 :: r => rev r
  | _ => s
  end.

(** The lines [read_loop] gets from a stream, until its end or until a line is
    not valid UTF-8. *)
Fixpoint next_lines (ls : list bytes) : list str :=
  match ls with
  | [] => []
  | l :: ls => match from_utf8 l with Some s => chop s :: next_lines ls | None => [] end
  end.

Definition stream_lines (b : bytes) : list str := next_lines (split_lf b).

Lemma split_lf_line l r : 10 ∉ l → split_lf (l ++ 10 :: r) = (l ++ [10]) :: split_lf r.
Proof.
  induction l as [|c l IH]; cbn; [done|]. intros [Hc Hl]%not_elem_of_cons.
  rewrite IH by done. by destruct (Z.eqb_spec c 10).
Qed.

Lemma utf8_char_no_lf c : 32 <= c → 10 ∉ utf8_char c.
Proof.
  intros Hc. unfold utf8_char.
  assert (∀ n, 0 <= n mod 64) as Hm by (intros; apply Z.mod_pos_bound; lia).
  pose proof (Z.div_pos c 64). pose proof (Z.div_pos c 4096). pose proof (Z.div_pos c 262144).
  pose proof (Hm c). pose proof (Hm (c / 64)). pose proof (Hm (c / 4096)).
  repeat case_match; rewrite ?not_elem_of_cons; split_and?; try apply not_elem_of_nil; lia.
Qed.

(** A stream of lines, none of which has a control character, is read back. *)
Lemma stream_lines_cons l b :
  wf_str l → (∀ c, c ∈ l → 32 <= c) →
  stream_lines (as_bytes (l ++ [10]) ++ b) = l :: stream_lines b.
Proof.
  intros Hw Hl. rewrite as_bytes_app, <-app_assoc.
  change (as_bytes [10] ++ b) with (10 :: b). unfold stream_lines.
  rewrite split_lf_line.
  - cbn [next_lines]. change [10] with (as_bytes [10]) at 1.
    rewrite <-as_bytes_app, from_utf8_as_bytes.
    + f_equal. unfold chop. rewrite rev_app_distr. cbn.
      destruct (rev l) as [|c r] eqn:E; [by rewrite <-(rev_involutive l), E|].
      assert (32 <= c) as Hc by (apply Hl; rewrite list_elem_of_In, in_rev, E; by left).
      replace l with (rev (c :: r)) by (by rewrite <-E, rev_involutive).
      repeat (case_match; try lia; try done).
    + apply Forall_app. split; [done|]. by repeat constructor.
  - unfold as_bytes. rewrite list_elem_of_bind. intros (c & Hc & Hin).
    by apply (utf8_char_no_lf c); [apply Hl|].
Qed.

(** The rest of a stream after its last terminator is at most one line. *)
Lemma stream_lines_cut b : 10 ∉ b → (length (stream_lines b) ≤ 1)%nat.
Proof.
  intros Hb. assert (length (split_lf b) ≤ 1)%nat as Hl.
  { induction b as [|c b IH]; cbn; [lia|]. apply not_elem_of_cons in Hb as [Hc Hb].
    specialize (IH Hb). destruct (Z.eqb_spec c 10); [lia|].
    destruct (split_lf b); cbn in *; lia. }
  unfold stream_lines. destruct (split_lf b) as [|l [|]]; cbn in *; try lia.
  case_match; cbn; lia.
Qed.

(** ** Objects up to order, omissions and unknown members *)

#[global] Instance lookups_perm k : Proper ((≡ₚ) ==> (≡ₚ)) (lookups k).
Proof. intros a b H. unfold lookups. by rewrite H. Qed.

#[global] Instance get_perm k : Proper ((≡ₚ) ==> (=)) (get k).
Proof.
  intros a b H. apply (lookups_perm k) in H. unfold get.
  destruct (lookups k a) as [|v [|w l]].
  - by apply Permutation_nil_l in H as <-.
  - by apply Permutation_singleton_l in H as <-.
  - apply Permutation_length in H. by destruct (lookups k b) as [|? [|? ?]].
Qed.

Lemma lookups_filter k (keep : str → bool) l :
  lookups k (filter (λ kv, keep kv.1) l) = if keep k then lookups k l else [].
Proof.
  induction l as [|[k' v] l IH]; [by destruct (keep k)|].
  rewrite filter_cons. cbn [fst]. destruct (keep k') eqn:Ek; cbn [decide].
  - rewrite decide_True by done. rewrite !lookups_cons, IH.
    destruct (str_eqb k' k) eqn:E; [|done]. apply bool_decide_eq_true in E as ->.
    by rewrite Ek.
  - rewrite decide_False by (by rewrite Is_true_false; auto). rewrite IH, lookups_cons.
    destruct (str_eqb k' k) eqn:E; [|done]. apply bool_decide_eq_true in E as ->.
    by rewrite Ek.
Qed.

Lemma lookups_fresh k l : k ∉ l.*1 → lookups k l = [].
Proof.
  induction l as [|[k' v] l IH]; [done|]. rewrite fmap_cons.
  intros [Hk Hl]%not_elem_of_cons. rewrite lookups_cons, IH by done. unfold str_eqb. by rewrite bool_decide_eq_false_2.
Qed.

(** [kvs] has the members of [l] that [keep] keeps, in any order, and [extra]. *)
Lemma get_members k (keep : str → bool) l extra kvs :
  kvs ≡ₚ filter (λ kv, keep kv.1) l ++ extra → k ∉ extra.*1 →
  get k kvs = if keep k then get k l else Some None.
Proof.
  intros -> Hk. unfold get. rewrite lookups_app, (lookups_fresh k extra), app_nil_r by done.
  rewrite lookups_filter. by destruct (keep k).
Qed.

(** ** Texts *)

Section texts.

Context (alt : serde_alt) `{!Chrono} `{!SerdeJson}.

(** [serde_json::from_str::<Policy>]. *)
Definition parse_policy (text : str) : result Policy str :=
  match v ← from_str text; Policy_from alt v with
  | Some p => Ok p
  | None => Err (de_error alt text)
  end.

(** [serde_json::from_str::<Inbound>]. *)
Definition parse_inbound (line : str) : option Inbound :=
  v ← from_str line; Inbound_from alt v.

(** The line [write_loop] writes for a frame. *)
Definition write_line (f : Outbound) : bytes :=
  as_bytes (to_string (Outbound_value alt f) ++ [10]).

(** ** The policy file *)

Definition policy_fields : list str :=
  [s!"rules"; s!"default"; s!"redact"; s!"max_body_capture"; s!"decide_timeout_ms"].

(** A policy of which only the fields [keep] keeps are written down. *)
Definition with_defaults (keep : str → bool) (p : Policy) : Policy :=
  {| rules := if keep (s!"rules") then rules p else [];
     default_action := if keep (s!"default") then default_action p else ActionDeny;
     redact := if keep (s!"redact") then redact p else [];
     max_body_capture :=
       if keep (s!"max_body_capture") then max_body_capture p else 4096;
     decide_timeout_ms :=
       if keep (s!"decide_timeout_ms") then decide_timeout_ms p else 5000 |}.

Lemma dflt_members {A} (d : json → option A) k x (keep : str → bool) l extra kvs v y :
  kvs ≡ₚ filter (λ kv, keep kv.1) l ++ extra → k ∉ extra.*1 →
  get k l = Some (Some v) → d v = Some y →
  dflt d k x kvs = Some (if keep k then y else x).
Proof.
  intros Hp Hk Hg Hd. unfold dflt. rewrite (get_members k keep l extra) by done.
  destruct (keep k); [by rewrite Hg|done].
Qed.

Lemma Policy_from_members p (keep : str → bool) extra kvs :
  policy_valid p →
  (∀ k, k ∈ policy_fields → k ∉ extra.*1) →
  kvs ≡ₚ filter (λ kv, keep kv.1) (policy_members alt p) ++ extra →
  Policy_from alt (JObj kvs) = Some (with_defaults keep p).
Proof.
  intros (H1 & H2 & H3 & H4) Hx Hk. unfold Policy_from.
  repeat (eapply bind_some;
    [eapply (dflt_members _ _ _ keep (policy_members alt p) extra);
       [exact Hk|apply Hx; repeat (try (by left); right)
       |unfold policy_members; find_members; reflexivity|by apply decode_enc]|]).
  done.
Qed.

Lemma Policy_from_repeated k kvs :
  k ∈ policy_fields → get k kvs = None → Policy_from alt (JObj kvs) = None.
Proof.
  intros Hk Hg. assert (∀ A (d : json → option A) x, dflt d k x kvs = None) as Hn
    by (intros; unfold dflt; by rewrite Hg).
  unfold Policy_from. repeat (apply elem_of_cons in Hk as [->|Hk]; [|]).
  all: try by apply not_elem_of_nil in Hk.
  all: rewrite Hn; repeat match goal with
         | |- (None ≫= _) = None => reflexivity
         | |- (?m ≫= _) = None => destruct m; [cbn [mbind option_bind]|done]
         end; done.
Qed.

(** C17: the policy file: a policy that is written down is read back; the order
    of the members does not matter, unknown members are ignored, a member that
    is left out has its default (no rules, deny, no redaction, 4096 bytes, five
    seconds), and a repeated member is refused. *)
Theorem policy_text (p : Policy) (keep : str → bool) (extra kvs : list (str * json))
    (text : str)
    (Hp : policy_valid p)
    (Hextra : ∀ k, k ∈ policy_fields → k ∉ extra.*1)
    (Hkvs : kvs ≡ₚ filter (λ kv, keep kv.1) (policy_members alt p) ++ extra)
    (Htext : from_str text = Some (JObj kvs)) :
  parse_policy (to_string (Policy_value alt p)) = Ok p ∧
  parse_policy text = Ok (with_defaults keep p) ∧
  ∀ text' kvs' k, from_str text' = Some (JObj kvs') → k ∈ policy_fields →
    (2 ≤ length (lookups k kvs'))%nat → parse_policy text' = Err (de_error alt text').
Proof.
  unfold parse_policy. split_and!.
  - rewrite from_to_string; [|by apply (enc_wf (c_policy alt))|].
    2: { etrans; [apply (enc_height (c_policy alt))|]. apply Nat.leb_le. reflexivity. }
    cbn [mbind option_bind].
    by rewrite (decode_enc (c_policy alt) p Hp : Policy_from alt (Policy_value alt p) = _).
  - rewrite Htext. cbn [mbind option_bind]. by rewrite (Policy_from_members p keep extra kvs).
  - intros text' kvs' k Ht Hk Hl. rewrite Ht. cbn [mbind option_bind].
    rewrite (Policy_from_repeated k); [done|done|]. unfold get.
    by destruct (lookups k kvs') as [|? [|? ?]]; cbn in Hl; try lia.
Qed.

(** ** Frames *)

Definition frame_text (f : Outbound) : str := to_string (Outbound_value alt f).

(** A frame as a peer that follows the format reads it from a line (a specification
    of the encoding, not a model of the peer's code). *)
Definition peer_frame (line : str) : option Outbound :=
  v ← from_str line; Outbound_from alt v.

Lemma stream_lines_written fs b :
  Forall frame_valid fs →
  stream_lines (concat (map write_line fs) ++ b) = map frame_text fs ++ stream_lines b.
Proof.
  induction 1 as [|f fs Hf _ IH]; [done|]. cbn [map concat].
  pose proof (Outbound_value_wf alt f Hf) as Hw.
  unfold write_line at 1. rewrite <-app_assoc, stream_lines_cons, IH; [done|..].
  - by apply to_string_wf.
  - intros c. by apply to_string_line.
Qed.

Lemma peer_frame_texts fs :
  Forall frame_valid fs → traverse peer_frame (map frame_text fs) = Some fs.
Proof.
  intros Hfs. rewrite (traverse_map _ _ id), map_id; [done|].
  eapply Forall_impl; [exact Hfs|]. intros f Hf. unfold peer_frame, frame_text.
  rewrite from_to_string; [|by apply Outbound_value_wf|].
  2: { etrans; [apply Outbound_value_depth|]. apply Nat.leb_le. reflexivity. }
  cbn [mbind option_bind].
  by apply Outbound_from_value.
Qed.

(** What a peer reads from the stream: a frame per line. *)
Definition peer_frames (b : bytes) : option (list Outbound) :=
  traverse peer_frame (stream_lines b).

Lemma peer_frames_written fs :
  Forall frame_valid fs → peer_frames (concat (map write_line fs)) = Some fs.
Proof.
  intros Hfs. unfold peer_frames. rewrite <-(app_nil_r (concat _)).
  rewrite stream_lines_written by done. change (stream_lines []) with (@nil str).
  rewrite app_nil_r. by apply peer_frame_texts.
Qed.

(** C13: the lines of the control channel: whatever valid frames are written, in
    whatever number, the peer reads exactly these frames, in order: no value in
    a frame can break a line or be taken for a frame of its own. When a last
    write breaks off in the middle of a line, the complete lines before it are
    still read as the frames they are, and at most one further line is seen. *)
Theorem frames_round_trip (fs : list Outbound) (cut : bytes)
    (Hfs : Forall frame_valid fs) (Hcut : 10 ∉ cut) :
  peer_frames (concat (map write_line fs)) = Some fs ∧
  let ls := stream_lines (concat (map write_line fs) ++ cut) in
  traverse peer_frame (take (length fs) ls) = Some fs ∧
  (length fs ≤ length ls ≤ S (length fs))%nat.
Proof.
  split; [by apply peer_frames_written|]. cbv zeta.
  rewrite stream_lines_written by done. split.
  - rewrite take_app_length' by (by rewrite length_map). by apply peer_frame_texts.
  - rewrite length_app, length_map. pose proof (stream_lines_cut cut Hcut). lia.
Qed.

(** ** Decisions *)

Definition decision_members (id : str) (action : DecisionAction) (reason : option str)
    : list (str * json) :=
  [(s!"type", JStr (s!"decision")); (s!"id", JStr id);
   (s!"action", JStr (match action with DAllow => s!"allow" | DDeny => s!"deny" end))]
  ++ maybe c_str (s!"reason") reason.

Definition decision_fields : list str := [s!"type"; s!"id"; s!"action"; s!"reason"].

(** What a decision is, as a value: an object with exactly one [type], [id] and
    [action], of the right form, and at most one [reason], a string or null;
    or an array the derived decoder takes for one. *)
Definition action_text (a : DecisionAction) : str :=
  match a with DAllow => s!"allow" | DDeny => s!"deny" end.

Inductive reason_values : list json → option str → Prop :=
| reason_absent : reason_values [] None
| reason_null : reason_values [JNull] None
| reason_text r : reason_values [JStr r] (Some r).

Inductive decision_value : json → str → DecisionAction → option str → Prop :=
| decision_obj kvs i av action reason :
    lookups (s!"type") kvs = [JStr (s!"decision")] →
    lookups (s!"id") kvs = [JStr i] →
    lookups (s!"action") kvs = [av] → enum_name alt av = Some (action_text action) →
    reason_values (lookups (s!"reason") kvs) reason →
    decision_value (JObj kvs) i action reason
| decision_arr l i action reason :
    alt_inbound alt l = Some (InDecision i action reason) →
    decision_value (JArr l) i action reason.

Lemma DecisionAction_from_text v a :
  DecisionAction_from alt v = Some a ↔ enum_name alt v = Some (action_text a).
Proof.
  unfold DecisionAction_from, str_eqb. destruct (enum_name alt v) as [n|]; [|by split].
  cbn [mbind option_bind]. do 2 (case_bool_decide; [subst; destruct a; split; naive_solver|]).
  split; [done|]. intros [= ->]. by destruct a.
Qed.

Lemma reason_values_spec kvs r :
  dflt (decode_opt c_str) (s!"reason") None kvs = Some r ↔
  reason_values (lookups (s!"reason") kvs) r.
Proof.
  unfold dflt, get. destruct (lookups (s!"reason") kvs) as [|v [|]]; cbn [mbind option_bind].
  - split; [intros [= <-]; constructor|by inversion 1].
  - split; [|by inversion 1]. destruct v; try done; intros [= <-]; constructor.
  - split; [done|inversion 1].
Qed.

Lemma req_spec {A} (d : json → option A) k kvs x :
  req d k kvs = Some x ↔ ∃ v, lookups k kvs = [v] ∧ d v = Some x.
Proof.
  unfold req, get. destruct (lookups k kvs) as [|v [|]]; cbn [mbind option_bind]; naive_solver.
Qed.

Lemma tag_spec kvs t : tag kvs = Some t ↔ lookups (s!"type") kvs = [JStr t].
Proof.
  unfold tag, req, get. destruct (lookups (s!"type") kvs) as [|v [|]]; cbn [mbind option_bind];
    [done| |done]. destruct v; naive_solver.
Qed.

Lemma c_str_spec v i : decode c_str v = Some i ↔ v = JStr i.
Proof. destruct v; cbn; naive_solver. Qed.

(** The derived decoder takes for a decision exactly what is one. *)
Lemma Inbound_from_decision v i action reason :
  Inbound_from alt v = Some (InDecision i action reason) ↔ decision_value v i action reason.
Proof.
  split.
  - destruct v as [| | | | |l|kvs]; try done; [by constructor|]. unfold Inbound_from.
    destruct (tag kvs) as [t|] eqn:Et; [|done]. cbn [mbind option_bind].
    unfold str_eqb. case_bool_decide as Hd; [subst|done]. intros Hf.
    apply bind_Some in Hf as (i' & Hi & Hf). apply bind_Some in Hf as (a' & Ha & Hf).
    apply bind_Some in Hf as (r' & Hr & [= <- <- <-]).
    apply tag_spec in Et. apply req_spec in Hi as (v & Hi & Hv).
    apply c_str_spec in Hv as ->. apply req_spec in Ha as (av & Ha & Hav).
    apply DecisionAction_from_text in Hav. apply reason_values_spec in Hr. by econstructor.
  - destruct 1 as [kvs i av action reason Ht Hi Ha Hav Hr|]; [|done]. unfold Inbound_from.
    rewrite (proj2 (tag_spec kvs _) Ht). cbn [mbind option_bind].
    replace (str_eqb _ _) with true by reflexivity.
    rewrite (proj2 (req_spec (decode c_str) (s!"id") kvs i)) by eauto. cbn [mbind option_bind].
    rewrite (proj2 (req_spec (DecisionAction_from alt) (s!"action") kvs action))
      by (exists av; by rewrite DecisionAction_from_text). cbn [mbind option_bind].
    by rewrite (proj2 (reason_values_spec kvs reason) Hr).
Qed.

Lemma parse_inbound_decision_iff line i action reason :
  parse_inbound line = Some (InDecision i action reason) ↔
  ∃ v, from_str line = Some v ∧ decision_value v i action reason.
Proof.
  unfold parse_inbound. destruct (from_str line) as [v|]; cbn [mbind option_bind].
  - rewrite Inbound_from_decision. naive_solver.
  - naive_solver.
Qed.

(** An object with the members of a decision, in any order, and unknown ones. *)
Lemma decision_members_value kvs extra i action reason :
  (∀ k, k ∈ decision_fields → k ∉ extra.*1) →
  kvs ≡ₚ decision_members i action reason ++ extra →
  decision_value (JObj kvs) i action reason.
Proof.
  intros Hx Hk.
  assert (∀ k v, k ∈ decision_fields → lookups k (decision_members i action reason) = v →
    (length v ≤ 1)%nat → lookups k kvs = v) as Hg.
  { intros k v Hin Hv Hl. assert (lookups k kvs ≡ₚ v) as Hp.
    { rewrite <-Hv. unfold lookups. rewrite Hk, omap_app.
      fold (lookups k extra). by rewrite (lookups_fresh k extra), app_nil_r by auto. }
    destruct v as [|x [|]]; cbn in Hl; [by apply Permutation_nil|
      by apply Permutation_singleton_r|lia]. }
  econstructor.
  1-3: apply Hg; [repeat (try (by left); right)|unfold decision_members; by find_members;
    rewrite ?app_nil_r|cbn; lia].
  - by destruct action.
  - erewrite Hg; [|repeat (try (by left); right)|reflexivity|].
    + unfold decision_members. find_members. destruct reason; constructor.
    + unfold decision_members. find_members. destruct reason; cbn; lia.
Qed.

End texts.
