(* ===== verification/Api.v ===== *)
(** * The interface between the control channel and its clients

    What [conn::handle] and [h2::proxy_stream] use of [ControlChannel] and of
    [CaContext]: the methods, and the promises their clients rely on. The
    connection theorems are proved against [ControlApi] and [CertApi];
    [Control] and [Tls] discharge them. *)

From S2P Require Import Prelude Utf8 Strs Policy Event.

(** [control::Decision]. *)
Record CtlDecision := { d_action : DecisionAction; d_reason : option str }.

#[global] Instance CtlDecision_eq_dec : EqDecision CtlDecision.
Proof. solve_decision. Defined.

(** The arguments of [request_decision] but the timeout. *)
Record rd_args := {
  ra_id : str;
  ra_session_id : option str;
  ra_host : str;
  ra_port : Z;
  ra_scheme : str;
}.

(** [S] is the state of the channel, [Env] what the other tasks and the peer do
    during one call of [request_decision], or between two calls of the same
    connection ([api_others]). *)
Class ControlApi (S Env : Type) := {
  api_ok : S → Prop;
  api_answered : S → str → CtlDecision → Prop;
  api_emit : Event → S → S;
  api_others : Env → S → S;
  api_request_decision : rd_args → Z → Env → S → option CtlDecision * S;
  api_emit_ok e s : api_ok s → api_ok (api_emit e s);
  api_emit_answered e s i d : api_answered s i d → api_answered (api_emit e s) i d;
  api_others_ok env s : api_ok s → api_ok (api_others env s);
  api_request_ok a timeout env s r s' :
    api_ok s → api_request_decision a timeout env s = (r, s') → api_ok s';
  (** a decision is only ever returned for an id the peer answered *)
  api_authentic a timeout env s d s' :
    api_ok s → api_request_decision a timeout env s = (Some d, s') →
    api_answered s' (ra_id a) d;
}.

(** [TlsError], with the text of the library errors. *)
Inductive TlsError :=
| ReadCa (path : str) (e : str)
| ParseCaCert (e : str)
| ParseCaKey (e : str)
| Rcgen (e : str)
| Rustls (e : str).

(** The [Display] text derived by [thiserror]. *)
Definition TlsError_to_string (e : TlsError) : str :=
  match e with
  | ReadCa p e => s!"reading CA file " ++ p ++ s!": " ++ e
  | ParseCaCert e => s!"parsing CA cert: " ++ e
  | ParseCaKey e => s!"parsing CA key: " ++ e
  | Rcgen e => s!"rcgen: " ++ e
  | Rustls e => s!"rustls: " ++ e
  end.

(** [T] is the state of the certificate cache, [Env] what the other connections
    do during one call of [server_config_for]; an [Arc<ServerConfig>] is a
    number. *)
Class CertApi (T Env : Type) := {
  cert_ok : T → Prop;
  cert_for : T → str → nat → Prop;
  cert_server_config_for : str → Env → T → result nat TlsError * T;
  cert_request_ok host env t r t' :
    cert_ok t → cert_server_config_for host env t = (r, t') → cert_ok t';
  (** the configuration handed out was minted for the host *)
  cert_names_host host env t a t' :
    cert_ok t → cert_server_config_for host env t = (Ok a, t') → cert_for t' host a;
}.
