(* ===== verification/Control.v ===== *)
(** * [condukt_egress/src/proxy/control.rs]: the control channel

    A bounded queue of outbound frames, a map of pending decisions, and the
    task that serves one peer at a time. Every lock-protected or otherwise
    atomic piece of the source is one function on the shared state [ctl]; the
    interleavings of the connection tasks, the reader, the writer and the
    acceptor are the runs of [step]. [request_decision] is the source function
    run against a timed schedule of what the other tasks do meanwhile. *)

From S2P Require Import Prelude Utf8 Strs Policy Event Api.

Definition BUFFER_CAP : nat := 1024.

(** ** State *)

(** A [oneshot] channel, seen from its receiver: no value yet and the sender
    alive, a value sent, or the sender dropped without sending. *)
Inductive oneshot := OsEmpty | OsSent (d : CtlDecision) | OsClosed.

(** Where a call of [request_decision] is between its atomic pieces. *)
Inductive rd_phase :=
| RdRegistered                      (** sender inserted in [pending] *)
| RdWaiting                         (** frame queued, awaiting [rx] *)
| RdCleanup                         (** about to remove the pending entry *)
| RdDone (r : option CtlDecision).  (** returned *)

Record rd_task := { rd_args_of : rd_args; rd_at : rd_phase }.

(** The acceptor task: in [listener.accept()], in [write_loop], or past it and
    waiting for the reader task. The boolean is whether the reader still runs. *)
Inductive peer :=
| Accepting
| Writing (reader : bool)
| Joining (reader : bool).

(** What became of a frame the writer took off the queue. *)
Inductive fate := Written | SerializeFailed | WriteFailed.

Record ctl := {
  out_q : list Outbound;              (** the [mpsc] channel *)
  pending : gmap str nat;             (** id to the task whose sender it holds *)
  oneshots : gmap nat oneshot;        (** the channel of each task *)
  tasks : gmap nat rd_task;           (** the calls of [request_decision] *)
  peer_of : peer;
  accepted : list Outbound;           (** history: frames [try_send] accepted *)
  taken : list (Outbound * fate);     (** history: frames the writer took *)
  answers : list (str * CtlDecision); (** history: decision frames read *)
}.

Definition set_queue (q : list Outbound) (a : list Outbound) (s : ctl) : ctl :=
  {| out_q := q; pending := pending s; oneshots := oneshots s; tasks := tasks s;
     peer_of := peer_of s; accepted := a; taken := taken s; answers := answers s |}.

Definition set_pending (p : gmap str nat) (o : gmap nat oneshot) (s : ctl) : ctl :=
  {| out_q := out_q s; pending := p; oneshots := o; tasks := tasks s;
     peer_of := peer_of s; accepted := accepted s; taken := taken s;
     answers := answers s |}.

Definition set_task (t : nat) (r : rd_task) (s : ctl) : ctl :=
  {| out_q := out_q s; pending := pending s; oneshots := oneshots s;
     tasks := <[t := r]> (tasks s); peer_of := peer_of s; accepted := accepted s;
     taken := taken s; answers := answers s |}.

Definition set_peer (p : peer) (s : ctl) : ctl :=
  {| out_q := out_q s; pending := pending s; oneshots := oneshots s; tasks := tasks s;
     peer_of := p; accepted := accepted s; taken := taken s; answers := answers s |}.

Definition log_answer (i : str) (d : CtlDecision) (s : ctl) : ctl :=
  {| out_q := out_q s; pending := pending s; oneshots := oneshots s; tasks := tasks s;
     peer_of := peer_of s; accepted := accepted s; taken := taken s;
     answers := answers s ++ [(i, d)] |}.

(** [ControlChannel::start], once the listener is bound. *)
Definition start : ctl :=
  {| out_q := []; pending := ∅; oneshots := ∅; tasks := ∅; peer_of := Accepting;
     accepted := []; taken := []; answers := [] |}.

(** ** Operations *)

(** [mpsc::Sender::try_send]: the receiver is never dropped, so the only error
    is a full buffer. *)
Definition try_send (f : Outbound) (s : ctl) : result ctl unit :=
  if (length (out_q s) <? BUFFER_CAP)%nat
  then Ok (set_queue (out_q s ++ [f]) (accepted s ++ [f]) s)
  else Err tt.

(** [ControlChannel::emit]: a full buffer drops the event (with a warning). *)
Definition emit (e : Event) (s : ctl) : ctl :=
  match try_send (OutEvent e) s with Ok s' => s' | Err _ => s end.

(** Dropping the sender of task [t]: a channel that has no value closes. *)
Definition close (t : nat) (o : gmap nat oneshot) : gmap nat oneshot :=
  match o !! t with Some OsEmpty => <[t := OsClosed]> o | _ => o end.

(** [map.remove(&id)], the removed sender being dropped. *)
Definition remove_pending (i : str) (s : ctl) : ctl :=
  match pending s !! i with
  | Some t => set_pending (delete i (pending s)) (close t (oneshots s)) s
  | None => s
  end.

(** [request_decision], first block: a new channel, its sender inserted (a
    sender already there under the same id is dropped). *)
Definition rd_register (t : nat) (a : rd_args) (s : ctl) : ctl :=
  let o := match pending s !! ra_id a with
           | Some t' => close t' (oneshots s)
           | None => oneshots s
           end in
  set_task t {| rd_args_of := a; rd_at := RdRegistered |}
    (set_pending (<[ra_id a := t]> (pending s)) (<[t := OsEmpty]> o) s).

Definition decision_frame (a : rd_args) : Outbound :=
  OutDecisionRequest (ra_id a) (ra_session_id a) (ra_host a) (ra_port a) (ra_scheme a).

(** The [try_send] of the frame. *)
Definition rd_send (t : nat) (a : rd_args) (s : ctl) : ctl :=
  match try_send (decision_frame a) s with
  | Ok s' => set_task t {| rd_args_of := a; rd_at := RdWaiting |} s'
  | Err _ => set_task t {| rd_args_of := a; rd_at := RdCleanup |} s
  end.

(** [Ok(Ok(decision))] or [Ok(Err(_))] of the timed receive; [None] while the
    channel is still open. *)
Definition rd_resolve (t : nat) (a : rd_args) (s : ctl) : option ctl :=
  match oneshots s !! t with
  | Some (OsSent d) => Some (set_task t {| rd_args_of := a; rd_at := RdDone (Some d) |} s)
  | Some OsClosed => Some (set_task t {| rd_args_of := a; rd_at := RdCleanup |} s)
  | _ => None
  end.

(** The timer fired ([Err(Elapsed)]). *)
Definition rd_timeout (t : nat) (a : rd_args) (s : ctl) : ctl :=
  set_task t {| rd_args_of := a; rd_at := RdCleanup |} s.

(** The [map.remove(&id); None] of both failure branches. *)
Definition rd_cleanup (t : nat) (a : rd_args) (s : ctl) : ctl :=
  set_task t {| rd_args_of := a; rd_at := RdDone None |} (remove_pending (ra_id a) s).

Section channel.

(** [serde_json::from_str::<Inbound>]. *)
Variable parse_inbound : str → option Inbound.

Definition handle_line (line : str) (s : ctl) : ctl :=
  match parse_inbound line with
  | None => s
  | Some (InDecision i action reason) =>
      let d := {| d_action := action; d_reason := reason |} in
      let s := log_answer i d s in
      match pending s !! i with
      | Some t => set_pending (delete i (pending s)) (<[t := OsSent d]> (oneshots s)) s
      | None => s
      end
  | Some InUnknown => s
  end.

(** One iteration of [read_loop] on a line. *)
Definition read_line (line : str) (s : ctl) : ctl :=
  if is_empty (trim line) then s else handle_line line s.

(** One iteration of [write_loop] on the frame it receives. *)
Definition write_frame (f : fate) (reader : bool) (s : ctl) : option ctl :=
  match out_q s with
  | [] => None
  | frame :: q =>
      let s' := {| out_q := q; pending := pending s; oneshots := oneshots s;
                   tasks := tasks s; peer_of := peer_of s; accepted := accepted s;
                   taken := taken s ++ [(frame, f)]; answers := answers s |} in
      Some (match f with
            | Written | SerializeFailed => s'
            | WriteFailed => set_peer (Joining reader) s'
            end)
  end.

(** ** The transition system *)

Inductive label :=
| LEmit (e : Event)
| LRegister (t : nat) (a : rd_args)
| LSend (t : nat)
| LResolve (t : nat)
| LTimeout (t : nat)
| LCleanup (t : nat)
| LAccept (ok : bool)      (** [listener.accept()] returns *)
| LWrite (f : fate)        (** the writer takes a frame *)
| LLine (line : str)       (** the reader reads a line *)
| LReaderEnd               (** end of input or read error *)
| LJoined.                 (** [read_task.await] returns *)

(** [None]: the step is not possible in this state. *)
Definition step (l : label) (s : ctl) : option ctl :=
  match l with
  | LEmit e => Some (emit e s)
  | LRegister t a =>
      match tasks s !! t with None => Some (rd_register t a s) | Some _ => None end
  | LSend t =>
      match tasks s !! t with
      | Some {| rd_args_of := a; rd_at := RdRegistered |} => Some (rd_send t a s)
      | _ => None
      end
  | LResolve t =>
      match tasks s !! t with
      | Some {| rd_args_of := a; rd_at := RdWaiting |} => rd_resolve t a s
      | _ => None
      end
  | LTimeout t =>
      match tasks s !! t, oneshots s !! t with
      | Some {| rd_args_of := a; rd_at := RdWaiting |}, Some OsEmpty =>
          Some (rd_timeout t a s)
      | _, _ => None
      end
  | LCleanup t =>
      match tasks s !! t with
      | Some {| rd_args_of := a; rd_at := RdCleanup |} => Some (rd_cleanup t a s)
      | _ => None
      end
  | LAccept b =>
      match peer_of s with
      | Accepting => Some (if b then set_peer (Writing true) s else s)
      | _ => None
      end
  | LWrite f =>
      match peer_of s with Writing r => write_frame f r s | _ => None end
  | LLine line =>
      match peer_of s with
      | Writing true | Joining true => Some (read_line line s)
      | _ => None
      end
  | LReaderEnd =>
      match peer_of s with
      | Writing true => Some (set_peer (Writing false) s)
      | Joining true => Some (set_peer (Joining false) s)
      | _ => None
      end
  | LJoined =>
      match peer_of s with Joining false => Some (set_peer Accepting s) | _ => None end
  end.

Inductive reachable : ctl → Prop :=
| reach_start : reachable start
| reach_step s l s' : reachable s → step l s = Some s' → reachable s'.

(** ** [request_decision] as a function

    What the other tasks do during the call: [env_mid] between the insertion
    and the [try_send], [env_sched] while the call waits (each step with the
    milliseconds since the previous one), [env_late] between the failure and
    the removal of the entry. Steps that are not possible are skipped, and so
    are steps of the calling task itself. *)
Record rd_env := {
  env_mid : list label;
  env_sched : list (Z * label);
  env_late : list label;
}.

Definition own_step (t : nat) (l : label) : bool :=
  match l with
  | LRegister t' _ | LSend t' | LResolve t' | LTimeout t' | LCleanup t' => (t =? t')%nat
  | _ => false
  end.

Definition run1 (l : label) (s : ctl) : ctl := default s (step l s).

#[local] Arguments run1 : simpl never.

Definition run_other (t : nat) (l : label) (s : ctl) : ctl :=
  if own_step t l then s else run1 l s.

Definition run_others (t : nat) (ls : list label) (s : ctl) : ctl :=
  foldl (λ s l, run_other t l s) s ls.

Fixpoint rd_await (t : nat) (timeout : Z) (sched : list (Z * label))
    (late : list label) (s : ctl) : option CtlDecision * ctl :=
  match oneshots s !! t with
  | Some (OsSent d) => (Some d, run1 (LResolve t) s)
  | Some OsClosed =>
      (None, run1 (LCleanup t) (run_others t late (run1 (LResolve t) s)))
  | _ =>
      match sched with
      | (delay, l) :: sched' =>
          if timeout <=? delay
          then (None, run1 (LCleanup t) (run_others t late (run1 (LTimeout t) s)))
          else rd_await t (timeout - delay) sched' late (run_other t l s)
      | [] => (None, run1 (LCleanup t) (run_others t late (run1 (LTimeout t) s)))
      end
  end.

(** The whole call, as task [t]. *)
Definition request_decision (t : nat) (a : rd_args) (timeout : Z) (env : rd_env) (s : ctl)
    : option CtlDecision * ctl :=
  let s := run1 (LRegister t a) s in
  let s := run1 (LSend t) (run_others t (env_mid env) s) in
  match rd_at <$> tasks s !! t with
  | Some RdWaiting => rd_await t timeout (env_sched env) (env_late env) s
  | _ => (None, run1 (LCleanup t) (run_others t (env_late env) s))
  end.

(** ** Invariant *)

Definition not_done (p : rd_phase) : Prop :=
  match p with RdDone _ => False | _ => True end.

(** The pending map, the channels and the calls agree: an entry is the sender
    of a call that has not returned and whose channel is open, an open channel
    is an entry, and a value that was sent or returned was read from the peer. *)
Record core_inv (s : ctl) : Prop := {
  inv_pending i t : pending s !! i = Some t →
    ∃ k, tasks s !! t = Some k ∧ ra_id (rd_args_of k) = i ∧ not_done (rd_at k)
      ∧ oneshots s !! t = Some OsEmpty;
  inv_open t k : tasks s !! t = Some k → oneshots s !! t = Some OsEmpty →
    pending s !! ra_id (rd_args_of k) = Some t;
  inv_task t k : tasks s !! t = Some k → is_Some (oneshots s !! t);
  inv_sent t k d : tasks s !! t = Some k → oneshots s !! t = Some (OsSent d) →
    (ra_id (rd_args_of k), d) ∈ answers s;
  inv_done t k d : tasks s !! t = Some k → rd_at k = RdDone (Some d) →
    (ra_id (rd_args_of k), d) ∈ answers s;
}.

(** The queue is bounded and first in, first out. *)
Record queue_inv (s : ctl) : Prop := {
  inv_cap : (length (out_q s) ≤ BUFFER_CAP)%nat;
  inv_fifo : accepted s = (taken s).*1 ++ out_q s;
}.

Lemma close_lookup t o t' :
  close t o !! t' = if decide (t = t') then match o !! t with Some OsEmpty => Some OsClosed | x => x end
                    else o !! t'.
Proof.
  unfold close. case_decide as E.
  - subst. destruct (o !! t') as [[]|] eqn:Ho; by simplify_map_eq.
  - destruct (o !! t) as [[]|]; by simplify_map_eq.
Qed.

Lemma close_is_Some t o t' : is_Some (o !! t') → is_Some (close t o !! t').
Proof.
  intros [x Hx]. rewrite close_lookup. case_decide; subst; rewrite Hx; [|eauto].
  destruct x; eauto.
Qed.

Lemma close_sent t o t' d :
  close t o !! t' = Some (OsSent d) → o !! t' = Some (OsSent d).
Proof.
  rewrite close_lookup. case_decide; subst; [|done].
  by destruct (o !! t') as [[]|].
Qed.

Lemma close_empty t o t' :
  close t o !! t' = Some OsEmpty → t ≠ t' ∧ o !! t' = Some OsEmpty.
Proof.
  rewrite close_lookup. case_decide; subst; [|done].
  by destruct (o !! t') as [[]|].
Qed.

(** Operations that leave the map, the channels and the calls alone. *)
Lemma core_inv_frame s s' :
  core_inv s → pending s' = pending s → oneshots s' = oneshots s →
  tasks s' = tasks s → answers s' = answers s → core_inv s'.
Proof. intros [H1 H2 H3 H4 H5] E1 E2 E3 E4. split; rewrite ?E1, ?E2, ?E3, ?E4; auto. Qed.

(** A call moves on without touching the map. *)
Lemma core_inv_phase s t k p :
  tasks s !! t = Some k →
  (not_done p ∨ oneshots s !! t ≠ Some OsEmpty) →
  (∀ d, p = RdDone (Some d) → (ra_id (rd_args_of k), d) ∈ answers s) →
  core_inv s → core_inv (set_task t {| rd_args_of := rd_args_of k; rd_at := p |} s).
Proof.
  intros Ht Hp Hd [H1 H2 H3 H4 H5]. split; cbn.
  - intros i t' Hi. destruct (H1 i t' Hi) as (k' & Hk' & Hid & Hnd & Ho).
    destruct (decide (t = t')) as [<-|]; simplify_map_eq; [|by eauto 10].
    eexists. split_and!; [done|done| |done]. naive_solver.
  - intros t' k' Hk' Ho. destruct (decide (t = t')) as [<-|]; simplify_map_eq; eauto.
  - intros t' k' Hk'. destruct (decide (t = t')) as [<-|]; simplify_map_eq; eauto.
  - intros t' k' d Hk' Ho. destruct (decide (t = t')) as [<-|]; simplify_map_eq; eauto.
  - intros t' k' d Hk' Ho. destruct (decide (t = t')) as [<-|]; simplify_map_eq; eauto.
Qed.

Lemma core_inv_register s t a :
  tasks s !! t = None → core_inv s → core_inv (rd_register t a s).
Proof.
  intros Ht Hc. pose proof Hc as [H1 H2 H3 H4 H5].
  assert (∀ i, pending s !! i ≠ Some t) as Hfresh.
  { intros i Hi. destruct (H1 _ _ Hi) as (k & Hk & _). congruence. }
  set (o := match pending s !! ra_id a with Some t' => close t' (oneshots s)
            | None => oneshots s end).
  assert (∀ t' k, tasks s !! t' = Some k → o !! t' = Some OsEmpty →
            oneshots s !! t' = Some OsEmpty ∧ ra_id (rd_args_of k) ≠ ra_id a) as Ho.
  { intros t' k Hk Hop. subst o. destruct (pending s !! ra_id a) as [t0|] eqn:Hp.
    - apply close_empty in Hop as [Hne Hop]. split; [done|]. intros E. specialize (H2 _ _ Hk Hop). congruence.
    - split; [done|]. intros E. specialize (H2 _ _ Hk Hop). congruence. }
  assert (∀ t' d, o !! t' = Some (OsSent d) → oneshots s !! t' = Some (OsSent d)) as Hsent.
  { intros t' d. subst o. destruct (pending s !! ra_id a); [apply close_sent|done]. }
  assert (∀ t', is_Some (oneshots s !! t') → is_Some (o !! t')) as Hsome.
  { intros t'. subst o. destruct (pending s !! ra_id a); [apply close_is_Some|done]. }
  assert (∀ i t', i ≠ ra_id a → pending s !! i = Some t' → o !! t' = Some OsEmpty) as Hoth.
  { intros i t' Hne Hi. destruct (H1 _ _ Hi) as (k & Hk & Hid & _ & Hop). subst o.
    destruct (pending s !! ra_id a) as [t0|] eqn:Hp; [|done].
    rewrite close_lookup. case_decide; [|done]. subst t0.
    destruct (H1 _ _ Hp) as (k' & Hk' & Hid' & _). congruence. }
  split; cbn; fold o.
  - intros i t' Hi. destruct (decide (i = ra_id a)) as [->|Hne]; simplify_map_eq.
    { eexists. by split_and!. }
    destruct (decide (t = t')) as [<-|]; [by exfalso; eapply Hfresh|].
    destruct (H1 _ _ Hi) as (k & Hk & Hid & Hnd & _). exists k.
    simplify_map_eq. eauto.
  - intros t' k Hk Hop. destruct (decide (t = t')) as [<-|]; simplify_map_eq; [done|].
    destruct (Ho _ _ Hk Hop) as [Hop' Hne]. simplify_map_eq. eauto.
  - intros t' k Hk. destruct (decide (t = t')) as [<-|]; simplify_map_eq; eauto.
  - intros t' k d Hk Hs. destruct (decide (t = t')) as [<-|]; simplify_map_eq; eauto.
  - intros t' k d Hk Hs. destruct (decide (t = t')) as [<-|]; simplify_map_eq; eauto.
Qed.

Lemma core_inv_remove s i : core_inv s → core_inv (remove_pending i s).
Proof.
  intros Hc. pose proof Hc as [H1 H2 H3 H4 H5]. unfold remove_pending.
  destruct (pending s !! i) as [t|] eqn:Hi; [|done].
  destruct (H1 _ _ Hi) as (k & Hk & Hid & Hnd & Hop).
  split; cbn.
  - intros i' t' Hi'. apply lookup_delete_Some in Hi' as [Hne Hi'].
    destruct (H1 _ _ Hi') as (k' & Hk' & Hid' & Hnd' & Hop').
    exists k'. split_and!; try done. rewrite close_lookup. case_decide; [congruence|done].
  - intros t' k' Hk' [Hne Hop']%close_empty.
    specialize (H2 _ _ Hk' Hop'). apply lookup_delete_Some. split; [congruence|done].
  - intros t' k' Hk'. apply close_is_Some. eauto.
  - intros t' k' d Hk' Hs%close_sent. eauto.
  - done.
Qed.

Lemma remove_pending_tasks i s : tasks (remove_pending i s) = tasks s.
Proof. unfold remove_pending. by case_match. Qed.

Lemma core_inv_cleanup s t k :
  tasks s !! t = Some k → core_inv s → core_inv (rd_cleanup t (rd_args_of k) s).
Proof.
  intros Hk Hc. unfold rd_cleanup.
  set (i := ra_id (rd_args_of k)). pose proof (core_inv_remove s i Hc) as Hr.
  apply core_inv_phase; [by rewrite remove_pending_tasks| |done|done].
  right. intros Hop. eapply (inv_open _ Hr) in Hop; [|by rewrite remove_pending_tasks].
  fold i in Hop. unfold remove_pending in Hop.
  destruct (pending s !! i) eqn:Hi; cbn in Hop; [|congruence].
  by rewrite lookup_delete_eq in Hop.
Qed.

Lemma core_inv_answer s i d t :
  pending s !! i = Some t → core_inv s →
  core_inv (set_pending (delete i (pending s)) (<[t := OsSent d]> (oneshots s))
              (log_answer i d s)).
Proof.
  intros Hi [H1 H2 H3 H4 H5].
  destruct (H1 _ _ Hi) as (k & Hk & Hid & Hnd & Hop). split; cbn.
  - intros i' t' Hi'. apply lookup_delete_Some in Hi' as [Hne Hi'].
    destruct (H1 _ _ Hi') as (k' & Hk' & Hid' & Hnd' & Hop').
    destruct (decide (t = t')) as [<-|]; [congruence|]. simplify_map_eq. eauto 10.
  - intros t' k' Hk' Hop'. destruct (decide (t = t')) as [<-|]; simplify_map_eq.
    specialize (H2 _ _ Hk' Hop'). apply lookup_delete_Some. split; [congruence|done].
  - intros t' k' Hk'. destruct (decide (t = t')) as [<-|]; simplify_map_eq; eauto.
  - intros t' k' d' Hk' Hs. apply elem_of_app.
    destruct (decide (t = t')) as [<-|]; simplify_map_eq; [right; set_solver|left; eauto].
  - intros t' k' d' Hk' Hs. apply elem_of_app. left. eauto.
Qed.

Lemma core_inv_log s i d : core_inv s → core_inv (log_answer i d s).
Proof. intros [H1 H2 H3 H4 H5]. split; cbn; eauto; intros; apply elem_of_app; eauto. Qed.

Lemma core_inv_line s line : core_inv s → core_inv (read_line line s).
Proof.
  intros Hc. unfold read_line, handle_line. case_match; [done|].
  destruct (parse_inbound line) as [[i act r|]|]; [|done..]. cbn.
  destruct (pending s !! i) eqn:Hi; [by apply core_inv_answer|by apply core_inv_log].
Qed.

Lemma try_send_core f s s' : try_send f s = Ok s' → core_inv s → core_inv s'.
Proof. unfold try_send. case_match; intros; simplify_eq. by eapply core_inv_frame. Qed.

Lemma try_send_queue f s s' : try_send f s = Ok s' → queue_inv s → queue_inv s'.
Proof.
  unfold try_send. destruct (Nat.ltb_spec (length (out_q s)) BUFFER_CAP); [|done].
  intros ? [Hc Hf]. simplify_eq. split; cbn.
  - rewrite length_app. cbn. lia.
  - by rewrite Hf, app_assoc.
Qed.

Lemma try_send_tasks f s s' : try_send f s = Ok s' → tasks s' = tasks s.
Proof. unfold try_send. case_match; intros; by simplify_eq. Qed.

Lemma core_inv_send s t k :
  tasks s !! t = Some k → core_inv s → core_inv (rd_send t (rd_args_of k) s).
Proof.
  intros Hk Hc. unfold rd_send.
  destruct (try_send (decision_frame (rd_args_of k)) s) as [s'|] eqn:E.
  - apply core_inv_phase; [|by left|done|by eapply try_send_core].
    by rewrite (try_send_tasks _ _ _ E).
  - apply core_inv_phase; [done|by left|done|done].
Qed.

(** The queue invariant depends on the queue and its histories only. *)
Lemma queue_inv_frame s s' :
  queue_inv s → out_q s' = out_q s → accepted s' = accepted s → taken s' = taken s →
  queue_inv s'.
Proof. intros [H1 H2] E1 E2 E3. split; by rewrite ?E1, ?E2, ?E3. Qed.

Lemma step_core l s s' : step l s = Some s' → core_inv s → core_inv s'.
Proof.
  intros Hs Hc. destruct l as [e|t a|t|t|t|t|b|f|line| |]; cbn in Hs.
  - simplify_eq. unfold emit. destruct (try_send _ s) eqn:E; [|done].
    by eapply try_send_core.
  - destruct (tasks s !! t) eqn:Ht; simplify_eq. by apply core_inv_register.
  - destruct (tasks s !! t) as [[a []]|] eqn:Ht; simplify_eq.
    by apply (core_inv_send _ _ _ Ht).
  - destruct (tasks s !! t) as [[a []]|] eqn:Ht; simplify_eq. unfold rd_resolve in Hs.
    destruct (oneshots s !! t) as [[]|] eqn:Ho; simplify_eq.
    + apply (core_inv_phase _ _ _ _ Ht); [right; congruence| |done].
      intros ? [= <-]. by eapply (inv_sent _ Hc).
    + apply (core_inv_phase _ _ _ _ Ht); [by left|done|done].
  - destruct (tasks s !! t) as [[a []]|] eqn:Ht; simplify_eq.
    destruct (oneshots s !! t) as [[]|]; simplify_eq.
    apply (core_inv_phase _ _ _ _ Ht); [by left|done|done].
  - destruct (tasks s !! t) as [[a []]|] eqn:Ht; simplify_eq.
    by apply (core_inv_cleanup _ _ _ Ht).
  - destruct (peer_of s); simplify_eq. by destruct b; [eapply core_inv_frame|].
  - destruct (peer_of s); simplify_eq. unfold write_frame in Hs.
    destruct (out_q s); simplify_eq. destruct f; by eapply core_inv_frame.
  - destruct (peer_of s) as [|[]|[]]; simplify_eq; by apply core_inv_line.
  - destruct (peer_of s) as [|[]|[]]; simplify_eq; by eapply core_inv_frame.
  - destruct (peer_of s) as [|[]|[]]; simplify_eq; by eapply core_inv_frame.
Qed.

Lemma remove_pending_queue i s :
  out_q (remove_pending i s) = out_q s ∧ accepted (remove_pending i s) = accepted s
  ∧ taken (remove_pending i s) = taken s.
Proof. unfold remove_pending. by case_match. Qed.

Lemma read_line_queue line s :
  out_q (read_line line s) = out_q s ∧ accepted (read_line line s) = accepted s
  ∧ taken (read_line line s) = taken s.
Proof. unfold read_line, handle_line. repeat case_match; done. Qed.

Lemma step_queue l s s' : step l s = Some s' → queue_inv s → queue_inv s'.
Proof.
  intros Hs Hq. destruct l as [e|t a|t|t|t|t|b|f|line| |]; cbn in Hs.
  - simplify_eq. unfold emit. destruct (try_send _ s) eqn:E; [|done].
    by eapply try_send_queue.
  - case_match; simplify_eq. by eapply queue_inv_frame.
  - repeat case_match; simplify_eq. unfold rd_send.
    destruct (try_send _ s) eqn:E; [|by eapply queue_inv_frame].
    by eapply queue_inv_frame; [eapply try_send_queue|..].
  - unfold rd_resolve in Hs. repeat case_match; simplify_eq; by eapply queue_inv_frame.
  - repeat case_match; simplify_eq; by eapply queue_inv_frame.
  - repeat case_match; simplify_eq. destruct (remove_pending_queue (ra_id rd_args_of0) s) as (?&?&?).
    by eapply queue_inv_frame.
  - repeat case_match; simplify_eq; [by eapply queue_inv_frame|done].
  - destruct (peer_of s); simplify_eq. unfold write_frame in Hs.
    destruct Hq as [Hc Hf]. destruct (out_q s) as [|fr q] eqn:Eq; simplify_eq.
    cbn in Hc. destruct f; split; cbn; try lia;
      rewrite Hf, fmap_app, <-app_assoc; done.
  - destruct (read_line_queue line s) as (?&?&?).
    repeat case_match; simplify_eq; by eapply queue_inv_frame.
  - repeat case_match; simplify_eq; by eapply queue_inv_frame.
  - repeat case_match; simplify_eq; by eapply queue_inv_frame.
Qed.

Lemma start_inv : core_inv start ∧ queue_inv start.
Proof. split; split; cbn; try done; try lia. Qed.

Lemma reachable_inv s : reachable s → core_inv s ∧ queue_inv s.
Proof.
  induction 1 as [|s l s' _ [IHc IHq] Hs]; [apply start_inv|].
  split; [by eapply step_core|by eapply step_queue].
Qed.

(** Every answer was read from a line. *)
Lemma reachable_answers s i d :
  reachable s → (i, d) ∈ answers s →
  ∃ line, parse_inbound line = Some (InDecision i (d_action d) (d_reason d)).
Proof.
  induction 1 as [|s l s' _ IH Hs]; [intros H; by apply elem_of_nil in H|].
  assert (answers s' = answers s ∨ ∃ line, s' = read_line line s) as [->|[line ->]]; [|done|].
  { destruct l as [e|t a|t|t|t|t|b|f|line| |]; cbn in Hs;
      unfold emit, rd_send, try_send, rd_resolve, rd_cleanup, remove_pending, write_frame in *;
      repeat case_match; simplify_eq; eauto. }
  unfold read_line, handle_line. case_match; [done|].
  destruct (parse_inbound line) as [[i' act r|]|] eqn:Hp; [|done..].
  assert ((i, d) ∈ answers s ++ [(i', {| d_action := act; d_reason := r |})] →
    ∃ line, parse_inbound line = Some (InDecision i (d_action d) (d_reason d))) as Ha.
  { intros [?|Hin]%elem_of_app; [auto|]. apply list_elem_of_singleton in Hin. simplify_eq. eauto. }
  cbn. by case_match.
Qed.

Lemma run1_reachable l s : reachable s → reachable (run1 l s).
Proof.
  intros Hr. unfold run1. destruct (step l s) eqn:E; [|done]. by eapply reach_step.
Qed.

#[local] Hint Resolve run1_reachable : preserve.

Lemma run_other_reachable t l s : reachable s → reachable (run_other t l s).
Proof. unfold run_other. case_match; auto with preserve. Qed.

Lemma run_others_reachable t ls s : reachable s → reachable (run_others t ls s).
Proof.
  revert s. induction ls as [|l ls IH]; intros s Hr; [done|].
  apply IH. by apply run_other_reachable.
Qed.

#[local] Hint Resolve run_other_reachable run_others_reachable : preserve.

(** The other tasks do not move a call. *)
Lemma step_other t l s s' :
  step l s = Some s' → own_step t l = false → tasks s' !! t = tasks s !! t.
Proof.
  intros Hs Ho. destruct l as [e|t' a|t'|t'|t'|t'|b|f|line| |]; cbn in Hs, Ho;
    try apply Nat.eqb_neq in Ho.
  - simplify_eq. unfold emit. destruct (try_send _ s) eqn:E; [|done].
    by rewrite (try_send_tasks _ _ _ E).
  - case_match; simplify_eq. by cbn; simplify_map_eq.
  - repeat case_match; simplify_eq. unfold rd_send.
    destruct (try_send _ s) eqn:E; cbn; simplify_map_eq; [|done].
    by rewrite (try_send_tasks _ _ _ E).
  - unfold rd_resolve in Hs. by repeat case_match; simplify_eq; cbn; simplify_map_eq.
  - by repeat case_match; simplify_eq; cbn; simplify_map_eq.
  - repeat case_match; simplify_eq; cbn; simplify_map_eq. by rewrite remove_pending_tasks.
  - by repeat case_match; simplify_eq.
  - unfold write_frame in Hs. by repeat case_match; simplify_eq.
  - assert (tasks (read_line line s) = tasks s) as Ht
      by (unfold read_line, handle_line; by repeat case_match).
    repeat case_match; simplify_eq; by rewrite Ht.
  - by repeat case_match; simplify_eq.
  - by repeat case_match; simplify_eq.
Qed.

Lemma run_other_task t l s : tasks (run_other t l s) !! t = tasks s !! t.
Proof.
  unfold run_other, run1. destruct (own_step t l) eqn:Ho; [done|].
  destruct (step l s) eqn:Hs; [|done]. by eapply step_other.
Qed.

Lemma run_others_task t ls s : tasks (run_others t ls s) !! t = tasks s !! t.
Proof.
  revert s. induction ls as [|l ls IH]; intros s; [done|].
  change (run_others t (l :: ls) s) with (run_others t ls (run_other t l s)).
  by rewrite IH, run_other_task.
Qed.

Definition task_at (t : nat) (a : rd_args) (p : rd_phase) (s : ctl) : Prop :=
  tasks s !! t = Some {| rd_args_of := a; rd_at := p |}.

Lemma run1_register t a s :
  tasks s !! t = None → run1 (LRegister t a) s = rd_register t a s.
Proof. intros Hn. unfold run1. cbn. by rewrite Hn. Qed.

Lemma run1_send t a s :
  task_at t a RdRegistered s → run1 (LSend t) s = rd_send t a s.
Proof. unfold task_at, run1. intros Ht. cbn. by rewrite Ht. Qed.

Lemma rd_finish t a late s :
  task_at t a RdCleanup s →
  task_at t a (RdDone None) (run1 (LCleanup t) (run_others t late s)).
Proof.
  unfold task_at. intros Ht. unfold run1. cbn.
  rewrite run_others_task, Ht. cbn. by simplify_map_eq.
Qed.

Lemma rd_await_done t a timeout sched late s r s' :
  reachable s → task_at t a RdWaiting s →
  rd_await t timeout sched late s = (r, s') → reachable s' ∧ task_at t a (RdDone r) s'.
Proof.
  revert timeout s. induction sched as [|[delay l] sched IH]; intros timeout s Hr Ht He.
  all: destruct (reachable_inv s Hr) as [Hc _].
  all: destruct (inv_task _ Hc _ _ Ht) as [o Ho]; cbn [rd_await] in He; rewrite Ho in He.
  all: assert (∀ s1, reachable s1 → task_at t a RdCleanup s1 →
    (@None CtlDecision, run1 (LCleanup t) (run_others t late s1)) = (r, s') →
    reachable s' ∧ task_at t a (RdDone r) s') as Hfin
    by (intros s1 Hr1 Ht1 ?; simplify_eq;
        eauto using rd_finish with preserve).
  all: assert (o = OsEmpty → task_at t a RdCleanup (run1 (LTimeout t) s)) as Hto
    by (intros ->; unfold task_at, run1; cbn; rewrite Ht, Ho; cbn; by simplify_map_eq).
  all: assert (o = OsClosed → task_at t a RdCleanup (run1 (LResolve t) s)) as Hcl
    by (intros ->; unfold task_at, run1; cbn; rewrite Ht; cbn; unfold rd_resolve;
        rewrite Ho; cbn; by simplify_map_eq).
  all: assert (∀ d, o = OsSent d → task_at t a (RdDone (Some d)) (run1 (LResolve t) s)) as Hse
    by (intros d ->; unfold task_at, run1; cbn; rewrite Ht; cbn; unfold rd_resolve;
        rewrite Ho; cbn; by simplify_map_eq).
  all: destruct o as [|d|];
    [|injection He as <- <-; auto with preserve
     |apply (Hfin (run1 (LResolve t) s)); auto with preserve].
  - apply (Hfin (run1 (LTimeout t) s)); auto with preserve.
  - case_match; [apply (Hfin (run1 (LTimeout t) s)); auto with preserve|].
    eapply IH; [|unfold task_at; by rewrite run_other_task|done].
    by apply run_other_reachable.
Qed.

Lemma rd_register_send t a mid s :
  tasks s !! t = None →
  let s1 := run1 (LSend t) (run_others t mid (run1 (LRegister t a) s)) in
  task_at t a RdWaiting s1 ∨ task_at t a RdCleanup s1.
Proof.
  intros Hn s1.
  assert (task_at t a RdRegistered (run_others t mid (run1 (LRegister t a) s))) as Ht.
  { unfold task_at. rewrite run_others_task, run1_register by done.
    apply lookup_insert_eq. }
  subst s1. rewrite (run1_send _ _ _ Ht). unfold rd_send, task_at.
  destruct (try_send _ _); cbn; simplify_map_eq; auto.
Qed.

Lemma request_decision_done t a timeout env s r s' :
  reachable s → tasks s !! t = None →
  request_decision t a timeout env s = (r, s') →
  reachable s' ∧ task_at t a (RdDone r) s'.
Proof.
  intros Hr Hn He. unfold request_decision in He.
  pose proof (rd_register_send t a (env_mid env) s Hn) as H. cbv zeta in H.
  set (s1 := run1 (LSend t) _) in *.
  assert (reachable s1) as Hr1
    by (subst s1; auto with preserve).
  destruct H as [H|H]; rewrite H in He; cbn in He.
  - by eapply rd_await_done.
  - injection He as <- <-.
    split; [by apply run1_reachable, run_others_reachable|by apply rd_finish].
Qed.

(** ** Where a decision comes from

    The line that settled a call is among what the reader read during it. *)

(** [l] reads a decision for the id. *)
Definition answers_id (i : str) (d : CtlDecision) (l : label) : Prop :=
  ∃ line, l = LLine line ∧ parse_inbound line = Some (InDecision i (d_action d) (d_reason d)).

Lemma step_sent t k l s s' d :
  core_inv s → tasks s !! t = Some k → step l s = Some s' →
  oneshots s' !! t = Some (OsSent d) →
  oneshots s !! t = Some (OsSent d) ∨ answers_id (ra_id (rd_args_of k)) d l.
Proof.
  intros Hc Ht Hs Ho. destruct l as [e|t' a|t'|t'|t'|t'|b|f|line| |]; cbn in Hs.
  - left. unfold emit, try_send in Hs. by repeat case_match; simplify_eq.
  - left. destruct (tasks s !! t') eqn:Ht'; simplify_eq. cbn in Ho.
    rewrite lookup_insert_ne in Ho by congruence.
    by case_match; [eapply close_sent|].
  - left. unfold rd_send, try_send in Hs. by repeat case_match; simplify_eq.
  - left. unfold rd_resolve in Hs. by repeat case_match; simplify_eq.
  - left. by repeat case_match; simplify_eq.
  - left. unfold rd_cleanup, remove_pending in Hs.
    repeat case_match; simplify_eq; cbn in Ho; [by eapply close_sent|done].
  - left. by repeat case_match; simplify_eq.
  - left. unfold write_frame in Hs. by repeat case_match; simplify_eq.
  - assert (s' = read_line line s) as -> by (by repeat case_match; simplify_eq).
    clear Hs. unfold read_line, handle_line in Ho. case_match; [by left|].
    destruct (parse_inbound line) as [[i act r|]|] eqn:Hp; [|by left..]. cbn in Ho.
    destruct (pending s !! i) as [t'|] eqn:Hi; [|by left]. cbn in Ho.
    destruct (decide (t' = t)) as [->|Hne]; [right|left; by rewrite lookup_insert_ne in Ho].
    rewrite lookup_insert_eq in Ho. injection Ho as <-.
    destruct (inv_pending _ Hc _ _ Hi) as (k' & Hk' & <- & _). simplify_eq. by exists line.
  - left. by repeat case_match; simplify_eq.
  - left. by repeat case_match; simplify_eq.
Qed.

Lemma run_other_sent t k l s d :
  reachable s → tasks s !! t = Some k → oneshots (run_other t l s) !! t = Some (OsSent d) →
  oneshots s !! t = Some (OsSent d) ∨ answers_id (ra_id (rd_args_of k)) d l.
Proof.
  intros Hr Ht. unfold run_other, run1. case_match; [by left|].
  destruct (step l s) as [s'|] eqn:Hs; [|by left]. intros Ho.
  by eapply step_sent; [apply (reachable_inv s Hr)|..].
Qed.

Lemma run_others_sent t k ls s d :
  reachable s → tasks s !! t = Some k → oneshots (run_others t ls s) !! t = Some (OsSent d) →
  oneshots s !! t = Some (OsSent d) ∨ Exists (answers_id (ra_id (rd_args_of k)) d) ls.
Proof.
  revert s. induction ls as [|l ls IH]; intros s Hr Ht Ho; [by left|].
  destruct (IH (run_other t l s)) as [Ho'|He]; [by apply run_other_reachable|
    by rewrite run_other_task|done| |by right; apply Exists_cons_tl].
  destruct (run_other_sent t k l s d) as [|]; [done..|by left|by right; apply Exists_cons_hd].
Qed.

Lemma rd_await_sent t k timeout sched late s d s' :
  reachable s → tasks s !! t = Some k → rd_await t timeout sched late s = (Some d, s') →
  oneshots s !! t = Some (OsSent d) ∨
  Exists (answers_id (ra_id (rd_args_of k)) d) sched.*2.
Proof.
  revert timeout s. induction sched as [|[delay l] sched IH]; intros timeout s Hr Ht He;
    cbn [rd_await] in He; destruct (oneshots s !! t) as [[|d'|]|] eqn:Ho; simplify_eq; auto.
  all: destruct (timeout <=? delay); [done|].
  all: destruct (IH _ _ (run_other_reachable t l s Hr) (eq_trans (run_other_task t l s) Ht) He)
    as [Ho'|?]; [|by right; apply Exists_cons_tl].
  all: destruct (run_other_sent t k l s d) as [?|?]; [done..|congruence|
    by right; apply Exists_cons_hd].
Qed.

Lemma request_decision_read t a timeout env s d s' :
  reachable s → tasks s !! t = None → request_decision t a timeout env s = (Some d, s') →
  Exists (answers_id (ra_id a) d) (env_mid env ++ (env_sched env).*2).
Proof.
  intros Hr Hn He. unfold request_decision in He.
  set (s0 := run1 (LRegister t a) s) in *. set (s1 := run_others t (env_mid env) s0) in *.
  assert (task_at t a RdRegistered s0) as Ht0
    by (subst s0; rewrite run1_register by done; apply lookup_insert_eq).
  assert (task_at t a RdRegistered s1) as Ht1 by (unfold task_at; subst s1; by rewrite run_others_task).
  assert (oneshots s0 !! t = Some OsEmpty) as Ho0
    by (subst s0; rewrite run1_register by done; apply lookup_insert_eq).
  assert (reachable s0) as Hr0 by (subst s0; auto with preserve).
  assert (reachable s1) as Hr1 by (subst s1; auto with preserve).
  rewrite (run1_send _ _ _ Ht1) in He. unfold rd_send, try_send in He. apply Exists_app.
  destruct (length (out_q s1) <? BUFFER_CAP)%nat eqn:Hroom; cbn in He;
    rewrite lookup_insert_eq in He; cbn in He; [|done].
  eapply rd_await_sent in He; [| |apply lookup_insert_eq].
  - destruct He as [Ho|?]; [left|by right]. cbn in Ho.
    destruct (run_others_sent t _ _ s0 d Hr0 Ht0 Ho); [congruence|done].
  - eapply (reach_step s1 (LSend t)); [done|]. cbn. rewrite Ht1. unfold rd_send, try_send.
    by rewrite Hroom.
Qed.

(** ** The interface is implemented *)

#[export, refine] Instance control_api : ControlApi ctl rd_env := {|
  api_ok := reachable;
  api_answered s i d := (i, d) ∈ answers s;
  api_emit := emit;
  api_others env s := foldl (λ s l, run1 l s) s (env_mid env);
  api_request_decision a timeout env s :=
    request_decision (fresh (dom (tasks s))) a timeout env s;
|}.
Proof.
  - intros e s Hr. by apply (reach_step s (LEmit e)).
  - intros e s i d Ha. unfold emit, try_send. by repeat case_match; simplify_eq.
  - intros env. induction (env_mid env) as [|l ls IH]; intros s Hr; [done|].
    apply IH. by apply run1_reachable.
  - intros a timeout env s r s' Hr He. eapply request_decision_done in He; [tauto|done|].
    apply not_elem_of_dom, is_fresh.
  - intros a timeout env s d s' Hr He. eapply request_decision_done in He as [Hr' Ht];
      [|done|apply not_elem_of_dom, is_fresh].
    destruct (reachable_inv s' Hr') as [Hc _]. by apply (inv_done _ Hc _ _ _ Ht).
Defined.

(** ** Properties *)

(** C7: nothing leaks: in every reachable state each pending entry is the
    sender of a [request_decision] call that has not returned, registered under
    that call's own id; once all calls have returned the map is empty. *)
Theorem pending_no_leak (s : ctl) (Hr : reachable s) :
  (∀ i t, pending s !! i = Some t →
     ∃ k, tasks s !! t = Some k ∧ ra_id (rd_args_of k) = i ∧ not_done (rd_at k)) ∧
  ((∀ t k, tasks s !! t = Some k → ¬ not_done (rd_at k)) → pending s = ∅).
Proof.
  destruct (reachable_inv s Hr) as [Hc _].
  assert (∀ i t, pending s !! i = Some t →
     ∃ k, tasks s !! t = Some k ∧ ra_id (rd_args_of k) = i ∧ not_done (rd_at k)) as Hp.
  { intros i t Hi. destruct (inv_pending _ Hc _ _ Hi) as (k & ? & ? & ? & _). eauto. }
  split; [exact Hp|]. intros Hdone. apply map_empty. intros i.
  destruct (pending s !! i) as [t|] eqn:Hi; [|done].
  destruct (Hp _ _ Hi) as (k & Hk & _ & Hnd). by destruct (Hdone _ _ Hk).
Qed.

(** C6: every call of [request_decision] returns, whatever the other tasks do
    during it; the entry it registered is gone; and a decision it returns is
    one the peer sent for that very id. *)
Theorem request_decision_correct (t : nat) (a : rd_args) (timeout : Z) (env : rd_env)
    (s : ctl) (Hr : reachable s) (Hn : tasks s !! t = None) :
  let '(r, s') := request_decision t a timeout env s in
  reachable s' ∧ task_at t a (RdDone r) s' ∧
  (∀ i, pending s' !! i ≠ Some t) ∧
  (∀ d, r = Some d → (ra_id a, d) ∈ answers s').
Proof.
  destruct (request_decision t a timeout env s) as [r s'] eqn:He.
  destruct (request_decision_done _ _ _ _ _ _ _ Hr Hn He) as [Hr' Ht].
  destruct (reachable_inv s' Hr') as [Hc _]. split_and!; [done..| |].
  - intros i Hi. destruct (inv_pending _ Hc _ _ Hi) as (k & Hk & _ & Hnd & _).
    unfold task_at in Ht. simplify_eq. done.
  - intros d ->. by apply (inv_done _ Hc _ _ _ Ht).
Qed.

(** [emit] never waits, whether or not a peer is connected. *)
Lemma emit_spec (e : Event) (s : ctl) :
  if (length (out_q s) <? BUFFER_CAP)%nat
  then out_q (emit e s) = out_q s ++ [OutEvent e] ∧ pending (emit e s) = pending s ∧
       peer_of (emit e s) = peer_of s
  else emit e s = s.
Proof. unfold emit, try_send. by case_match. Qed.

(** C19: the outbound buffer never holds more than [BUFFER_CAP] frames, and
    frames leave it in the order [try_send] accepted them, each exactly once.
    [emit] appends its event when there is room, whether or not a peer is
    connected, and drops it, changing nothing, when the buffer is full. *)
Theorem queue_bounded_fifo (s : ctl) (Hr : reachable s) :
  (length (out_q s) ≤ BUFFER_CAP)%nat ∧ accepted s = (taken s).*1 ++ out_q s ∧
  ∀ e, if (length (out_q s) <? BUFFER_CAP)%nat
       then out_q (emit e s) = out_q s ++ [OutEvent e] ∧ pending (emit e s) = pending s ∧
            peer_of (emit e s) = peer_of s
       else emit e s = s.
Proof.
  destruct (reachable_inv s Hr) as [_ [? ?]]. split_and!; [done..|].
  intros e. apply emit_spec.
Qed.

(** ** A call whose answer is under way *)

(** The reader task is at its input. *)
Definition reading (s : ctl) : Prop := peer_of s = Writing true ∨ peer_of s = Joining true.

(** Whatever has nothing to do with the id and leaves the reader running. *)
Definition unrelated (i : str) (l : label) : Prop :=
  match l with
  | LRegister _ b => ra_id b ≠ i
  | LLine line => ∀ action reason, parse_inbound line ≠ Some (InDecision i action reason)
  | LReaderEnd => False
  | _ => True
  end.

(** No call other than [t] is under way under the id. *)
Definition id_unused (t : nat) (i : str) (s : ctl) : Prop :=
  ∀ t' k, t' ≠ t → tasks s !! t' = Some k → ra_id (rd_args_of k) = i → ¬ not_done (rd_at k).

(** The call has its entry in the map and the reader can settle it. *)
Record awaits (t : nat) (a : rd_args) (p : rd_phase) (s : ctl) : Prop := {
  aw_reach : reachable s;
  aw_task : task_at t a p s;
  aw_pending : pending s !! ra_id a = Some t;
  aw_reading : reading s;
  aw_unused : id_unused t (ra_id a) s;
}.

Lemma id_unused_set t i t' k p s :
  id_unused t i s → tasks s !! t' = Some k → not_done (rd_at k) →
  id_unused t i (set_task t' {| rd_args_of := rd_args_of k; rd_at := p |} s).
Proof.
  intros Hu Hk Hnd t1 k1 Hne Hk1 Hid. cbn in Hk1.
  destruct (decide (t' = t1)) as [->|]; simplify_map_eq; [by destruct (Hu t1 k)|by eapply Hu].
Qed.

Lemma id_unused_frame t i s s' : tasks s' = tasks s → id_unused t i s → id_unused t i s'.
Proof. unfold id_unused. by intros ->. Qed.

Lemma remove_pending_lookup i j s : i ≠ j → pending (remove_pending i s) !! j = pending s !! j.
Proof. intros Hne. unfold remove_pending. case_match; [|done]. by apply lookup_delete_ne. Qed.

Lemma remove_pending_peer i s : peer_of (remove_pending i s) = peer_of s.
Proof. unfold remove_pending. by case_match. Qed.

Lemma step_unused t i l s s' :
  own_step t l = false → unrelated i l → step l s = Some s' → id_unused t i s → id_unused t i s'.
Proof.
  intros Hown Hl Hs Hu. destruct l as [e|t' b|t'|t'|t'|t'|b|f|line| |]; cbn in Hs, Hl.
  - eapply id_unused_frame, Hu. unfold emit, try_send in Hs. by repeat case_match; simplify_eq.
  - case_match; simplify_eq. intros t1 k1 Hne Hk1 Hid. cbn in Hk1.
    destruct (decide (t' = t1)) as [->|]; simplify_map_eq. by eapply Hu.
  - destruct (tasks s !! t') as [[b []]|] eqn:Ht; simplify_eq. unfold rd_send, try_send.
    destruct (_ <? _)%nat; [|by apply (id_unused_set _ _ _ _ _ _ Hu Ht)].
    apply (id_unused_set _ _ _ {| rd_args_of := b; rd_at := RdRegistered |}); [|exact Ht|exact I].
    by eapply id_unused_frame, Hu.
  - destruct (tasks s !! t') as [[b []]|] eqn:Ht; simplify_eq. unfold rd_resolve in Hs.
    repeat case_match; simplify_eq; by apply (id_unused_set _ _ _ _ _ _ Hu Ht).
  - destruct (tasks s !! t') as [[b []]|] eqn:Ht; simplify_eq.
    repeat case_match; simplify_eq; by apply (id_unused_set _ _ _ _ _ _ Hu Ht).
  - destruct (tasks s !! t') as [[b []]|] eqn:Ht; simplify_eq. unfold rd_cleanup.
    apply (id_unused_set _ _ _ {| rd_args_of := b; rd_at := RdCleanup |});
      [|by rewrite remove_pending_tasks|done].
    eapply id_unused_frame, Hu. apply remove_pending_tasks.
  - eapply id_unused_frame, Hu. by repeat case_match; simplify_eq.
  - eapply id_unused_frame, Hu. unfold write_frame in Hs. by repeat case_match; simplify_eq.
  - eapply id_unused_frame, Hu. unfold read_line, handle_line in Hs.
    by repeat case_match; simplify_eq.
  - done.
  - eapply id_unused_frame, Hu. by repeat case_match; simplify_eq.
Qed.

Lemma step_reading l s s' : l ≠ LReaderEnd → step l s = Some s' → reading s → reading s'.
Proof.
  unfold reading. intros Hl Hs Hr. destruct l as [e|t b|t|t|t|t|b|f|line| |]; cbn in Hs.
  all: unfold emit, rd_send, try_send, rd_resolve, rd_cleanup, remove_pending, read_line,
    handle_line, write_frame in Hs.
  all: repeat case_match; simplify_eq; cbn in *; try done; naive_solver.
Qed.

Lemma step_pending_kept t i l s s' :
  own_step t l = false → unrelated i l → step l s = Some s' → id_unused t i s →
  pending s !! i = Some t → pending s' !! i = Some t.
Proof.
  intros Hown Hl Hs Hu Hp. destruct l as [e|t' b|t'|t'|t'|t'|b|f|line| |]; cbn in Hs, Hl, Hown.
  - unfold emit, try_send in Hs. by repeat case_match; simplify_eq.
  - case_match; simplify_eq. cbn. by rewrite lookup_insert_ne.
  - unfold rd_send, try_send in Hs. by repeat case_match; simplify_eq.
  - unfold rd_resolve in Hs. by repeat case_match; simplify_eq.
  - by repeat case_match; simplify_eq.
  - apply Nat.eqb_neq in Hown. destruct (tasks s !! t') as [[b []]|] eqn:Ht; simplify_eq. cbn.
    rewrite remove_pending_lookup; [done|]. intros E. by destruct (Hu t' _ (not_eq_sym Hown) Ht E).
  - by repeat case_match; simplify_eq.
  - unfold write_frame in Hs. by repeat case_match; simplify_eq.
  - assert (s' = read_line line s) as -> by (by repeat case_match; simplify_eq).
    clear Hs. unfold read_line, handle_line. case_match; [done|].
    destruct (parse_inbound line) as [[j act r|]|] eqn:Hl'; [|done..]. cbn.
    destruct (pending s !! j) eqn:Hj; [|done]. cbn. rewrite lookup_delete_ne; [done|].
    intros ->. by destruct (Hl act r).
  - done.
  - by repeat case_match; simplify_eq.
Qed.

Lemma run_other_awaits t a p l s :
  unrelated (ra_id a) l → awaits t a p s → awaits t a p (run_other t l s).
Proof.
  intros Hl [H1 H2 H3 H4 H5]. unfold run_other, run1.
  destruct (own_step t l) eqn:Hown; [done|]. destruct (step l s) as [s'|] eqn:Hs; [|done].
  cbn. split.
  - by eapply reach_step.
  - unfold task_at. by rewrite (step_other t l s s').
  - by eapply step_pending_kept.
  - eapply step_reading; [|done..]. by intros ->.
  - by eapply step_unused.
Qed.

Lemma run_others_awaits t a p ls s :
  Forall (unrelated (ra_id a)) ls → awaits t a p s → awaits t a p (run_others t ls s).
Proof.
  intros Hls. revert s. induction Hls as [|l ls Hl _ IH]; intros s Hs; [done|].
  apply IH. by apply run_other_awaits.
Qed.

Lemma awaits_open t a p s : not_done p → awaits t a p s → oneshots s !! t = Some OsEmpty.
Proof.
  intros _ [Hr _ Hp _ _]. destruct (reachable_inv s Hr) as [Hc _].
  by destruct (inv_pending _ Hc _ _ Hp) as (k & _ & _ & _ & ?).
Qed.

Lemma register_awaits t a s :
  reachable s → tasks s !! t = None → reading s → id_unused t (ra_id a) s →
  awaits t a RdRegistered (run1 (LRegister t a) s).
Proof.
  intros Hr Hn Hp Hu. split; [auto with preserve|..]; rewrite run1_register by done.
  - apply lookup_insert_eq.
  - apply lookup_insert_eq.
  - done.
  - intros t' k Hne Hk. cbn in Hk. rewrite lookup_insert_ne in Hk by done. exact (Hu t' k Hne Hk).
Qed.

Lemma send_awaits t a s :
  awaits t a RdRegistered s → (length (out_q s) < BUFFER_CAP)%nat →
  awaits t a RdWaiting (run1 (LSend t) s).
Proof.
  intros [Hr Ht Hp Hrd Hu] Hroom. split; [auto with preserve|..]; rewrite (run1_send t a s Ht);
    unfold rd_send, try_send; rewrite (proj2 (Nat.ltb_lt _ _) Hroom).
  - apply lookup_insert_eq.
  - done.
  - done.
  - eapply id_unused_set with (k := {| rd_args_of := a; rd_at := RdRegistered |}); done.
Qed.

(** The answer is read: the call has it. *)
Lemma rd_await_answer t a timeout line action reason rest late s :
  awaits t a RdWaiting s → is_empty (trim line) = false →
  parse_inbound line = Some (InDecision (ra_id a) action reason) →
  (rd_await t timeout rest late (run_other t (LLine line) s)).1 =
  Some {| d_action := action; d_reason := reason |}.
Proof.
  intros [_ _ Hp Hrd _] Htrim Hparse.
  assert (oneshots (run_other t (LLine line) s) !! t =
    Some (OsSent {| d_action := action; d_reason := reason |})) as Ho.
  { unfold run_other, run1. cbn.
    assert (step (LLine line) s = Some (read_line line s)) as Hs
      by (cbn; by destruct Hrd as [-> | ->]).
    cbn in Hs. rewrite Hs. cbn. unfold read_line, handle_line. rewrite Htrim, Hparse. cbn.
    rewrite Hp. apply lookup_insert_eq. }
  destruct rest as [|[? ?] ?]; cbn [rd_await]; by rewrite Ho.
Qed.

Lemma rd_await_timely t a timeout pre delay line action reason rest late s :
  awaits t a RdWaiting s → is_empty (trim line) = false →
  parse_inbound line = Some (InDecision (ra_id a) action reason) →
  Forall (unrelated (ra_id a)) pre.*2 → Forall (λ d, 0 <= d) pre.*1 → 0 <= delay →
  (rd_await t timeout (pre ++ (delay, LLine line) :: rest) late s).1 =
  if foldr Z.add 0 pre.*1 + delay <? timeout
  then Some {| d_action := action; d_reason := reason |} else None.
Proof.
  intros Haw Htrim Hparse Hun Hpos Hd. revert timeout s Haw.
  induction pre as [|[delay' l] pre IH]; intros timeout s Haw;
    cbn [app rd_await]; rewrite (awaits_open t a RdWaiting s I Haw), Z.leb_antisym.
  - replace (foldr Z.add 0 (@nil (Z * label)).*1 + delay) with delay by done.
    destruct (delay <? timeout); [|done]. cbn. by eapply rd_await_answer.
  - cbn in *. inversion Hun as [|? ? Hl Hun']. inversion Hpos as [|? ? Hd' Hpos']. subst.
    assert (0 <= foldr Z.add 0 pre.*1) as Hs
      by (clear -Hpos'; induction Hpos'; cbn; lia).
    destruct (Z.ltb_spec delay' timeout); cbn.
    + rewrite IH by (done || by apply run_other_awaits).
      by replace (foldr Z.add 0 pre.*1 + delay <? timeout - delay')
        with (delay' + foldr Z.add 0 pre.*1 + delay <? timeout) by lia.
    + by replace (delay' + foldr Z.add 0 pre.*1 + delay <? timeout) with false by lia.
Qed.


(** Only a failed write ends the service of a peer. *)
Lemma step_writing l s s' r :
  step l s = Some s' → peer_of s = Writing r → l ≠ LWrite WriteFailed →
  ∃ r', peer_of s' = Writing r'.
Proof.
  intros Hs Hp Hl. destruct l as [e|t a|t|t|t|t|b|f|line| |]; cbn in Hs; rewrite ?Hp in Hs.
  - simplify_eq. unfold emit, try_send. repeat case_match; simplify_eq; eauto.
  - repeat case_match; simplify_eq; eauto.
  - unfold rd_send, try_send in Hs. repeat case_match; simplify_eq; eauto.
  - unfold rd_resolve in Hs. repeat case_match; simplify_eq; eauto.
  - repeat case_match; simplify_eq; eauto.
  - unfold rd_cleanup, remove_pending in Hs. repeat case_match; simplify_eq; eauto.
  - done.
  - unfold write_frame in Hs. repeat case_match; simplify_eq; cbn; eauto.
  - unfold read_line, handle_line in Hs. repeat case_match; simplify_eq; eauto.
  - repeat case_match; simplify_eq; cbn; eauto.
  - done.
Qed.

(** A step takes the frame at the head of the queue, or leaves the queue and
    possibly appends to it. *)
Lemma step_queue_effect l s s' :
  step l s = Some s' →
  match l with
  | LWrite fate => ∃ fr, out_q s = fr :: out_q s' ∧ taken s' = taken s ++ [(fr, fate)]
  | _ => (∃ more, out_q s' = out_q s ++ more) ∧ taken s' = taken s
  end.
Proof.
  intros Hs.
  assert (∀ s1 : ctl, out_q s1 = out_q s → taken s1 = taken s →
    (∃ more, out_q s1 = out_q s ++ more) ∧ taken s1 = taken s) as Hsame.
  { intros s1 -> ->. split; [|done]. exists []. by rewrite app_nil_r. }
  destruct l as [e|t a|t|t|t|t|b|f|line| |]; cbn in Hs.
  - simplify_eq. unfold emit, try_send. repeat case_match; simplify_eq; cbn; eauto.
  - repeat case_match; simplify_eq; by apply Hsame.
  - unfold rd_send, try_send in Hs. repeat case_match; simplify_eq; cbn; eauto; by apply Hsame.
  - unfold rd_resolve in Hs. repeat case_match; simplify_eq; by apply Hsame.
  - repeat case_match; simplify_eq; by apply Hsame.
  - repeat case_match; simplify_eq.
    apply Hsame; cbn; apply (remove_pending_queue (ra_id rd_args_of0) s).
  - repeat case_match; simplify_eq; by apply Hsame.
  - unfold write_frame in Hs. repeat case_match; simplify_eq; cbn; eauto.
  - destruct (read_line_queue line s) as (? & _ & ?).
    repeat case_match; simplify_eq; by apply Hsame.
  - repeat case_match; simplify_eq; by apply Hsame.
  - repeat case_match; simplify_eq; by apply Hsame.
Qed.

(** C36: one peer at a time, and no replacement: a connection is accepted only
    when no peer is being served, and a peer stops being served only when a
    write to it fails. A peer that has gone away keeps the channel until then. *)
Theorem peer_not_replaced (l : label) (s s' : ctl) (Hs : step l s = Some s') :
  (∀ b, l = LAccept b → peer_of s = Accepting) ∧
  (∀ r, peer_of s = Writing r → l ≠ LWrite WriteFailed → ∃ r', peer_of s' = Writing r').
Proof.
  split; [|intros r; by apply step_writing].
  intros b ->. cbn in Hs. by destruct (peer_of s).
Qed.

(** The first answer for an id settles it: a decision frame takes the entry
    out of the map and gives its waiter the value; any later frame for the id,
    like a frame for an unknown id, an unparsable line or an unknown frame
    type, changes no channel, no call and no entry. *)
Lemma first_answer_wins (line : str) (s : ctl) :
  match parse_inbound line with
  | Some (InDecision i action reason) =>
      let s' := handle_line line s in
      pending s' = delete i (pending s) ∧ tasks s' = tasks s ∧
      (∀ t, pending s !! i = Some t →
         oneshots s' = <[t := OsSent {| d_action := action; d_reason := reason |}]> (oneshots s)) ∧
      (pending s !! i = None → oneshots s' = oneshots s) ∧
      ∀ line' action' reason', parse_inbound line' = Some (InDecision i action' reason') →
        oneshots (handle_line line' s') = oneshots s' ∧
        pending (handle_line line' s') = pending s' ∧
        tasks (handle_line line' s') = tasks s'
  | _ => handle_line line s = s
  end.
Proof.
  destruct (parse_inbound line) as [[i action rsn|]|] eqn:Hp; unfold handle_line;
    rewrite Hp; [|done..]. cbn.
  destruct (pending s !! i) as [t|] eqn:Hi; cbn.
  - split_and!; [done|done|naive_solver|done|].
    intros line' a' r' ->. by rewrite lookup_delete_eq.
  - split_and!; [by rewrite delete_id|done|done|done|].
    intros line' a' r' ->. by rewrite Hi.
Qed.

End channel.

(** ** Concrete runs *)

Module Examples.

(** A peer that allows request [d1] on the line [yes]. *)
Definition parse (line : str) : option Inbound :=
  if str_eqb line (s!"yes") then Some (InDecision (s!"d1") DAllow None) else None.

Definition args : rd_args :=
  {| ra_id := s!"d1"; ra_session_id := None; ra_host := s!"evil.com"; ra_port := 443;
     ra_scheme := s!"https" |}.

Definition run_from_start (ls : list label) : ctl := foldl (λ s l, run1 parse l s) start ls.

Lemma run_from_start_reachable ls : reachable parse (run_from_start ls).
Proof.
  unfold run_from_start. generalize (reach_start parse). generalize start.
  induction ls as [|l ls IH]; intros s Hs; [done|]. apply IH. by apply run1_reachable.
Defined.

(** A connected peer and one call waiting for it. *)
Definition waiting : ctl := run_from_start [LAccept true; LRegister 0 args; LSend 0].

Lemma pending_no_leak_witness :
  pending waiting !! (s!"d1") = Some 0%nat ∧
  ∃ k, tasks waiting !! 0%nat = Some k ∧ ra_id (rd_args_of k) = s!"d1" ∧ not_done (rd_at k).
Proof.
  split; [vm_compute; reflexivity|].
  apply (proj1 (pending_no_leak parse waiting (run_from_start_reachable _)) (s!"d1") 0%nat).
  vm_compute; reflexivity.
Defined.

Definition answered_env : rd_env :=
  {| env_mid := []; env_sched := [(20, LLine (s!"yes"))]; env_late := [] |}.

Lemma request_decision_correct_witness :
  let '(r, s') := request_decision parse 0 args 50 answered_env (run_from_start [LAccept true]) in
  r = Some {| d_action := DAllow; d_reason := None |} ∧ pending s' !! (s!"d1") ≠ Some 0%nat.
Proof.
  pose proof (request_decision_correct parse 0 args 50 answered_env
    (run_from_start [LAccept true]) (run_from_start_reachable _) eq_refl) as H.
  destruct (request_decision parse 0 args 50 answered_env _) as [r s'] eqn:E.
  split; [|apply H].
  apply (f_equal fst) in E. vm_compute in E. symmetry. exact E.
Defined.

Lemma queue_bounded_fifo_witness :
  out_q waiting ≠ [] ∧ (length (out_q waiting) ≤ BUFFER_CAP)%nat.
Proof.
  split; [vm_compute; discriminate|].
  exact (proj1 (queue_bounded_fifo parse waiting (run_from_start_reachable _))).
Defined.

Definition other_args : rd_args :=
  {| ra_id := s!"d2"; ra_session_id := None; ra_host := s!"b.com"; ra_port := 80;
     ra_scheme := s!"http" |}.

(** Frames are written and another call registers and sends before the answer. *)
Definition busy_env (delay : Z) : rd_env :=
  {| env_mid := [LRegister 1 other_args]; env_late := [];
     env_sched := [(20, LWrite Written); (10, LSend 1)] ++ [(delay, LLine (s!"yes"))] |}.


Lemma peer_not_replaced_witness :
  ∃ r', peer_of (run_from_start [LAccept true; LReaderEnd]) = Writing r'.
Proof.
  apply (proj2 (peer_not_replaced parse LReaderEnd (run_from_start [LAccept true])
    (run_from_start [LAccept true; LReaderEnd]) eq_refl) true eq_refl).
  discriminate.
Defined.

End Examples.
