(* ===== verification/Channel.v ===== *)
(** * The control channel over the wire, and its progress

    [Control] over the lines of [Texts]: what a line of the peer does to the
    waiting calls, and that a frame the buffer accepted is eventually written as
    long as the writer runs and its writes succeed. *)

From S2P Require Import Prelude Utf8 Strs Json Policy Event Wire Texts Api Control.

(** ** Lines of the peer *)

Section lines.

Context (alt : serde_alt) `{!SerdeJson}.

(** A line that is blank is not a frame either way. *)
Lemma read_line_handle line s :
  read_line (parse_inbound alt) line s = handle_line (parse_inbound alt) line s.
Proof.
  unfold read_line. destruct (is_empty (trim line)) eqn:E; [|done].
  unfold handle_line, parse_inbound. destruct (from_str line) as [v|] eqn:Hf; [|done].
  destruct (from_str_blank line v); [|done]. by destruct (trim line).
Qed.

(** C14: a decision on the wire: a line whose value is a decision takes the entry
    of its id out of the map and gives the call that waits under it, and no other,
    the action and the reason; sent again, or sent for an unknown id, it does
    nothing. Every other line (not JSON, another or a repeated type, a missing,
    repeated or ill-formed id, action or reason) changes nothing at all. The
    members of a decision may come in any order and with unknown ones. *)
Theorem decision_line (line : str) (s : ctl) :
  let read := read_line (parse_inbound alt) in
  let s' := read line s in
  (∀ v i action reason,
     from_str line = Some v → decision_value alt v i action reason →
     pending s' = delete i (pending s) ∧ tasks s' = tasks s ∧ out_q s' = out_q s ∧
     (∀ t, oneshots s' !! t =
        if decide (pending s !! i = Some t)
        then Some (OsSent {| d_action := action; d_reason := reason |}) else oneshots s !! t) ∧
     oneshots (read line s') = oneshots s' ∧ pending (read line s') = pending s') ∧
  ((∀ v i action reason, from_str line = Some v → ¬ decision_value alt v i action reason) →
     s' = s) ∧
  (∀ kvs extra i action reason,
     (∀ k, k ∈ decision_fields → k ∉ extra.*1) →
     kvs ≡ₚ decision_members i action reason ++ extra →
     decision_value alt (JObj kvs) i action reason).
Proof.
  cbv zeta. rewrite !read_line_handle. split_and!.
  - intros v i action reason Hline Hv.
    pose proof (proj2 (parse_inbound_decision_iff alt line i action reason)) as Hp.
    specialize (Hp (ex_intro _ v (conj Hline Hv))).
    pose proof (first_answer_wins (parse_inbound alt) line s) as Hw. rewrite Hp in Hw.
    destruct Hw as (H1 & H2 & H3 & H4 & H5). destruct (H5 line action reason Hp) as (H6 & H7 & _).
    split_and!; try done.
    + rewrite <-read_line_handle. by apply read_line_queue.
    + intros t. case_decide as Ht.
      * rewrite (H3 t Ht). apply lookup_insert_eq.
      * destruct (pending s !! i) as [t'|]; [|by rewrite H4].
        rewrite (H3 t' eq_refl), lookup_insert_ne by congruence. done.
  - intros Hno. unfold handle_line.
    destruct (parse_inbound alt line) as [[i action reason|]|] eqn:Hp; [|done|done].
    apply parse_inbound_decision_iff in Hp as (v & Hl & Hv). by destruct (Hno v i action reason).
  - intros. by eapply decision_members_value.
Qed.

End lines.

(** ** Progress of the writer *)

Section progress.

Variable parse : str → option Inbound.

(** The [write_loop] can take a frame. *)
Definition write_enabled (s : ctl) : Prop :=
  (∃ r, peer_of s = Writing r) ∧ out_q s ≠ [].

(** An infinite run: at every instant a task takes a step, or none does. *)
Definition run_of (σ : nat → ctl) (ls : nat → option label) : Prop :=
  ∀ i, match ls i with
       | Some l => step parse l (σ i) = Some (σ (S i))
       | None => σ (S i) = σ i
       end.

(** Weak fairness: a writer that can go on is not kept from it for ever. *)
Definition writer_fair (σ : nat → ctl) (ls : nat → option label) : Prop :=
  ∀ i, ∃ j, (i ≤ j)%nat ∧ ((∃ f, ls j = Some (LWrite f)) ∨ ¬ write_enabled (σ j)).

Lemma write_enabled_step s :
  write_enabled s → ∃ s', step parse (LWrite Written) s = Some s'.
Proof.
  intros [[r Hr] Hq]. cbn. rewrite Hr. unfold write_frame.
  destruct (out_q s); [done|]. by eexists.
Qed.

Context (σ : nat → ctl) (ls : nat → option label).
Hypothesis Hrun : run_of σ ls.
Hypothesis Hfair : writer_fair σ ls.

(** From an instant at which a peer is served and from which no write fails. *)
Lemma run_keeps i j :
  (i ≤ j)%nat → (∀ k, (i ≤ k)%nat → ls k ≠ Some (LWrite WriteFailed)) →
  (∃ r, peer_of (σ i) = Writing r) → ∃ r, peer_of (σ j) = Writing r.
Proof.
  intros Hij Hok Hp. induction Hij as [|j Hij [r IH]]; [done|].
  specialize (Hrun j). specialize (Hok j ltac:(lia)).
  destruct (ls j) as [l|]; [|rewrite Hrun; eauto].
  eapply step_writing; [exact Hrun|exact IH|congruence].
Qed.

(** The next time the writer takes a frame, it takes the head of the queue. *)
Lemma next_write i q fr :
  (∀ k, (i ≤ k)%nat → ls k ≠ Some (LWrite WriteFailed)) →
  (∃ r, peer_of (σ i) = Writing r) → out_q (σ i) = fr :: q →
  ∃ j f more, (i < j)%nat ∧ f ≠ WriteFailed ∧ taken (σ j) = taken (σ i) ++ [(fr, f)] ∧
    out_q (σ j) = q ++ more.
Proof.
  intros Hok Hp Hq. destruct (Hfair i) as (m & Him & Hm).
  assert (∀ k, (i ≤ k ≤ m)%nat →
    (∃ j f more, (i < j)%nat ∧ f ≠ WriteFailed ∧ taken (σ j) = taken (σ i) ++ [(fr, f)] ∧
       out_q (σ j) = q ++ more) ∨
    ∃ more, out_q (σ k) = fr :: q ++ more ∧ taken (σ k) = taken (σ i)) as Hk.
  { intros k [Hik Hkm]. induction Hik as [|k Hik IH].
    { right. exists []. by rewrite app_nil_r. }
    destruct IH as [IH|(more & Hqk & Htk)]; [lia|by left|].
    specialize (Hrun k). specialize (Hok k ltac:(lia)).
    destruct (ls k) as [l|] eqn:El; [|right; exists more; by rewrite Hrun].
    pose proof (step_queue_effect parse l _ _ Hrun) as He.
    destruct l as [| | | | | | |f| | |];
      try (destruct He as [[more' Hq'] Ht']; right; exists (more ++ more');
           rewrite Hq', Ht', Hqk, Htk; split; [cbn; by rewrite app_assoc|done]).
    left. destruct He as (fr' & Hq' & Ht'). rewrite Hqk in Hq'. simplify_eq.
    exists (S k), f, more. rewrite Ht', Htk. split_and!; [lia|congruence|done|done]. }
  destruct (Hk m ltac:(lia)) as [H|(more & Hqm & Htm)]; [done|].
  destruct Hm as [[f Hm]|Hm].
  - specialize (Hrun m). specialize (Hok m ltac:(lia)). rewrite Hm in Hrun, Hok.
    destruct (step_queue_effect parse (LWrite f) _ _ Hrun) as (fr' & Hq' & Ht').
    rewrite Hqm in Hq'. simplify_eq. exists (S m), f, more.
    rewrite Ht', Htm. split_and!; [lia|congruence|done|done].
  - destruct Hm. split; [by apply (run_keeps i m)|]. by rewrite Hqm.
Qed.

(** C15: no accepted frame waits for ever: in every fair run, from any instant
    at which a peer is served and no further write fails, the frame at each
    position of the buffer is taken by the writer after exactly the frames ahead
    of it, and not lost to a failed write. *)
Theorem writer_progress (i n : nat) (fr : Outbound)
    (Hok : ∀ k, (i ≤ k)%nat → ls k ≠ Some (LWrite WriteFailed))
    (Hpeer : ∃ r, peer_of (σ i) = Writing r)
    (Hfr : out_q (σ i) !! n = Some fr) :
  ∃ j f, (i < j)%nat ∧ f ≠ WriteFailed ∧
    taken (σ j) !! (length (taken (σ i)) + n)%nat = Some (fr, f) ∧
    (taken (σ j)).*1 = (taken (σ i)).*1 ++ take (S n) (out_q (σ i)).
Proof.
  revert i Hok Hpeer Hfr. induction n as [|n IH]; intros i Hok Hpeer Hfr;
    destruct (out_q (σ i)) as [|fr0 q] eqn:Hq; try done.
  all: destruct (next_write i q fr0 Hok Hpeer Hq) as (j & f & more & Hij & Hf & Ht & Hq').
  - cbn in Hfr. simplify_eq. exists j, f. rewrite Ht. split_and!; [done|done| |].
    + rewrite lookup_app_r by lia. by replace (_ + 0 - _)%nat with 0%nat by lia.
    + by rewrite fmap_app.
  - cbn in Hfr. destruct (IH j) as (j' & f' & Hjj & Hf' & Hl & He).
    + intros k Hk. apply Hok. lia.
    + by apply (run_keeps i j); [lia|..].
    + rewrite Hq'. by apply lookup_app_l_Some.
    + exists j', f'. split_and!; [lia|done| |].
      * rewrite Ht, length_app in Hl. cbn in Hl. by rewrite <-Hl; f_equal; lia.
      * rewrite He, Ht, fmap_app, <-app_assoc, Hq'. cbn. do 2 f_equal.
        rewrite take_app_le; [done|]. apply lookup_lt_Some in Hfr. lia.
Qed.

End progress.
