(* ===== verification/OrigDst.v ===== *)
(** * [condukt_egress/src/proxy/orig_dst.rs]: the original destination

    [getsockopt(SO_ORIGINAL_DST)] fills a [sockaddr_in] whose port and address
    are in network byte order. The kernel call is a parameter: its error, or
    the bytes it leaves in the structure. The integers the program loads from
    them depend on the endianness of the host. *)

From S2P Require Import Prelude Utf8 Strs Policy Event.

(** The bytes of [sin_port] and [sin_addr.s_addr], in memory order. *)
Record sockaddr_in := { sin_port : Z * Z; s_addr : Z * Z * Z * Z }.

(** Loading a [u16] or [u32] from memory on a little- or big-endian host. *)
Definition load_u16 (little : bool) (p : Z * Z) : Z :=
  let '(b0, b1) := p in if little then b1 * 256 + b0 else b0 * 256 + b1.

Definition load_u32 (little : bool) (p : Z * Z * Z * Z) : Z :=
  let '(b0, b1, b2, b3) := p in
  if little then ((b3 * 256 + b2) * 256 + b1) * 256 + b0
  else ((b0 * 256 + b1) * 256 + b2) * 256 + b3.

Definition swap_bytes_u16 (x : Z) : Z := (x mod 256) * 256 + (x / 256) mod 256.

Definition swap_bytes_u32 (x : Z) : Z :=
  (((x mod 256) * 256 + (x / 256) mod 256) * 256 + (x / 65536) mod 256) * 256
  + (x / 16777216) mod 256.

(** [u16::from_be] and [u32::from_be]. *)
Definition u16_from_be (little : bool) (x : Z) : Z :=
  if little then swap_bytes_u16 x else x.
Definition u32_from_be (little : bool) (x : Z) : Z :=
  if little then swap_bytes_u32 x else x.

(** [Ipv4Addr::from(u32)]: the octets, most significant first. *)
Definition Ipv4Addr_from (ip : Z) : IpAddr :=
  IpV4 ((ip / 16777216) mod 256) ((ip / 65536) mod 256) ((ip / 256) mod 256) (ip mod 256).

Definition original_dst (little : bool) (getsockopt : result sockaddr_in str)
    : result SocketAddr str :=
  addr ←? getsockopt;
  let port := u16_from_be little (load_u16 little (sin_port addr)) in
  let ip := u32_from_be little (load_u32 little (s_addr addr)) in
  let ip := Ipv4Addr_from ip in
  Ok {| sa_ip := ip; sa_port := port |}.

Lemma div_256 x y : 0 <= y < 256 → (x * 256 + y) / 256 = x.
Proof. intros. symmetry. apply Z.div_unique with y; lia. Qed.

Lemma mod_256 x y : 0 <= y < 256 → (x * 256 + y) mod 256 = y.
Proof. intros. symmetry. apply Z.mod_unique with x; lia. Qed.

(** The bytes of a 32-bit value, most significant first. *)
Lemma bytes_of_u32 a b c d :
  is_byte a = true → is_byte b = true → is_byte c = true → is_byte d = true →
  let x := ((a * 256 + b) * 256 + c) * 256 + d in
  (x / 16777216) mod 256 = a ∧ (x / 65536) mod 256 = b ∧ (x / 256) mod 256 = c
  ∧ x mod 256 = d.
Proof.
  cbv zeta. unfold is_byte. intros Ha Hb Hc Hd.
  assert (∀ x, x / 16777216 = x / 256 / 256 / 256) as E1
    by (intros; by rewrite !Z.div_div by lia).
  assert (∀ x, x / 65536 = x / 256 / 256) as E2 by (intros; by rewrite Z.div_div by lia).
  rewrite E1, E2, !div_256, !mod_256 by lia. split_and!; try done. apply Z.mod_small. lia.
Qed.

(** C34: the port and address handed to the policy are the network-order bytes
    the kernel wrote, on hosts of either endianness; and a failed [getsockopt]
    is the error the caller sees. *)
Theorem original_dst_network_order (little : bool) (p0 p1 a b c d : Z)
    (Hp0 : is_byte p0 = true) (Hp1 : is_byte p1 = true) (Ha : is_byte a = true)
    (Hb : is_byte b = true) (Hc : is_byte c = true) (Hd : is_byte d = true) :
  original_dst little (Ok {| sin_port := (p0, p1); s_addr := (a, b, c, d) |}) =
    Ok {| sa_ip := IpV4 a b c d; sa_port := p0 * 256 + p1 |} ∧
  ∀ e, original_dst little (Err e) = Err e.
Proof.
  split; [|done]. unfold original_dst. cbn [and_then sin_port s_addr].
  destruct (bytes_of_u32 a b c d) as (E1 & E2 & E3 & E4); [done..|].
  destruct (bytes_of_u32 d c b a) as (F1 & F2 & F3 & F4); [done..|].
  unfold Ipv4Addr_from, u16_from_be, u32_from_be, load_u16, load_u32, swap_bytes_u16,
    swap_bytes_u32. destruct little.
  - unfold is_byte in *. rewrite (div_256 p1 p0), (mod_256 p1 p0), (Z.mod_small p1) by lia.
    by rewrite F1, F2, F3, F4, E1, E2, E3, E4.
  - by rewrite E1, E2, E3, E4.
Qed.

Lemma original_dst_network_order_witness :
  original_dst true (Ok {| sin_port := (1, 187); s_addr := (203, 0, 113, 5) |}) =
    Ok {| sa_ip := IpV4 203 0 113 5; sa_port := 443 |}.
Proof.
  exact (proj1 (original_dst_network_order true 1 187 203 0 113 5
    eq_refl eq_refl eq_refl eq_refl eq_refl eq_refl)).
Defined.
