(* ===== verification/Sni.v ===== *)
(** * [condukt_egress/src/proxy/sni.rs]: the host a TLS client asks for

    Record and extension framing come from the [tls-parser] crate; its two
    parsers are parameters. What the source reads of their results is modelled:
    the messages of the record, the extension block of a ClientHello, and the
    entries of a server-name extension. *)

From S2P Require Import Prelude Utf8 Strs.

(** [TlsMessage], as far as the source distinguishes: a ClientHello with its
    extension block, if it has one. *)
Inductive TlsMessage :=
| ClientHello (ext : option bytes)
| OtherMessage.

(** [TlsExtension]: a server-name list of (type, name) entries, or another. *)
Inductive TlsExtension :=
| ExtSNI (entries : list (Z * bytes))
| ExtOther.

Definition looks_like_tls (bs : bytes) : bool :=
  match bs with
  | b0 :: b1 :: _ :: _ => (b0 =? 0x16) && (b1 =? 0x03)
  | _ => false
  end.

Section sni.

Variable parse_tls_plaintext : bytes → option (list TlsMessage).
Variable parse_tls_extensions : bytes → option (list TlsExtension).

(** [for (_kind, name) in entries]. *)
Fixpoint first_name (entries : list (Z * bytes)) : option str :=
  match entries with
  | [] => None
  | (_, name) :: entries =>
      match from_utf8 name with Some host => Some host | None => first_name entries end
  end.

(** [for ext in parsed]. *)
Fixpoint first_sni (exts : list TlsExtension) : option str :=
  match exts with
  | [] => None
  | ExtSNI entries :: exts =>
      match first_name entries with Some host => Some host | None => first_sni exts end
  | ExtOther :: exts => first_sni exts
  end.

(** [for message in plaintext.msg]; the two [?] leave the function. *)
Fixpoint extract_messages (msgs : list TlsMessage) : option str :=
  match msgs with
  | [] => None
  | ClientHello ext :: msgs =>
      extensions ← ext;
      parsed ← parse_tls_extensions extensions;
      match first_sni parsed with Some host => Some host | None => extract_messages msgs end
  | OtherMessage :: msgs => extract_messages msgs
  end.

Definition extract (bs : bytes) : option str :=
  msgs ← parse_tls_plaintext bs; extract_messages msgs.

(** ** Properties *)

(** The names of the server-name extensions, in wire order. *)
Definition sni_names (exts : list TlsExtension) : list bytes :=
  exts ≫= λ e, match e with ExtSNI entries => entries.*2 | ExtOther => [] end.

Lemma first_name_spec entries : first_name entries = head (omap from_utf8 entries.*2).
Proof.
  induction entries as [|[k n] entries IH]; [done|]. cbn.
  destruct (from_utf8 n); [done|exact IH].
Qed.

Lemma first_sni_spec exts : first_sni exts = head (omap from_utf8 (sni_names exts)).
Proof.
  induction exts as [|[entries|] exts IH]; [done| |exact IH].
  cbn. rewrite omap_app, first_name_spec, IH.
  by destruct (omap from_utf8 entries.*2).
Qed.

(** C35: the host taken from a TLS record is the first name, in wire order, of
    the server-name extensions of its first ClientHello that decodes as UTF-8;
    without an extension block, or with one that does not parse, there is no
    host, and the later messages are not consulted. *)
Theorem extract_first_client_hello (bs : bytes) (pre post : list TlsMessage)
    (ext : option bytes)
    (Hparse : parse_tls_plaintext bs = Some (pre ++ ClientHello ext :: post))
    (Hpre : Forall (λ m, m = OtherMessage) pre) :
  extract bs =
  match ext ≫= parse_tls_extensions with
  | None => None
  | Some exts =>
      match head (omap from_utf8 (sni_names exts)) with
      | Some host => Some host
      | None => extract_messages post
      end
  end.
Proof.
  unfold extract. rewrite Hparse. cbn [mbind option_bind]. clear Hparse.
  induction Hpre as [|m pre -> _ IH]; [|exact IH]. cbn.
  destruct ext as [e|]; cbn; [|done].
  destruct (parse_tls_extensions e) as [exts|]; cbn; [|done].
  by rewrite first_sni_spec.
Qed.

End sni.

Lemma extract_first_client_hello_witness :
  extract (λ _, Some [OtherMessage; ClientHello (Some [1])])
    (λ _, Some [ExtOther; ExtSNI [(0, [255]); (0, [97; 46; 98])]]) [] = Some (s!"a.b").
Proof.
  exact (extract_first_client_hello (λ _, Some [OtherMessage; ClientHello (Some [1])])
    (λ _, Some [ExtOther; ExtSNI [(0, [255]); (0, [97; 46; 98])]]) []
    [OtherMessage] [] (Some [1]) eq_refl
    (Forall_cons_2 _ _ _ eq_refl (Forall_nil_2 _))).
Defined.
