(* ===== verification/Http1.v ===== *)
(** * [condukt_egress/src/proxy/http1.rs]: capturing the head of a request

    [httparse] is a parameter: an error, a partial head, or the method, path
    and headers (names and raw values) of a complete head. *)

From S2P Require Import Prelude Utf8 Strs.

Record RequestHead := {
  rh_method : str;
  rh_path : str;
  rh_headers : gmap str str;
}.

(** [httparse::Request] after a complete parse. *)
Record ParsedRequest := {
  pr_method : option str;
  pr_path : option str;
  pr_headers : list (str * bytes);
}.

Inductive Status := Complete (req : ParsedRequest) | Partial.

(** One iteration of the header loop. *)
Definition insert_header (m : gmap str str) (h : str * bytes) : gmap str str :=
  let '(name, value) := h in
  if is_empty name then m
  else <[to_ascii_lowercase name := default [] (from_utf8 value)]> m.

Definition collect_headers (hs : list (str * bytes)) : gmap str str :=
  foldl insert_header ∅ hs.

Section http1.

Context {E : Type}.
Variable httparse : bytes → result Status E.

Definition parse (buf : bytes) : result (option RequestHead) E :=
  st ←? httparse buf;
  match st with
  | Partial => Ok None
  | Complete req =>
      Ok (Some {| rh_method := default [] (pr_method req);
                  rh_path := default (s!"/") (pr_path req);
                  rh_headers := collect_headers (pr_headers req) |})
  end.

(** Whether a header is stored under [k]. *)
Definition stored_as (k : str) (h : str * bytes) : bool :=
  negb (is_empty h.1) && str_eqb (to_ascii_lowercase h.1) k.

Lemma insert_header_lookup m h k :
  insert_header m h !! k =
  if stored_as k h then Some (default [] (from_utf8 h.2)) else m !! k.
Proof.
  destruct h as [name value]. unfold insert_header, stored_as, str_eqb. cbn.
  destruct (is_empty name); [done|]. cbn [negb andb].
  case_bool_decide as E1; [subst; apply lookup_insert_eq|by apply lookup_insert_ne].
Qed.

Lemma collect_headers_snoc hs h :
  collect_headers (hs ++ [h]) = insert_header (collect_headers hs) h.
Proof. unfold collect_headers. by rewrite foldl_app. Qed.

Lemma collect_headers_lookup hs k :
  collect_headers hs !! k =
  match last (filter (λ h, stored_as k h = true) hs) with
  | Some h => Some (default [] (from_utf8 h.2))
  | None => None
  end.
Proof.
  induction hs as [|h hs IH] using rev_ind; [done|].
  rewrite collect_headers_snoc, insert_header_lookup, filter_app.
  destruct (stored_as k h) eqn:Es.
  - rewrite filter_cons_True, filter_nil, last_snoc by done. done.
  - rewrite filter_cons_False, filter_nil, app_nil_r by congruence. done.
Qed.

(** What a captured head holds, on every outcome of the parser: errors and
    partial heads pass through; a complete head has the method (empty when
    absent), the path ([/] when absent), and under each lower-cased name the
    value of the last header of that name, as the empty string when it is not
    UTF-8; headers with an empty name are left out, and no key is in any other
    case than lower. *)
Theorem parse_spec (buf : bytes) :
  match httparse buf with
  | Err e => parse buf = Err e
  | Ok Partial => parse buf = Ok None
  | Ok (Complete req) =>
      ∃ head, parse buf = Ok (Some head) ∧
        rh_method head = default [] (pr_method req) ∧
        rh_path head = default (s!"/") (pr_path req) ∧
        (∀ k, rh_headers head !! k =
           match last (filter (λ h, stored_as k h = true) (pr_headers req)) with
           | Some h => Some (default [] (from_utf8 h.2))
           | None => None
           end) ∧
        (∀ k v, rh_headers head !! k = Some v → to_ascii_lowercase k = k ∧ k ≠ [])
  end.
Proof.
  unfold parse. destruct (httparse buf) as [[req|]|e]; [|done..].
  eexists. split_and!; [done..| |]; cbn [rh_headers]; intros k.
  - apply collect_headers_lookup.
  - intros v. rewrite collect_headers_lookup.
    destruct (last _) as [h|] eqn:El; [|done]. intros _.
    apply last_Some in El as [l El].
    assert (h ∈ filter (λ h, stored_as k h = true) (pr_headers req)) as Hin
      by (rewrite El; set_solver).
    apply list_elem_of_filter in Hin as [Hs _].
    unfold stored_as, str_eqb in Hs. apply andb_true_iff in Hs as [Hn Hk].
    apply bool_decide_eq_true in Hk. subst k. split; [apply to_ascii_lowercase_idem|].
    by destruct h as [[] ?].
Qed.

End http1.
