(* ===== verification/Splice.v ===== *)
(** * [conn.rs], [splice_pairs]: copying bytes both ways

    One direction is a loop over what successive reads return and whether the
    matching writes succeed. [pump_step] is one iteration of it, [pump] iterates
    it, and [join_step] is the interleavings [tokio::join!] allows. A stream that
    has ended answers every further read with zero bytes, so it is the source's
    own [Ok(0) => break] that ends a loop, and the iteration needs fuel: one per
    read and one for the end, which [pump_run_end] shows to be enough. *)

From stdpp Require Import relations.
From S2P Require Import Prelude.

(** The text of an [io::Error]. *)
Abbreviation io_error := (list Z) (only parsing).

(** [u64] arithmetic wraps in the release profile. *)
Definition u64 (n : Z) : Z := n mod 2 ^ 64.

(** What the reader and the writer of a direction will answer: successive
    results of [read] before the end of the stream, and of [write_all] (no result
    left is success). *)
Record script := {
  reads : list (result bytes io_error);
  writes : list bool;
}.

(** A direction: its remaining script, the byte count, the bytes written, and
    whether the loop has ended (and the writer been shut down). *)
Record pump_st := {
  p_script : script;
  p_total : Z;
  p_out : bytes;
  p_shut : bool;
}.

Definition pump_start (sc : script) : pump_st :=
  {| p_script := sc; p_total := 0; p_out := []; p_shut := false |}.

Definition pump_stop (p : pump_st) : pump_st :=
  {| p_script := p_script p; p_total := p_total p; p_out := p_out p; p_shut := true |}.

(** [read]: at the end of the stream it returns zero bytes, every time. *)
Definition next_read (rs : list (result bytes io_error))
    : result bytes io_error * list (result bytes io_error) :=
  match rs with [] => (Ok [], []) | r :: rs => (r, rs) end.

(** One iteration; [None] once the loop has ended. *)
Definition pump_step (p : pump_st) : option pump_st :=
  if p_shut p then None
  else
    let '(r, rs) := next_read (reads (p_script p)) in
    match r with
    | Ok [] => Some (pump_stop p)
    | Err _ => Some (pump_stop p)
    | Ok bs =>
        let total := u64 (p_total p + Z.of_nat (length bs)) in
        match writes (p_script p) with
        | false :: ws =>
            Some {| p_script := {| reads := rs; writes := ws |}; p_total := total;
                    p_out := p_out p; p_shut := true |}
        | ws =>
            Some {| p_script := {| reads := rs; writes := tail ws |}; p_total := total;
                    p_out := p_out p ++ bs; p_shut := false |}
        end
    end.

(** At most [fuel] iterations. *)
Fixpoint pump_run (fuel : nat) (p : pump_st) : pump_st :=
  match fuel with
  | O => p
  | S fuel => match pump_step p with Some p' => pump_run fuel p' | None => p end
  end.

Definition pump (sc : script) : pump_st := pump_run (S (length (reads sc))) (pump_start sc).

(** [splice_pairs(cr, cw, ur, uw)]: the first script is client to upstream. The
    futures are joined in the order client-to-upstream, upstream-to-client, so
    the pair is (bytes from the client, bytes from the upstream). *)
Definition splice_pairs (client_to_up up_to_client : script) : Z * Z :=
  (p_total (pump client_to_up), p_total (pump up_to_client)).

(** Interleavings. *)
Inductive join_step : pump_st * pump_st → pump_st * pump_st → Prop :=
| js_left p p' q : pump_step p = Some p' → join_step (p, q) (p', q)
| js_right p q q' : pump_step q = Some q' → join_step (p, q) (p, q').

(** The loop in closed form: its state when it has ended. *)
Fixpoint pump_loop (rs : list (result bytes io_error)) (ws : list bool) (total : Z)
    (out : bytes) : pump_st :=
  match rs with
  | [] | Ok [] :: _ | Err _ :: _ =>
      {| p_script := {| reads := rs; writes := ws |}; p_total := total; p_out := out;
         p_shut := true |}
  | Ok bs :: rs =>
      let total := u64 (total + Z.of_nat (length bs)) in
      match ws with
      | false :: ws =>
          {| p_script := {| reads := rs; writes := ws |}; p_total := total;
             p_out := out; p_shut := true |}
      | ws => pump_loop rs (tail ws) total (out ++ bs)
      end
  end.

(** A direction run to its end. *)
Definition pump_end (p : pump_st) : pump_st :=
  if p_shut p then p
  else pump_loop (reads (p_script p)) (writes (p_script p)) (p_total p) (p_out p).

Lemma pump_step_end p p' : pump_step p = Some p' → pump_end p' = pump_end p.
Proof.
  destruct p as [[rs ws] total out []]; [done|]. unfold pump_step, pump_end. cbn.
  destruct rs as [|[[|b bs]|e] rs]; cbn; intros; simplify_eq; try done.
  destruct ws as [|[] ws]; simplify_eq; done.
Qed.

Definition pump_size (p : pump_st) : nat :=
  if p_shut p then 0 else S (length (reads (p_script p))).

Lemma pump_step_size p p' : pump_step p = Some p' → (pump_size p' < pump_size p)%nat.
Proof.
  destruct p as [[rs ws] total out []]; [done|]. unfold pump_step, pump_size. cbn.
  destruct rs as [|[[|b bs]|e] rs]; cbn; intros; simplify_eq; cbn; try lia.
  destruct ws as [|[] ws]; simplify_eq; cbn; lia.
Qed.

(** Enough fuel ends the loop. *)
Lemma pump_run_end fuel p : (pump_size p ≤ fuel)%nat → pump_run fuel p = pump_end p.
Proof.
  revert p. induction fuel as [|fuel IH]; intros p Hp; cbn.
  - unfold pump_size, pump_end in *. destruct (p_shut p); [done|lia].
  - destruct (pump_step p) as [p'|] eqn:E.
    + rewrite IH by (apply pump_step_size in E; lia). by apply pump_step_end.
    + unfold pump_step, pump_end in *. destruct (p_shut p); [done|].
      destruct (next_read _) as [[[|b bs]|e] rs]; try done. by destruct (writes _) as [|[] ?].
Qed.

Lemma pump_closed sc : pump sc = pump_loop (reads sc) (writes sc) 0 [].
Proof. unfold pump. by rewrite pump_run_end. Qed.

Lemma pump_loop_shut rs ws total out : p_shut (pump_loop rs ws total out) = true.
Proof.
  revert ws total out. induction rs as [|[[|b bs]|e] rs IH]; intros ws total out; try done.
  cbn. destruct ws as [|[] ws]; done || apply IH.
Qed.

Lemma pump_step_None p : pump_step p = None ↔ p_shut p = true.
Proof.
  destruct p as [[rs ws] total out []]; [done|]. unfold pump_step. cbn.
  destruct rs as [|[[|b bs]|e] rs]; try done. destruct ws as [|[] ws]; done.
Qed.

Lemma join_step_end pq pq' :
  join_step pq pq' → pump_end pq'.1 = pump_end pq.1 ∧ pump_end pq'.2 = pump_end pq.2.
Proof. inversion 1; cbn; split; try done; by apply pump_step_end. Qed.

Lemma join_steps_end n pq pq' :
  nsteps join_step n pq pq' →
  pump_end pq'.1 = pump_end pq.1 ∧ pump_end pq'.2 = pump_end pq.2 ∧
  (n + pump_size pq'.1 + pump_size pq'.2 ≤ pump_size pq.1 + pump_size pq.2)%nat.
Proof.
  induction 1 as [|n x y z Hxy _ (IH1 & IH2 & IH3)]; [by split_and!|].
  destruct (join_step_end _ _ Hxy) as [<- <-]. split_and!; [done..|].
  assert (pump_size y.1 + pump_size y.2 < pump_size x.1 + pump_size x.2)%nat; [|lia].
  inversion Hxy as [p p' q Hp|p q q' Hq]; subst; cbn.
  - apply pump_step_size in Hp. lia.
  - apply pump_step_size in Hq. lia.
Qed.

(** The chunks a direction reads before end of input or an error. *)
Fixpoint chunks (rs : list (result bytes io_error)) : list bytes :=
  match rs with
  | [] | Ok [] :: _ | Err _ :: _ => []
  | Ok bs :: rs => bs :: chunks rs
  end.

Lemma u64_add a b : u64 (u64 a + b) = u64 (a + b).
Proof. unfold u64. by rewrite Zplus_mod_idemp_l. Qed.

Lemma pump_loop_lossless rs ws total out :
  Forall (λ b, b = true) ws →
  p_out (pump_loop rs ws (u64 total) out) = out ++ concat (chunks rs) ∧
  p_total (pump_loop rs ws (u64 total) out) =
    u64 (total + Z.of_nat (length (concat (chunks rs)))).
Proof.
  revert ws total out. induction rs as [|[[|b bs]|e] rs IH]; intros ws total out Hws.
  1,2,4: cbn; by rewrite app_nil_r, Z.add_0_r.
  cbn [pump_loop chunks concat]. rewrite u64_add.
  destruct ws as [|w ws]; cbn [tail].
  - destruct (IH [] (total + Z.of_nat (length (b :: bs))) (out ++ b :: bs) Hws) as [-> ->].
    rewrite <-app_assoc, length_app, Nat2Z.inj_add. split; [done|]. f_equal. lia.
  - apply Forall_cons in Hws as [-> Hws]. cbn [tail].
    destruct (IH ws (total + Z.of_nat (length (b :: bs))) (out ++ b :: bs) Hws) as [-> ->].
    rewrite <-app_assoc, length_app, Nat2Z.inj_add. split; [done|]. f_equal. lia.
Qed.

Lemma pump_all_written sc :
  Forall (λ b, b = true) (writes sc) →
  p_out (pump sc) = concat (chunks (reads sc)) ∧
  p_total (pump sc) = u64 (Z.of_nat (length (concat (chunks (reads sc))))).
Proof. rewrite pump_closed. apply (pump_loop_lossless (reads sc) (writes sc) 0 []). Qed.

(** ** Properties *)

(** C24: joining the two copy loops is deterministic and terminates once the
    streams end: although an ended stream answers reads for ever, a run takes,
    whatever the interleaving, at most one step per read plus one for each end;
    it can go on until both loops have left and shut their writers down, and
    then has the results of running each direction alone. *)
Theorem splice_interleaving (c2u u2c : script) (n : nat) (pq : pump_st * pump_st)
    (Hrun : nsteps join_step n (pump_start c2u, pump_start u2c) pq) :
  (n ≤ length (reads c2u) + length (reads u2c) + 2)%nat ∧
  (pq = (pump c2u, pump u2c) ∨ ∃ pq', join_step pq pq') ∧
  p_shut (pump c2u) = true ∧ p_shut (pump u2c) = true ∧
  (p_shut pq.1 = true → p_shut pq.2 = true →
     pq = (pump c2u, pump u2c) ∧ (p_total pq.1, p_total pq.2) = splice_pairs c2u u2c).
Proof.
  destruct (join_steps_end _ _ _ Hrun) as (E1 & E2 & E3). destruct pq as [p q].
  cbn [fst snd] in *.
  assert (p_shut p = true → p_shut q = true → (p, q) = (pump c2u, pump u2c)) as Hend.
  { intros Hp Hq. unfold pump_end in E1, E2. rewrite Hp in E1. rewrite Hq in E2.
    cbn in E1, E2. by rewrite E1, E2, !pump_closed. }
  split_and!; [|..|rewrite pump_closed; apply pump_loop_shut
               |rewrite pump_closed; apply pump_loop_shut|].
  - unfold pump_size at 3 4 in E3. cbn in E3. lia.
  - destruct (pump_step p) as [p'|] eqn:Hp; [right; exists (p', q); by constructor|].
    destruct (pump_step q) as [q'|] eqn:Hq; [right; exists (p, q'); by constructor|].
    left. apply pump_step_None in Hp, Hq. auto.
  - intros Hp Hq. specialize (Hend Hp Hq). simplify_eq. done.
Qed.

(** While no write fails, a direction forwards exactly the bytes it read,
    in order, up to end of input or a read error, and counts them (modulo the
    width of [u64]). *)
Theorem pump_lossless (sc : script) (Hw : Forall (λ b, b = true) (writes sc)) :
  p_out (pump sc) = concat (chunks (reads sc)) ∧
  p_total (pump sc) = u64 (Z.of_nat (length (p_out (pump sc)))) ∧
  p_shut (pump sc) = true.
Proof.
  destruct (pump_all_written sc Hw) as [E1 E2]. rewrite E1, E2. split_and!; [done..|].
  rewrite pump_closed. apply pump_loop_shut.
Qed.

Definition ex_script : script := {| reads := [Ok [1; 2]; Ok [3]; Ok []]; writes := [true] |}.

Lemma splice_interleaving_witness :
  (2 ≤ 3 + 0 + 2)%nat ∧
  nsteps join_step 2 (pump_start ex_script, pump_start {| reads := []; writes := [] |})
    (default (pump_start ex_script) (pump_step (pump_start ex_script)),
     pump {| reads := []; writes := [] |}).
Proof.
  assert (nsteps join_step 2 (pump_start ex_script, pump_start {| reads := []; writes := [] |})
    (default (pump_start ex_script) (pump_step (pump_start ex_script)),
     pump {| reads := []; writes := [] |})) as H.
  { eapply nsteps_l; [apply js_left; reflexivity|].
    eapply nsteps_l; [apply js_right; reflexivity|]. apply nsteps_O. }
  split; [exact (proj1 (splice_interleaving _ _ _ _ H))|exact H].
Defined.

Lemma pump_lossless_witness : p_out (pump ex_script) = [1; 2; 3].
Proof.
  rewrite (proj1 (pump_lossless ex_script (Forall_cons_2 _ _ _ eq_refl (Forall_nil_2 _)))).
  reflexivity.
Defined.
