(* ===== verification/Tls.v ===== *)
(** * [condukt_egress/src/proxy/tls.rs]: the session CA and its leaf cache

    Loading the CA, the parameters of a minted leaf, and the per-host cache of
    server configurations. The cryptography ([rcgen], [rustls]) is a set of
    parameters. [server_config_for] takes the cache lock twice and mints in
    between, so concurrent callers interleave: they are the runs of [tls_step].
    An [Arc<ServerConfig>] is its index in the list of all the configurations
    ever minted, so sharing is observable. *)

From S2P Require Import Prelude Utf8 Strs Policy Event Api.

(** ** Data of the certificate library that the source sets *)

Inductive DnType := CommonName.
Inductive IsCa := NoCa | IsCaCert.
Inductive KeyUsagePurpose := DigitalSignature | KeyEncipherment | KeyCertSign | CrlSign.
Inductive SanType := DnsName (name : str).

Record CertificateParams := {
  distinguished_name : list (DnType * str);
  is_ca : IsCa;
  key_usages : list KeyUsagePurpose;
  subject_alt_names : list SanType;
}.

Record ServerConfig := {
  sc_chain : list bytes;
  sc_key : bytes;
  alpn_protocols : list str;
}.

(** What a TLS client reads out of a certificate. *)
Record X509 := {
  x_subject : list (DnType * str);
  x_issuer : list (DnType * str);
  x_sans : list SanType;
  x_is_ca : IsCa;
  x_key_usages : list KeyUsagePurpose;
  x_public_key : bytes;
}.

(** The certificate that the parameters describe, for a subject key and an
    issuer name. *)
Definition x509_from (p : CertificateParams) (public_key : bytes) (issuer : list (DnType * str))
    : X509 :=
  {| x_subject := distinguished_name p; x_issuer := issuer; x_sans := subject_alt_names p;
     x_is_ca := is_ca p; x_key_usages := key_usages p; x_public_key := public_key |}.

(** What the source uses of [rcgen] and [rustls]; errors are their text. The
    fields from [x509_of] on are not called by the source: they say what its
    results are to a client, which parses a certificate, checks its signature
    with a public key, and checks the server's private key against it. The laws:
    an [Ia5String] has the text it is made from, and a signed certificate parses
    as what its parameters describe, with the issuer's subject as its issuer, the
    subject's key, and a signature of the issuer's key. *)
Record CryptoLib := {
  KeyPair : Type;
  Certificate : Type;
  key_from_pem : str → result KeyPair str;
  params_from_ca_pem : str → result CertificateParams str;
  self_signed : CertificateParams → KeyPair → result Certificate str;
  params_new : list str → result CertificateParams str;
  ia5 : str → result str str;
  signed_by : CertificateParams → KeyPair → Certificate → KeyPair → result Certificate str;
  cert_der : Certificate → bytes;
  key_der : KeyPair → bytes;
  single_cert : list bytes → bytes → result unit str;
  x509_of : bytes → option X509;
  public_key : KeyPair → bytes;
  public_key_of_der : bytes → option bytes;
  signature_ok : bytes → bytes → bool;
  ia5_text h n : ia5 h = Ok n → n = h;
  key_der_public k : public_key_of_der (key_der k) = Some (public_key k);
  self_signed_x509 p k c : self_signed p k = Ok c →
    x509_of (cert_der c) = Some (x509_from p (public_key k) (distinguished_name p));
  signed_by_x509 p k ic ik c : signed_by p k ic ik = Ok c →
    signature_ok (cert_der c) (public_key ik) = true ∧
    ∀ ix, x509_of (cert_der ic) = Some ix →
      x509_of (cert_der c) = Some (x509_from p (public_key k) (x_subject ix));
}.

Section tls.

Variable lib : CryptoLib.

Record CaContext := {
  issuer_cert : Certificate lib;
  issuer_key : KeyPair lib;
}.

(** [CaContext::from_pem]. *)
Definition from_pem (cert_pem key_pem : str) : result CaContext TlsError :=
  issuer_key ←? map_err ParseCaKey (key_from_pem lib key_pem);
  issuer_params ←? map_err ParseCaCert (params_from_ca_pem lib cert_pem);
  issuer_cert ←? map_err Rcgen (self_signed lib issuer_params issuer_key);
  Ok {| issuer_cert := issuer_cert; issuer_key := issuer_key |}.

(** [CaContext::load]; [read] is [tokio::fs::read_to_string]. *)
Definition load (read : str → result str str) (cert_path key_path : str)
    : result CaContext TlsError :=
  cert_pem ←? map_err (ReadCa cert_path) (read cert_path);
  key_pem ←? map_err (ReadCa key_path) (read key_path);
  from_pem cert_pem key_pem.

Definition leaf_params (host : str) : result CertificateParams TlsError :=
  params ←? map_err Rcgen (params_new lib [host]);
  name ←? map_err Rcgen (ia5 lib host);
  Ok {| distinguished_name := [(CommonName, host)];
        is_ca := NoCa;
        key_usages := [DigitalSignature; KeyEncipherment];
        subject_alt_names := [DnsName name] |}.

(** [generated] is the outcome of [KeyPair::generate()]. *)
Definition build_leaf (ca : CaContext) (generated : result (KeyPair lib) str) (host : str)
    : result (bytes * bytes) TlsError :=
  params ←? leaf_params host;
  leaf_key ←? map_err Rcgen generated;
  leaf_cert ←? map_err Rcgen (signed_by lib params leaf_key (issuer_cert ca) (issuer_key ca));
  Ok (cert_der lib leaf_cert, key_der lib leaf_key).

Definition mint (ca : CaContext) (generated : result (KeyPair lib) str) (host : str)
    : result ServerConfig TlsError :=
  leaf ←? build_leaf ca generated host;
  _ ←? map_err Rustls (single_cert lib [leaf.1] leaf.2);
  Ok {| sc_chain := [leaf.1]; sc_key := leaf.2;
        alpn_protocols := [s!"h2"; s!"http/1.1"] |}.

(** ** The cache *)

(** Where a call of [server_config_for] is. *)
Inductive caller_phase :=
| CStart
| CMinting
| CMinted (arc : nat)
| CDone (r : result nat TlsError).

Record caller := { c_host : str; c_phase : caller_phase }.

Record cache_st := {
  leaf_cache : gmap str nat;
  arcs : list (str * ServerConfig);  (** each configuration and its host *)
  callers : gmap nat caller;
}.

Definition cache_start : cache_st :=
  {| leaf_cache := ∅; arcs := []; callers := ∅ |}.

Definition set_caller (c : nat) (h : str) (p : caller_phase) (s : cache_st) : cache_st :=
  {| leaf_cache := leaf_cache s; arcs := arcs s;
     callers := <[c := {| c_host := h; c_phase := p |}]> (callers s) |}.

Inductive tls_label :=
| TCall (c : nat) (host : str)
| TLookup (c : nat)
| TMint (c : nat) (generated : result (KeyPair lib) str)
| TInsert (c : nat).

Variable ca : CaContext.

Definition tls_step (l : tls_label) (s : cache_st) : option cache_st :=
  match l with
  | TCall c h =>
      match callers s !! c with None => Some (set_caller c h CStart s) | Some _ => None end
  | TLookup c =>
      match callers s !! c with
      | Some {| c_host := h; c_phase := CStart |} =>
          Some (match leaf_cache s !! h with
                | Some arc => set_caller c h (CDone (Ok arc)) s
                | None => set_caller c h CMinting s
                end)
      | _ => None
      end
  | TMint c generated =>
      match callers s !! c with
      | Some {| c_host := h; c_phase := CMinting |} =>
          Some (match mint ca generated h with
                | Ok cfg =>
                    set_caller c h (CMinted (length (arcs s)))
                      {| leaf_cache := leaf_cache s; arcs := arcs s ++ [(h, cfg)];
                         callers := callers s |}
                | Err e => set_caller c h (CDone (Err e)) s
                end)
      | _ => None
      end
  | TInsert c =>
      match callers s !! c with
      | Some {| c_host := h; c_phase := CMinted fresh_arc |} =>
          Some (match leaf_cache s !! h with
                | Some arc => set_caller c h (CDone (Ok arc)) s
                | None =>
                    set_caller c h (CDone (Ok fresh_arc))
                      {| leaf_cache := <[h := fresh_arc]> (leaf_cache s); arcs := arcs s;
                         callers := callers s |}
                end)
      | _ => None
      end
  end.

Inductive tls_reachable : cache_st → Prop :=
| tr_start : tls_reachable cache_start
| tr_step s l s' : tls_reachable s → tls_step l s = Some s' → tls_reachable s'.

(** ** [server_config_for] as a function

    What the other callers do during the call: before its lookup, between the
    lookup and the mint, between the mint and the insertion. Steps that are not
    possible are skipped, and so are steps of the caller itself; [te_generated]
    is the outcome of its [KeyPair::generate()]. *)
Record tls_env := {
  te_before_lookup : list tls_label;
  te_before_mint : list tls_label;
  te_generated : result (KeyPair lib) str;
  te_before_insert : list tls_label;
}.

Definition tls_own (c : nat) (l : tls_label) : bool :=
  match l with
  | TCall c' _ | TLookup c' | TMint c' _ | TInsert c' => (c =? c')%nat
  end.

Definition tls_run1 (l : tls_label) (s : cache_st) : cache_st := default s (tls_step l s).

Definition tls_others (c : nat) (ls : list tls_label) (s : cache_st) : cache_st :=
  foldl (λ s l, if tls_own c l then s else tls_run1 l s) s ls.

(** The whole call, as caller [c]. *)
Definition server_config_for (c : nat) (env : tls_env) (host : str) (s : cache_st)
    : result nat TlsError * cache_st :=
  let s := tls_others c (te_before_lookup env) (tls_run1 (TCall c host) s) in
  match leaf_cache s !! host with
  | Some arc => (Ok arc, tls_run1 (TLookup c) s)
  | None =>
      let s := tls_others c (te_before_mint env) (tls_run1 (TLookup c) s) in
      match mint ca (te_generated env) host with
      | Err e => (Err e, tls_run1 (TMint c (te_generated env)) s)
      | Ok _ =>
          let fresh_arc := length (arcs s) in
          let s := tls_others c (te_before_insert env)
                     (tls_run1 (TMint c (te_generated env)) s) in
          (Ok (default fresh_arc (leaf_cache s !! host)), tls_run1 (TInsert c) s)
      end
  end.

(** ** Invariant *)

Definition minted (h : str) (cfg : ServerConfig) : Prop :=
  ∃ generated, mint ca generated h = Ok cfg.

Record cache_inv (s : cache_st) : Prop := {
  ci_minted h cfg : (h, cfg) ∈ arcs s → minted h cfg;
  ci_cache h a : leaf_cache s !! h = Some a → ∃ cfg, arcs s !! a = Some (h, cfg);
  ci_fresh c h a : callers s !! c = Some {| c_host := h; c_phase := CMinted a |} →
    ∃ cfg, arcs s !! a = Some (h, cfg);
  ci_done c h a : callers s !! c = Some {| c_host := h; c_phase := CDone (Ok a) |} →
    leaf_cache s !! h = Some a;
}.

(** A caller moves on; the cache and the configurations stay. *)
Lemma cache_inv_phase s c h p :
  cache_inv s →
  (∀ a, p = CMinted a → ∃ cfg, arcs s !! a = Some (h, cfg)) →
  (∀ a, p = CDone (Ok a) → leaf_cache s !! h = Some a) →
  cache_inv (set_caller c h p s).
Proof.
  intros [H1 H2 H3 H4] Hm Hd. split; cbn; [done|done|..];
    intros c' h' a Hc; destruct (decide (c = c')) as [<-|]; simplify_map_eq; eauto.
Qed.

Lemma arcs_grow (s : cache_st) a x y : arcs s !! a = Some x → (arcs s ++ [y]) !! a = Some x.
Proof. apply lookup_app_l_Some. Qed.

Lemma tls_step_inv l s s' : tls_step l s = Some s' → cache_inv s → cache_inv s'.
Proof.
  intros Hs Hi. pose proof Hi as [H1 H2 H3 H4]. destruct l as [c h|c|c g|c]; cbn in Hs.
  - case_match; simplify_eq. by apply cache_inv_phase.
  - destruct (callers s !! c) as [[h []]|]; simplify_eq.
    destruct (leaf_cache s !! h) eqn:E; apply cache_inv_phase; naive_solver.
  - destruct (callers s !! c) as [[h []]|]; simplify_eq.
    destruct (mint ca g h) as [cfg|e] eqn:E; [|by apply cache_inv_phase].
    apply cache_inv_phase; [|intros a [= <-]; exists cfg; by apply list_lookup_middle|done].
    split; cbn.
    + intros h' cfg' [Hin|Hin]%elem_of_app; [eauto|].
      apply list_elem_of_singleton in Hin. simplify_eq. by exists g.
    + intros h' a Ha. destruct (H2 _ _ Ha). eauto using arcs_grow.
    + intros c' h' a Ha. destruct (H3 _ _ _ Ha). eauto using arcs_grow.
    + eauto.
  - destruct (callers s !! c) as [[h []]|] eqn:Hc; simplify_eq.
    destruct (leaf_cache s !! h) as [a0|] eqn:E; [apply cache_inv_phase; naive_solver|].
    apply cache_inv_phase; [|done|intros a [= <-]; by apply lookup_insert_eq].
    split; cbn; [done| |done|].
    + intros h' a Ha. apply lookup_insert_Some in Ha as [[<- <-]|[? Ha]]; eauto.
    + intros c' h' a Ha. apply H4 in Ha. rewrite lookup_insert_ne by congruence. done.
Qed.

Lemma tls_reachable_inv s : tls_reachable s → cache_inv s.
Proof.
  induction 1 as [|s l s' _ IH Hs]; [|by eapply tls_step_inv].
  split; cbn; try done. intros h cfg Hin. by apply elem_of_nil in Hin.
Qed.

(** An entry of the cache is never replaced. *)
Lemma tls_step_cache l s s' h a :
  tls_step l s = Some s' → leaf_cache s !! h = Some a → leaf_cache s' !! h = Some a.
Proof.
  intros Hs Ha. destruct l; cbn in Hs; repeat (case_match; simplify_eq; try done); cbn.
  rewrite lookup_insert_ne by congruence. done.
Qed.

(** ** The call under interference *)

Lemma tls_run1_reachable l s : tls_reachable s → tls_reachable (tls_run1 l s).
Proof.
  intros Hr. unfold tls_run1. destruct (tls_step l s) eqn:E; [|done]. by eapply tr_step.
Qed.

#[local] Hint Resolve tls_run1_reachable : preserve.

Lemma tls_others_reachable c ls s : tls_reachable s → tls_reachable (tls_others c ls s).
Proof.
  revert s. induction ls as [|l ls IH]; intros s Hr; [done|]. apply IH.
  destruct (tls_own c l); auto with preserve.
Qed.

#[local] Hint Resolve tls_others_reachable : preserve.

(** The other callers do not move a call. *)
Lemma tls_others_caller c ls s : callers (tls_others c ls s) !! c = callers s !! c.
Proof.
  revert s. induction ls as [|l ls IH]; intros s; [done|]. unfold tls_others in *. cbn [foldl].
  rewrite IH. destruct (tls_own c l) eqn:Ho; [done|]. unfold tls_run1.
  destruct (tls_step l s) eqn:Hs; [|done]. cbn.
  destruct l; cbn in Hs, Ho; apply Nat.eqb_neq in Ho;
    repeat (case_match; simplify_eq; try done); cbn; by simplify_map_eq.
Qed.

Definition caller_at (c : nat) (h : str) (p : caller_phase) (s : cache_st) : Prop :=
  callers s !! c = Some {| c_host := h; c_phase := p |}.

Lemma caller_at_others c h p ls s : caller_at c h p s → caller_at c h p (tls_others c ls s).
Proof. unfold caller_at. by rewrite tls_others_caller. Qed.

Lemma run1_call c h s :
  callers s !! c = None → caller_at c h CStart (tls_run1 (TCall c h) s).
Proof. intros H. unfold tls_run1, caller_at. cbn. rewrite H. by simplify_map_eq. Qed.

Lemma run1_lookup c h s :
  caller_at c h CStart s →
  caller_at c h (match leaf_cache s !! h with Some a => CDone (Ok a) | None => CMinting end)
    (tls_run1 (TLookup c) s).
Proof.
  unfold tls_run1, caller_at. cbn. intros ->. cbn.
  destruct (leaf_cache s !! h); by simplify_map_eq.
Qed.

Lemma run1_mint c h g s :
  caller_at c h CMinting s →
  caller_at c h (match mint ca g h with
                 | Ok _ => CMinted (length (arcs s))
                 | Err e => CDone (Err e)
                 end) (tls_run1 (TMint c g) s).
Proof.
  unfold tls_run1, caller_at. cbn. intros ->. cbn. destruct (mint ca g h); by simplify_map_eq.
Qed.

Lemma run1_insert c h a s :
  caller_at c h (CMinted a) s →
  caller_at c h (CDone (Ok (default a (leaf_cache s !! h)))) (tls_run1 (TInsert c) s).
Proof.
  unfold tls_run1, caller_at. cbn. intros ->. cbn.
  destruct (leaf_cache s !! h); by simplify_map_eq.
Qed.

(** The call returns, whatever the others do, with the result recorded for it. *)
Lemma server_config_for_done c env host s r s' :
  tls_reachable s → callers s !! c = None →
  server_config_for c env host s = (r, s') →
  tls_reachable s' ∧ caller_at c host (CDone r) s'.
Proof.
  intros Hr Hc He. unfold server_config_for in He. cbv zeta in He.
  pose proof (caller_at_others _ _ _ (te_before_lookup env) _ (run1_call c host s Hc)) as H1.
  set (s1 := tls_others c (te_before_lookup env) _) in *.
  assert (tls_reachable s1) as R1
    by (subst s1; auto with preserve).
  apply run1_lookup in H1. destruct (leaf_cache s1 !! host) as [a|] eqn:E1.
  { simplify_eq. auto with preserve. }
  apply (caller_at_others _ _ _ (te_before_mint env)) in H1.
  set (s2 := tls_others c (te_before_mint env) _) in *.
  assert (tls_reachable s2) as R2
    by (subst s2; auto with preserve).
  apply (run1_mint _ _ (te_generated env)) in H1.
  destruct (mint ca (te_generated env) host) as [cfg|e] eqn:Em.
  2: { simplify_eq. auto with preserve. }
  apply (caller_at_others _ _ _ (te_before_insert env)), run1_insert in H1.
  simplify_eq. auto with preserve.
Qed.

(** ** The interface is implemented *)

Definition cfg_for (s : cache_st) (host : str) (a : nat) : Prop :=
  ∃ cfg, arcs s !! a = Some (host, cfg) ∧ minted host cfg.

Lemma done_cfg_for c host a s :
  tls_reachable s → caller_at c host (CDone (Ok a)) s → cfg_for s host a.
Proof.
  intros Hr Hc. pose proof (tls_reachable_inv s Hr) as Hi.
  destruct (ci_cache _ Hi _ _ (ci_done _ Hi _ _ _ Hc)) as [cfg Ha].
  exists cfg. split; [done|]. apply (ci_minted _ Hi). by eapply list_elem_of_lookup_2.
Qed.

#[export, refine] Instance cert_api : CertApi cache_st tls_env := {|
  cert_ok := tls_reachable;
  cert_for := cfg_for;
  cert_server_config_for host env s :=
    server_config_for (fresh (dom (callers s))) env host s;
|}.
Proof.
  - intros host env s r s' Hr He.
    eapply server_config_for_done in He; [tauto|done|apply not_elem_of_dom, is_fresh].
  - intros host env s a s' Hr He.
    eapply server_config_for_done in He as [Hr' Hc];
      [by eapply done_cfg_for|done|apply not_elem_of_dom, is_fresh].
Defined.

(** ** Properties *)

(** C9: every caller for a host shares one configuration, whatever the
    interleaving of concurrent callers: two callers that were given a
    configuration got the same one if and only if they asked for the same host,
    what they got was minted for that host, and it stays the cached one. *)
Theorem one_config_per_host (s : cache_st) (Hr : tls_reachable s)
    (c1 c2 : nat) (h1 h2 : str) (a1 a2 : nat)
    (H1 : callers s !! c1 = Some {| c_host := h1; c_phase := CDone (Ok a1) |})
    (H2 : callers s !! c2 = Some {| c_host := h2; c_phase := CDone (Ok a2) |}) :
  (a1 = a2 ↔ h1 = h2) ∧
  (∃ cfg, arcs s !! a1 = Some (h1, cfg) ∧ minted h1 cfg) ∧
  (∀ l s', tls_step l s = Some s' → leaf_cache s' !! h1 = Some a1).
Proof.
  pose proof (tls_reachable_inv s Hr) as Hi.
  pose proof (ci_done _ Hi _ _ _ H1) as D1. pose proof (ci_done _ Hi _ _ _ H2) as D2.
  destruct (ci_cache _ Hi _ _ D1) as [cfg1 E1]. destruct (ci_cache _ Hi _ _ D2) as [cfg2 E2].
  split_and!.
  - split; [intros ->; congruence|intros ->; congruence].
  - exists cfg1. split; [done|]. apply (ci_minted _ Hi).
    by eapply list_elem_of_lookup_2.
  - intros l s' Hs. by eapply tls_step_cache.
Qed.

(** A configuration presents a certificate to a client: the only one of its
    chain, with the private key of the configuration belonging to it. *)
Definition presents (cfg : ServerConfig) (leaf : bytes) (x : X509) : Prop :=
  sc_chain cfg = [leaf] ∧ x509_of lib leaf = Some x ∧
  public_key_of_der lib (sc_key cfg) = Some (x_public_key x).

Lemma mint_presents p generated host cfg :
  x509_of lib (cert_der lib (issuer_cert ca)) =
    Some (x509_from p (public_key lib (issuer_key ca)) (distinguished_name p)) →
  mint ca generated host = Ok cfg →
  ∃ leaf x, presents cfg leaf x ∧ x_sans x = [DnsName host] ∧
    x_subject x = [(CommonName, host)] ∧ x_is_ca x = NoCa ∧
    x_key_usages x = [DigitalSignature; KeyEncipherment] ∧
    x_issuer x = distinguished_name p ∧
    signature_ok lib leaf (public_key lib (issuer_key ca)) = true ∧
    alpn_protocols cfg = [s!"h2"; s!"http/1.1"].
Proof.
  intros Hca H. unfold mint, build_leaf, leaf_params in H.
  destruct (params_new lib [host]); [|done]. destruct (ia5 lib host) as [name|] eqn:En; [|done].
  apply ia5_text in En as ->. destruct generated as [key|]; [|done]. cbn in H.
  destruct (signed_by _ _ _ _ _) as [cert|] eqn:E; [|done]. cbn in H.
  destruct (single_cert _ _ _); [|done]. cbn in H. simplify_eq.
  apply signed_by_x509 in E as [Hsig Hx]. specialize (Hx _ Hca).
  do 2 eexists. split; [split_and!; [done|exact Hx|apply key_der_public]|]. by split_and!.
Qed.

(** C21: every call returns. Whatever the other callers do meanwhile, a
    configuration it hands out is the cached one of its host, minted for it.
    Undisturbed, a hit mints nothing; a miss mints one configuration and caches
    it under the host; a failed mint is the result and leaves the cache as it
    was. *)
Theorem server_config_for_spec (c : nat) (env : tls_env) (host : str) (s : cache_st)
    (Hr : tls_reachable s) (Hc : callers s !! c = None) :
  (∀ r s', server_config_for c env host s = (r, s') →
   tls_reachable s' ∧ ∀ a, r = Ok a → cfg_for s' host a ∧ leaf_cache s' !! host = Some a) ∧
  (te_before_lookup env = [] → te_before_mint env = [] → te_before_insert env = [] →
   let '(r, s') := server_config_for c env host s in
   match leaf_cache s !! host, mint ca (te_generated env) host with
   | Some a, _ => r = Ok a ∧ leaf_cache s' = leaf_cache s ∧ arcs s' = arcs s
   | None, Ok cfg =>
       r = Ok (length (arcs s)) ∧
       leaf_cache s' = <[host := length (arcs s)]> (leaf_cache s) ∧
       arcs s' = arcs s ++ [(host, cfg)]
   | None, Err e => r = Err e ∧ leaf_cache s' = leaf_cache s ∧ arcs s' = arcs s
   end).
Proof.
  split.
  - intros r s' He.
    destruct (server_config_for_done _ _ _ _ _ _ Hr Hc He) as [Hr' Hd].
    split; [done|]. intros a ->. split; [by eapply done_cfg_for|].
    by apply (ci_done _ (tls_reachable_inv _ Hr') _ _ _ Hd).
  - intros E1 E2 E3. unfold server_config_for. rewrite E1, E2, E3. cbn.
    unfold tls_run1. cbn. rewrite Hc. cbn. rewrite lookup_insert_eq. cbn.
    destruct (leaf_cache s !! host) as [a|] eqn:Eh; cbn; [done|].
    destruct (mint ca (te_generated env) host) as [cfg|e] eqn:Em; cbn;
      rewrite lookup_insert_eq; cbn; rewrite Em; cbn; [|done].
    rewrite lookup_insert_eq. cbn. by rewrite Eh.
Qed.

End tls.

Lemma from_pem_issuer lib cert_pem key_pem ca :
  from_pem lib cert_pem key_pem = Ok ca →
  ∃ p, params_from_ca_pem lib cert_pem = Ok p ∧ key_from_pem lib key_pem = Ok (issuer_key lib ca) ∧
    x509_of lib (cert_der lib (issuer_cert lib ca)) =
      Some (x509_from p (public_key lib (issuer_key lib ca)) (distinguished_name p)).
Proof.
  unfold from_pem. intros H. destruct (key_from_pem lib key_pem) as [k|]; [|done].
  destruct (params_from_ca_pem lib cert_pem) as [p|]; [|done]. cbn in H.
  destruct (self_signed lib p k) as [c|] eqn:E; [|done]. cbn in H. simplify_eq.
  exists p. split_and!; [done..|]. by apply self_signed_x509.
Qed.

(** C22: what a client is shown. Whatever the other callers do meanwhile, the
    configuration [server_config_for] hands out for a host presents one
    certificate, and what a client reads in it is: exactly the requested host as
    its only alternative name and as its subject, not a CA, issued in the name of
    the CA file's subject and signed with the key of the key file, for the public
    key whose private half the configuration holds; and [h2] is offered before
    [http/1.1]. *)
Theorem mint_leaf_names_host (lib : CryptoLib) (cert_pem key_pem : str) (ca : CaContext lib)
    (c : nat) (env : tls_env lib) (host : str) (s s' : cache_st) (arc : nat)
    (Hca : from_pem lib cert_pem key_pem = Ok ca)
    (Hr : tls_reachable lib ca s) (Hc : callers s !! c = None)
    (H : server_config_for lib ca c env host s = (Ok arc, s')) :
  ∃ cfg leaf x ca_params ca_key,
    arcs s' !! arc = Some (host, cfg) ∧ presents lib cfg leaf x ∧
    x_sans x = [DnsName host] ∧ x_subject x = [(CommonName, host)] ∧ x_is_ca x = NoCa ∧
    x_key_usages x = [DigitalSignature; KeyEncipherment] ∧
    params_from_ca_pem lib cert_pem = Ok ca_params ∧ x_issuer x = distinguished_name ca_params ∧
    key_from_pem lib key_pem = Ok ca_key ∧ signature_ok lib leaf (public_key lib ca_key) = true ∧
    alpn_protocols cfg = [s!"h2"; s!"http/1.1"].
Proof.
  destruct (from_pem_issuer _ _ _ _ Hca) as (p & Hp & Hk & Hx).
  apply server_config_for_done in H as [Hr' Hd]; [|done..].
  destruct (done_cfg_for lib ca c host arc s' Hr' Hd) as (cfg & Ha & g & Hm).
  destruct (mint_presents lib ca p g host cfg Hx Hm) as (leaf & x & H1 & H2 & H3 & H4 & H5 & H6 & H7 & H8).
  exists cfg, leaf, x, p, (issuer_key lib ca). by split_and!.
Qed.

(** ** A toy library, to run the cache *)

Module TlsExamples.

(** A certificate with the key that signed it, encoded by length-prefixed
    strings; a key pair is a number and its public half the negative of it. *)
Definition signed : Type := X509 * Z.

Definition enc_str (s : str) : bytes := Z.of_nat (length s) :: s.
Definition enc_strs (l : list str) : bytes := Z.of_nat (length l) :: concat (map enc_str l).

Definition dec_str (b : bytes) : option (str * bytes) :=
  match b with n :: b => Some (take (Z.to_nat n) b, drop (Z.to_nat n) b) | [] => None end.

Fixpoint dec_many (n : nat) (b : bytes) : option (list str * bytes) :=
  match n with
  | O => Some ([], b)
  | S n => '(s, b) ← dec_str b; '(l, b) ← dec_many n b; Some (s :: l, b)
  end.

Definition dec_strs (b : bytes) : option (list str * bytes) :=
  match b with n :: b => dec_many (Z.to_nat n) b | [] => None end.

Lemma dec_enc_strs l b : dec_strs (enc_strs l ++ b) = Some (l, b).
Proof.
  unfold dec_strs, enc_strs. cbn [app]. rewrite Nat2Z.id.
  induction l as [|s l IH]; [done|]. cbn [length map concat dec_many].
  unfold enc_str at 1. cbn [app dec_str mbind option_bind].
  rewrite Nat2Z.id, <-!app_assoc, take_app_length, drop_app_length. by rewrite IH.
Qed.

Definition usage_code (u : KeyUsagePurpose) : Z :=
  match u with DigitalSignature => 0 | KeyEncipherment => 1 | KeyCertSign => 2 | CrlSign => 3 end.

Definition code_usage (n : Z) : KeyUsagePurpose :=
  if n =? 0 then DigitalSignature else if n =? 1 then KeyEncipherment
  else if n =? 2 then KeyCertSign else CrlSign.

Definition signed_der (c : signed) : bytes :=
  enc_strs (x_subject c.1).*2 ++ enc_strs (x_issuer c.1).*2 ++
  enc_strs (map (λ '(DnsName n), n) (x_sans c.1)) ++
  enc_strs [[match x_is_ca c.1 with NoCa => 0 | IsCaCert => 1 end];
            map usage_code (x_key_usages c.1); x_public_key c.1; [c.2]].

Definition der_signed (b : bytes) : option signed :=
  '(subject, b) ← dec_strs b; '(issuer, b) ← dec_strs b; '(sans, b) ← dec_strs b;
  '(rest, _) ← dec_strs b;
  match rest with
  | [[ca]; usages; key; [signer]] =>
      Some ({| x_subject := map (pair CommonName) subject; x_issuer := map (pair CommonName) issuer;
               x_sans := map DnsName sans; x_is_ca := if ca =? 0 then NoCa else IsCaCert;
               x_key_usages := map code_usage usages; x_public_key := key |}, signer)
  | _ => None
  end.

Lemma map_inverse {A B} (f : A → B) (g : B → A) l : (∀ x, g (f x) = x) → map g (map f l) = l.
Proof. intros H. rewrite map_map. rewrite <-(map_id l) at 2. by apply map_ext. Qed.

Lemma der_signed_der c : der_signed (signed_der c) = Some c.
Proof.
  destruct c as [[su iss sa ca us k] z]. unfold der_signed, signed_der. cbn [fst snd].
  rewrite <-(app_nil_r (enc_strs [_; _; _; _])).
  do 4 (rewrite dec_enc_strs; cbn [mbind option_bind]).
  cbn [x_subject x_issuer x_sans x_is_ca x_key_usages x_public_key].
  rewrite (map_inverse usage_code code_usage) by (by intros []).
  rewrite (map_inverse (λ '(DnsName n), n) DnsName) by (by intros []).
  rewrite !(map_inverse snd (pair CommonName)) by (by intros [[] ?]). by destruct ca.
Qed.

#[refine] Definition toy : CryptoLib := {|
  KeyPair := Z; Certificate := signed;
  key_from_pem p := if is_empty p then Err (s!"bad key") else Ok 7;
  params_from_ca_pem p :=
    Ok {| distinguished_name := [(CommonName, p)]; is_ca := IsCaCert;
          key_usages := [KeyCertSign]; subject_alt_names := [] |};
  self_signed p k := Ok (x509_from p [- k] (distinguished_name p), k);
  params_new _ := Ok {| distinguished_name := []; is_ca := NoCa; key_usages := [];
                        subject_alt_names := [] |};
  ia5 h := if forallb (λ c, c <? 128) h then Ok h else Err (s!"invalid ASN.1 string");
  signed_by p k ic ik := Ok (x509_from p [- k] (x_subject ic.1), ik);
  cert_der := signed_der;
  key_der k := [k];
  single_cert _ _ := Ok tt;
  x509_of b := fst <$> der_signed b;
  public_key k := [- k];
  public_key_of_der b := match b with [k] => Some [- k] | _ => None end;
  signature_ok b k :=
    match der_signed b, k with Some (_, signer), [n] => n =? - signer | _, _ => false end;
|}.
Proof.
  - intros h n. case_match; naive_solver.
  - done.
  - intros p k c [= <-]. by rewrite der_signed_der.
  - intros p k ic ik c [= <-]. rewrite !der_signed_der. split; [lia|]. by intros ix [= <-].
Defined.

(** The CA of a PEM text, whose subject is the text itself. *)
Definition toy_ca : CaContext toy :=
  {| issuer_cert :=
       ((x509_from {| distinguished_name := [(CommonName, s!"CA")]; is_ca := IsCaCert;
                      key_usages := [KeyCertSign]; subject_alt_names := [] |} [-7]
           [(CommonName, s!"CA")], 7) : Certificate toy);
     issuer_key := (7 : KeyPair toy) |}.

Definition run (ls : list (tls_label toy)) : cache_st :=
  foldl (λ s l, default s (tls_step toy toy_ca l s)) cache_start ls.

Lemma run_reachable ls : tls_reachable toy toy_ca (run ls).
Proof.
  unfold run. generalize (tr_start toy toy_ca). generalize cache_start.
  induction ls as [|l ls IH]; intros s Hs; [done|]. apply IH.
  destruct (tls_step toy toy_ca l s) eqn:E; [by eapply tr_step|done].
Defined.

(** Two callers race for one host: both miss, both mint, one insert wins. *)
Definition race : list (tls_label toy) :=
  [TCall toy 0 (s!"a.com"); TCall toy 1 (s!"a.com"); TLookup toy 0; TLookup toy 1;
   TMint toy 0 (Ok 1); TMint toy 1 (Ok 2); TInsert toy 1; TInsert toy 0].

Lemma one_config_per_host_witness :
  length (arcs (run race)) = 2%nat ∧ (1%nat = 1%nat ↔ s!"a.com" = s!"a.com").
Proof.
  split; [vm_compute; reflexivity|].
  refine (proj1 (one_config_per_host toy toy_ca (run race) (run_reachable race) 0 1
    (s!"a.com") (s!"a.com") 1 1 _ _)); vm_compute; reflexivity.
Defined.

(** A caller that loses the race: another one inserts before it does. *)
Definition raced_env : tls_env toy :=
  {| te_before_lookup := []; te_before_mint := []; te_generated := (Ok 5 : result (KeyPair toy) str);
     te_before_insert := [TCall toy 1 (s!"a.com"); TLookup toy 1; TMint toy 1 (Ok 6);
                          TInsert toy 1] |}.

Lemma mint_leaf_names_host_witness :
  ∃ cfg leaf x,
    arcs (server_config_for toy toy_ca 0 raced_env (s!"a.com") cache_start).2 !! 1%nat =
      Some (s!"a.com", cfg) ∧
    presents toy cfg leaf x ∧ x_sans x = [DnsName (s!"a.com")] ∧
    x_issuer x = [(CommonName, s!"CA")].
Proof.
  destruct (mint_leaf_names_host toy (s!"CA") (s!"KEY") toy_ca 0 raced_env (s!"a.com") cache_start
    (server_config_for toy toy_ca 0 raced_env (s!"a.com") cache_start).2 1)
    as (cfg & leaf & x & p & k & Ha & Hp & Hs & _ & _ & _ & Hcp & Hi & _).
  - reflexivity.
  - apply tr_start.
  - reflexivity.
  - vm_compute. reflexivity.
  - exists cfg, leaf, x. split_and!; [exact Ha|exact Hp|exact Hs|].
    injection Hcp as <-. exact Hi.
Defined.

Lemma server_config_for_spec_witness :
  let x := server_config_for toy toy_ca 0 raced_env (s!"a.com") cache_start in
  x.1 = Ok 1%nat ∧ leaf_cache x.2 !! (s!"a.com") = Some 1%nat.
Proof.
  intros x. assert (x.1 = Ok 1%nat) as E by (vm_compute; reflexivity).
  split; [exact E|].
  destruct (server_config_for_spec toy toy_ca 0 raced_env (s!"a.com") cache_start
    (tr_start toy toy_ca) eq_refl) as [H _].
  exact (proj2 (proj2 (H x.1 x.2 (surjective_pairing x)) 1%nat E)).
Defined.

End TlsExamples.
