(* ===== verification/Netfilter.v ===== *)
(** * [condukt_egress/src/netfilter.rs]: redirecting the workspace's traffic

    [build_rules] is the exact list of [iptables] invocations, [run] executes
    them in order and stops at the first failure. The effect of an invocation
    on the kernel is the interface [Iptables]: the documented behaviour of
    appending a rule to the [OUTPUT] chain of the [nat] table, for the matches
    and targets the program uses, when the configured binary is [iptables]. Its
    chains see IPv4 packets only. *)

From S2P Require Import Prelude Utf8 Strs.

Record Args := {
  proxy_port : Z;
  sidecar_uid : Z;
  iptables_bin : str;
}.

(** [rule]: the arguments, for the [nat] table. *)
Definition rule (parts : list str) : list str := s!"-t" :: s!"nat" :: parts.

Definition build_rules (proxy_port sidecar_uid : Z) : list (list str) :=
  let port := dec proxy_port in
  let uid := dec sidecar_uid in
  [ rule [s!"-A"; s!"OUTPUT"; s!"-o"; s!"lo"; s!"-j"; s!"RETURN"];
    rule [s!"-A"; s!"OUTPUT"; s!"-m"; s!"owner"; s!"--uid-owner"; uid; s!"-j"; s!"RETURN"];
    rule [s!"-A"; s!"OUTPUT"; s!"-p"; s!"tcp"; s!"--dport"; s!"80"; s!"-j"; s!"REDIRECT";
          s!"--to-port"; port];
    rule [s!"-A"; s!"OUTPUT"; s!"-p"; s!"tcp"; s!"--dport"; s!"443"; s!"-j"; s!"REDIRECT";
          s!"--to-port"; port] ].

(** [std::process::Output], as far as it is read. *)
Record Output := { o_success : bool; o_code : option Z; o_stderr : bytes }.

(** The two error messages, with what they are formatted from. *)
Inductive setup_error :=
| ErrRunning (bin : str) (e : str)
| ErrFailed (bin : str) (argv : list str) (code : option Z) (stderr : str).

(** [{:?}] of the argument vector and of the exit code. The arguments are those
    of [build_rules], which have no character that [Debug] escapes; an exit
    code is not negative. *)
Definition debug_str (x : str) : str := 34 :: x ++ [34].

Fixpoint debug_items (l : list str) : str :=
  match l with
  | [] => []
  | [x] => debug_str x
  | x :: l => debug_str x ++ s!", " ++ debug_items l
  end.

Definition debug_argv (argv : list str) : str := s!"[" ++ debug_items argv ++ s!"]".

Definition debug_code (code : option Z) : str :=
  match code with Some n => s!"Some(" ++ dec n ++ s!")" | None => s!"None" end.

Definition setup_error_to_string (e : setup_error) : str :=
  match e with
  | ErrRunning bin e => s!"running " ++ bin ++ s!": " ++ e
  | ErrFailed bin argv code stderr =>
      bin ++ s!" " ++ debug_argv argv ++ s!" failed (exit " ++ debug_code code ++ s!"): "
      ++ stderr
  end.

Example setup_error_text :
  setup_error_to_string (ErrFailed (s!"ipt") [s!"-t"; s!"nat"] (Some 2) (s!"no")) =
  s!"ipt [" ++ [34] ++ s!"-t" ++ [34] ++ s!", " ++ [34] ++ s!"nat" ++ [34]
    ++ s!"] failed (exit Some(2)): no".
Proof. vm_compute. reflexivity. Qed.

(** An outbound packet, as the rules see it. *)
Record packet := {
  pk_ipv4 : bool;     (** IPv4, as opposed to IPv6 *)
  pk_out_lo : bool;   (** leaves through the loopback interface *)
  pk_uid : Z;         (** owner of the socket *)
  pk_tcp : bool;
  pk_dport : Z;
}.

Inductive target := TReturn | TRedirect (port : Z).

(** The kernel's [nat] [OUTPUT] chain [K]: running a command, and the verdict
    on a packet ([None]: no rule matched). *)
Class Iptables (K : Type) := {
  is_iptables : str → Prop;  (** the binary of that name is [iptables] *)
  exec : str → list str → K → result Output str * K;
  verdict : K → packet → option target;
  rule_matches : list str → packet → bool;
  rule_target : list str → option target;
  (** a successful append puts the rule after the existing ones *)
  exec_append bin spec k out k' p t :
    is_iptables bin →
    exec bin (s!"-t" :: s!"nat" :: s!"-A" :: s!"OUTPUT" :: spec) k = (Ok out, k') →
    o_success out = true → rule_target spec = Some t →
    verdict k' p =
      match verdict k p with
      | Some v => Some v
      | None => if pk_ipv4 p && rule_matches spec p then Some t else None
      end;
  matches_lo p : rule_matches [s!"-o"; s!"lo"; s!"-j"; s!"RETURN"] p = pk_out_lo p;
  matches_owner u uid p : parse_u64 u = Some uid →
    rule_matches [s!"-m"; s!"owner"; s!"--uid-owner"; u; s!"-j"; s!"RETURN"] p =
    (pk_uid p =? uid);
  matches_dport d port q p : parse_u64 d = Some port →
    rule_matches [s!"-p"; s!"tcp"; s!"--dport"; d; s!"-j"; s!"REDIRECT"; s!"--to-port"; q] p =
    pk_tcp p && (pk_dport p =? port);
  target_lo : rule_target [s!"-o"; s!"lo"; s!"-j"; s!"RETURN"] = Some TReturn;
  target_owner u :
    rule_target [s!"-m"; s!"owner"; s!"--uid-owner"; u; s!"-j"; s!"RETURN"] = Some TReturn;
  target_redirect d q port : parse_u64 q = Some port →
    rule_target [s!"-p"; s!"tcp"; s!"--dport"; d; s!"-j"; s!"REDIRECT"; s!"--to-port"; q] =
    Some (TRedirect port);
}.

Section netfilter.

Context {K : Type} `{!Iptables K}.

Definition run_iptables (bin : str) (argv : list str) (k : K) : result unit setup_error * K :=
  let '(r, k) := exec bin argv k in
  (match r with
   | Err e => Err (ErrRunning bin e)
   | Ok output =>
       if negb (o_success output)
       then Err (ErrFailed bin argv (o_code output) (trim (from_utf8_lossy (o_stderr output))))
       else Ok tt
   end, k).

(** The loop of [run]. *)
Fixpoint run_rules (bin : str) (rs : list (list str)) (k : K) : result unit setup_error * K :=
  match rs with
  | [] => (Ok tt, k)
  | argv :: rs =>
      match run_iptables bin argv k with
      | (Ok _, k) => run_rules bin rs k
      | (Err e, k) => (Err e, k)
      end
  end.

Definition run (args : Args) (k : K) : result unit setup_error * K :=
  run_rules (iptables_bin args) (build_rules (proxy_port args) (sidecar_uid args)) k.

(** ** Lemmas *)

Lemma run_iptables_ok bin argv k k' :
  run_iptables bin argv k = (Ok tt, k') →
  ∃ out, exec bin argv k = (Ok out, k') ∧ o_success out = true.
Proof.
  unfold run_iptables. destruct (exec bin argv k) as [[out|e] k1]; intros; simplify_eq.
  destruct (o_success out) eqn:E; cbn in *; simplify_eq. eauto.
Qed.

(** One appended rule, seen from the packet. *)
Lemma run_rules_append bin spec rs k k' p t :
  is_iptables bin →
  run_rules bin (rule (s!"-A" :: s!"OUTPUT" :: spec) :: rs) k = (Ok tt, k') →
  rule_target spec = Some t →
  ∃ k1, run_rules bin rs k1 = (Ok tt, k') ∧
    verdict k1 p = match verdict k p with
                   | Some v => Some v
                   | None => if pk_ipv4 p && rule_matches spec p then Some t else None
                   end.
Proof.
  intros Hbin Hr Ht. cbn [run_rules] in Hr.
  destruct (run_iptables bin _ k) as [[[]|e] k1] eqn:E; [|done].
  exists k1. split; [done|]. apply run_iptables_ok in E as (out & He & Hs).
  by eapply exec_append.
Qed.

(** ** Properties *)

(** What the rules are meant to do with a packet no earlier rule took. *)
Definition intended (args : Args) (p : packet) : option target :=
  if negb (pk_ipv4 p) then None
  else if pk_out_lo p || (pk_uid p =? sidecar_uid args) then Some TReturn
  else if pk_tcp p && ((pk_dport p =? 80) || (pk_dport p =? 443))
  then Some (TRedirect (proxy_port args))
  else None.

Lemma run_verdict (args : Args) (k k' : K) (p : packet)
    (Hbin : is_iptables (iptables_bin args)) (Hport : 0 <= proxy_port args <= u16_max)
    (Huid : 0 <= sidecar_uid args <= 4294967295)
    (Hrun : run args k = (Ok tt, k')) :
  verdict k' p = match verdict k p with Some v => Some v | None => intended args p end.
Proof.
  unfold run, build_rules in Hrun.
  assert (parse_u64 (dec (sidecar_uid args)) = Some (sidecar_uid args)) as Hu
    by (apply parse_u64_dec; unfold u64_max; lia).
  assert (parse_u64 (dec (proxy_port args)) = Some (proxy_port args)) as Hp
    by (apply parse_u64_dec; unfold u64_max, u16_max in *; lia).
  apply (run_rules_append _ _ _ _ _ p _ Hbin) with (2 := target_lo) in Hrun as (k1 & Hrun & E1).
  apply (run_rules_append _ _ _ _ _ p _ Hbin) with (2 := target_owner _) in Hrun as (k2 & Hrun & E2).
  apply (run_rules_append _ _ _ _ _ p _ Hbin) with (2 := target_redirect _ _ _ Hp)
    in Hrun as (k3 & Hrun & E3).
  apply (run_rules_append _ _ _ _ _ p _ Hbin) with (2 := target_redirect _ _ _ Hp)
    in Hrun as (k4 & Hrun & E4).
  cbn in Hrun. simplify_eq.
  rewrite (matches_dport _ 443) in E4 by done. rewrite (matches_dport _ 80) in E3 by done.
  rewrite (matches_owner _ _ _ Hu) in E2. rewrite matches_lo in E1.
  rewrite E4, E3, E2, E1. unfold intended.
  destruct (verdict k p); [done|]. destruct (pk_ipv4 p); [|done]. cbn [andb negb].
  destruct (pk_out_lo p); [done|]. cbn [orb].
  destruct (pk_uid p =? sidecar_uid args); [done|]. destruct (pk_tcp p); [|done]. cbn [andb].
  destruct (pk_dport p =? 80); [done|]. by destruct (pk_dport p =? 443).
Qed.

(** C10: when [netfilter-setup], its binary being [iptables], succeeds on a chain,
    every packet the chain did not already decide gets the intended verdict:
    loopback traffic and the sidecar's own packets are left alone (so its egress
    never loops back), any other IPv4 TCP packet to port 80 or 443 is redirected to
    the proxy port, and nothing else is touched; IPv6 packets, in particular, are
    not. *)
Theorem run_redirects (args : Args) (k k' : K) (p : packet)
    (Hbin : is_iptables (iptables_bin args)) (Hport : 0 <= proxy_port args <= u16_max)
    (Huid : 0 <= sidecar_uid args <= 4294967295)
    (Hrun : run args k = (Ok tt, k')) :
  verdict k' p = match verdict k p with Some v => Some v | None => intended args p end.
Proof. by apply run_verdict. Qed.

Definition exec_state (bin : str) (k : K) (argv : list str) : K := (exec bin argv k).2.

Lemma run_iptables_state bin argv k : (run_iptables bin argv k).2 = exec_state bin k argv.
Proof. unfold run_iptables, exec_state. by destruct (exec bin argv k). Qed.

(** The commands, run in order from [k], were all started and exited with
    success. *)
Fixpoint all_succeed (bin : str) (k : K) (cmds : list (list str)) : Prop :=
  match cmds with
  | [] => True
  | argv :: cmds =>
      (∃ out, (exec bin argv k).1 = Ok out ∧ o_success out = true) ∧
      all_succeed bin (exec_state bin k argv) cmds
  end.

(** The command could not be started, or exited with failure; and the error
    that reports it. *)
Definition fails_with (bin : str) (k : K) (argv : list str) (e : setup_error) : Prop :=
  (∃ msg, (exec bin argv k).1 = Err msg ∧ e = ErrRunning bin msg) ∨
  (∃ out, (exec bin argv k).1 = Ok out ∧ o_success out = false ∧
     e = ErrFailed bin argv (o_code out) (trim (from_utf8_lossy (o_stderr out)))).

Lemma run_iptables_outcome bin argv k :
  match (run_iptables bin argv k).1 with
  | Ok _ => ∃ out, (exec bin argv k).1 = Ok out ∧ o_success out = true
  | Err e => fails_with bin k argv e
  end.
Proof.
  unfold run_iptables, fails_with. destruct (exec bin argv k) as [[out|e] k1]; cbn; [|eauto].
  destruct (o_success out) eqn:Es; cbn; eauto 10.
Qed.

Lemma run_rules_prefix bin rs k :
  ∃ pre post, rs = pre ++ post ∧
    (run_rules bin rs k).2 = foldl (exec_state bin) k pre ∧
    match (run_rules bin rs k).1 with
    | Ok _ => post = [] ∧ all_succeed bin k pre
    | Err e => ∃ pre' argv, pre = pre' ++ [argv] ∧ all_succeed bin k pre' ∧
        fails_with bin (foldl (exec_state bin) k pre') argv e
    end.
Proof.
  revert k. induction rs as [|argv rs IH]; intros k; [by exists [], []|].
  cbn [run_rules]. pose proof (run_iptables_state bin argv k) as Hst.
  pose proof (run_iptables_outcome bin argv k) as Ho.
  destruct (run_iptables bin argv k) as [[[]|e] k1]; cbn in Hst, Ho; subst k1.
  - destruct (IH (exec_state bin k argv)) as (pre & post & -> & Hk & Hr).
    exists (argv :: pre), post. split_and!; [done|done|].
    destruct (run_rules bin (pre ++ post) _).1 as [[]|e].
    + by destruct Hr.
    + destruct Hr as (pre' & a & -> & Hok & He). by exists (argv :: pre'), a.
  - exists [argv], rs. split_and!; [done|done|]. by exists [], argv.
Qed.

(** C33: the setup is all or a reported prefix: the commands are run in order;
    [Ok] means that all of them were started and exited with success; an error
    means that every command before the last one run succeeded, that this last
    one could not be started or exited with failure, which is what the error
    reports (its exit code and its trimmed standard error), and that none after
    it was run. *)
Theorem run_stops_at_failure (args : Args) (k : K) :
  let bin := iptables_bin args in
  let cmds := build_rules (proxy_port args) (sidecar_uid args) in
  ∃ pre post, cmds = pre ++ post ∧ (run args k).2 = foldl (exec_state bin) k pre ∧
    match (run args k).1 with
    | Ok _ => pre = cmds ∧ all_succeed bin k cmds
    | Err e => ∃ pre' argv, pre = pre' ++ [argv] ∧ all_succeed bin k pre' ∧
        fails_with bin (foldl (exec_state bin) k pre') argv e
    end.
Proof.
  cbv zeta. destruct (run_rules_prefix (iptables_bin args)
    (build_rules (proxy_port args) (sidecar_uid args)) k) as (pre & post & Hb & Hk & Hr).
  exists pre, post. fold (run args k) in Hk, Hr. split_and!; [done|done|].
  destruct (run args k).1; [|done]. destruct Hr as [-> Hall]. rewrite app_nil_r in Hb.
  by rewrite Hb.
Qed.

End netfilter.

(** ** A chain that follows the documentation *)

Module NetfilterExamples.

(** The specs appended so far. *)
Abbreviation chain := (list (list str)) (only parsing).

Definition ex_matches (spec : list str) (p : packet) : bool :=
  match spec with
  | [o; lo; _; _] => str_eqb o (s!"-o") && str_eqb lo (s!"lo") && pk_out_lo p
  | [_; _; _; u; _; _] =>
      match parse_u64 u with Some uid => pk_uid p =? uid | None => false end
  | [_; _; _; d; _; _; _; _] =>
      match parse_u64 d with Some port => pk_tcp p && (pk_dport p =? port) | None => false end
  | _ => false
  end.

Definition ex_target (spec : list str) : option target :=
  match spec with
  | [_; _; _; _] | [_; _; _; _; _; _] => Some TReturn
  | [_; _; _; _; _; _; _; q] => TRedirect <$> parse_u64 q
  | _ => None
  end.

Fixpoint ex_verdict (k : chain) (p : packet) : option target :=
  match k with
  | [] => None
  | spec :: k =>
      match ex_target spec with
      | Some t => if pk_ipv4 p && ex_matches spec p then Some t else ex_verdict k p
      | None => ex_verdict k p
      end
  end.

(** Accepts an append whose target parses. *)
Definition ex_exec (bin : str) (argv : list str) (k : chain) : result Output str * chain :=
  match argv with
  | _ :: _ :: _ :: _ :: spec =>
      match ex_target spec with
      | Some _ => (Ok {| o_success := true; o_code := Some 0; o_stderr := [] |}, k ++ [spec])
      | None => (Ok {| o_success := false; o_code := Some 2; o_stderr := s!"bad rule" |}, k)
      end
  | _ => (Ok {| o_success := false; o_code := Some 2; o_stderr := [] |}, k)
  end.

Lemma ex_verdict_snoc k spec p t :
  ex_target spec = Some t →
  ex_verdict (k ++ [spec]) p =
  match ex_verdict k p with
  | Some v => Some v
  | None => if pk_ipv4 p && ex_matches spec p then Some t else None
  end.
Proof.
  intros Ht. induction k as [|sp k IH]; cbn; [by rewrite Ht|].
  destruct (ex_target sp); [|done]. by destruct (pk_ipv4 p && ex_matches sp p).
Qed.

#[export, refine] Instance ex_iptables : Iptables (list (list str)) := {|
  is_iptables bin := bin = s!"iptables"; exec := ex_exec; verdict := ex_verdict; rule_matches := ex_matches;
  rule_target := ex_target;
|}.
Proof.
  - intros bin spec k out k' p t _ He _ Ht. cbn [ex_exec] in He. rewrite Ht in He.
    simplify_eq. by apply ex_verdict_snoc.
  - intros p. cbn [ex_matches].
    change (str_eqb (s!"-o") (s!"-o") && str_eqb (s!"lo") (s!"lo")) with true. done.
  - intros u uid p Hu. cbn [ex_matches]. by rewrite Hu.
  - intros d port q p Hd. cbn [ex_matches]. by rewrite Hd.
  - done.
  - done.
  - intros d q port Hq. cbn [ex_target]. by rewrite Hq.
Defined.

Definition ex_args : Args :=
  {| proxy_port := 15001; sidecar_uid := 1337; iptables_bin := s!"iptables" |}.

Definition workspace_https : packet :=
  {| pk_ipv4 := true; pk_out_lo := false; pk_uid := 1000; pk_tcp := true; pk_dport := 443 |}.

Lemma run_redirects_witness :
  verdict (run ex_args []).2 workspace_https = Some (TRedirect 15001).
Proof.
  rewrite (run_redirects ex_args [] (run ex_args []).2 workspace_https).
  - reflexivity.
  - reflexivity.
  - unfold u16_max. cbn. lia.
  - cbn. lia.
  - vm_compute. reflexivity.
Defined.

End NetfilterExamples.
