(* ===== verification/H2.v ===== *)
(** * [condukt_egress/src/proxy/h2.rs]: HTTP/2 streams of a terminated connection

    [hyper] runs the protocol; what it delivers is an environment: the outcome
    of the thread, runtime, handshake and connection, and a sequence of stream
    steps. A stream is the two pieces of [proxy_stream] around its await: it
    opens (reporting [request_opened]) and finishes with the upstream's answer
    or an error (reporting [request_closed] in both cases). Streams interleave
    freely. *)

From S2P Require Import Prelude Utf8 Strs Policy Event Api.

(** The request parts the source reads of a [hyper::Request]. *)
Record h2_request := {
  hr_method : str;
  hr_path_and_query : option str;
  hr_headers : list (str * bytes);
}.

Inductive h2_response :=
| Forwarded (status : Z)
| ErrorResponse (status : Z) (body : bytes).

Definition error_response (message : str) : h2_response :=
  ErrorResponse 502 (as_bytes message).

(** The steps of the connection's streams, and those of the other tasks that use
    the control channel meanwhile. *)
Inductive h2_step (Env : Type) :=
| HOpen (sid : nat) (uuid : str) (started now : DateTime) (req : h2_request)
| HFinish (sid : nat) (result : result Z str) (finished now : DateTime)
| HOthers (env : Env).
Arguments HOpen {Env}.
Arguments HFinish {Env}.
Arguments HOthers {Env}.

Record h2_env (Env : Type) := {
  he_spawn : result unit str;      (** [thread::Builder::spawn] *)
  he_rt : result unit str;         (** the thread's runtime *)
  he_panics : bool;                (** the thread dies before sending *)
  he_handshake : result unit str;  (** upstream handshake *)
  he_steps : list (h2_step Env);
  he_serve : result unit str;      (** [serve_connection] *)
}.
Arguments he_spawn {Env}.
Arguments he_rt {Env}.
Arguments he_panics {Env}.
Arguments he_handshake {Env}.
Arguments he_steps {Env}.
Arguments he_serve {Env}.

Section h2.

(** [HeaderValue::to_str]. *)
Variable to_str : bytes → option str.

(** [headers().iter().map(..).collect()]. *)
Definition h2_headers (hs : list (str * bytes)) : gmap str str :=
  foldl (λ m '(k, v), <[k := default [] (to_str v)]> m) ∅ hs.

(** The event request of a stream, cloned from the connection's. *)
Definition stream_request (base : Request) (uuid : str) (started : DateTime)
    (req : h2_request) : Request :=
  {| rq_id := uuid;
     rq_session_id := rq_session_id base;
     rq_host := rq_host base;
     rq_port := rq_port base;
     rq_remote_addr := rq_remote_addr base;
     rq_scheme := rq_scheme base;
     rq_method := Some (hr_method req);
     rq_path := Some (default (s!"/") (hr_path_and_query req));
     rq_request_headers := Some (h2_headers (hr_headers req));
     rq_response_status := rq_response_status base;
     rq_bytes_in := rq_bytes_in base;
     rq_bytes_out := rq_bytes_out base;
     rq_started_at := started;
     rq_finished_at := rq_finished_at base |}.

Definition stream_closed (r : Request) (status : option Z) (finished : DateTime) : Request :=
  {| rq_id := rq_id r; rq_session_id := rq_session_id r; rq_host := rq_host r;
     rq_port := rq_port r; rq_remote_addr := rq_remote_addr r; rq_scheme := rq_scheme r;
     rq_method := rq_method r; rq_path := rq_path r;
     rq_request_headers := rq_request_headers r;
     rq_response_status := match status with Some n => Some n | None => rq_response_status r end;
     rq_bytes_in := rq_bytes_in r; rq_bytes_out := rq_bytes_out r;
     rq_started_at := rq_started_at r; rq_finished_at := Some finished |}.

(** [proxy_stream] after the upstream answered: the event and the response. *)
Definition stream_finish (r : Request) (result : result Z str) (finished now : DateTime)
    : Event * h2_response :=
  match result with
  | Ok status =>
      (Event_new now RequestClosed (stream_closed r (Some status) finished), Forwarded status)
  | Err err =>
      (with_reason (Event_new now RequestClosed (stream_closed r None finished))
         (s!"upstream_h2_send: " ++ err),
       error_response (s!"upstream send failed: " ++ err))
  end.

Context {S Env : Type} `{!ControlApi S Env}.

(** The streams that are open, the ids used so far, and what was emitted. *)
Record h2_st := {
  h_ctl : S;
  h_open : gmap nat Request;
  h_seen : gset nat;
  h_events : list (nat * Event);
}.

Definition h2_stream_step (base : Request) (st : h2_st) (l : h2_step Env) : h2_st :=
  match l with
  | HOpen sid uuid started now req =>
      if decide (sid ∈ h_seen st) then st
      else
        let r := stream_request base uuid started req in
        let e := Event_new now RequestOpened r in
        {| h_ctl := api_emit e (h_ctl st); h_open := <[sid := r]> (h_open st);
           h_seen := {[sid]} ∪ h_seen st; h_events := h_events st ++ [(sid, e)] |}
  | HFinish sid result finished now =>
      match h_open st !! sid with
      | None => st
      | Some r =>
          let e := (stream_finish r result finished now).1 in
          {| h_ctl := api_emit e (h_ctl st); h_open := delete sid (h_open st);
             h_seen := h_seen st; h_events := h_events st ++ [(sid, e)] |}
      end
  | HOthers others =>
      {| h_ctl := api_others others (h_ctl st); h_open := h_open st; h_seen := h_seen st;
         h_events := h_events st |}
  end.

Definition h2_start (s : S) : h2_st :=
  {| h_ctl := s; h_open := ∅; h_seen := ∅; h_events := [] |}.

Definition drive (env : h2_env Env) (base : Request) (s : S) : result unit str * h2_st :=
  match he_handshake env with
  | Err e => (Err (s!"upstream h2 handshake: " ++ e), h2_start s)
  | Ok _ =>
      let st := foldl (h2_stream_step base) (h2_start s) (he_steps env) in
      (map_err (λ e, s!"client h2 serve: " ++ e) (he_serve env), st)
  end.

(** [h2::handle]: the thread, its runtime, and the completion channel. *)
Definition h2_handle (env : h2_env Env) (base : Request) (s : S) : result unit str * h2_st :=
  match he_spawn env with
  | Err e => (Err (s!"h2 thread spawn: " ++ e), h2_start s)
  | Ok _ =>
      match he_rt env with
      | Err e => (Err (s!"h2 thread rt: " ++ e), h2_start s)
      | Ok _ =>
          let '(r, st) := drive env base s in
          if he_panics env then (Err (s!"h2 thread terminated without completing"), st)
          else (r, st)
      end
  end.

(** The channel stays well-formed. *)
Lemma h2_stream_step_ok base st l :
  api_ok (h_ctl st) → api_ok (h_ctl (h2_stream_step base st l)).
Proof.
  intros H. destruct l as [sid uuid started now req|sid res finished now|others]; cbn.
  - case_decide; cbn; auto using api_emit_ok.
  - case_match; cbn; auto using api_emit_ok.
  - by apply api_others_ok.
Qed.

Lemma h2_handle_ok env base s : api_ok s → api_ok (h_ctl (h2_handle env base s).2).
Proof.
  intros H. unfold h2_handle, drive. destruct (he_spawn env); [|done].
  destruct (he_rt env); [|done].
  assert (api_ok (h_ctl (foldl (h2_stream_step base) (h2_start s) (he_steps env)))) as Hf.
  { assert (api_ok (h_ctl (h2_start s))) as H0 by done. revert H0.
    generalize (h2_start s). induction (he_steps env) as [|l ls IH]; intros st Hst; [done|].
    apply IH. by apply h2_stream_step_ok. }
  by destruct (he_handshake env), (he_panics env).
Qed.

(** ** Lifecycle of a stream *)

Definition same_stream (base r : Request) : Prop :=
  rq_session_id r = rq_session_id base ∧ rq_host r = rq_host base ∧
  rq_port r = rq_port base ∧ rq_scheme r = rq_scheme base ∧
  rq_remote_addr r = rq_remote_addr base.

(** The events of one stream. *)
Definition events_of (sid : nat) (evs : list (nat * Event)) : list Event :=
  (filter (λ p, p.1 = sid) evs).*2.

Lemma events_of_snoc sid sid' evs e :
  events_of sid (evs ++ [(sid', e)]) =
  events_of sid evs ++ (if decide (sid' = sid) then [e] else []).
Proof.
  unfold events_of. rewrite filter_app, fmap_app. f_equal.
  destruct (decide (sid' = sid)).
  - by rewrite filter_cons_True.
  - by rewrite filter_cons_False.
Qed.

(** A closed event of the stream opened as [r]. *)
Definition closes (r : Request) (e : Event) : Prop :=
  ∃ result finished now, e = (stream_finish r result finished now).1.

(** What the events of a stream look like, by its state. *)
Definition stream_ok (base : Request) (sid : nat) (st : h2_st) : Prop :=
  match h_open st !! sid with
  | Some r =>
      sid ∈ h_seen st ∧ same_stream base r ∧
      ∃ now, events_of sid (h_events st) = [Event_new now RequestOpened r]
  | None =>
      if decide (sid ∈ h_seen st)
      then ∃ r now e, same_stream base r ∧ closes r e ∧
             events_of sid (h_events st) = [Event_new now RequestOpened r; e]
      else events_of sid (h_events st) = []
  end.

Lemma stream_ok_step base sid st l :
  stream_ok base sid st → stream_ok base sid (h2_stream_step base st l).
Proof.
  intros H. destruct l as [sid' uuid started now req|sid' res finished now|others]; cbn; [..|done].
  - destruct (decide (sid' ∈ h_seen st)) as [Hin|Hnin]; [done|].
    unfold stream_ok in *. cbn [h_open h_seen h_events]. rewrite events_of_snoc.
    destruct (decide (sid' = sid)) as [->|Hne].
    + rewrite lookup_insert_eq.
      destruct (h_open st !! sid) as [r|]; [by destruct H|].
      rewrite decide_False in H by done. rewrite H. split_and!; [set_solver|done|].
      by exists now.
    + rewrite lookup_insert_ne, app_nil_r by done.
      destruct (h_open st !! sid) as [r|]; [set_solver|].
      destruct (decide (sid ∈ h_seen st)) as [Hs|Hs].
      * rewrite decide_True by set_solver. done.
      * rewrite decide_False by set_solver. done.
  - destruct (h_open st !! sid') as [r'|] eqn:Ho; [|done].
    unfold stream_ok in *. cbn [h_open h_seen h_events]. rewrite events_of_snoc.
    destruct (decide (sid' = sid)) as [->|Hne].
    + rewrite lookup_delete_eq. rewrite Ho in H. destruct H as (Hs & Hb & t & ->).
      rewrite decide_True by done. do 3 eexists. split; [done|]. split; [|done].
      by do 3 eexists.
    + rewrite lookup_delete_ne, app_nil_r by done. done.
Qed.

Lemma stream_ok_run base sid s steps :
  stream_ok base sid (foldl (h2_stream_step base) (h2_start s) steps).
Proof.
  assert (stream_ok base sid (h2_start s)) as H.
  { unfold stream_ok. cbn. rewrite lookup_empty. by rewrite decide_False by set_solver. }
  revert H. generalize (h2_start s). induction steps as [|l steps IH]; intros st H; [done|].
  apply IH. by apply stream_ok_step.
Qed.


End h2.
