(* ===== verification/Conn.v ===== *)
(** * [condukt_egress/src/proxy/conn.rs]: one redirected connection

    [handle] recovers the destination, identifies the host, evaluates the
    policy and either refuses the connection or forwards it. Everything the
    function takes from outside (sockets, TLS, the clock, a fresh id, the other
    tasks) is the record [conn_env]; what it does is a list of [action]s in
    program order, plus the states of the control channel and of the certificate
    cache, which are any implementations of [ControlApi] and [CertApi]. *)

From S2P Require Import Prelude Utf8 Strs Policy Event Api OrigDst Sni Http1 Splice H2.

(** ** Identifying the host *)

(** [line.strip_prefix("Host:").or_else(..).or_else(..)]. *)
Definition strip_host (line : str) : option str :=
  match strip_prefix (s!"Host:") line with
  | Some rest => Some rest
  | None =>
      match strip_prefix (s!"host:") line with
      | Some rest => Some rest
      | None => strip_prefix (s!"HOST:") line
      end
  end.

(** [for line in text.lines()]. *)
Fixpoint first_host (ls : list str) : option str :=
  match ls with
  | [] => None
  | line :: ls =>
      match strip_host line with Some rest => Some (trim rest) | None => first_host ls end
  end.

Definition parse_http_host (bs : bytes) : option str :=
  text ← from_utf8 bs; first_host (lines text).

(** ** Environment and actions *)

Record conn_env (Env CEnv : Type) := {
  ce_remote : option SocketAddr;               (** [peer_addr().ok()] *)
  ce_little : bool;                            (** the host's endianness *)
  ce_getsockopt : result sockaddr_in io_error; (** [SO_ORIGINAL_DST] *)
  ce_peek : result bytes io_error;             (** the peeked bytes *)
  ce_uuid : str;
  ce_clock : nat → DateTime;                   (** successive readings *)
  ce_others : nat → Env;                       (** between channel operations *)
  ce_decide : Env;                             (** during [request_decision] *)
  ce_config : CEnv;                            (** during [server_config_for] *)
  ce_accept : result (option str) io_error;    (** client handshake, its ALPN *)
  ce_server_name : result unit str;            (** [ServerName::try_from] *)
  ce_connect : result unit io_error;           (** TCP connection upstream *)
  ce_tls_connect : result (option str) io_error; (** upstream handshake, its ALPN *)
  ce_h2 : h2_env Env;
  ce_client_reads : list (result bytes io_error);
  ce_up_writes : list (result unit io_error);
  ce_up_reads : list (result bytes io_error);
  ce_client_writes : list bool;
}.
Arguments ce_remote {Env CEnv}.
Arguments ce_little {Env CEnv}.
Arguments ce_getsockopt {Env CEnv}.
Arguments ce_peek {Env CEnv}.
Arguments ce_uuid {Env CEnv}.
Arguments ce_clock {Env CEnv}.
Arguments ce_others {Env CEnv}.
Arguments ce_decide {Env CEnv}.
Arguments ce_config {Env CEnv}.
Arguments ce_accept {Env CEnv}.
Arguments ce_server_name {Env CEnv}.
Arguments ce_connect {Env CEnv}.
Arguments ce_tls_connect {Env CEnv}.
Arguments ce_h2 {Env CEnv}.
Arguments ce_client_reads {Env CEnv}.
Arguments ce_up_writes {Env CEnv}.
Arguments ce_up_reads {Env CEnv}.
Arguments ce_client_writes {Env CEnv}.

Definition ce_dst {Env CEnv} (env : conn_env Env CEnv) : result SocketAddr io_error :=
  original_dst (ce_little env) (ce_getsockopt env).

Inductive action :=
| AEmit (e : Event)                (** an event of this connection *)
| AStream (sid : nat) (e : Event)  (** an event of one of its HTTP/2 streams *)
| AShutdownClient
| AAccept (arc : nat)              (** a TLS handshake with the client is tried *)
| AConnect (dst : SocketAddr)      (** a TCP connection to the upstream is tried *)
| ATlsConnect (name : str)         (** a TLS handshake with the upstream is tried *)
| AUpstream (bs : bytes)           (** bytes of completed writes to the upstream *)
| AClient (bs : bytes).            (** bytes of completed writes to the client *)

(** Whether an action reaches out to the upstream. *)
Definition is_egress (a : action) : bool :=
  match a with AConnect _ | ATlsConnect _ | AUpstream _ => true | _ => false end.

(** ** HTTP/1 forwarding *)

Definition set_head (h : RequestHead) (r : Request) : Request :=
  {| rq_id := rq_id r; rq_session_id := rq_session_id r; rq_host := rq_host r;
     rq_port := rq_port r; rq_remote_addr := rq_remote_addr r; rq_scheme := rq_scheme r;
     rq_method := Some (rh_method h); rq_path := Some (rh_path h);
     rq_request_headers := Some (rh_headers h);
     rq_response_status := rq_response_status r; rq_bytes_in := rq_bytes_in r;
     rq_bytes_out := rq_bytes_out r; rq_started_at := rq_started_at r;
     rq_finished_at := rq_finished_at r |}.

Definition set_counters (b_in b_out : Z) (finished : DateTime) (r : Request) : Request :=
  {| rq_id := rq_id r; rq_session_id := rq_session_id r; rq_host := rq_host r;
     rq_port := rq_port r; rq_remote_addr := rq_remote_addr r; rq_scheme := rq_scheme r;
     rq_method := rq_method r; rq_path := rq_path r;
     rq_request_headers := rq_request_headers r;
     rq_response_status := rq_response_status r; rq_bytes_in := b_in;
     rq_bytes_out := b_out; rq_started_at := rq_started_at r;
     rq_finished_at := Some finished |}.

Definition is_ok {A E} (r : result A E) : bool := match r with Ok _ => true | Err _ => false end.

Section conn.

Variable parse_tls_plaintext : bytes → option (list TlsMessage).
Variable parse_tls_extensions : bytes → option (list TlsExtension).
Context {HpErr : Type}.
Variable httparse : bytes → result Status HpErr.
Variable to_str : bytes → option str.

Definition identify_host (bs : bytes) (port : Z) (dst_ip : str) : str :=
  if (port =? 443) || looks_like_tls bs
  then default dst_ip (extract parse_tls_plaintext parse_tls_extensions bs)
  else default dst_ip (parse_http_host bs).

(** The loop that reads the request head: the head if one was parsed, the bytes
    read, and the reads that are left. *)
Fixpoint read_head (rs : list (result bytes io_error)) (head_buf : bytes)
    : result (option RequestHead * bytes * list (result bytes io_error)) str :=
  match rs with
  | [] => Ok (None, head_buf, [])
  | Err e :: _ => Err (s!"read_head: " ++ e)
  | Ok [] :: rs => Ok (None, head_buf, rs)
  | Ok bs :: rs =>
      let head_buf := head_buf ++ bs in
      match Http1.parse httparse head_buf with
      | Ok (Some head) => Ok (Some head, head_buf, rs)
      | Ok None => read_head rs head_buf
      | Err _ => Ok (None, head_buf, rs)
      end
  end.

Context {S Env T CEnv : Type} `{!ControlApi S Env} `{!CertApi T CEnv}.

(** The common body of [https_h1] and [http_forward]: outcome, the request as
    the function leaves it, and the actions. *)
Definition forward_h1 (env : conn_env Env CEnv) (request : Request)
    : result unit str * Request * list action :=
  match read_head (ce_client_reads env) [] with
  | Err e => (Err e, request, [])
  | Ok (head, head_buf, client_reads) =>
      let request := match head with Some h => set_head h request | None => request end in
      match ce_up_writes env with
      | Err e :: _ => (Err (s!"forward_head: " ++ e), request, [])
      | up_writes =>
          let c2u := {| reads := client_reads; writes := is_ok <$> tail up_writes |} in
          let u2c := {| reads := ce_up_reads env; writes := ce_client_writes env |} in
          let '(bytes_in, bytes_out) := splice_pairs c2u u2c in
          let request := set_counters bytes_in
            (u64 (Z.of_nat (length head_buf) + bytes_out)) (ce_clock env 3) request in
          (Ok tt, request,
           [AUpstream head_buf; AUpstream (p_out (pump c2u)); AClient (p_out (pump u2c))])
      end
  end.

Definition https_h1 := forward_h1.

Definition http_forward (env : conn_env Env CEnv) (dst : SocketAddr) (request : Request)
    : result unit str * Request * list action :=
  match ce_connect env with
  | Err e => (Err (s!"upstream_unreachable: " ++ e), request, [AConnect dst])
  | Ok _ =>
      let '(r, request, acts) := forward_h1 env request in
      (r, request, AConnect dst :: acts)
  end.

(** [build_tls_connector] never fails: its configuration is built from
    whatever system roots could be read. *)
Definition https_mitm (env : conn_env Env CEnv) (host : str) (dst : SocketAddr)
    (request : Request) (s : S) (t : T) : result unit str * Request * list action * S * T :=
  let '(server_cfg, t) := cert_server_config_for host (ce_config env) t in
  match server_cfg with
  | Err e => (Err (s!"server_config: " ++ TlsError_to_string e), request, [], s, t)
  | Ok arc =>
  match ce_accept env with
  | Err _ => (Err (s!"tls_client_rejected_ca"), request, [AAccept arc], s, t)
  | Ok client_alpn =>
  match ce_server_name env with
  | Err e => (Err (s!"sni: " ++ e), request, [AAccept arc], s, t)
  | Ok _ =>
  match ce_connect env with
  | Err e =>
      (Err (s!"upstream_unreachable: " ++ e), request, [AAccept arc; AConnect dst], s, t)
  | Ok _ =>
  match ce_tls_connect env with
  | Err e =>
      (Err (s!"upstream_tls: " ++ e), request,
       [AAccept arc; AConnect dst; ATlsConnect host], s, t)
  | Ok upstream_alpn =>
      if str_eqb (default [] client_alpn) (s!"h2") && str_eqb (default [] upstream_alpn) (s!"h2")
      then
        let '(r, st) := h2_handle to_str (ce_h2 env) request s in
        (r, request,
         [AAccept arc; AConnect dst; ATlsConnect host]
           ++ ((λ p, AStream p.1 p.2) <$> h_events st),
         h_ctl st, t)
      else
        let '(r, request, acts) := https_h1 env request in
        (r, request, [AAccept arc; AConnect dst; ATlsConnect host] ++ acts, s, t)
  end end end end end.

(** ** The handler *)

(** What a reply of [request_decision] means: the reason of a denial, if any. *)
Definition reply_denial (reply : option CtlDecision) : option str :=
  match reply with
  | Some d =>
      match d_action d with
      | DAllow => None
      | DDeny =>
          Some (match d_reason d with
                | Some r => if is_empty r then s!"decider_deny" else s!"decider: " ++ r
                | None => s!"decider_deny"
                end)
      end
  | None => Some (s!"decider_timeout")
  end.

Definition with_rule (m : option MatchedRule) (e : Event) : Event :=
  match m with Some r => with_matched_rule e r | None => e end.

(** [control.emit], as the [n]th operation of this connection on the channel:
    the other tasks act before it. *)
Definition emit_at (env : conn_env Env CEnv) (n : nat) (e : Event) (s : S) : S :=
  api_emit e (api_others (ce_others env n) s).

(** [None] would be a panic of the policy evaluation. The assignment of
    [request.scheme] repeats what [Request::new] stored. *)
Definition handle (env : conn_env Env CEnv) (policy : Policy) (session_id : option str)
    (s : S) (t : T) : option (list action * S * T) :=
  match ce_dst env, ce_peek env with
  | Err _, _ | _, Err _ => Some ([], s, t)
  | Ok dst, Ok peeked_bytes =>
      let port := sa_port dst in
      let host := identify_host peeked_bytes port (IpAddr_to_string (sa_ip dst)) in
      let request :=
        Request_new (ce_uuid env) (ce_clock env 0) host port (ce_remote env) session_id in
      let opened := Event_new (ce_clock env 1) RequestOpened request in
      let s := emit_at env 0 opened s in
      '(decision, matched_rule) ← evaluate policy host;
      let '(denial_reason, s) :=
        match decision with
        | DecisionAllow => (None, s)
        | DecisionDeny reason => (Some (DenyReason_as_str reason), s)
        | DecisionDecide =>
            let args := {| ra_id := rq_id request; ra_session_id := rq_session_id request;
                           ra_host := host; ra_port := port;
                           ra_scheme := rq_scheme request |} in
            let '(reply, s) :=
              api_request_decision args (decide_timeout_ms policy) (ce_decide env)
                (api_others (ce_others env 1) s) in
            (reply_denial reply, s)
        end in
      match denial_reason with
      | Some reason =>
          let event := with_rule matched_rule
            (with_reason (Event_new (ce_clock env 2) RequestDenied request) reason) in
          Some ([AEmit opened; AEmit event; AShutdownClient], emit_at env 2 event s, t)
      | None =>
          let allowed := with_rule matched_rule
            (Event_new (ce_clock env 2) RequestAllowed request) in
          let s := emit_at env 2 allowed s in
          let '(outcome, request, acts, s, t) :=
            if port =? 443 then https_mitm env host dst request s t
            else let '(r, request, acts) := http_forward env dst request in
                 (r, request, acts, s, t) in
          let final :=
            match outcome with
            | Ok _ => Event_new (ce_clock env 4) RequestClosed request
            | Err err => with_reason (Event_new (ce_clock env 4) RequestFailed request) err
            end in
          Some ([AEmit opened; AEmit allowed] ++ acts ++ [AEmit final],
                emit_at env 3 final s, t)
      end
  end.

(** ** Lemmas *)

(** What the events of a connection have in common. *)
Definition identity (r : Request) :=
  (rq_id r, rq_session_id r, rq_host r, rq_port r, rq_scheme r, rq_remote_addr r,
   rq_started_at r).

(** An action between the allow event and the final one. *)
Definition is_transfer (a : action) : bool :=
  match a with AEmit _ | AShutdownClient => false | _ => true end.

Lemma forward_h1_spec env r :
  identity (forward_h1 env r).1.2 = identity r ∧
  Forall (λ a, is_transfer a = true) (forward_h1 env r).2.
Proof.
  unfold forward_h1. destruct (read_head _ _) as [[[head buf] rs]|e]; [|done].
  destruct (ce_up_writes env) as [|[u|e] ws]; (split; [|repeat constructor]);
    by destruct head.
Qed.

Lemma http_forward_spec env dst r :
  identity (http_forward env dst r).1.2 = identity r ∧
  Forall (λ a, is_transfer a = true) (http_forward env dst r).2.
Proof.
  unfold http_forward. destruct (ce_connect env); [|split; repeat constructor].
  pose proof (forward_h1_spec env r) as [H1 H2].
  destruct (forward_h1 env r) as [[o r'] acts]. split; [done|]. by constructor.
Qed.

Lemma https_mitm_spec env host dst r s t :
  identity (https_mitm env host dst r s t).1.1.1.2 = identity r ∧
  Forall (λ a, is_transfer a = true) (https_mitm env host dst r s t).1.1.2.
Proof.
  unfold https_mitm.
  destruct (cert_server_config_for host (ce_config env) t) as [[arc|] t']; [|by split].
  destruct (ce_accept env); [|split; repeat constructor].
  destruct (ce_server_name env); [|split; repeat constructor].
  destruct (ce_connect env); [|split; repeat constructor].
  destruct (ce_tls_connect env); [|split; repeat constructor].
  case_match.
  - destruct (h2_handle _ _ _ _) as [o st]. split; [done|]. do 3 (constructor; [done|]).
    apply Forall_fmap, Forall_true. done.
  - pose proof (forward_h1_spec env r) as [H1 H2]. unfold https_h1.
    destruct (forward_h1 env r) as [[o r'] acts]. split; [done|]. by do 3 constructor.
Qed.

(** The transfer of an allowed connection, on either port. *)
Definition transfer env host dst r s t : result unit str * Request * list action * S * T :=
  if sa_port dst =? 443 then https_mitm env host dst r s t
  else let '(o, r, acts) := http_forward env dst r in (o, r, acts, s, t).

Lemma transfer_spec env host dst r s t :
  identity (transfer env host dst r s t).1.1.1.2 = identity r ∧
  Forall (λ a, is_transfer a = true) (transfer env host dst r s t).1.1.2.
Proof.
  unfold transfer. case_match; [apply https_mitm_spec|].
  pose proof (http_forward_spec env dst r). by destruct (http_forward env dst r) as [[? ?] ?].
Qed.

(** [handle] once a destination and bytes were obtained: what it consults, and
    the two shapes of its actions. *)
Section established.

Context (env : conn_env Env CEnv) (policy : Policy) (session_id : option str) (s : S) (t : T).
Context (dst : SocketAddr) (peeked : bytes).
Hypothesis Hdst : ce_dst env = Ok dst.
Hypothesis Hpeek : ce_peek env = Ok peeked.

Definition the_host : str :=
  identify_host peeked (sa_port dst) (IpAddr_to_string (sa_ip dst)).
Definition the_request : Request :=
  Request_new (ce_uuid env) (ce_clock env 0) the_host (sa_port dst) (ce_remote env) session_id.
Definition the_args : rd_args :=
  {| ra_id := ce_uuid env; ra_session_id := session_id; ra_host := the_host;
     ra_port := sa_port dst; ra_scheme := scheme_of_port (sa_port dst) |}.
Definition opened_event : Event := Event_new (ce_clock env 1) RequestOpened the_request.

(** The channel after the opened event, and when the peer is asked. *)
Definition opened_state : S := emit_at env 0 opened_event s.
Definition asked_state : S := api_others (ce_others env 1) opened_state.

(** The denial reason, if any, and the channel after deciding. *)
Definition decide_denial : option str * S :=
  match (pipeline policy the_host).1 with
  | DecisionAllow => (None, opened_state)
  | DecisionDeny reason => (Some (DenyReason_as_str reason), opened_state)
  | DecisionDecide =>
      let '(reply, s) := api_request_decision the_args (decide_timeout_ms policy)
                           (ce_decide env) asked_state in
      (reply_denial reply, s)
  end.

Definition provenance : option MatchedRule := (pipeline policy the_host).2.
Definition allowed_event : Event :=
  with_rule provenance (Event_new (ce_clock env 2) RequestAllowed the_request).
Definition denied_event (reason : str) : Event :=
  with_rule provenance
    (with_reason (Event_new (ce_clock env 2) RequestDenied the_request) reason).
Definition final_event (o : result unit str) (r : Request) : Event :=
  match o with
  | Ok _ => Event_new (ce_clock env 4) RequestClosed r
  | Err err => with_reason (Event_new (ce_clock env 4) RequestFailed r) err
  end.

Lemma handle_denied reason :
  decide_denial.1 = Some reason →
  handle env policy session_id s t =
  Some ([AEmit opened_event; AEmit (denied_event reason); AShutdownClient],
        emit_at env 2 (denied_event reason) decide_denial.2, t).
Proof.
  unfold handle. rewrite Hdst, Hpeek, evaluate_pipeline. fold the_host.
  unfold decide_denial, denied_event, provenance.
  destruct (pipeline policy the_host) as [d m]. cbn.
  change (ce_uuid env) with (rq_id the_request). intros H.
  destruct d as [|rs|]; cbn in *; simplify_eq; [done|].
  fold the_request. fold opened_event. fold opened_state. fold asked_state. fold the_args in *.
  destruct (api_request_decision _ _ _ _) as [reply s']. cbn in *. by rewrite H.
Qed.

(** The transfer of the connection, once allowed. *)
Definition allowed_transfer : result unit str * Request * list action * S * T :=
  transfer env the_host dst the_request (emit_at env 2 allowed_event decide_denial.2) t.

Lemma handle_allowed o r acts s' t' :
  decide_denial.1 = None → allowed_transfer = (o, r, acts, s', t') →
  handle env policy session_id s t =
  Some ([AEmit opened_event; AEmit allowed_event] ++ acts ++ [AEmit (final_event o r)],
        emit_at env 3 (final_event o r) s', t').
Proof.
  unfold handle. rewrite Hdst, Hpeek, evaluate_pipeline. fold the_host.
  unfold allowed_transfer, decide_denial, allowed_event, provenance, transfer.
  destruct (pipeline policy the_host) as [d m]. cbn. intros H.
  destruct d as [|rs|]; cbn in *; [|done|].
  - fold the_request. fold opened_event. fold opened_state. by intros ->.
  - fold the_request. fold opened_event. fold opened_state. fold asked_state. fold the_args in *.
    destruct (api_request_decision _ _ _ _) as [reply s1]. cbn in *. rewrite H. by intros ->.
Qed.

(** Either the connection is denied, or its transfer runs. *)
Lemma handle_cases :
  (∃ reason, decide_denial.1 = Some reason ∧
     handle env policy session_id s t =
     Some ([AEmit opened_event; AEmit (denied_event reason); AShutdownClient],
           emit_at env 2 (denied_event reason) decide_denial.2, t)) ∨
  (decide_denial.1 = None ∧ ∃ o r acts s' t', allowed_transfer = (o, r, acts, s', t') ∧
     handle env policy session_id s t =
     Some ([AEmit opened_event; AEmit allowed_event] ++ acts ++ [AEmit (final_event o r)],
           emit_at env 3 (final_event o r) s', t')).
Proof.
  destruct decide_denial.1 as [reason|] eqn:H.
  - left. eauto using handle_denied.
  - right. split; [done|]. destruct allowed_transfer as [[[[o r] acts] s'] t'] eqn:E.
    do 5 eexists. split; [done|]. by apply handle_allowed.
Qed.

End established.

(** A connection whose destination or first bytes cannot be read is dropped. *)
Lemma handle_dropped env policy session_id s t :
  is_ok (ce_dst env) && is_ok (ce_peek env) = false →
  handle env policy session_id s t = Some ([], s, t).
Proof. unfold handle. by destruct (ce_dst env), (ce_peek env). Qed.

Lemma env_cases (env : conn_env Env CEnv) :
  is_ok (ce_dst env) && is_ok (ce_peek env) = false ∨
  ∃ dst peeked, ce_dst env = Ok dst ∧ ce_peek env = Ok peeked.
Proof. destruct (ce_dst env), (ce_peek env); eauto 10. Qed.

Lemma with_rule_fields m e :
  ev_kind (with_rule m e) = ev_kind e ∧ ev_request (with_rule m e) = ev_request e ∧
  ev_reason (with_rule m e) = ev_reason e.
Proof. by destruct m. Qed.

Lemma handle_total env policy session_id s t : is_Some (handle env policy session_id s t).
Proof.
  destruct (env_cases env) as [Hd|(dst & peeked & Hdst & Hpeek)].
  { rewrite handle_dropped by done. eauto. }
  destruct (handle_cases env policy session_id s t dst peeked Hdst Hpeek)
    as [(reason & _ & ->)|(_ & o & r & mid & s2 & t2 & Htr & ->)]; eauto.
Qed.

(** The channel and the certificate cache stay well-formed. *)
Lemma https_mitm_ok env host dst r s t o r' acts s' t' :
  api_ok s → cert_ok t → https_mitm env host dst r s t = (o, r', acts, s', t') →
  api_ok s' ∧ cert_ok t'.
Proof.
  intros Hs Ht. unfold https_mitm.
  destruct (cert_server_config_for host (ce_config env) t) as [cfg t1] eqn:Hc.
  apply cert_request_ok in Hc; [|done].
  destruct cfg; [|by intros; simplify_eq]. destruct (ce_accept env); [|by intros; simplify_eq].
  destruct (ce_server_name env); [|by intros; simplify_eq].
  destruct (ce_connect env); [|by intros; simplify_eq].
  destruct (ce_tls_connect env); [|by intros; simplify_eq].
  destruct (str_eqb _ _ && str_eqb _ _).
  - pose proof (h2_handle_ok to_str (ce_h2 env) r s Hs) as H2.
    destruct (h2_handle _ _ _ _) as [? st]. by intros; simplify_eq.
  - unfold https_h1. destruct (forward_h1 env r) as [[? ?] ?]. by intros; simplify_eq.
Qed.

Lemma emit_at_ok env n e s : api_ok s → api_ok (emit_at env n e s).
Proof. intros. by apply api_emit_ok, api_others_ok. Qed.

#[local] Hint Resolve api_emit_ok api_others_ok emit_at_ok : preserve.

Lemma decide_denial_ok env policy session_id s dst peeked :
  api_ok s → api_ok (decide_denial env policy session_id s dst peeked).2.
Proof.
  intros Hs. unfold decide_denial.
  assert (api_ok (opened_state env session_id s dst peeked)) as Ho by (unfold opened_state; auto with preserve).
  destruct (pipeline policy _).1; [done|done|].
  destruct (api_request_decision _ _ _ _) as [reply s1] eqn:E.
  apply api_request_ok in E; [done|]. unfold asked_state. auto with preserve.
Qed.

Lemma handle_ok env policy session_id s t acts s' t' :
  api_ok s → cert_ok t → handle env policy session_id s t = Some (acts, s', t') →
  api_ok s' ∧ cert_ok t'.
Proof.
  intros Hs Ht Hh. destruct (env_cases env) as [Hd|(dst & peeked & Hdst & Hpeek)].
  { rewrite handle_dropped in Hh by done. by simplify_eq. }
  pose proof (decide_denial_ok env policy session_id s dst peeked Hs) as Hdd.
  destruct (handle_cases env policy session_id s t dst peeked Hdst Hpeek)
    as [(reason & _ & H)|(_ & o & r & mid & s2 & t2 & Htr & H)];
    rewrite H in Hh; injection Hh as <- <- <-.
  - auto with preserve.
  - unfold allowed_transfer, transfer in Htr.
    destruct (sa_port dst =? 443).
    + apply https_mitm_ok in Htr as [? ?]; auto with preserve.
    + destruct (http_forward _ _ _) as [[? ?] ?]. simplify_eq.
      auto with preserve.
Qed.

(** Every address the transfer connects to is the original destination. *)
Lemma forward_h1_connect env r x : AConnect x ∉ (forward_h1 env r).2.
Proof.
  unfold forward_h1. destruct (read_head _ _) as [[[head buf] rs]|e]; [|set_solver].
  destruct (ce_up_writes env) as [|[u|e] ws]; cbn; set_solver.
Qed.

Lemma forward_h1_accept env r x : AAccept x ∉ (forward_h1 env r).2.
Proof.
  unfold forward_h1. destruct (read_head _ _) as [[[head buf] rs]|e]; [|set_solver].
  destruct (ce_up_writes env) as [|[u|e] ws]; cbn; set_solver.
Qed.

Lemma transfer_connect env host dst r s t x :
  AConnect x ∈ (transfer env host dst r s t).1.1.2 → x = dst.
Proof.
  pose proof (forward_h1_connect env r x) as Hf.
  unfold transfer, https_mitm, http_forward, https_h1.
  destruct (forward_h1 env r) as [[o' r'] acts']. cbn in Hf.
  destruct (sa_port dst =? 443).
  - destruct (cert_server_config_for _ _ _) as [[arc|] t']; [|set_solver].
    destruct (ce_accept env); [|set_solver].
    destruct (ce_server_name env); [|set_solver]. destruct (ce_connect env); [|set_solver].
    destruct (ce_tls_connect env); [|set_solver]. case_match; [|set_solver].
    destruct (h2_handle _ _ _ _) as [o st]. cbn.
    rewrite !elem_of_cons, list_elem_of_fmap. naive_solver.
  - destruct (ce_connect env); set_solver.
Qed.

(** The egress of a connection, and the permission it had. *)
Lemma egress_permitted env policy session_id s t acts s' t' :
  api_ok s → handle env policy session_id s t = Some (acts, s', t') →
  existsb is_egress acts = true →
  ∃ dst peeked, ce_dst env = Ok dst ∧ ce_peek env = Ok peeked ∧
    (∀ x, AConnect x ∈ acts → x = dst) ∧
    let decision := (pipeline policy (the_host dst peeked)).1 in
    (decision = DecisionAllow ∨
     decision = DecisionDecide ∧
     ∃ s1 d, d_action d = DAllow ∧ api_answered s1 (ce_uuid env) d ∧
       api_request_decision (the_args env session_id dst peeked) (decide_timeout_ms policy)
         (ce_decide env) (asked_state env session_id s dst peeked) = (Some d, s1)).
Proof.
  intros Hok Hh He.
  destruct (env_cases env) as [Hd|(dst & peeked & Hdst & Hpeek)].
  { rewrite handle_dropped in Hh by done. by simplify_eq. }
  exists dst, peeked. split_and!; [done|done|..].
  all: destruct (handle_cases env policy session_id s t dst peeked Hdst Hpeek)
    as [(reason & _ & H)|(Hden & o & r & mid & s2 & t2 & Htr & H)]; rewrite H in Hh;
    simplify_eq; try done.
  - intros x Hx. unfold allowed_transfer in Htr.
    eapply (transfer_connect env). rewrite Htr. set_solver.
  - unfold decide_denial in Hden. cbv zeta.
    destruct (pipeline policy _).1 as [|rs|]; [by left|done|]. right. split; [done|].
    destruct (api_request_decision _ _ _ _) as [reply s1] eqn:Hr. cbn in Hden.
    destruct reply as [d|]; [|done]. exists s1, d. unfold reply_denial in Hden.
    destruct (d_action d) eqn:Ha; [|done]. split_and!; [done| |done].
    eapply api_authentic in Hr; [exact Hr|].
    by apply api_others_ok, api_emit_ok, api_others_ok.
Qed.

(** ** Properties *)

(** C8: every connection is handled to the end, and reports one of three
    lifecycles: nothing, when its destination or first bytes cannot be read;
    opened then denied, after which the client is shut down and nothing else
    is done; or opened, allowed, the transfer, and exactly one of closed
    (without a reason) and failed (with one). All the events of a connection
    have its id, session, host, port, scheme, peer and start time. *)
Theorem handle_lifecycle (env : conn_env Env CEnv) (policy : Policy) (session_id : option str)
    (s : S) (t : T) :
  ∃ acts s' t', handle env policy session_id s t = Some (acts, s', t') ∧
  (acts = [] ∧ is_ok (ce_dst env) && is_ok (ce_peek env) = false ∨
   (∃ e1 e2, acts = [AEmit e1; AEmit e2; AShutdownClient] ∧
      ev_kind e1 = RequestOpened ∧ ev_kind e2 = RequestDenied ∧
      is_Some (ev_reason e2) ∧ identity (ev_request e2) = identity (ev_request e1)) ∨
   (∃ e1 e2 mid e3, acts = [AEmit e1; AEmit e2] ++ mid ++ [AEmit e3] ∧
      ev_kind e1 = RequestOpened ∧ ev_kind e2 = RequestAllowed ∧
      Forall (λ a, is_transfer a = true) mid ∧
      (ev_kind e3 = RequestClosed ∧ ev_reason e3 = None ∨
       ev_kind e3 = RequestFailed ∧ is_Some (ev_reason e3)) ∧
      identity (ev_request e2) = identity (ev_request e1) ∧
      identity (ev_request e3) = identity (ev_request e1))).
Proof.
  destruct (env_cases env) as [Hd|(dst & peeked & Hdst & Hpeek)].
  { rewrite handle_dropped by done. do 3 eexists. eauto. }
  destruct (handle_cases env policy session_id s t dst peeked Hdst Hpeek)
    as [(reason & _ & ->)|(_ & o & r & acts & s' & t' & Htr & ->)].
  - do 3 eexists. split; [done|]. right. left. do 2 eexists. split; [done|].
    unfold denied_event.
    destruct (with_rule_fields (provenance policy dst peeked) (with_reason (Event_new
      (ce_clock env 2) RequestDenied (the_request env session_id dst peeked)) reason))
      as (-> & -> & ->). by split_and!.
  - pose proof (transfer_spec env (the_host dst peeked) dst (the_request env session_id dst peeked)
      (emit_at env 2 (allowed_event env policy session_id dst peeked)
        (decide_denial env policy session_id s dst peeked).2) t) as [Hid Hmid].
    unfold allowed_transfer in Htr. rewrite Htr in Hid, Hmid. cbn in Hid, Hmid.
    do 3 eexists. split; [done|]. right. right. do 4 eexists. split; [done|].
    unfold allowed_event.
    destruct (with_rule_fields (provenance policy dst peeked) (Event_new
      (ce_clock env 2) RequestAllowed (the_request env session_id dst peeked)))
      as (-> & -> & _).
    split_and!; try done; [|by destruct o].
    destruct o; [by left|right; split; [done|]; by eexists].
Qed.

(** C2: no byte leaves without a permission: if a connection contacts any
    upstream at all, the policy allows its host, or a decide rule fired and the
    peer of the control channel answered this connection's own id with an
    allow; and the only upstream ever contacted is the original destination. *)
Theorem egress_requires_allow (env : conn_env Env CEnv) (policy : Policy)
    (session_id : option str) (s s' : S) (t t' : T) (acts : list action)
    (Hok : api_ok s) (Hh : handle env policy session_id s t = Some (acts, s', t'))
    (He : existsb is_egress acts = true) :
  ∃ dst peeked, ce_dst env = Ok dst ∧ ce_peek env = Ok peeked ∧
    (∀ x, AConnect x ∈ acts → x = dst) ∧
    let decision := (pipeline policy (the_host dst peeked)).1 in
    (decision = DecisionAllow ∨
     decision = DecisionDecide ∧
     ∃ s1 d, d_action d = DAllow ∧ api_answered s1 (ce_uuid env) d ∧
       api_request_decision (the_args env session_id dst peeked) (decide_timeout_ms policy)
         (ce_decide env) (asked_state env session_id s dst peeked) = (Some d, s1)).
Proof.
  by eapply egress_permitted.
Qed.

(** C5: a decide rule fails closed: unless the answer is an allow, the
    connection is refused with the reason the reply dictates (no reply or no
    room: [decider_timeout]; a deny: the peer's non-empty reason, or
    [decider_deny]), attributed to the rule that fired, and no upstream is
    contacted. *)
Theorem decide_fails_closed (env : conn_env Env CEnv) (policy : Policy)
    (session_id : option str) (s s1 : S) (t : T) (dst : SocketAddr) (peeked : bytes)
    (m : option MatchedRule) (reply : option CtlDecision)
    (Hdst : ce_dst env = Ok dst) (Hpeek : ce_peek env = Ok peeked)
    (Hpol : pipeline policy (the_host dst peeked) = (DecisionDecide, m))
    (Hreply : api_request_decision (the_args env session_id dst peeked)
       (decide_timeout_ms policy) (ce_decide env)
       (asked_state env session_id s dst peeked) = (reply, s1))
    (Hno : ∀ d, reply = Some d → d_action d ≠ DAllow) :
  ∃ e1 e2 s', handle env policy session_id s t =
      Some ([AEmit e1; AEmit e2; AShutdownClient], s', t) ∧
    ev_kind e2 = RequestDenied ∧ ev_matched_rule e2 = m ∧ is_Some m ∧
    ev_reason e2 = Some
      (match reply with
       | None => s!"decider_timeout"
       | Some {| d_reason := Some (c :: r) |} => s!"decider: " ++ c :: r
       | Some _ => s!"decider_deny"
       end).
Proof.
  set (reason := match reply with
       | None => s!"decider_timeout"
       | Some {| d_reason := Some (c :: r) |} => s!"decider: " ++ c :: r
       | Some _ => s!"decider_deny"
       end).
  assert (reply_denial reply = Some reason) as Hden.
  { subst reason. destruct reply as [[[] r]|]; [by destruct (Hno _ eq_refl)| |done].
    by destruct r as [[|c r]|]. }
  assert ((decide_denial env policy session_id s dst peeked).1 = Some reason) as Hd.
  { unfold decide_denial. rewrite Hpol. cbn. by rewrite Hreply. }
  rewrite (handle_denied _ _ _ _ _ _ _ Hdst Hpeek _ Hd). do 3 eexists. split; [done|].
  unfold denied_event, provenance. rewrite Hpol. cbn.
  assert (is_Some m) as [rule ->].
  { unfold pipeline in Hpol. destruct (list_find _ _) as [[i r]|]; simplify_eq; [eauto|].
    by destruct (default_action policy). }
  cbn. split_and!; eauto.
Qed.

(** ** Transfers *)

(** The labels a failed transfer can carry. *)
Definition failure_labels : list str :=
  [s!"server_config: "; s!"tls_client_rejected_ca"; s!"sni: "; s!"upstream_unreachable: ";
   s!"upstream_tls: "; s!"read_head: "; s!"forward_head: "; s!"h2 thread spawn: ";
   s!"h2 thread rt: "; s!"h2 thread terminated without completing";
   s!"upstream h2 handshake: "; s!"client h2 serve: "].

Definition labelled (o : result unit str) : Prop :=
  match o with
  | Ok _ => True
  | Err e => ∃ label text, label ∈ failure_labels ∧ e = label ++ text
  end.

Lemma labelled_intro n label text :
  failure_labels !! n = Some label → labelled (Err (label ++ text)).
Proof. intros H. exists label, text. split; [by eapply list_elem_of_lookup_2|done]. Qed.

Lemma labelled_exact n label : failure_labels !! n = Some label → labelled (Err label).
Proof. intros H. rewrite <-(app_nil_r label). by apply (labelled_intro n). Qed.

Lemma read_head_error rs buf e :
  read_head rs buf = Err e → ∃ text, e = s!"read_head: " ++ text.
Proof.
  revert buf. induction rs as [|[[|b bs]|x] rs IH]; intros buf; cbn; [done|done| |].
  - destruct (Http1.parse httparse _) as [[h|]|]; [done|apply IH|done].
  - intros. simplify_eq. eauto.
Qed.

Lemma forward_h1_labelled env r : labelled (forward_h1 env r).1.1.
Proof.
  unfold forward_h1. destruct (read_head _ _) as [[[head buf] rs]|e] eqn:E.
  - destruct (ce_up_writes env) as [|[u|e] ws]; [done|done|].
    by apply (labelled_intro 6).
  - apply read_head_error in E as [text ->]. by apply (labelled_intro 5).
Qed.

Lemma h2_handle_labelled (env : h2_env Env) base s : labelled (h2_handle to_str env base s).1.
Proof.
  unfold h2_handle, drive. destruct (he_spawn env) as [|e]; [|by apply (labelled_intro 7)].
  destruct (he_rt env) as [|e]; [|by apply (labelled_intro 8)].
  destruct (he_handshake env) as [|e], (he_panics env); cbn [fst].
  - by apply (labelled_exact 9).
  - destruct (he_serve env); [done|by apply (labelled_intro 11)].
  - by apply (labelled_exact 9).
  - by apply (labelled_intro 10).
Qed.

(** Closes [x ∈ l → P] when no element of the explicit list [l] can be [x]. *)
Ltac refute_member :=
  let H := fresh in
  intros ? H; exfalso; rewrite ?elem_of_cons, ?elem_of_nil in H;
  destruct_or?; done.

(** C11: TLS interception in order: the client is offered only a certificate
    minted for the host that was evaluated; the upstream is contacted only after
    the client accepted it and the host is a valid server name; data flows
    upstream only over a completed upstream handshake; and a failure always
    carries the label of its stage. *)
Theorem mitm_stages (env : conn_env Env CEnv) (host : str) (dst : SocketAddr) (r : Request)
    (s : S) (t : T) :
  let '(o, _, acts, _, t') := https_mitm env host dst r s t in
  (cert_ok t → ∀ arc, AAccept arc ∈ acts → cert_for t' host arc) ∧
  (existsb is_egress acts = true →
     (∃ arc, AAccept arc ∈ acts) ∧ is_ok (ce_accept env) && is_ok (ce_server_name env) = true) ∧
  (∀ bs, AUpstream bs ∈ acts → is_ok (ce_connect env) && is_ok (ce_tls_connect env) = true) ∧
  labelled o.
Proof.
  unfold https_mitm.
  destruct (cert_server_config_for host (ce_config env) t) as [[arc|e] t'] eqn:Hc;
    [|split_and!; [intros _; refute_member|done|refute_member|by apply (labelled_intro 0)]].
  assert (cert_ok t → ∀ acts, (∀ a, AAccept a ∉ acts) →
    ∀ a, AAccept a ∈ AAccept arc :: acts → cert_for t' host a) as Hcert.
  { intros Hok acts Hno a [[= ->]|Ha]%elem_of_cons; [|by destruct (Hno a)].
    by eapply cert_names_host. }
  assert (∀ acts, ∃ a, AAccept a ∈ AAccept arc :: acts) as Hacc
    by (intros acts; exists arc; left).
  destruct (ce_accept env);
    [|split_and!; [intros Hok; apply (Hcert Hok); set_solver|done|refute_member
                  |by apply (labelled_exact 1)]].
  destruct (ce_server_name env) as [|e];
    [|split_and!; [intros Hok; apply (Hcert Hok); set_solver|done|refute_member
                  |by apply (labelled_intro 2)]].
  destruct (ce_connect env) as [|e];
    [|split_and!; [intros Hok; apply (Hcert Hok); set_solver|intros _; split; [apply Hacc|done]|refute_member
                  |by apply (labelled_intro 3)]].
  destruct (ce_tls_connect env) as [|e];
    [|split_and!; [intros Hok; apply (Hcert Hok); set_solver|intros _; split; [apply Hacc|done]|refute_member
                  |by apply (labelled_intro 4)]].
  destruct (str_eqb _ _ && str_eqb _ _).
  - pose proof (h2_handle_labelled (ce_h2 env) r s) as Hl.
    destruct (h2_handle _ _ _ _) as [o st].
    split_and!; [|intros _; split; [apply Hacc|done]|by intros bs _|done].
    intros Hok. apply (Hcert Hok). intros x Ha.
    rewrite !elem_of_cons, list_elem_of_fmap in Ha. naive_solver.
  - pose proof (forward_h1_labelled env r) as Hl. unfold https_h1.
    pose proof (forward_h1_accept env r) as Hno.
    destruct (forward_h1 env r) as [[o r'] acts].
    split_and!; [|intros _; split; [apply Hacc|done]|by intros bs _|done].
    intros Hok. apply (Hcert Hok). intros x Ha. cbn in Hno. specialize (Hno x). set_solver.
Qed.

(** Nothing is read after end of input. *)
Fixpoint eof_final (rs : list (result bytes io_error)) : bool :=
  match rs with
  | [] => true
  | Ok [] :: rs => is_empty rs
  | _ :: rs => eof_final rs
  end.

Lemma read_head_bytes rs buf head buf' rs' :
  eof_final rs = true → read_head rs buf = Ok (head, buf', rs') →
  buf' ++ concat (chunks rs') = buf ++ concat (chunks rs).
Proof.
  revert buf. induction rs as [|[[|b bs]|e] rs IH]; intros buf Hf Hr; cbn in Hf, Hr; simplify_eq.
  - done.
  - by destruct rs'.
  - cbn [chunks concat]. destruct (Http1.parse httparse _) as [[h|]|]; simplify_eq.
    + by rewrite <-app_assoc.
    + rewrite (IH _ Hf Hr). by rewrite <-app_assoc.
    + by rewrite <-app_assoc.
Qed.

Definition upstream_bytes (acts : list action) : bytes :=
  acts ≫= λ a, match a with AUpstream bs => bs | _ => [] end.
Definition client_bytes (acts : list action) : bytes :=
  acts ≫= λ a, match a with AClient bs => bs | _ => [] end.

Lemma upstream_bytes_h1 a b c :
  upstream_bytes [AUpstream a; AUpstream b; AClient c] = a ++ b.
Proof. unfold upstream_bytes. cbn. by rewrite app_nil_r. Qed.

Lemma client_bytes_h1 a b c :
  client_bytes [AUpstream a; AUpstream b; AClient c] = c.
Proof. unfold client_bytes. cbn. by rewrite app_nil_r. Qed.

(** The client-to-upstream direction after the head was written. *)
Lemma c2u_written (env : conn_env Env CEnv) rs :
  Forall (λ w, is_ok w = true) (ce_up_writes env) →
  let c2u := {| reads := rs; writes := is_ok <$> tail (ce_up_writes env) |} in
  p_out (pump c2u) = concat (chunks rs) ∧
  p_total (pump c2u) = u64 (Z.of_nat (length (concat (chunks rs)))).
Proof.
  intros Hup. apply pump_all_written. cbn. apply Forall_fmap.
  destruct Hup; [constructor|done].
Qed.

(** C18: HTTP/1 forwarding is transparent: when no write fails and the head
    could be read, the upstream receives exactly the bytes the client sent, in
    order, head included, whether or not a head could be parsed; and the client
    receives exactly the bytes the upstream sent. *)
Theorem forward_transparent (env : conn_env Env CEnv) (r : Request)
    (Hup : Forall (λ w, is_ok w = true) (ce_up_writes env))
    (Hcl : Forall (λ b, b = true) (ce_client_writes env))
    (Heof : eof_final (ce_client_reads env) = true)
    (Hok : (forward_h1 env r).1.1 = Ok tt) :
  upstream_bytes (forward_h1 env r).2 = concat (chunks (ce_client_reads env)) ∧
  client_bytes (forward_h1 env r).2 = concat (chunks (ce_up_reads env)).
Proof.
  unfold forward_h1 in *.
  destruct (read_head (ce_client_reads env) []) as [[[head buf] rs]|e] eqn:Hr; [|done].
  apply read_head_bytes in Hr; [|done]. cbn in Hr. rewrite <-Hr.
  destruct (c2u_written env rs Hup) as [Hc2u _].
  destruct (pump_all_written {| reads := ce_up_reads env; writes := ce_client_writes env |} Hcl)
    as [Hu2c _].
  destruct (ce_up_writes env) as [|[u|e] ws]; [| |done]; cbn [snd splice_pairs];
    by rewrite upstream_bytes_h1, client_bytes_h1, Hc2u, Hu2c.
Qed.

(** C37: the byte counters of a forwarded request: [bytes_in] is what the
    client sent after the head, and [bytes_out] is the length of the head plus
    what the upstream sent back. The head travels to the upstream, the bytes it
    is added to come from it. *)
Theorem byte_counters (env : conn_env Env CEnv) (r : Request)
    (Hup : Forall (λ w, is_ok w = true) (ce_up_writes env))
    (Hcl : Forall (λ b, b = true) (ce_client_writes env))
    (Hok : (forward_h1 env r).1.1 = Ok tt) :
  ∃ head head_buf rest,
    read_head (ce_client_reads env) [] = Ok (head, head_buf, rest) ∧
    let r' := (forward_h1 env r).1.2 in
    rq_bytes_in r' = u64 (Z.of_nat (length (concat (chunks rest)))) ∧
    rq_bytes_out r' = u64 (Z.of_nat (length head_buf)
      + Z.of_nat (length (concat (chunks (ce_up_reads env))))).
Proof.
  unfold forward_h1 in *.
  destruct (read_head (ce_client_reads env) []) as [[[head buf] rs]|e]; [|done].
  exists head, buf, rs. split; [done|]. cbv zeta.
  destruct (c2u_written env rs Hup) as [_ Hc2u].
  destruct (pump_all_written {| reads := ce_up_reads env; writes := ce_client_writes env |} Hcl)
    as [_ Hu2c].
  destruct (ce_up_writes env) as [|[u|e] ws]; [| |done];
    cbn [fst snd splice_pairs rq_bytes_in rq_bytes_out set_counters];
    rewrite Hc2u, Hu2c; (split; [done|]);
    rewrite Z.add_comm, u64_add, Z.add_comm; done.
Qed.

(** ** The host a plain-text client names *)

(** The spellings of the header the scan knows, and the lines without one. *)
Definition host_names : list str := [s!"Host:"; s!"host:"; s!"HOST:"].

Definition no_host_line (line : str) : Prop :=
  ∀ name value, name ∈ host_names → line ≠ name ++ value.

Definition crlf : str := [13; 10].

Lemma strip_host_name name value :
  name ∈ host_names → strip_host (name ++ value) = Some value.
Proof.
  intros Hn. repeat (apply elem_of_cons in Hn as [->|Hn]; [reflexivity|]).
  by apply elem_of_nil in Hn.
Qed.

Lemma strip_host_none line : no_host_line line → strip_host line = None.
Proof.
  intros Hl. unfold strip_host.
  destruct (strip_prefix (s!"Host:") line) eqn:E1;
    [|destruct (strip_prefix (s!"host:") line) eqn:E2;
      [|destruct (strip_prefix (s!"HOST:") line) eqn:E3; [|done]]].
  - apply strip_prefix_Some in E1. destruct (Hl _ _ ltac:(by left) E1).
  - apply strip_prefix_Some in E2. destruct (Hl _ _ ltac:(by right; left) E2).
  - apply strip_prefix_Some in E3. destruct (Hl _ _ ltac:(by right; right; left) E3).
Qed.

Lemma lines_crlf_app (pre : list str) rest :
  Forall (λ l, 10 ∉ l) pre →
  lines (concat ((λ l, l ++ crlf) <$> pre) ++ rest) = pre ++ lines rest.
Proof.
  induction 1 as [|l pre Hl _ IH]; [done|]. cbn [fmap list_fmap concat app].
  rewrite <-!app_assoc. change (crlf ++ ?x) with (13 :: 10 :: x).
  rewrite lines_crlf by done. f_equal. exact IH.
Qed.

Lemma first_host_none ls rest :
  Forall no_host_line ls → first_host (ls ++ rest) = first_host rest.
Proof. induction 1 as [|l ls Hl _ IH]; [done|]. cbn. by rewrite strip_host_none. Qed.

Lemma identify_host_plain text port dst_ip :
  port ≠ 443 → wf_str text → looks_like_tls (as_bytes text) = false →
  identify_host (as_bytes text) port dst_ip = default dst_ip (first_host (lines text)).
Proof.
  intros Hp Hw Ht. unfold identify_host, parse_http_host.
  by rewrite Ht, (proj2 (Z.eqb_neq port 443)), from_utf8_as_bytes.
Qed.

(** A Host line in the body, when the header is spelled in another way. *)
Definition smuggled (body : str) : bytes :=
  as_bytes (s!"POST / HTTP/1.1" ++ crlf ++ s!"hOst: evil.com" ++ crlf ++ crlf ++ body).

Lemma smuggled_host :
  parse_http_host (smuggled (s!"Host: api.github.com" ++ crlf)) = Some (s!"api.github.com") ∧
  parse_http_host (smuggled []) = None.
Proof. split; vm_compute; reflexivity. Qed.

(** C38: on a plain-text connection the host is what follows [Host:], [host:] or
    [HOST:] on the first line of the peeked text that starts with one of them, with
    the surrounding blanks removed, whatever the other lines are; with no such line,
    or when the bytes are not UTF-8, it is the destination address. Lines that are
    ended by CRLF are the lines of the text. The scan knows no other spelling and
    does not stop at the end of the head: with the header spelled [hOst:], a Host
    line in the body is the host that is evaluated. *)
Theorem plain_host (text : str) (port : Z) (dst_ip : str)
    (Hport : port ≠ 443) (Hwf : wf_str text) (Htls : looks_like_tls (as_bytes text) = false) :
  (∀ pre name value post, lines text = pre ++ (name ++ value) :: post →
     name ∈ host_names → Forall no_host_line pre →
     identify_host (as_bytes text) port dst_ip = trim value) ∧
  (Forall no_host_line (lines text) → identify_host (as_bytes text) port dst_ip = dst_ip) ∧
  (∀ pre rest, Forall (λ l, 10 ∉ l) pre →
     lines (concat ((λ l, l ++ crlf) <$> pre) ++ rest) = pre ++ lines rest) ∧
  (∀ bs, looks_like_tls bs = false → from_utf8 bs = None →
     identify_host bs port dst_ip = dst_ip) ∧
  parse_http_host (smuggled (s!"Host: api.github.com" ++ crlf)) = Some (s!"api.github.com") ∧
  parse_http_host (smuggled []) = None.
Proof.
  rewrite identify_host_plain by done. split; [|split; [|split; [|split; [|exact smuggled_host]]]].
  - intros pre name value post -> Hn Hpre. rewrite first_host_none by done. cbn.
    by rewrite strip_host_name.
  - intros Hno. by rewrite <-(app_nil_r (lines text)), first_host_none.
  - apply lines_crlf_app.
  - intros bs Hb Hn. unfold identify_host, parse_http_host.
    by rewrite Hb, (proj2 (Z.eqb_neq port 443)), Hn.
Qed.

End conn.

(** ** The upstream TLS configuration *)

Inductive PemItem := X509Certificate (der : bytes) | OtherItem.

(** [while let Ok(Some(item))]: the results of [rustls_pemfile::read_one] up to
    the end of the file; an error ends the loop. *)
Fixpoint take_certificates (items : list (result PemItem str)) : list bytes :=
  match items with
  | Ok (X509Certificate der) :: items => der :: take_certificates items
  | Ok OtherItem :: items => take_certificates items
  | Err _ :: _ | [] => []
  end.

Definition load_system_roots (file : result bytes io_error)
    (pem_items : bytes → list (result PemItem str)) : list bytes :=
  match file with Ok bs => take_certificates (pem_items bs) | Err _ => [] end.

Record ClientConfig := { cc_roots : list bytes; cc_alpn : list str }.

(** [build_tls_connector]: [cell] is the static [OnceLock]; [add] is
    [RootCertStore::add], whose refusals are ignored. *)
Definition build_tls_connector (cell : option ClientConfig) (file : result bytes io_error)
    (pem_items : bytes → list (result PemItem str)) (add : bytes → bool)
    : ClientConfig * option ClientConfig :=
  let cfg :=
    match cell with
    | Some cfg => cfg
    | None => {| cc_roots := filter (λ der, add der = true) (load_system_roots file pem_items);
                 cc_alpn := [s!"h2"; s!"http/1.1"] |}
    end in
  (cfg, Some cfg).

(** C39: the upstream trust store: the first call fixes it for the life of the
    process, later ones return it whatever is on disk by then; it holds only
    certificates of the system file that the store accepted; an unreadable file
    leaves it empty (every upstream handshake then fails); and a malformed
    entry hides the certificates after it. *)
Theorem trust_store (file file' : result bytes io_error)
    (pem_items : bytes → list (result PemItem str)) (add add' : bytes → bool) :
  let '(cfg, cell) := build_tls_connector None file pem_items add in
  (build_tls_connector cell file' pem_items add').1 = cfg ∧
  (∀ der, der ∈ cc_roots cfg → add der = true ∧
     ∃ bs, file = Ok bs ∧ Ok (X509Certificate der) ∈ pem_items bs) ∧
  ((∃ e, file = Err e) → cc_roots cfg = []) ∧
  (∀ bs pre e post, file = Ok bs → pem_items bs = pre ++ Err e :: post →
     cc_roots cfg = filter (λ der, add der = true) (take_certificates pre)).
Proof.
  cbn. split_and!; [done|..].
  - intros der [Ha Hin]%list_elem_of_filter. split; [done|].
    destruct file as [bs|e]; cbn in Hin; [|by apply elem_of_nil in Hin].
    exists bs. split; [done|]. induction (pem_items bs) as [|[[d|]|e] items IH]; cbn in Hin.
    + by apply elem_of_nil in Hin.
    + apply elem_of_cons in Hin as [<-|Hin]; [left|right; auto].
    + right. auto.
    + by apply elem_of_nil in Hin.
  - intros [e ->]. done.
  - intros bs pre e post -> Hp. cbn. rewrite Hp. f_equal. clear Hp.
    induction pre as [|[[d|]|e'] pre IH]; cbn; congruence.
Qed.
