(* ===== verification/Typed.v ===== *)
(** * The events of a connection are well-typed

    The Rust types of an event promise more than the model's: strings are valid
    Unicode, a port fits 16 bits, counters fit 64. Given the same of what a
    connection takes from outside, every event that [conn::handle] and its HTTP/2
    streams emit has it too, and so reaches the peer unchanged ([Texts], [Trail]). *)

From S2P Require Import Prelude Utf8 Strs Json Policy Event Wire Texts Api OrigDst Sni Http1.
From S2P Require Import Splice H2 Conn.

Create HintDb typed.

#[local] Arguments lit : simpl never.

(** ** Strings *)

Lemma lit_wf (s : String.string) : ascii_str (lit s) = true → wf_str (lit s).
Proof. apply ascii_wf. Qed.

Lemma wf_app a b : wf_str a → wf_str b → wf_str (a ++ b).
Proof. intros Ha Hb. by apply Forall_app. Qed.

Lemma dec_wf n : 0 <= n → wf_str (dec n).
Proof.
  intros Hn. destruct (dec_digits n Hn) as [Hd _]. eapply Forall_impl; [exact Hd|].
  cbn. unfold scalar. lia.
Qed.

#[export] Hint Resolve wf_app dec_wf : typed.
#[export] Hint Extern 1 (wf_str (lit _)) => apply lit_wf; reflexivity : typed.

Lemma strip_prefix_wf p s r : wf_str s → strip_prefix p s = Some r → wf_str r.
Proof. intros Hs ->%strip_prefix_Some. by apply Forall_app in Hs as [_ ?]. Qed.

Lemma trim_start_wf s : wf_str s → wf_str (trim_start s).
Proof. induction 1 as [|c s Hc Hs IH]; cbn; [constructor|]. case_match; [done|by constructor]. Qed.

Lemma rev_wf s : wf_str s → wf_str (rev s).
Proof. intros Hs. unfold wf_str. by rewrite <-Permutation_rev. Qed.

Lemma trim_wf s : wf_str s → wf_str (trim s).
Proof. intros Hs. by apply rev_wf, trim_start_wf, rev_wf, trim_start_wf. Qed.

Lemma strip_cr_wf s : wf_str s → wf_str (strip_cr s).
Proof.
  intros Hs. assert (strip_cr s = s ∨ strip_cr s = removelast s) as [->| ->]; [|done|].
  { unfold strip_cr. repeat case_match; auto. }
  destruct s as [|c s] using rev_ind; [done|]. rewrite removelast_last.
  by apply Forall_app in Hs as [? _].
Qed.

Lemma lines_wf s : wf_str s → Forall wf_str (lines s).
Proof.
  unfold lines. assert (wf_str []) as H0 by constructor. revert H0. generalize (@nil Z).
  induction s as [|c s IH]; intros cur Hc Hs; cbn.
  - case_match; repeat constructor. by apply rev_wf.
  - apply Forall_cons in Hs as [Hc' Hs]. case_match.
    + constructor; [by apply strip_cr_wf, rev_wf|]. by apply IH; [constructor|].
    + apply IH; [by constructor|done].
Qed.

Lemma parse_http_host_wf bs h : wf_bytes bs → parse_http_host bs = Some h → wf_str h.
Proof.
  unfold parse_http_host. intros Hb. destruct (from_utf8 bs) as [text|] eqn:E; cbn; [|done].
  destruct (from_utf8_Some bs text Hb E) as [_ Hw]. pose proof (lines_wf text Hw) as Hl.
  induction Hl as [|l ls Hl _ IH]; cbn; [done|].
  destruct (strip_host l) as [r|] eqn:Hr; [|done]. intros [= <-]. apply trim_wf.
  unfold strip_host in Hr. repeat case_match; simplify_eq; by eapply strip_prefix_wf.
Qed.

(** ** Addresses *)

Definition addr_typed (a : SocketAddr) : Prop :=
  (0 <= sa_port a <= u16_max) ∧
  match sa_ip a with
  | IpV4 a b c d => 0 <= a ∧ 0 <= b ∧ 0 <= c ∧ 0 <= d
  | IpV6 text => wf_str text
  end.

Lemma ip_text_wf a : addr_typed a → wf_str (IpAddr_to_string (sa_ip a)).
Proof.
  intros [_ H]. destruct (sa_ip a); [|done]. destruct H as (? & ? & ? & ?).
  unfold IpAddr_to_string. auto 12 with typed.
Qed.

Lemma addr_text_wf a : addr_typed a → wf_str (SocketAddr_to_string a).
Proof.
  intros Ha. pose proof (ip_text_wf a Ha) as Hi. destruct Ha as [Hp H].
  assert (wf_str (dec (sa_port a))) by (apply dec_wf; lia). unfold SocketAddr_to_string.
  destruct (sa_ip a); auto 12 with typed.
Qed.

(** The bytes the kernel leaves in a [sockaddr_in]. *)
Definition sockaddr_typed (a : sockaddr_in) : Prop :=
  is_byte (sin_port a).1 = true ∧ is_byte (sin_port a).2 = true.

Lemma original_dst_typed little a dst :
  sockaddr_typed a → original_dst little (Ok a) = Ok dst → addr_typed dst.
Proof.
  unfold sockaddr_typed, original_dst. destruct a as [[p0 p1] ip]. cbn. intros [H0 H1] [= <-].
  unfold is_byte in *. split; cbn.
  - unfold u16_from_be, load_u16, swap_bytes_u16, u16_max. destruct little; [|lia].
    pose proof (Z.mod_pos_bound (p1 * 256 + p0) 256).
    pose proof (Z.mod_pos_bound ((p1 * 256 + p0) / 256) 256). lia.
  - split_and!; apply Z.mod_pos_bound; lia.
Qed.

(** ** Counters *)

Lemma u64_range n : 0 <= u64 n <= u64_max.
Proof. unfold u64, u64_max. pose proof (Z.mod_pos_bound n (2 ^ 64)). lia. Qed.

Lemma pump_loop_range rs ws total out :
  0 <= total <= u64_max → 0 <= p_total (pump_loop rs ws total out) <= u64_max.
Proof.
  revert ws total out. induction rs as [|[[|b bs]|e] rs IH]; intros ws total out Ht; cbn; try done.
  destruct ws as [|[] ws]; cbn; try apply IH; apply u64_range.
Qed.

(** ** What a connection takes from outside *)

Definition err_typed {A} (r : result A str) : Prop :=
  match r with Ok _ => True | Err e => wf_str e end.

Definition ext_typed (e : TlsExtension) : Prop :=
  match e with ExtSNI entries => Forall wf_bytes entries.*2 | ExtOther => True end.

(** What [httparse] hands out is sliced from the bytes it was given. *)
Definition head_typed (req : ParsedRequest) : Prop :=
  valid_opt wf_str (pr_method req) ∧ valid_opt wf_str (pr_path req) ∧
  Forall (λ h, wf_str h.1 ∧ wf_bytes h.2) (pr_headers req).

Section typed.

Context `{!Chrono} `{!SerdeJson} (alt : serde_alt).

Definition h2_step_typed {Env} (l : h2_step Env) : Prop :=
  match l with
  | HOpen _ uuid started now req =>
      wf_str uuid ∧ time_ok started ∧ time_ok now ∧ wf_str (hr_method req) ∧
      valid_opt wf_str (hr_path_and_query req) ∧ Forall wf_str (hr_headers req).*1
  | HFinish _ result finished now =>
      time_ok finished ∧ time_ok now ∧
      match result with Ok status => 0 <= status <= u16_max | Err e => wf_str e end
  | HOthers _ => True
  end.

Record h2_env_typed {Env} (env : h2_env Env) : Prop := {
  ht_spawn : err_typed (he_spawn env);
  ht_rt : err_typed (he_rt env);
  ht_handshake : err_typed (he_handshake env);
  ht_steps : Forall h2_step_typed (he_steps env);
  ht_serve : err_typed (he_serve env);
}.

Record env_typed {Env CEnv} (env : conn_env Env CEnv) : Prop := {
  et_remote : valid_opt addr_typed (ce_remote env);
  et_dst a : ce_getsockopt env = Ok a → sockaddr_typed a;
  et_peek bs : ce_peek env = Ok bs → wf_bytes bs;
  et_uuid : wf_str (ce_uuid env);
  et_clock n : time_ok (ce_clock env n);
  et_server_name : err_typed (ce_server_name env);
  et_connect : err_typed (ce_connect env);
  et_tls_connect : err_typed (ce_tls_connect env);
  et_h2 : h2_env_typed (ce_h2 env);
  et_client_reads : Forall err_typed (ce_client_reads env);
  et_up_writes : Forall err_typed (ce_up_writes env);
}.

Variable parse_tls_plaintext : bytes → option (list TlsMessage).
Variable parse_tls_extensions : bytes → option (list TlsExtension).
Context {HpErr : Type}.
Variable httparse : bytes → result Status HpErr.
Variable to_str : bytes → option str.
Hypothesis Hext : ∀ b exts, parse_tls_extensions b = Some exts → Forall ext_typed exts.
Hypothesis Hhead : ∀ b req, httparse b = Ok (Complete req) → head_typed req.
Hypothesis Hto_str : ∀ v s, to_str v = Some s → wf_str s.

(** ** The host *)

Lemma first_name_wf entries h :
  Forall wf_bytes entries.*2 → first_name entries = Some h → wf_str h.
Proof.
  induction entries as [|[k n] entries IH]; cbn; [done|]. intros [Hn Hes]%Forall_cons.
  destruct (from_utf8 n) eqn:E; [|auto]. intros [= <-]. by eapply from_utf8_Some.
Qed.

Lemma first_sni_wf exts h : Forall ext_typed exts → first_sni exts = Some h → wf_str h.
Proof.
  induction 1 as [|[entries|] exts He Hes IH]; cbn; [done| |done].
  destruct (first_name entries) eqn:E; [|done]. intros [= <-]. by eapply first_name_wf.
Qed.

Lemma extract_wf bs h :
  extract parse_tls_plaintext parse_tls_extensions bs = Some h → wf_str h.
Proof.
  unfold extract. destruct (parse_tls_plaintext bs) as [msgs|]; cbn; [|done].
  induction msgs as [|[[ext|]|] msgs IH]; cbn; [done| |done|done].
  destruct (parse_tls_extensions ext) as [exts|] eqn:E; cbn; [|done].
  destruct (first_sni exts) eqn:Es; [|done]. intros [= <-]. apply (first_sni_wf exts); [by eapply Hext|done].
Qed.

Lemma identify_host_wf bs port ip :
  wf_bytes bs → wf_str ip →
  wf_str (identify_host parse_tls_plaintext parse_tls_extensions bs port ip).
Proof.
  intros Hb Hi. unfold identify_host. case_match.
  - destruct (extract _ _ bs) eqn:E; [by eapply extract_wf|done].
  - destruct (parse_http_host bs) eqn:E; [by eapply parse_http_host_wf|done].
Qed.

(** ** Requests and events *)

Lemma request_new_valid uuid now host port remote session :
  wf_str uuid → time_ok now → wf_str host → 0 <= port <= u16_max →
  valid_opt addr_typed remote → valid_opt wf_str session →
  request_valid (Request_new uuid now host port remote session).
Proof.
  intros ? ? ? ? Hr ?. split; cbn; try done; try (unfold u64_max; lia).
  - destruct remote; [by apply addr_text_wf|done].
  - unfold scheme_of_port. case_match; auto with typed.
Qed.

Lemma collect_headers_valid hs :
  Forall (λ h, wf_str h.1 ∧ wf_bytes h.2) hs →
  map_Forall (λ k v, wf_str k ∧ wf_str v) (collect_headers hs).
Proof.
  induction hs as [|[n v] hs IH] using rev_ind; [intros; apply map_Forall_empty|].
  intros [Hs Hh]%Forall_app. rewrite collect_headers_snoc. cbn. case_match; [auto|].
  apply Forall_singleton in Hh as [Hn Hv]. apply map_Forall_insert_2; [|auto].
  split; [by apply ascii_lower_wf|]. destruct (from_utf8 v) eqn:E; [|constructor].
  by eapply from_utf8_Some.
Qed.

Lemma parse_head_valid buf h r :
  Http1.parse httparse buf = Ok (Some h) → request_valid r → request_valid (set_head h r).
Proof.
  unfold Http1.parse. destruct (httparse buf) as [[req|]|] eqn:E; cbn; intros ?; simplify_eq.
  destruct (Hhead _ _ E) as (Hm & Hp & Hh). intros []. split; cbn; try done.
  - destruct (pr_method req); [done|constructor].
  - destruct (pr_path req); [done|]. by apply lit_wf.
  - by apply collect_headers_valid.
Qed.

Lemma set_counters_valid b_in b_out t r :
  0 <= b_in <= u64_max → 0 <= b_out <= u64_max → time_ok t →
  request_valid r → request_valid (set_counters b_in b_out t r).
Proof. intros ? ? ? []. by split. Qed.

Lemma event_new_valid t k r : time_ok t → request_valid r → event_valid (Event_new t k r).
Proof. by split. Qed.

Lemma with_reason_valid e s : wf_str s → event_valid e → event_valid (with_reason e s).
Proof. intros ? []. by split. Qed.

Lemma with_rule_valid m e :
  valid_opt matched_valid m → event_valid e → event_valid (with_rule m e).
Proof. destruct m; [|done]. intros ? []. by split. Qed.

(** ** HTTP/2 streams *)

Lemma h2_headers_valid hs :
  Forall wf_str hs.*1 → map_Forall (λ k v, wf_str k ∧ wf_str v) (h2_headers to_str hs).
Proof.
  unfold h2_headers. induction hs as [|[k v] hs IH] using rev_ind;
    [intros; apply map_Forall_empty|].
  rewrite fmap_app, foldl_app. intros [Hs Hk]%Forall_app.
  apply Forall_cons in Hk as [Hk _]. cbn in *.
  apply map_Forall_insert_2; [|auto]. split; [done|].
  destruct (to_str v) eqn:E; [by eapply Hto_str|constructor].
Qed.

Context {S Env T CEnv : Type} `{!ControlApi S Env} `{!CertApi T CEnv}.

(** Open streams and reported events are valid. *)
Definition streams_valid (st : h2_st (S := S)) : Prop :=
  map_Forall (λ _, request_valid) (h_open st) ∧ Forall (λ p, event_valid p.2) (h_events st).

Lemma h2_stream_step_valid base st l :
  request_valid base → h2_step_typed l → streams_valid st →
  streams_valid (h2_stream_step to_str base st l).
Proof.
  intros Hb Hl [Ho He]. destruct l as [sid uuid started now req|sid res fin now|o]; cbn.
  - destruct Hl as (Hu & Hst & Hn & Hm & Hp & Hh). case_decide; [by split|].
    assert (request_valid (stream_request to_str base uuid started req)) as Hr.
    { destruct Hb. split; cbn; try done; [|by apply h2_headers_valid].
      destruct (hr_path_and_query req); [done|by apply lit_wf]. }
    split; cbn; [by apply map_Forall_insert_2|].
    apply Forall_app. split; [done|]. by apply Forall_singleton, event_new_valid.
  - destruct Hl as (Hf & Hn & Hres). destruct (h_open st !! sid) as [r|] eqn:Hr; [|by split].
    pose proof (Ho _ _ Hr) as [].
    split; cbn; [by apply map_Forall_delete|]. apply Forall_app. split; [done|].
    apply Forall_singleton. cbn. destruct res as [status|e]; cbn.
    + apply event_new_valid; [done|]. split; cbn; try done. unfold u16_max in Hres. lia.
    + apply with_reason_valid; [auto with typed|]. by apply event_new_valid; [|split].
  - by split.
Qed.

Lemma h2_handle_valid env base s :
  h2_env_typed env → request_valid base →
  err_typed (h2_handle to_str env base s).1 ∧
  Forall (λ p, event_valid p.2) (h_events (h2_handle to_str env base s).2).
Proof.
  intros [H1 H2 H3 H4 H5] Hb. unfold h2_handle, drive.
  assert (streams_valid (foldl (h2_stream_step to_str base) (h2_start s) (he_steps env)))
    as [_ Hev].
  { assert (streams_valid (h2_start s)) as Hst0 by (split; [apply map_Forall_empty|constructor]).
    revert Hst0. generalize (h2_start s). induction H4 as [|l ls Hl _ IH]; intros st Hst; [done|].
    apply IH. by apply h2_stream_step_valid. }
  destruct (he_spawn env); [|split; [cbn; auto with typed|constructor]].
  destruct (he_rt env); [|split; [cbn; auto with typed|constructor]].
  destruct (he_handshake env), (he_panics env); cbn; (split; [|done || constructor]);
    auto with typed.
  destruct (he_serve env); cbn; auto with typed.
Qed.

(** ** The connection *)

Definition act_valid (a : action) : Prop :=
  match a with AEmit e | AStream _ e => event_valid e | _ => True end.

(** Outcome, request and actions of a transfer. *)
Definition outcome_valid (o : result unit str) (r : Request) (acts : list action) : Prop :=
  err_typed o ∧ request_valid r ∧ Forall act_valid acts.

Lemma read_head_valid rs buf r :
  Forall err_typed rs → request_valid r →
  match read_head httparse rs buf with
  | Err e => wf_str e
  | Ok (Some h, _, _) => request_valid (set_head h r)
  | Ok (None, _, _) => True
  end.
Proof.
  intros Hrs Hr. revert buf. induction Hrs as [|[[|b bs]|e] rs He _ IH]; intros buf; cbn; try done.
  - destruct (Http1.parse httparse _) as [[h|]|] eqn:E; [|apply IH|done].
    by eapply parse_head_valid.
  - cbn in He. auto with typed.
Qed.

Lemma forward_h1_valid (env : conn_env Env CEnv) r :
  env_typed env → request_valid r →
  let '(o, r, acts) := forward_h1 httparse env r in outcome_valid o r acts.
Proof.
  intros He Hr. unfold forward_h1.
  pose proof (read_head_valid (ce_client_reads env) [] r (et_client_reads _ He) Hr) as Hh.
  destruct (read_head _ _ _) as [[[head buf] rs]|e]; [|by split_and!; [|done|constructor]].
  assert (request_valid match head with Some h => set_head h r | None => r end) as Hr'
    by by destruct head.
  pose proof (et_up_writes _ He) as Hw.
  assert (∀ c2u u2c n, request_valid (set_counters (p_total (pump c2u))
    (u64 (n + p_total (pump u2c))) (ce_clock env 3)
    match head with Some h => set_head h r | None => r end)) as Hc.
  { intros. apply set_counters_valid; [|apply u64_range|apply et_clock, He|done].
    rewrite pump_closed. apply pump_loop_range. unfold u64_max. lia. }
  destruct (ce_up_writes env) as [|[u|e] ws]; cbn [splice_pairs].
  - split_and!; [done|apply Hc|repeat constructor].
  - split_and!; [done|apply Hc|repeat constructor].
  - apply Forall_cons in Hw as [Hw _]. cbn in Hw.
    split_and!; [cbn; auto with typed|done|constructor].
Qed.

Lemma http_forward_valid (env : conn_env Env CEnv) dst r :
  env_typed env → request_valid r →
  let '(o, r, acts) := http_forward httparse env dst r in outcome_valid o r acts.
Proof.
  intros He Hr. unfold http_forward. pose proof (et_connect _ He) as Hc.
  destruct (ce_connect env); cbn in Hc.
  - pose proof (forward_h1_valid env r He Hr) as Hf.
    destruct (forward_h1 httparse env r) as [[o r'] acts]. destruct Hf as (? & ? & ?).
    split_and!; [done|done|by constructor].
  - split_and!; [cbn; auto with typed|done|repeat constructor].
Qed.

(** What the channel and the certificate cache hand back. *)
Hypothesis Hreason : ∀ s i d, api_ok s → api_answered s i d → valid_opt wf_str (d_reason d).

Definition cert_typed (env : conn_env Env CEnv) (t : T) : Prop :=
  ∀ host err t', cert_server_config_for host (ce_config env) t = (Err err, t') →
    wf_str (TlsError_to_string err).

Lemma https_mitm_valid (env : conn_env Env CEnv) host dst r s t :
  env_typed env → request_valid r → cert_typed env t →
  let '(o, r, acts, _, _) := https_mitm httparse to_str env host dst r s t in
  outcome_valid o r acts.
Proof.
  intros He Hr Ht. pose proof (forward_h1_valid env r He Hr) as Hf.
  destruct (h2_handle_valid (ce_h2 env) r s (et_h2 _ He) Hr) as [Ho Hev].
  destruct He as [_ _ _ _ _ Hn Hc Htc _ _ _]. unfold https_mitm, https_h1.
  destruct (cert_server_config_for host (ce_config env) t) as [[arc|err] t'] eqn:E.
  2: { apply Ht in E. refine (conj _ (conj Hr _)); [cbn; auto with typed|constructor]. }
  destruct (ce_accept env); [|refine (conj _ (conj Hr _)); [cbn; auto with typed|repeat constructor]].
  destruct (ce_server_name env); [|refine (conj _ (conj Hr _)); [cbn; auto with typed|repeat constructor]].
  destruct (ce_connect env); [|refine (conj _ (conj Hr _)); [cbn; auto with typed|repeat constructor]].
  destruct (ce_tls_connect env); [|refine (conj _ (conj Hr _)); [cbn; auto with typed|repeat constructor]].
  destruct (str_eqb _ _ && str_eqb _ _).
  - destruct (h2_handle _ _ _ _) as [o st]. refine (conj Ho (conj Hr _)).
    apply Forall_app. split; [repeat constructor|]. by apply Forall_fmap.
  - destruct (forward_h1 httparse env r) as [[o r'] acts]. destruct Hf as (? & ? & ?).
    refine (conj _ (conj _ _)); [done|done|]. apply Forall_app. split; [repeat constructor|done].
Qed.

Lemma reply_denial_valid s i reply reason :
  api_ok s → (∀ d, reply = Some d → api_answered s i d) →
  reply_denial reply = Some reason → wf_str reason.
Proof.
  intros Hs Ha. unfold reply_denial. destruct reply as [d|].
  - pose proof (Hreason s i d Hs (Ha d eq_refl)) as Hd.
    destruct (d_action d); [done|]. intros [= <-].
    destruct (d_reason d) as [r|]; cbn in Hd; [case_match|]; auto with typed.
    apply (wf_app (s!"decider: ")); auto with typed.
  - intros [= <-]. auto with typed.
Qed.

Lemma provenance_valid policy host :
  Z.of_nat (length (rules policy)) <= u64_max →
  valid_opt matched_valid (pipeline policy host).2.
Proof.
  intros Hl. unfold pipeline. destruct (list_find _ _) as [[i r]|] eqn:E; [|done]. cbn.
  apply list_find_Some in E as (Hi & _). apply lookup_lt_Some in Hi.
  split; cbn; [lia|]. destruct r; by apply lit_wf.
Qed.

(** The frames of the events among the actions. *)
Definition event_frames (acts : list action) : list Outbound :=
  omap (λ a, match a with AEmit e | AStream _ e => Some (OutEvent e) | _ => None end) acts.

Lemma event_frames_valid acts : Forall act_valid acts → Forall frame_valid (event_frames acts).
Proof. induction 1 as [|[] acts Ha _ IH]; cbn; try done; by constructor. Qed.

Section established.

Context (env : conn_env Env CEnv) (policy : Policy) (session_id : option str) (s : S) (t : T).
Context (dst : SocketAddr) (peeked : bytes).
Hypothesis He : env_typed env.
Hypothesis Hsession : valid_opt wf_str session_id.
Hypothesis Hs : api_ok s.
Hypothesis Ht : cert_typed env t.
Hypothesis Hdst : ce_dst env = Ok dst.
Hypothesis Hpeek : ce_peek env = Ok peeked.

Abbreviation host := (the_host parse_tls_plaintext parse_tls_extensions dst peeked).
Abbreviation request :=
  (the_request parse_tls_plaintext parse_tls_extensions env session_id dst peeked).

Lemma dst_typed : addr_typed dst.
Proof.
  revert Hdst. unfold ce_dst. destruct (ce_getsockopt env) as [a|] eqn:Hg; [|done].
  apply original_dst_typed. by apply He.
Qed.

Lemma the_host_wf : wf_str host.
Proof. apply identify_host_wf; [by apply He|apply ip_text_wf, dst_typed]. Qed.

Lemma the_request_valid : request_valid request.
Proof. apply request_new_valid; try apply He; [apply the_host_wf|apply dst_typed|done]. Qed.

Lemma request_event_valid n k r : request_valid r → event_valid (Event_new (ce_clock env n) k r).
Proof. intros Hr. apply event_new_valid; [apply He|done]. Qed.

Lemma denial_reason_valid reason :
  (decide_denial parse_tls_plaintext parse_tls_extensions env policy session_id s dst peeked).1
    = Some reason → wf_str reason.
Proof.
  unfold decide_denial. destruct (pipeline policy _).1 as [|dr|]; [done| |].
  - destruct dr; cbn; intros; simplify_eq; auto with typed.
  - destruct (api_request_decision _ _ _ _) as [reply s1] eqn:Er.
    assert (api_ok (asked_state parse_tls_plaintext parse_tls_extensions env session_id s dst
      peeked)) as Ha by by apply api_others_ok, emit_at_ok.
    pose proof (api_request_ok _ _ _ _ _ _ Ha Er) as Hs1.
    apply (reply_denial_valid s1 (ce_uuid env) reply reason); [done|].
    intros d ->. by apply api_authentic in Er.
Qed.

Lemma transfer_valid r s1 :
  request_valid r →
  let '(o, r, acts, _, _) := transfer httparse to_str env host dst r s1 t in
  outcome_valid o r acts.
Proof.
  intros Hr. unfold transfer. destruct (sa_port dst =? 443); [by apply https_mitm_valid|].
  pose proof (http_forward_valid env dst r He Hr) as Hv.
  by destruct (http_forward httparse env dst r) as [[o r'] acts].
Qed.

End established.

(** With the inputs of the connection well-typed, each event it emits, on every
    path and for each of its HTTP/2 streams, is a valid frame, and so is the
    decision request it may send. *)
Lemma handle_events_valid (env : conn_env Env CEnv) (policy : Policy)
    (session_id : option str) (s : S) (t : T) (acts : list action) (s' : S) (t' : T) :
  env_typed env → Z.of_nat (length (rules policy)) <= u64_max →
  valid_opt wf_str session_id → api_ok s → cert_typed env t →
  handle parse_tls_plaintext parse_tls_extensions httparse to_str env policy
    session_id s t = Some (acts, s', t') →
  Forall act_valid acts ∧
  ∀ dst peeked, ce_dst env = Ok dst → ce_peek env = Ok peeked →
    let a := the_args parse_tls_plaintext parse_tls_extensions env session_id dst peeked in
    frame_valid (OutDecisionRequest (ra_id a) (ra_session_id a) (ra_host a) (ra_port a)
                   (ra_scheme a)).
Proof.
  intros He Hl Hsession Hs Ht Hh. split.
  2: { intros dst peeked Hd Hp. refine (conj _ (conj _ (conj _ (conj _ _))));
      [by apply He|done|by apply (the_host_wf env)|by apply (dst_typed env)|].
    cbn. unfold scheme_of_port. case_match; auto with typed. }
  destruct (env_cases env) as [Hd|(dst & peeked & Hdst & Hpeek)].
  { rewrite handle_dropped in Hh by done. simplify_eq. constructor. }
  pose proof (the_request_valid env session_id dst peeked He Hsession Hdst Hpeek) as Hr.
  pose proof (provenance_valid policy
    (the_host parse_tls_plaintext parse_tls_extensions dst peeked) Hl) as Hprov.
  destruct (handle_cases parse_tls_plaintext parse_tls_extensions httparse to_str env policy
    session_id s t dst peeked Hdst Hpeek)
    as [(reason & Hden & E)|(_ & o & r & mid & s2 & t2 & Htr & E)];
    rewrite E in Hh; injection Hh as <- _ _.
  - apply denial_reason_valid in Hden; [|done..].
    apply Forall_cons_2; [by apply request_event_valid|].
    apply Forall_cons_2; [|repeat constructor].
    apply with_rule_valid, with_reason_valid; [done|done|by apply request_event_valid].
  - pose proof (transfer_valid env t dst peeked He Ht _
      (emit_at env 2 (allowed_event parse_tls_plaintext parse_tls_extensions env policy
         session_id dst peeked) (decide_denial parse_tls_plaintext parse_tls_extensions env
         policy session_id s dst peeked).2) Hr) as Hv.
    unfold allowed_transfer in Htr. rewrite Htr in Hv. destruct Hv as (Ho & Hr' & Hm).
    apply Forall_cons_2; [by apply request_event_valid|].
    apply Forall_cons_2; [apply with_rule_valid; [done|by apply request_event_valid]|].
    apply Forall_app. split; [done|]. apply Forall_singleton. cbn. unfold final_event.
    destruct o; [|apply with_reason_valid; [done|]]; by apply request_event_valid.
Qed.

End typed.
