(* ===== verification/Trail.v ===== *)
(** * The audit trail of a connection

    [Conn.handle] records its events as actions; here they meet the queue of
    [Control]. Whatever the other tasks do to the channel meanwhile, what a
    connection reports, the question to the peer included, goes into the queue
    in program order, and nothing of it is lost as long as the buffer does not
    fill up; and it is what the peer reads off the wire. *)

From S2P Require Import Prelude Utf8 Strs Json Policy Event Wire Texts Api Control OrigDst Sni.
From S2P Require Import Http1 Splice H2 Conn Typed.

(** Whether a step of another task may put a frame into the queue. *)
Definition enqueues (l : label) : bool :=
  match l with LEmit _ | LSend _ => true | _ => false end.

Definition quiet (ls : list label) : Prop := Forall (λ l, enqueues l = false) ls.

Lemma quiet_cons l ls : quiet (l :: ls) → enqueues l = false ∧ quiet ls.
Proof. intros H. by apply Forall_cons in H. Qed.

Definition quiet_env (env : rd_env) : Prop :=
  quiet (env_mid env) ∧ quiet (env_sched env).*2 ∧ quiet (env_late env).

(** The other tasks report nothing while a connection is served. *)
Record quiet_conn {CEnv} (env : conn_env rd_env CEnv) : Prop := {
  qc_others n : quiet_env (ce_others env n);
  qc_decide : quiet_env (ce_decide env);
  qc_h2 : Forall (λ l, match l with HOthers e => quiet_env e | _ => True end) (he_steps (ce_h2 env));
}.

(** ** What a piece of code reports *)

(** From [s] to [s'] the frames [own] went into the queue, in order, possibly
    among frames of other tasks; with no others about ([q]), they and nothing
    else. A full buffer excuses it. *)
Record reports (q : Prop) (own : list Outbound) (s s' : ctl) : Prop := {
  rp_queue : queue_inv s';
  rp_taken : (length (taken s) ≤ length (taken s'))%nat;
  rp_during : ∃ during, accepted s' = accepted s ++ during ∧
    ((length (accepted s') < length (taken s) + BUFFER_CAP)%nat →
     own `sublist_of` during ∧ (q → during = own));
}.

Lemma reports_refl q s : queue_inv s → reports q [] s s.
Proof. intros Hs. split; [done|done|]. exists []. by rewrite app_nil_r. Qed.

Lemma reports_trans q a b s s1 s2 :
  reports q a s s1 → reports q b s1 s2 → reports q (a ++ b) s s2.
Proof.
  intros [H1 T1 (d1 & E1 & R1)] [H2 T2 (d2 & E2 & R2)]. split; [done|lia|].
  exists (d1 ++ d2). split; [by rewrite E2, E1, app_assoc|]. intros Hroom.
  assert (length (accepted s1) ≤ length (accepted s2))%nat by (rewrite E2, length_app; lia).
  destruct R1 as [S1 Q1]; [lia|]. destruct R2 as [S2 Q2]; [lia|].
  split; [by apply sublist_app|]. intros Hq. by rewrite (Q1 Hq), (Q2 Hq).
Qed.

Lemma reports_nil_l q b s s1 s2 :
  reports q [] s s1 → reports q b s1 s2 → reports q b s s2.
Proof. apply (reports_trans q [] b). Qed.

Lemma reports_nil_r q a s s1 s2 :
  reports q a s s1 → reports q [] s1 s2 → reports q a s s2.
Proof. intros H1 H2. rewrite <-(app_nil_r a). by eapply reports_trans. Qed.

(** A [try_send] of a frame. *)
Lemma reports_frame q f s s' :
  queue_inv s → queue_inv s' → taken s' = taken s →
  accepted s' = accepted s ++ (if (length (out_q s) <? BUFFER_CAP)%nat then [f] else []) →
  reports q [f] s s'.
Proof.
  intros Hs Hs' Ht Ha. split; [done|by rewrite Ht|]. eexists. split; [exact Ha|].
  intros Hroom. destruct (Nat.ltb_spec (length (out_q s)) BUFFER_CAP) as [|Hfull]; [done|].
  rewrite Ha, app_nil_r, (inv_fifo _ Hs), length_app, length_fmap in Hroom. lia.
Qed.

Lemma try_send_reports f s :
  match try_send f s with
  | Ok s' => (length (out_q s) <? BUFFER_CAP)%nat = true ∧ taken s' = taken s ∧
      accepted s' = accepted s ++ [f]
  | Err _ => (length (out_q s) <? BUFFER_CAP)%nat = false
  end.
Proof. unfold try_send. by destruct (_ <? _)%nat. Qed.

Section channel.

Variable parse : str → option Inbound.
Variable q : Prop.

Lemma emit_reports e s : queue_inv s → reports q [OutEvent e] s (emit e s).
Proof.
  intros Hs. pose proof (step_queue parse (LEmit e) s _ eq_refl Hs) as Hs'.
  pose proof (try_send_reports (OutEvent e) s) as H. unfold emit in *.
  apply reports_frame; [done|done|..]; destruct (try_send _ s) as [s'|].
  1, 2: by try apply H.
  - destruct H as (-> & _ & ->). done.
  - by rewrite H, app_nil_r.
Qed.

Lemma step_accepted l s s' :
  step parse l s = Some s' → enqueues l = false → accepted s' = accepted s.
Proof.
  intros Hs Hl. destruct l as [e|t a|t|t|t|t|b|f|line| |]; cbn in Hs, Hl; try done.
  all: unfold rd_resolve, rd_cleanup, remove_pending, write_frame, read_line, handle_line in Hs.
  all: by repeat case_match; simplify_eq.
Qed.

Lemma run1_reports l s :
  (q → enqueues l = false) → queue_inv s → reports q [] s (run1 parse l s).
Proof.
  intros Hl Hs. unfold run1. destruct (step parse l s) as [s'|] eqn:E; [|by apply reports_refl].
  cbn. pose proof (step_queue parse l s s' E Hs) as Hs'.
  pose proof (step_queue_effect parse l s s' E) as He.
  assert ((length (taken s) ≤ length (taken s'))%nat ∧
    ∃ during, accepted s' = accepted s ++ during) as [Ht [during Hd]].
  { rewrite (inv_fifo _ Hs), (inv_fifo _ Hs').
    destruct l; try (destruct He as [[more ->] ->]; split; [done|]; exists more; by rewrite app_assoc).
    destruct He as (fr & -> & ->). split; [rewrite length_app; lia|]. exists [].
    by rewrite fmap_app, <-app_assoc, app_nil_r. }
  split; [done|done|]. exists during. split; [done|]. intros _. split; [apply sublist_nil_l|].
  intros Hq. rewrite (step_accepted l s s' E (Hl Hq)) in Hd.
  apply (f_equal length) in Hd. rewrite length_app in Hd. by destruct during; cbn in Hd; [|lia].
Qed.

Lemma run_other_reports t l s :
  (q → enqueues l = false) → queue_inv s → reports q [] s (run_other parse t l s).
Proof.
  intros Hl Hs. unfold run_other. case_match; [by apply reports_refl|by apply run1_reports].
Qed.

(** Sequences of steps of others. *)
Lemma foldl_reports (f : ctl → label → ctl) ls s :
  (∀ l s, (q → enqueues l = false) → queue_inv s → reports q [] s (f s l)) →
  (q → quiet ls) → queue_inv s → reports q [] s (foldl f s ls).
Proof.
  intros Hf Hls Hs. revert s Hs. induction ls as [|l ls IH]; intros s Hs; [by apply reports_refl|].
  assert (reports q [] s (f s l)) as H1
    by (apply Hf; [intros Hq; apply (quiet_cons l ls), Hls, Hq|done]).
  cbn [foldl]. eapply reports_nil_l; [exact H1|]. apply IH; [|apply H1].
  intros Hq. apply (quiet_cons l ls), Hls, Hq.
Qed.

Lemma run_others_reports t ls s :
  (q → quiet ls) → queue_inv s → reports q [] s (run_others parse t ls s).
Proof. apply foldl_reports. intros l s'. apply run_other_reports. Qed.

Lemma api_others_reports env s :
  (q → quiet_env env) → queue_inv s →
  reports q [] s (api_others (ControlApi := control_api parse) env s).
Proof.
  intros Hq. apply foldl_reports; [intros l s'; apply run1_reports|]. intros H. by apply Hq.
Qed.

(** A call that has failed cleans up. *)
Lemma fail_reports t l late s :
  (q → quiet late) → enqueues l = false → queue_inv s →
  reports q [] s (run1 parse (LCleanup t) (run_others parse t late (run1 parse l s))).
Proof.
  intros Hlate Hl Hs. pose proof (run1_reports l s (λ _, Hl) Hs) as H1.
  eapply reports_nil_l; [exact H1|].
  pose proof (run_others_reports t late _ Hlate (rp_queue _ _ _ _ H1)) as H2.
  eapply reports_nil_l; [exact H2|]. apply run1_reports; [done|apply H2].
Qed.

Lemma rd_await_reports t timeout sched late s :
  (q → quiet sched.*2) → (q → quiet late) → queue_inv s →
  reports q [] s (rd_await parse t timeout sched late s).2.
Proof.
  intros Hsched Hlate. revert timeout s.
  induction sched as [|[delay l] sched IH]; intros timeout s Hs; cbn [rd_await].
  all: destruct (oneshots s !! t) as [[|d|]|]; try (by apply fail_reports);
    try (by apply run1_reports).
  all: destruct (timeout <=? delay); [by apply fail_reports|].
  all: assert (reports q [] s (run_other parse t l s)) as H1
    by (apply run_other_reports; [intros Hq; apply (quiet_cons l sched.*2), Hsched, Hq|done]).
  all: eapply reports_nil_l; [exact H1|]; apply IH; [|apply H1].
  all: intros Hq; apply (quiet_cons l sched.*2), Hsched, Hq.
Qed.

(** The question goes into the queue, between what the others do. *)
Lemma request_decision_reports t a timeout env s :
  (q → quiet_env env) → queue_inv s → tasks s !! t = None →
  reports q [decision_frame a] s (request_decision parse t a timeout env s).2.
Proof.
  intros Hq Hs Hn. unfold request_decision.
  pose proof (run1_reports (LRegister t a) s (λ _, eq_refl) Hs) as H1.
  pose proof (run_others_reports t (env_mid env) _ (λ x, proj1 (Hq x)) (rp_queue _ _ _ _ H1)) as H2.
  assert (task_at t a RdRegistered (run_others parse t (env_mid env)
    (run1 parse (LRegister t a) s))) as Ht.
  { unfold task_at. rewrite run_others_task, run1_register by done. apply lookup_insert_eq. }
  set (s1 := run_others parse t (env_mid env) _) in *.
  assert (reports q [decision_frame a] s1 (run1 parse (LSend t) s1)) as H3.
  { pose proof (run1_send parse t a s1 Ht) as E.
    assert (queue_inv (rd_send t a s1)) as Hs2.
    { apply (step_queue parse (LSend t) s1); [cbn; by rewrite Ht|apply H2]. }
    rewrite E. pose proof (try_send_reports (decision_frame a) s1) as H. unfold rd_send in *.
    apply reports_frame; [apply H2|done|..]; destruct (try_send _ s1) as [s'|].
    1, 2: by try apply H.
    - destruct H as (-> & _ & H). exact H.
    - by rewrite H, app_nil_r. }
  eapply reports_nil_l; [exact H1|]. eapply reports_nil_l; [exact H2|].
  eapply reports_nil_r; [exact H3|].
  destruct (rd_at <$> _) as [[]|]; try by
    (pose proof (run_others_reports t (env_late env) _ (λ x, proj2 (proj2 (Hq x)))
       (rp_queue _ _ _ _ H3)) as H4;
     eapply reports_nil_l; [exact H4|]; apply run1_reports; [done|apply H4]).
  apply rd_await_reports; [intros x; by apply Hq..|apply H3].
Qed.

End channel.

(** ** The connection *)

Section conn.

Variable parse : str → option Inbound.
Variable parse_tls_plaintext : bytes → option (list TlsMessage).
Variable parse_tls_extensions : bytes → option (list TlsExtension).
Context {HpErr : Type}.
Variable httparse : bytes → result Status HpErr.
Variable to_str : bytes → option str.
Context {T CEnv : Type} `{!CertApi T CEnv}.

#[local] Instance channel_api : ControlApi ctl rd_env := control_api parse.

Section served.

Context (env : conn_env rd_env CEnv).

Abbreviation q := (quiet_conn env).

Lemma emit_at_reports n e s : queue_inv s → reports q [OutEvent e] s (emit_at env n e s).
Proof.
  intros Hs.
  pose proof (api_others_reports parse q (ce_others env n) s (λ x, qc_others env x n) Hs) as H1.
  eapply reports_nil_l; [exact H1|]. apply (emit_reports parse), H1.
Qed.

Definition stream_frames (st : @h2_st ctl) : list Outbound := (λ p, OutEvent p.2) <$> h_events st.

Lemma h2_step_reports base st l s :
  (q → match l with HOthers e => quiet_env e | _ => True end) →
  reports q (stream_frames st) s (h_ctl st) →
  reports q (stream_frames (h2_stream_step to_str base st l)) s
    (h_ctl (h2_stream_step to_str base st l)).
Proof.
  intros Hl Hst. unfold stream_frames in *.
  destruct l as [sid uuid started now req|sid res fin now|others]; cbn.
  - case_decide; [done|]. cbn. rewrite fmap_app. eapply reports_trans; [exact Hst|].
    apply (emit_reports parse), Hst.
  - case_match; [|done]. cbn. rewrite fmap_app. eapply reports_trans; [exact Hst|].
    apply (emit_reports parse), Hst.
  - eapply reports_nil_r; [exact Hst|]. apply (api_others_reports parse); [done|apply Hst].
Qed.

Lemma h2_handle_reports base s :
  queue_inv s →
  let st := (h2_handle to_str (ce_h2 env) base s).2 in
  reports q (stream_frames st) s (h_ctl st).
Proof.
  intros Hs. cbv zeta.
  assert (reports q (stream_frames (h2_start s)) s (h_ctl (h2_start s))) as H0
    by (by apply reports_refl).
  assert (let st := foldl (h2_stream_step to_str base) (h2_start s) (he_steps (ce_h2 env)) in
    reports q (stream_frames st) s (h_ctl st)) as Hrun.
  { assert (q → Forall (λ l, match l with HOthers e => quiet_env e | _ => True end)
      (he_steps (ce_h2 env))) as Hq by apply qc_h2.
    cbv zeta. revert Hq H0. generalize (h2_start s).
    induction (he_steps (ce_h2 env)) as [|l ls IH]; intros st Hq H0; [done|]. cbn [foldl].
    apply IH; [|apply h2_step_reports; [|done]]; intros Hx;
      specialize (Hq Hx); by apply Forall_cons in Hq as []. }
  unfold h2_handle, drive. destruct (he_spawn _); [|done]. destruct (he_rt _); [|done].
  by destruct (he_handshake _), (he_panics _).
Qed.

Lemma event_frames_app a b : event_frames (a ++ b) = event_frames a ++ event_frames b.
Proof. apply omap_app. Qed.

Lemma event_frames_streams (l : list (nat * Event)) :
  event_frames ((λ p, AStream p.1 p.2) <$> l) = (λ p, OutEvent p.2) <$> l.
Proof. induction l as [|p l IH]; [done|]. cbn. by rewrite <-IH. Qed.

Lemma forward_h1_frames r : event_frames (forward_h1 httparse env r).2 = [].
Proof.
  unfold forward_h1. destruct (read_head _ _) as [[[head buf] rs]|e]; [|done].
  by destruct (ce_up_writes env) as [|[u|e] ws].
Qed.

Lemma transfer_reports host dst r s t o r' acts s' t' :
  queue_inv s → transfer httparse to_str env host dst r s t = (o, r', acts, s', t') →
  reports q (event_frames acts) s s'.
Proof.
  intros Hs. pose proof (forward_h1_frames r) as Hf. unfold transfer. case_match.
  - unfold https_mitm, https_h1.
    destruct (cert_server_config_for _ _ _) as [[arc|] t1]; [|intros; simplify_eq; by apply reports_refl].
    destruct (ce_accept env); [|intros; simplify_eq; by apply reports_refl].
    destruct (ce_server_name env); [|intros; simplify_eq; by apply reports_refl].
    destruct (ce_connect env); [|intros; simplify_eq; by apply reports_refl].
    destruct (ce_tls_connect env); [|intros; simplify_eq; by apply reports_refl].
    destruct (str_eqb _ _ && str_eqb _ _).
    + pose proof (h2_handle_reports r s Hs) as H2.
      destruct (h2_handle _ _ _ _) as [o1 st]. intros; simplify_eq.
      rewrite event_frames_app, event_frames_streams. exact H2.
    + destruct (forward_h1 httparse env r) as [[o1 r1] acts1]. intros; simplify_eq.
      rewrite event_frames_app. cbn [snd] in Hf. rewrite Hf. by apply reports_refl.
  - unfold http_forward. destruct (ce_connect env); [|intros; simplify_eq; by apply reports_refl].
    destruct (forward_h1 httparse env r) as [[o1 r1] acts1]. intros; simplify_eq.
    cbn [snd] in Hf. change (event_frames (AConnect dst :: ?l)) with (event_frames l).
    rewrite Hf. by apply reports_refl.
Qed.

Context (policy : Policy) (session_id : option str).

(** The question to the peer, when the policy leaves it to the peer. *)
Definition question : list Outbound :=
  match ce_dst env, ce_peek env with
  | Ok dst, Ok peeked =>
      match (pipeline policy (the_host parse_tls_plaintext parse_tls_extensions dst peeked)).1 with
      | DecisionDecide =>
          [decision_frame (the_args parse_tls_plaintext parse_tls_extensions env session_id dst
             peeked)]
      | _ => []
      end
  | _, _ => []
  end.

(** What a connection with these actions sends: its first event, the question if
    there is one, and the other events. *)
Definition conn_frames (acts : list action) : list Outbound :=
  match event_frames acts with opened :: rest => opened :: question ++ rest | [] => [] end.

Lemma decide_denial_reports s dst peeked :
  reachable parse s → ce_dst env = Ok dst → ce_peek env = Ok peeked →
  reports q (OutEvent (opened_event parse_tls_plaintext parse_tls_extensions env session_id dst
               peeked) :: question) s
    (decide_denial parse_tls_plaintext parse_tls_extensions env policy session_id s dst peeked).2.
Proof.
  intros Hr Hdst Hpeek. unfold question. rewrite Hdst, Hpeek.
  destruct (reachable_inv parse s Hr) as [_ Hs]. unfold decide_denial.
  pose proof (emit_at_reports 0 (opened_event parse_tls_plaintext parse_tls_extensions env
    session_id dst peeked) s Hs) as H1.
  destruct (pipeline policy _).1; [exact H1|exact H1|].
  set (asked := asked_state _ _ _ _ _ _ _).
  assert (reports q [] (opened_state parse_tls_plaintext parse_tls_extensions env session_id s
    dst peeked) asked) as H2.
  { apply api_others_reports; [intros x; apply (qc_others env x)|apply H1]. }
  pose proof (request_decision_reports parse q (fresh (dom (tasks asked)))
    (the_args parse_tls_plaintext parse_tls_extensions env session_id dst peeked)
    (decide_timeout_ms policy) (ce_decide env) asked (qc_decide env) (rp_queue _ _ _ _ H2)
    (not_elem_of_dom_1 _ _ (is_fresh _))) as H3.
  unfold api_request_decision. cbn. destruct (request_decision _ _ _ _ _ _) as [reply s1].
  eapply (reports_trans _ [_]); [exact H1|]. by eapply reports_nil_l.
Qed.

Lemma handle_reports s t acts s' t' :
  reachable parse s →
  handle parse_tls_plaintext parse_tls_extensions httparse to_str env policy session_id s t
    = Some (acts, s', t') →
  reports q (conn_frames acts) s s'.
Proof.
  intros Hr Hh. destruct (reachable_inv parse s Hr) as [_ Hs].
  destruct (env_cases env) as [Hd|(dst & peeked & Hdst & Hpeek)].
  { rewrite handle_dropped in Hh by done. simplify_eq. by apply reports_refl. }
  pose proof (decide_denial_reports s dst peeked Hr Hdst Hpeek) as H1.
  destruct (handle_cases parse_tls_plaintext parse_tls_extensions httparse to_str env policy
    session_id s t dst peeked Hdst Hpeek)
    as [(reason & Hden & E)|(_ & o & r & mid & s2 & t2 & Htr & E)];
    rewrite E in Hh; injection Hh as <- <- _; unfold conn_frames.
  - eapply (reports_trans _ (_ :: question) [_]); [exact H1|]. apply emit_at_reports, H1.
  - change (event_frames (AEmit ?a :: AEmit ?b :: ?l))
      with (OutEvent a :: OutEvent b :: event_frames l).
    rewrite event_frames_app. eapply (reports_trans _ (_ :: question)); [exact H1|].
    unfold allowed_transfer in Htr.
    pose proof (emit_at_reports 2 (allowed_event parse_tls_plaintext parse_tls_extensions env
      policy session_id dst peeked) _ (rp_queue _ _ _ _ H1)) as H2.
    eapply (reports_trans _ [_]); [exact H2|].
    pose proof (transfer_reports _ _ _ _ _ _ _ _ _ _ (rp_queue _ _ _ _ H2) Htr) as H3.
    eapply reports_trans; [exact H3|]. apply emit_at_reports, H3.
Qed.

End served.

(** ** Property *)

Context `{!Chrono} `{!SerdeJson} (alt : serde_alt).
Hypothesis Hext : ∀ b exts, parse_tls_extensions b = Some exts → Forall ext_typed exts.
Hypothesis Hhead : ∀ b req, httparse b = Ok (Complete req) → head_typed req.
Hypothesis Hto_str : ∀ v s, to_str v = Some s → wf_str s.
Hypothesis Hparse : ∀ line i action reason,
  parse line = Some (InDecision i action reason) → valid_opt wf_str reason.

Lemma conn_frames_valid env policy session_id s t acts s' t' :
  env_typed env → Z.of_nat (length (rules policy)) <= u64_max →
  valid_opt wf_str session_id → reachable parse s → cert_typed (T := T) env t →
  handle parse_tls_plaintext parse_tls_extensions httparse to_str env policy session_id s t
    = Some (acts, s', t') →
  Forall frame_valid (conn_frames env policy session_id acts).
Proof.
  intros He Hl Hsession Hr Ht Hh.
  assert (∀ s i d, api_ok s → api_answered s i d → valid_opt wf_str (d_reason d)) as Hreason.
  { intros s0 i d Hs0 Hd. destruct (reachable_answers parse s0 i d Hs0 Hd) as [line Hline].
    by eapply Hparse. }
  destruct (handle_events_valid parse_tls_plaintext parse_tls_extensions httparse to_str Hext
    Hhead Hto_str Hreason env policy session_id s t acts s' t') as [Hv Hq]; [done..|].
  apply event_frames_valid in Hv. unfold conn_frames.
  destruct (event_frames acts) as [|e rest]; [constructor|].
  apply Forall_cons in Hv as [He' Hrest]. constructor; [done|]. apply Forall_app. split; [|done].
  unfold question. destruct (ce_dst env) as [dst|] eqn:Hd; [|constructor].
  destruct (ce_peek env) as [peeked|] eqn:Hp; [|constructor].
  destruct (pipeline policy _).1; [constructor..|]. constructor; [|constructor].
  by apply (Hq dst peeked).
Qed.


End conn.
