(* ===== verification/Proxy.v ===== *)
(** * [condukt_egress/src/proxy/mod.rs] and [main.rs]: the sidecar process

    The start-up sequence of the [proxy] subcommand, the accept loop, and the
    exit status of the binary. The connections the loop spawns share the control
    channel and the certificate cache; here [Conn] meets its two implementations,
    [Control] and [Tls]. *)

From S2P Require Import Prelude Utf8 Strs Json Policy Event Wire Texts Api Control OrigDst.
From S2P Require Import Sni Http1 Splice Tls Netfilter H2 Conn.

(** [proxy::Args]. *)
Record ProxyArgs := {
  listen : str;
  control_listen : str;
  policy_file : str;
  ca_cert_path : str;
  ca_key_path : str;
  pa_session_id : option str;
}.

Section proxy.

(** The JSON texts of the policy file and of the control channel. *)
Context (alt : serde_alt) {SJ : SerdeJson}.
Variable lib : CryptoLib.

(** The file system and the network at start-up. [C] is a redirected
    connection; [pe_accepts] are the results of [listener.accept()]. *)
Record proxy_env (C : Type) := {
  pe_runtime : result unit str;
  pe_read : str → result str str;
  pe_bind_control : str → result unit str;
  pe_bind : str → result unit str;
  pe_accepts : list (result C str);
}.
Arguments pe_runtime {C}.
Arguments pe_read {C}.
Arguments pe_bind_control {C}.
Arguments pe_bind {C}.
Arguments pe_accepts {C}.

(** The accept loop: what [conn::handle] is spawned for. *)
Fixpoint accept_loop {C} (accepts : list (result C str)) : list C :=
  match accepts with
  | [] => []
  | Ok client :: accepts => client :: accept_loop accepts
  | Err _ :: accepts => accept_loop accepts
  end.

(** A sidecar that serves: what every spawned task is given, and the tasks. *)
Record serving (C : Type) := {
  sv_policy : Policy;
  sv_ca : CaContext lib;
  sv_session_id : option str;
  sv_clients : list C;
}.
Arguments sv_policy {C}.
Arguments sv_ca {C}.
Arguments sv_session_id {C}.
Arguments sv_clients {C}.

(** [run_async]: it never returns [Ok]; once it serves, it serves for ever. *)
Definition run_async {C} (args : ProxyArgs) (env : proxy_env C)
    : result (serving C) str :=
  policy_json ←? map_err (λ e, s!"reading policy " ++ policy_file args ++ s!": " ++ e)
                   (pe_read env (policy_file args));
  policy ←? map_err (λ e, s!"parsing policy " ++ policy_file args ++ s!": " ++ e)
              (parse_policy alt policy_json);
  ca ←? map_err TlsError_to_string
          (load lib (pe_read env) (ca_cert_path args) (ca_key_path args));
  _ ←? pe_bind_control env (control_listen args);
  _ ←? pe_bind env (listen args);
  Ok {| sv_policy := policy; sv_ca := ca; sv_session_id := pa_session_id args;
        sv_clients := accept_loop (pe_accepts env) |}.

(** [proxy::run]. *)
Definition proxy_run {C} (args : ProxyArgs) (env : proxy_env C) : result (serving C) str :=
  _ ←? pe_runtime env; run_async args env.

(** ** [main] *)

Inductive Mode := NetfilterSetup (args : Args) | Proxy (args : ProxyArgs).

(** What the process does: exit with a status and what it printed to standard
    error, or keep serving. *)
Inductive process (C : Type) :=
| Exit (code : Z) (stderr : list str)
| Serve (s : serving C).
Arguments Exit {C}.
Arguments Serve {C}.

(** [main], once [clap] has parsed the command line; [k] is the kernel's chain. *)
Definition main {C K} `{!Iptables K} (env : proxy_env C) (mode : Mode) (k : K)
    : process C * K :=
  match mode with
  | NetfilterSetup args =>
      let '(r, k) := Netfilter.run args k in
      (match r with
       | Ok _ => Exit 0 []
       | Err err => Exit 1 [s!"condukt-egress: " ++ setup_error_to_string err]
       end, k)
  | Proxy args =>
      (match proxy_run args env with
       | Ok s => Serve s
       | Err err => Exit 1 [s!"condukt-egress: " ++ err]
       end, k)
  end.

(** ** Serving *)

Variable parse_tls_plaintext : bytes → option (list TlsMessage).
Variable parse_tls_extensions : bytes → option (list TlsExtension).
Context {HpErr : Type}.
Variable httparse : bytes → result Status HpErr.
Variable to_str : bytes → option str.

(** A redirected connection: what its task meets while it runs, the other tasks
    of the process included. *)
Definition client : Type := conn_env rd_env (tls_env lib).

(** The task of one connection, over the shared channel and cache. *)
Definition serve_one (sv : serving client) (c : client) (st : ctl * cache_st)
    : option (list action * (ctl * cache_st)) :=
  '(acts, s, t) ← handle parse_tls_plaintext parse_tls_extensions httparse to_str
                    (ControlApi0 := control_api (parse_inbound alt))
                    (CertApi0 := cert_api lib (sv_ca sv))
                    c (sv_policy sv) (sv_session_id sv) st.1 st.2;
  Some (acts, (s, t)).

(** The connections of a run, in the order their tasks start. Every task runs
    under arbitrary interference: its environment holds the channel and cache
    steps of whatever tasks overlap it, so the order of the list does not limit
    what a task can meet. *)
Fixpoint serve (sv : serving client) (cs : list client) (st : ctl * cache_st)
    : option (list (list action) * (ctl * cache_st)) :=
  match cs with
  | [] => Some ([], st)
  | c :: cs =>
      '(acts, st) ← serve_one sv c st;
      '(rest, st) ← serve sv cs st;
      Some (acts :: rest, st)
  end.

(** ** Lemmas *)

Definition st_ok (sv : serving client) (st : ctl * cache_st) : Prop :=
  reachable (parse_inbound alt) st.1 ∧ tls_reachable lib (sv_ca sv) st.2.

Lemma serve_one_handle sv c st acts st' :
  serve_one sv c st = Some (acts, st') →
  handle parse_tls_plaintext parse_tls_extensions httparse to_str
    (ControlApi0 := control_api (parse_inbound alt)) (CertApi0 := cert_api lib (sv_ca sv))
    c (sv_policy sv) (sv_session_id sv) st.1 st.2 = Some (acts, st'.1, st'.2).
Proof.
  unfold serve_one. destruct (handle _ _ _ _ _ _ _ _ _) as [[[a s] t]|]; cbn; [|done].
  by intros [= <- <-].
Qed.

Lemma serve_one_ok sv c st acts st' :
  st_ok sv st → serve_one sv c st = Some (acts, st') → st_ok sv st'.
Proof. intros [Hs Ht] H%serve_one_handle. by apply handle_ok in H. Qed.

Lemma serve_one_total sv c st : is_Some (serve_one sv c st).
Proof.
  unfold serve_one.
  destruct (handle_total parse_tls_plaintext parse_tls_extensions httparse to_str
    (ControlApi0 := control_api (parse_inbound alt)) (CertApi0 := cert_api lib (sv_ca sv))
    c (sv_policy sv) (sv_session_id sv) st.1 st.2) as [[[a s] t] ->]. by eexists.
Qed.

(** The call a connection makes to the peer when it meets the state [st], under
    what the other tasks do during it: its arguments, and the state of the channel
    at the call. *)
Definition own_args (sv : serving client) (c : client) (dst : SocketAddr) (peeked : bytes)
    : rd_args :=
  the_args parse_tls_plaintext parse_tls_extensions c (sv_session_id sv) dst peeked.

Definition own_asked (sv : serving client) (c : client) (st : ctl * cache_st)
    (dst : SocketAddr) (peeked : bytes) : ctl :=
  asked_state parse_tls_plaintext parse_tls_extensions
    (ControlApi0 := control_api (parse_inbound alt)) c (sv_session_id sv) st.1 dst peeked.

Definition own_reply (sv : serving client) (c : client) (st : ctl * cache_st)
    (dst : SocketAddr) (peeked : bytes) : option CtlDecision * ctl :=
  let s := own_asked sv c st dst peeked in
  request_decision (parse_inbound alt) (fresh (dom (tasks s))) (own_args sv c dst peeked)
    (decide_timeout_ms (sv_policy sv)) (ce_decide c) s.

(** What the egress of a connection proves about the policy and the peer: the
    policy allows the host, or it says decide, and the call of this very
    connection, made in the state its task met, returned an allow; and that allow
    is a line the peer sent during the call, with the id of the connection. *)
Definition mediated (sv : serving client) (st : ctl * cache_st) (c : client)
    (acts : list action) : Prop :=
  existsb is_egress acts = true →
  ∃ dst peeked, ce_dst c = Ok dst ∧ ce_peek c = Ok peeked ∧
    (∀ x, AConnect x ∈ acts → x = dst) ∧
    let host := identify_host parse_tls_plaintext parse_tls_extensions peeked (sa_port dst)
                  (IpAddr_to_string (sa_ip dst)) in
    ((pipeline (sv_policy sv) host).1 = DecisionAllow ∨
     (pipeline (sv_policy sv) host).1 = DecisionDecide ∧
     ∃ s1 d line, own_reply sv c st dst peeked = (Some d, s1) ∧ d_action d = DAllow ∧
       (ce_uuid c, d) ∈ answers s1 ∧
       LLine line ∈ env_mid (ce_decide c) ++ (env_sched (ce_decide c)).*2 ∧
       parse_inbound alt line = Some (InDecision (ce_uuid c) DAllow (d_reason d))).

Lemma own_asked_reachable sv c st dst peeked :
  st_ok sv st → reachable (parse_inbound alt) (own_asked sv c st dst peeked).
Proof.
  intros [Hs _]. apply (api_others_ok (ControlApi := control_api (parse_inbound alt))).
  by apply (emit_at_ok (ControlApi0 := control_api (parse_inbound alt))).
Qed.

Lemma serve_one_mediated sv c st acts st' :
  st_ok sv st → serve_one sv c st = Some (acts, st') → mediated sv st c acts.
Proof.
  intros Hok H%serve_one_handle He.
  apply egress_permitted in H as (dst & peeked & Hd & Hp & Hx & Hperm); [|apply Hok|done].
  exists dst, peeked. split_and!; [done..|]. cbv zeta in *.
  destruct Hperm as [Ha|(Ha & s1 & d & Hd1 & Hd2 & Hreq)]; [by left|]. right.
  split; [exact Ha|].
  pose proof (request_decision_read (parse_inbound alt) _ (own_args sv c dst peeked) _ _ _ d s1
    (own_asked_reachable sv c st dst peeked Hok) (not_elem_of_dom_1 _ _ (is_fresh _)) Hreq) as Hr.
  apply Exists_exists in Hr as (l & Hin & line & -> & Hline). rewrite Hd1 in Hline.
  by exists s1, d, line.
Qed.

(** Serving the connections of a list one after the other. *)
Lemma serve_total sv cs st :
  st_ok sv st → ∃ traces st', serve sv cs st = Some (traces, st') ∧ st_ok sv st' ∧
    ∀ i c, cs !! i = Some c → ∃ acts st1 st2,
      traces !! i = Some acts ∧ serve sv (take i cs) st = Some (take i traces, st1) ∧
      st_ok sv st1 ∧ serve_one sv c st1 = Some (acts, st2).
Proof.
  revert st. induction cs as [|c cs IH]; intros st H0; cbn [serve].
  { do 2 eexists. split_and!; [done..|]. by intros i c Hc. }
  destruct (serve_one_total sv c st) as [[acts st1] E]. rewrite E. cbn [mbind option_bind].
  pose proof (serve_one_ok _ _ _ _ _ H0 E) as H1.
  destruct (IH st1 H1) as (traces & st2 & -> & Hok & Hall). cbn [mbind option_bind].
  do 2 eexists. split_and!; [done..|]. intros [|i] c' Hc; cbn in Hc.
  - simplify_eq. by exists acts, st, st1.
  - destruct (Hall i c' Hc) as (acts' & st3 & st4 & Ht & Hs & Hok' & Hone).
    exists acts', st3, st4. split_and!; [done| |done|done].
    cbn [take serve]. rewrite E. cbn [mbind option_bind]. by rewrite Hs.
Qed.

(** ** Properties *)

(** C1: end to end, nothing leaves unmediated. Serving any sequence of
    connections from a fresh start never gets stuck and keeps the channel and
    the cache well-formed. The task of each connection runs in the state the
    connections before it left; and when it contacts an upstream, that is its own
    original destination, and the policy the process was started with allows its
    host, or says decide and the question this task asked in that state was
    answered with an allow, by a decision line for its own id that the peer sent
    while the call was under way. *)
Theorem sidecar_complete_mediation (sv : serving client) (cs : list client) :
  ∃ traces st', serve sv cs (start, cache_start) = Some (traces, st') ∧ st_ok sv st' ∧
    ∀ i c, cs !! i = Some c → ∃ acts st1 st2,
      traces !! i = Some acts ∧
      serve sv (take i cs) (start, cache_start) = Some (take i traces, st1) ∧
      serve_one sv c st1 = Some (acts, st2) ∧ st_ok sv st1 ∧ mediated sv st1 c acts.
Proof.
  destruct (serve_total sv cs (start, cache_start)) as (traces & st' & Hs & Hok & Hall);
    [split; constructor|].
  exists traces, st'. split_and!; [done..|]. intros i c Hc.
  destruct (Hall i c Hc) as (acts & st1 & st2 & Ht & Hp & Hok1 & Hone).
  exists acts, st1, st2. split_and!; [done..|]. exact (serve_one_mediated _ _ _ _ _ Hok1 Hone).
Qed.

(** C32: the proxy serves only when everything it depends on is in place: the
    policy was read and parsed, the CA loaded, the control port and then the
    proxy port bound, in this order; otherwise it ends with the error of the
    first step that failed, before a connection is accepted. Once it serves,
    failed accepts are skipped and every accepted connection is handled, in
    order, under the parsed policy. *)
Theorem proxy_starts {C} (args : ProxyArgs) (env : proxy_env C) :
  let policy := and_then (pe_read env (policy_file args)) (λ json,
                  map_err (λ e, s!"parsing policy " ++ policy_file args ++ s!": " ++ e)
                    (parse_policy alt json)) in
  let ca := load lib (pe_read env) (ca_cert_path args) (ca_key_path args) in
  match proxy_run args env with
  | Ok sv =>
      pe_runtime env = Ok tt ∧ policy = Ok (sv_policy sv) ∧ ca = Ok (sv_ca sv) ∧
      pe_bind_control env (control_listen args) = Ok tt ∧
      pe_bind env (listen args) = Ok tt ∧
      sv_session_id sv = pa_session_id args ∧ sv_clients sv = omap ok (pe_accepts env)
  | Err e =>
      pe_runtime env = Err e ∨
      pe_runtime env = Ok tt ∧
      ((∃ e', pe_read env (policy_file args) = Err e' ∧
          e = s!"reading policy " ++ policy_file args ++ s!": " ++ e') ∨
       (∃ json, pe_read env (policy_file args) = Ok json ∧ policy = Err e) ∨
       is_Some (ok policy) ∧
       ((∃ te, ca = Err te ∧ e = TlsError_to_string te) ∨
        is_Some (ok ca) ∧
        (pe_bind_control env (control_listen args) = Err e ∨
         pe_bind_control env (control_listen args) = Ok tt ∧
         pe_bind env (listen args) = Err e)))
  end.
Proof.
  cbv zeta. unfold proxy_run, run_async.
  destruct (pe_runtime env) as [[]|e]; cbn; [|by left].
  destruct (pe_read env (policy_file args)) as [json|e]; cbn; [|right; eauto].
  destruct (parse_policy alt json) as [policy|e]; cbn; [|right; eauto 10].
  destruct (load lib _ _ _) as [ca|te]; cbn; [|right; split; eauto 10].
  destruct (pe_bind_control env _) as [[]|e]; cbn; [|right; split; eauto 10].
  destruct (pe_bind env _) as [[]|e]; cbn; [|right; split; eauto 10].
  split_and!; try done. induction (pe_accepts env) as [|[c|e] l IH]; cbn; by rewrite ?IH.
Qed.

(** The exit status is the health check of the init container: the process
    exits with 0 exactly when every [iptables] invocation succeeded; the proxy
    never exits with 0; and a failure prints one line and exits with 1. *)
Theorem exit_status {C K} `{!Iptables K} (env : proxy_env C) (mode : Mode) (k : K) :
  match (main env mode k).1 with
  | Exit code err =>
      (code = 0 ↔ ∃ args, mode = NetfilterSetup args ∧ (Netfilter.run args k).1 = Ok tt) ∧
      (code = 0 ∧ err = [] ∨ code = 1 ∧ length err = 1%nat)
  | Serve sv => ∃ args, mode = Proxy args ∧ proxy_run args env = Ok sv
  end.
Proof.
  destruct mode as [args|args]; unfold main.
  - destruct (Netfilter.run args k) as [[[]|e] k'] eqn:E; cbn [fst]; (split; [|by auto]).
    + split; [|done]. intros _. exists args. by rewrite E.
    + split; [done|]. intros (args' & [= <-] & H). by rewrite E in H.
  - destruct (proxy_run args env) as [sv|e] eqn:E; cbn [fst]; [by eauto|]. split; [|by auto].
    split; [done|]. by intros (args' & ? & _).
Qed.

End proxy.
