(* ===== verification/Cli.v ===== *)
(** * [main.rs], [netfilter::Args], [proxy::Args]: the command line

    What the [clap] attributes of the sources declare: the two subcommands, the
    long options with their environment variables and defaults, and the types
    of their values. Splitting the words of the command line into options is
    [clap]'s and a parameter; an option's value is the one given on the command
    line, else its variable, else its default. *)

From S2P Require Import Prelude Utf8 Strs Json Policy Event Wire Texts Api Control OrigDst.
From S2P Require Import Sni Http1 Splice Tls Netfilter H2 Conn Proxy.

(** [#[arg(long, env = .., default_value = ..)]]. *)
Record arg := { long : str; env_var : str; default_value : option str }.

(** ** Declarations *)

Definition proxy_port_arg : arg :=
  {| long := s!"proxy-port"; env_var := s!"CONDUKT_EGRESS_PROXY_PORT";
     default_value := Some (dec 15001) |}.
Definition sidecar_uid_arg : arg :=
  {| long := s!"sidecar-uid"; env_var := s!"CONDUKT_EGRESS_UID";
     default_value := Some (dec 1337) |}.
Definition iptables_bin_arg : arg :=
  {| long := s!"iptables-bin"; env_var := s!"CONDUKT_EGRESS_IPTABLES_BIN";
     default_value := Some (s!"iptables") |}.

Definition netfilter_args : list arg := [proxy_port_arg; sidecar_uid_arg; iptables_bin_arg].

Definition listen_arg : arg :=
  {| long := s!"listen"; env_var := s!"CONDUKT_EGRESS_LISTEN";
     default_value := Some (s!"0.0.0.0:15001") |}.
Definition control_listen_arg : arg :=
  {| long := s!"control-listen"; env_var := s!"CONDUKT_EGRESS_CONTROL_LISTEN";
     default_value := Some (s!"0.0.0.0:15002") |}.
Definition policy_file_arg : arg :=
  {| long := s!"policy-file"; env_var := s!"CONDUKT_EGRESS_POLICY_FILE";
     default_value := Some (s!"/etc/condukt/policy.json") |}.
Definition ca_cert_path_arg : arg :=
  {| long := s!"ca-cert-path"; env_var := s!"CONDUKT_EGRESS_CA_CERT"; default_value := None |}.
Definition ca_key_path_arg : arg :=
  {| long := s!"ca-key-path"; env_var := s!"CONDUKT_EGRESS_CA_KEY"; default_value := None |}.
Definition session_id_arg : arg :=
  {| long := s!"session-id"; env_var := s!"CONDUKT_EGRESS_SESSION_ID"; default_value := None |}.

Definition proxy_args : list arg :=
  [listen_arg; control_listen_arg; policy_file_arg; ca_cert_path_arg; ca_key_path_arg;
   session_id_arg].

(** ** Values *)

Inductive cli_error :=
| CUsage (code : Z)                 (** not options, or help or the version asked for *)
| CSubcommand                       (** missing or unknown *)
| CUnknown (name : str)
| CRepeated (name : str)
| CMissing (name : str)
| CInvalid (name value : str).

(** The options of a command line, and the process environment. *)
Abbreviation options := (list (str * str)) (only parsing).
Abbreviation environment := (str → option str) (only parsing).

Definition given (a : arg) (opts : options) : list str :=
  omap (λ '(k, v), if str_eqb k (long a) then Some v else None) opts.

Definition value (a : arg) (opts : options) (env : environment) : option str :=
  match given a opts with
  | v :: _ => Some v
  | [] => match env (env_var a) with Some v => Some v | None => default_value a end
  end.

(** Only declared options, each at most once. *)
Definition check_options (args : list arg) (opts : options) : result unit cli_error :=
  match list_find (λ o : str * str, o.1 ∉ long <$> args) opts with
  | Some (_, (k, _)) => Err (CUnknown k)
  | None =>
      match list_find (λ a, (1 < length (given a opts))%nat) args with
      | Some (_, a) => Err (CRepeated (long a))
      | None => Ok tt
      end
  end.

Definition required (a : arg) (opts : options) (env : environment) : result str cli_error :=
  match value a opts env with Some v => Ok v | None => Err (CMissing (long a)) end.

(** [i64::from_str]: an optional sign and at least one digit. *)
Definition parse_i64 (s : str) : option Z :=
  let '(sign, ds) := match s with
                     | 45 :: r => (-1, r)
                     | 43 :: r => (1, r)
                     | _ => (1, s)
                     end in
  if is_empty ds then None
  else
    n ← digits_value 0 ds;
    let n := sign * n in
    if (- 2 ^ 63 <=? n) && (n <? 2 ^ 63) then Some n else None.

(** A numeric option: parsed as [i64], then checked against its type. *)
Definition ranged (hi : Z) (a : arg) (opts : options) (env : environment)
    : result Z cli_error :=
  v ←? required a opts env;
  match parse_i64 v with
  | Some n => if (0 <=? n) && (n <=? hi) then Ok n else Err (CInvalid (long a) v)
  | None => Err (CInvalid (long a) v)
  end.

Definition Args_from (opts : options) (env : environment) : result Args cli_error :=
  _ ←? check_options netfilter_args opts;
  port ←? ranged u16_max proxy_port_arg opts env;
  uid ←? ranged 4294967295 sidecar_uid_arg opts env;
  bin ←? required iptables_bin_arg opts env;
  Ok {| proxy_port := port; sidecar_uid := uid; iptables_bin := bin |}.

Definition ProxyArgs_from (opts : options) (env : environment) : result ProxyArgs cli_error :=
  _ ←? check_options proxy_args opts;
  l ←? required listen_arg opts env;
  c ←? required control_listen_arg opts env;
  p ←? required policy_file_arg opts env;
  cert ←? required ca_cert_path_arg opts env;
  key ←? required ca_key_path_arg opts env;
  Ok {| listen := l; control_listen := c; policy_file := p; ca_cert_path := cert;
        ca_key_path := key; pa_session_id := value session_id_arg opts env |}.

Section cli.

(** The options among the words after the subcommand, or the status [clap]
    exits with after printing its help or an error. *)
Variable split_options : list str → result options Z.

(** [Cli::try_parse_from]. *)
Definition try_parse_from (argv : list str) (env : environment) : result Mode cli_error :=
  match argv with
  | _ :: mode :: words =>
      if str_eqb mode (s!"netfilter-setup") then
        opts ←? map_err CUsage (split_options words);
        args ←? Args_from opts env;
        Ok (NetfilterSetup args)
      else if str_eqb mode (s!"proxy") then
        opts ←? map_err CUsage (split_options words);
        args ←? ProxyArgs_from opts env;
        Ok (Proxy args)
      else Err CSubcommand
  | _ => Err CSubcommand
  end.

(** ** Properties *)

(** Once its options are accepted, a subcommand is what their values say. *)
Lemma proxy_mode argv0 words opts env :
  split_options words = Ok opts → check_options proxy_args opts = Ok tt →
  try_parse_from (argv0 :: s!"proxy" :: words) env =
  match value ca_cert_path_arg opts env, value ca_key_path_arg opts env with
  | Some cert, Some key =>
      Ok (Proxy {| listen := default (s!"0.0.0.0:15001") (value listen_arg opts env);
                   control_listen :=
                     default (s!"0.0.0.0:15002") (value control_listen_arg opts env);
                   policy_file :=
                     default (s!"/etc/condukt/policy.json") (value policy_file_arg opts env);
                   ca_cert_path := cert; ca_key_path := key;
                   pa_session_id := value session_id_arg opts env |})
  | None, _ => Err (CMissing (s!"ca-cert-path"))
  | Some _, None => Err (CMissing (s!"ca-key-path"))
  end.
Proof.
  intros Hs Hc. unfold try_parse_from.
  replace (str_eqb (s!"proxy") (s!"netfilter-setup")) with false by reflexivity.
  replace (str_eqb (s!"proxy") (s!"proxy")) with true by reflexivity.
  rewrite Hs. cbn [map_err and_then]. unfold ProxyArgs_from, required. rewrite Hc. cbn [and_then].
  assert (∀ a d, default_value a = Some d → ∃ v, value a opts env = Some v) as Hd.
  { intros a d Ha. unfold value. rewrite Ha. destruct (given a opts); [|eauto].
    destruct (env (env_var a)); eauto. }
  destruct (Hd listen_arg _ eq_refl) as [l ->]. destruct (Hd control_listen_arg _ eq_refl) as [c ->].
  destruct (Hd policy_file_arg _ eq_refl) as [p ->]. cbn [and_then default].
  destruct (value ca_cert_path_arg opts env), (value ca_key_path_arg opts env); done.
Qed.

Lemma parse_i64_dec n : 0 <= n < 2 ^ 63 → parse_i64 (dec n) = Some n.
Proof.
  intros Hn. unfold parse_i64. destruct (dec_digits n ltac:(lia)) as [Hd Hne].
  pose proof (digits_value_dec n ltac:(lia)) as Hv.
  destruct (dec n) as [|c r]; [done|]. apply Forall_cons in Hd as [Hc _].
  assert (c ≠ 45 ∧ c ≠ 43) as [H1 H2] by lia.
  assert (match c :: r with 45 :: r0 => (-1, r0) | 43 :: r0 => (1, r0) | _ => (1, c :: r) end
    = (1, c :: r)) as -> by (repeat (case_match; try done; try lia)).
  cbn [is_empty]. rewrite Hv. cbn [mbind option_bind]. rewrite Z.mul_1_l.
  by replace ((- 2 ^ 63 <=? n) && (n <? 2 ^ 63)) with true by lia.
Qed.

Lemma ranged_bounds hi a opts env n : ranged hi a opts env = Ok n → 0 <= n <= hi.
Proof.
  unfold ranged. destruct (required a opts env) as [v|]; cbn [and_then]; [|done].
  destruct (parse_i64 v) as [m|]; [|done].
  destruct ((0 <=? m) && (m <=? hi)) eqn:E; [|done]. intros [= <-]. lia.
Qed.

(** The arguments [netfilter-setup] is run with are in the range of their types. *)
Lemma Args_from_bounds opts env args :
  Args_from opts env = Ok args →
  0 <= proxy_port args <= u16_max ∧ 0 <= sidecar_uid args <= 4294967295 ∧
  ranged u16_max proxy_port_arg opts env = Ok (proxy_port args).
Proof.
  unfold Args_from. destruct (check_options _ _); cbn [and_then]; [|done].
  destruct (ranged u16_max proxy_port_arg opts env) as [port|] eqn:Hp; cbn [and_then]; [|done].
  destruct (ranged 4294967295 sidecar_uid_arg opts env) as [uid|] eqn:Hu; cbn [and_then]; [|done].
  destruct (required iptables_bin_arg opts env); cbn [and_then]; [|done]. intros [= <-].
  pose proof (ranged_bounds _ _ _ _ _ Hp). pose proof (ranged_bounds _ _ _ _ _ Hu). by cbn.
Qed.

(** An option nobody sets has its default. *)
Definition unset (a : arg) (opts : options) (env : environment) : Prop :=
  given a opts = [] ∧ env (env_var a) = None.

Lemma value_unset a opts env : unset a opts env → value a opts env = default_value a.
Proof. unfold value. by intros [-> ->]. Qed.

Lemma try_parse_netfilter argv0 words env args :
  try_parse_from (argv0 :: s!"netfilter-setup" :: words) env = Ok (NetfilterSetup args) →
  ∃ opts, split_options words = Ok opts ∧ Args_from opts env = Ok args.
Proof.
  unfold try_parse_from.
  replace (str_eqb (s!"netfilter-setup") (s!"netfilter-setup")) with true by reflexivity.
  destruct (split_options words) as [opts|]; cbn [map_err and_then]; [|done].
  destruct (Args_from opts env) as [a|] eqn:E; cbn [and_then]; [|done]. intros [= <-]. eauto.
Qed.

Lemma try_parse_proxy argv0 words env args :
  try_parse_from (argv0 :: s!"proxy" :: words) env = Ok (Proxy args) →
  ∃ opts, split_options words = Ok opts ∧
    listen args = default (s!"0.0.0.0:15001") (value listen_arg opts env).
Proof.
  intros H. destruct (split_options words) as [opts|e] eqn:Hs.
  - exists opts. split; [done|]. destruct (check_options proxy_args opts) as [[]|e] eqn:Hc.
    + rewrite (proxy_mode argv0 words opts env Hs Hc) in H. repeat case_match; by simplify_eq.
    + revert H. unfold try_parse_from, ProxyArgs_from. rewrite Hs.
      replace (str_eqb (s!"proxy") (s!"netfilter-setup")) with false by reflexivity.
      replace (str_eqb (s!"proxy") (s!"proxy")) with true by reflexivity.
      cbn [map_err and_then]. by rewrite Hc.
  - revert H. unfold try_parse_from. rewrite Hs.
    replace (str_eqb (s!"proxy") (s!"netfilter-setup")) with false by reflexivity.
    by replace (str_eqb (s!"proxy") (s!"proxy")) with true by reflexivity.
Qed.

(** C12: the two containers of a pod fit together: when the init container's
    command line is accepted, its binary is [iptables] and it exits with 0, every
    IPv4 TCP packet to port 80 or 443 that is neither loopback nor the sidecar's
    own, and that the chain did not already decide, is redirected to the configured
    port; and with neither the port nor the listen address set on either command
    line or environment, that port is the one the sidecar's command line makes it
    listen on. *)
Theorem pod_redirects_to_proxy {C K} `{!Iptables K}
    (alt : serde_alt) {SJ : SerdeJson} (lib : CryptoLib) (penv : proxy_env C)
    (words words' : list str) (env env' : environment)
    (args : Args) (pargs : ProxyArgs) (k k' : K) (err : list str) (p : packet)
    (Hn : try_parse_from (s!"condukt-egress" :: s!"netfilter-setup" :: words) env
          = Ok (NetfilterSetup args))
    (Hp : try_parse_from (s!"condukt-egress" :: s!"proxy" :: words') env' = Ok (Proxy pargs))
    (Hrun : main alt lib penv (NetfilterSetup args) k = (Exit lib C 0 err, k'))
    (Hbin : is_iptables (iptables_bin args)) (Hv4 : pk_ipv4 p = true)
    (Hpk : pk_out_lo p = false) (Huid : pk_uid p ≠ sidecar_uid args)
    (Htcp : pk_tcp p = true) (Hport : pk_dport p = 80 ∨ pk_dport p = 443)
    (Hundecided : verdict k p = None) :
  verdict k' p = Some (TRedirect (proxy_port args)) ∧
  ∀ opts opts', split_options words = Ok opts → split_options words' = Ok opts' →
    unset proxy_port_arg opts env → unset listen_arg opts' env' →
    listen pargs = s!"0.0.0.0:" ++ dec (proxy_port args).
Proof.
  destruct (try_parse_netfilter _ _ _ _ Hn) as (opts & Hs & Ha).
  destruct (try_parse_proxy _ _ _ _ Hp) as (opts' & Hs' & Hl).
  destruct (Args_from_bounds _ _ _ Ha) as (Hb1 & Hb2 & Hr). split.
  - unfold main in Hrun. destruct (Netfilter.run args k) as [[[]|e] k1] eqn:Er; [|congruence].
    injection Hrun as _ ->. rewrite (run_verdict args k k' p Hbin Hb1 Hb2 Er), Hundecided.
    unfold intended. rewrite Hv4, Hpk, Htcp, (proj2 (Z.eqb_neq _ _) Huid).
    by destruct Hport as [-> | ->].
  - intros o o' Ho Ho' Hup Hul. assert (o = opts) as -> by congruence.
    assert (o' = opts') as -> by congruence. rewrite Hl, (value_unset listen_arg) by done.
    unfold ranged, required in Hr. rewrite (value_unset proxy_port_arg) in Hr by done.
    cbn [and_then default_value proxy_port_arg] in Hr. rewrite parse_i64_dec in Hr by lia.
    injection Hr as <-. reflexivity.
Qed.

End cli.

(** ** Concrete command lines *)

Module CliExamples.

(** [--name value] pairs; anything else is a usage error. *)
Fixpoint long_options (words : list str) : result options Z :=
  match words with
  | [] => Ok []
  | name :: v :: words =>
      match strip_prefix (s!"--") name with
      | Some n => opts ←? long_options words; Ok ((n, v) :: opts)
      | None => Err 2
      end
  | [_] => Err 2
  end.

Definition no_env (_ : str) : option str := None.

Definition idle : proxy_env unit :=
  {| pe_runtime := Ok tt; pe_read _ := Err []; pe_bind_control _ := Ok tt; pe_bind _ := Ok tt;
     pe_accepts := [] |}.

Definition ca_words : list str :=
  [s!"--ca-cert-path"; s!"/c"; s!"--ca-key-path"; s!"/k"].

Definition ca_args : ProxyArgs :=
  {| listen := s!"0.0.0.0:15001"; control_listen := s!"0.0.0.0:15002";
     policy_file := s!"/etc/condukt/policy.json"; ca_cert_path := s!"/c"; ca_key_path := s!"/k";
     pa_session_id := None |}.

End CliExamples.
