(* ===== verification/Runs.v ===== *)
(** * Concrete connections

    The connection handler evaluated with the real control channel and
    certificate cache on small inputs: an HTTPS connection that a decide rule
    lets through once the peer allows it, one that it denies, and a plain-text
    exchange. They show that the hypotheses of the connection theorems hold on
    real runs. *)

From S2P Require Import Prelude Utf8 Strs Policy Event Api Control OrigDst Sni Http1 Splice.
From S2P Require Import Tls H2 Conn.

(** The parsers of the external crates, reduced to the inputs used here. *)
Definition plaintext (_ : bytes) : option (list TlsMessage) := Some [ClientHello (Some [])].
Definition extensions (_ : bytes) : option (list TlsExtension) :=
  Some [ExtSNI [(0, s!"evil.com")]].
Definition head_parser (bs : bytes) : result Status unit :=
  if (length bs <? 4)%nat then Ok Partial
  else Ok (Complete {| pr_method := Some (s!"GET"); pr_path := Some (s!"/");
                       pr_headers := [(s!"Host", s!"evil.com")] |}).
(** [HeaderValue::to_str]: visible ASCII and tabs. *)
Definition header_text (bs : bytes) : option str :=
  if forallb (λ b, ((32 <=? b) && (b <? 127)) || (b =? 9)) bs then Some bs else None.

#[local] Instance run_control : ControlApi ctl rd_env := control_api Control.Examples.parse.
#[local] Instance run_certs : CertApi cache_st (tls_env TlsExamples.toy) :=
  cert_api TlsExamples.toy TlsExamples.toy_ca.

Definition quiet : rd_env := {| env_mid := []; env_sched := []; env_late := [] |}.

Definition mint_env : tls_env TlsExamples.toy :=
  {| te_before_lookup := []; te_before_mint := [];
     te_generated := (Ok 5 : result (KeyPair TlsExamples.toy) str);
     te_before_insert := [] |}.

Definition no_h2 : h2_env rd_env :=
  {| he_spawn := Ok tt; he_rt := Ok tt; he_panics := false; he_handshake := Ok tt;
     he_steps := []; he_serve := Ok tt |}.

(** An HTTPS connection to 203.0.113.5; [decide] is what happens while the peer
    is asked. *)
Definition https_env (decide : rd_env) : conn_env rd_env (tls_env TlsExamples.toy) :=
  {| ce_remote := None; ce_little := true;
     ce_getsockopt := Ok {| sin_port := (1, 187); s_addr := (203, 0, 113, 5) |};
     ce_peek := Ok [22; 3; 1]; ce_uuid := s!"d1"; ce_clock n := Z.of_nat n;
     ce_others _ := quiet; ce_decide := decide; ce_config := mint_env;
     ce_accept := Ok None; ce_server_name := Ok tt; ce_connect := Ok tt;
     ce_tls_connect := Ok None; ce_h2 := no_h2;
     ce_client_reads := [Ok (s!"GE"); Ok (s!"T /"); Ok (s!"body")];
     ce_up_writes := []; ce_up_reads := [Ok (s!"200"); Ok (s!"ok")];
     ce_client_writes := [] |}.

Definition ask_policy : Policy :=
  {| rules := [RuleDeny [s!"**.internal"]; RuleDecide]; default_action := ActionAllow;
     redact := []; max_body_capture := 4096; decide_timeout_ms := 5000 |}.

(** The peer is connected. *)
Definition connected : ctl := Control.Examples.run_from_start [LAccept true].

Lemma connected_ok : api_ok connected.
Proof. apply Control.Examples.run_from_start_reachable. Defined.

Abbreviation run_conn env :=
  (handle plaintext extensions head_parser header_text env ask_policy None connected cache_start)
  (only parsing).

Definition allowed_env : conn_env rd_env (tls_env TlsExamples.toy) :=
  https_env Control.Examples.answered_env.

Definition allowed_actions : list action :=
  match run_conn allowed_env with Some (acts, _, _) => acts | None => [] end.

Definition allowed_result : ctl * cache_st :=
  match run_conn allowed_env with Some (_, s, t) => (s, t) | None => (connected, cache_start) end.

Lemma egress_requires_allow_witness :
  existsb is_egress allowed_actions = true ∧
  ∀ x, AConnect x ∈ allowed_actions → x = {| sa_ip := IpV4 203 0 113 5; sa_port := 443 |}.
Proof.
  assert (existsb is_egress allowed_actions = true) as He by (vm_compute; reflexivity).
  split; [exact He|].
  destruct (egress_requires_allow plaintext extensions head_parser header_text allowed_env
    ask_policy None connected allowed_result.1 cache_start allowed_result.2 allowed_actions
    connected_ok) as (dst & peeked & Hd & _ & Hx & _).
  - vm_compute. reflexivity.
  - exact He.
  - vm_compute in Hd. injection Hd as <-. exact Hx.
Defined.

Definition denied_env : conn_env rd_env (tls_env TlsExamples.toy) := https_env quiet.

Definition peer_addr : SocketAddr := {| sa_ip := IpV4 203 0 113 5; sa_port := 443 |}.

Definition denied_reply : option CtlDecision * ctl :=
  api_request_decision (the_args plaintext extensions denied_env None peer_addr [22; 3; 1])
    (decide_timeout_ms ask_policy) (ce_decide denied_env)
    (asked_state plaintext extensions denied_env None connected peer_addr [22; 3; 1]).

Lemma decide_fails_closed_witness :
  denied_reply.1 = None ∧
  ∃ e1 e2 s', run_conn denied_env = Some ([AEmit e1; AEmit e2; AShutdownClient], s', cache_start) ∧
    ev_reason e2 = Some (s!"decider_timeout").
Proof.
  assert (denied_reply.1 = None) as Hn by (vm_compute; reflexivity).
  split; [exact Hn|].
  destruct (decide_fails_closed plaintext extensions head_parser header_text denied_env ask_policy
    None connected denied_reply.2 cache_start peer_addr [22; 3; 1]
    (Some (matched 1 (s!"decide"))) None) as (e1 & e2 & s' & Hh & _ & _ & _ & Hr).
  - vm_compute. reflexivity.
  - reflexivity.
  - vm_compute. reflexivity.
  - rewrite <-Hn. apply surjective_pairing.
  - discriminate.
  - exists e1, e2, s'. split; [exact Hh|exact Hr].
Defined.

Definition some_request : Request := Request_new (s!"d1") 0 (s!"evil.com") 443 None None.

Lemma forward_transparent_witness :
  upstream_bytes (forward_h1 head_parser allowed_env some_request).2 = s!"GET /body" ∧
  client_bytes (forward_h1 head_parser allowed_env some_request).2 = s!"200ok".
Proof.
  apply (forward_transparent head_parser allowed_env some_request).
  - apply Forall_nil_2.
  - apply Forall_nil_2.
  - vm_compute. reflexivity.
  - vm_compute. reflexivity.
Defined.

Lemma byte_counters_witness :
  ∃ head head_buf rest,
    read_head head_parser (ce_client_reads allowed_env) [] = Ok (head, head_buf, rest) ∧
    head_buf = s!"GET /" ∧
    rq_bytes_in (forward_h1 head_parser allowed_env some_request).1.2 = 4 ∧
    rq_bytes_out (forward_h1 head_parser allowed_env some_request).1.2 = 10.
Proof.
  destruct (byte_counters head_parser allowed_env some_request)
    as (head & head_buf & rest & Hr & Hin & Hout).
  - apply Forall_nil_2.
  - apply Forall_nil_2.
  - vm_compute. reflexivity.
  - exists head, head_buf, rest. split; [exact Hr|]. rewrite Hin, Hout.
    vm_compute in Hr. injection Hr as <- <- <-. vm_compute. split_and!; reflexivity.
Defined.

Definition plain_text (name : str) : str :=
  s!"GET / HTTP/1.1" ++ crlf ++ name ++ s!" a.com " ++ crlf ++ crlf.

Lemma plain_host_witness :
  (∀ name, name ∈ host_names →
     identify_host plaintext extensions (as_bytes (plain_text name)) 80 (s!"1.2.3.4") = s!"a.com") ∧
  identify_host plaintext extensions (as_bytes (plain_text (s!"Hosts:"))) 80 (s!"1.2.3.4") =
    s!"1.2.3.4".
Proof.
  assert (no_host_line (s!"GET / HTTP/1.1")) as Hget.
  { intros name value Hn. repeat (apply elem_of_cons in Hn as [->|Hn]; [discriminate|]).
    by apply elem_of_nil in Hn. }
  split.
  - intros name Hn.
    destruct (plain_host plaintext extensions (plain_text name) 80 (s!"1.2.3.4")) as [H _];
      [discriminate|..].
    + repeat (apply elem_of_cons in Hn as [->|Hn]; [apply (bool_decide_unpack _); vm_compute; exact I|]).
      by apply elem_of_nil in Hn.
    + repeat (apply elem_of_cons in Hn as [->|Hn]; [reflexivity|]). by apply elem_of_nil in Hn.
    + apply (H [s!"GET / HTTP/1.1"] name (s!" a.com ") [[]]); [|done|by apply Forall_singleton].
      repeat (apply elem_of_cons in Hn as [->|Hn]; [reflexivity|]). by apply elem_of_nil in Hn.
  - destruct (plain_host plaintext extensions (plain_text (s!"Hosts:")) 80 (s!"1.2.3.4"))
      as (_ & H & _);
      [discriminate|apply (bool_decide_unpack _); vm_compute; exact I|reflexivity|].
    apply H. repeat (apply Forall_cons_2; [first [exact Hget|intros name value Hn;
      repeat (apply elem_of_cons in Hn as [->|Hn]; [discriminate|]);
      by apply elem_of_nil in Hn]|]). apply Forall_nil_2.
Defined.
