(* ===== verification/WireRuns.v ===== *)
(** * Concrete texts and frames

    The wire formats evaluated with the JSON reader and printer of [JsonText]
    and with times printed in decimal: a policy file, a stream of frames, a
    decision line, a fair run of the writer, the events of a connection, and the
    whole sidecar serving a connection that the peer allows. *)

From S2P Require Import Prelude Utf8 Strs Json JsonText Policy Event Wire Texts Api Control.
From S2P Require Import Channel OrigDst Sni Http1 Splice Tls Netfilter H2 Conn Typed Trail Proxy Cli.
From S2P Require Import Runs.

(** Times as a decimal number of seconds. *)
#[export, refine] Instance decimal : Chrono := {|
  time_ok t := 0 <= t;
  fmt_time := dec;
  parse_time := digits_value 0;
|}.
Proof.
  - intros t Ht. by apply dec_wf.
  - intros t Ht. by apply digits_value_dec.
Defined.

(** A decoder without alternative forms. *)
Definition strict : serde_alt := {|
  alt_enum _ := None; alt_matched _ := None; alt_rule _ := None; alt_policy _ := None;
  alt_request _ := None; alt_event _ := None; alt_inbound _ := None;
  de_error _ := s!"invalid";
|}.

(** ** A policy file without its timeout, and with a comment *)

Definition no_timeout (k : str) : bool := negb (str_eqb k (s!"decide_timeout_ms")).

Definition file_members : list (str * json) :=
  (s!"comment", JStr (s!"ask")) ::
  filter (λ kv, no_timeout kv.1) (policy_members strict ask_policy).

Lemma policy_text_witness :
  parse_policy strict (print (JObj file_members)) =
  Ok {| rules := [RuleDeny [s!"**.internal"]; RuleDecide]; default_action := ActionAllow;
        redact := []; max_body_capture := 4096; decide_timeout_ms := 5000 |}.
Proof.
  refine (proj1 (proj2 (policy_text strict ask_policy no_timeout
    [(s!"comment", JStr (s!"ask"))] file_members (print (JObj file_members)) _ _ _ _))).
  - split; [|split; [|split]]; cbn; repeat constructor; done.
  - intros k Hk Hc. cbn in Hc. apply list_elem_of_singleton in Hc as ->.
    by apply (bool_decide_eq_false_1 (s!"comment" ∈ policy_fields)) in Hk; [|vm_compute].
  - apply (Permutation_app_comm [(s!"comment", JStr (s!"ask"))]).
  - vm_compute. reflexivity.
Defined.

(** ** Two frames and a broken third *)

Definition event : Event := Event_new 7 RequestOpened
  (Request_new (s!"e1") 5 (s!"a.com") 443 None (Some (s!"s"))).

Definition frames : list Outbound :=
  [OutDecisionRequest (s!"d1") None [34; 10; 92] 443 (s!"https"); OutEvent event].

Lemma frames_valid : Forall frame_valid frames.
Proof.
  repeat constructor; cbn; try done; try (apply ascii_wf; reflexivity); unfold u16_max, u64_max; lia.
Defined.

Lemma frames_round_trip_witness :
  peer_frames strict (concat (map (write_line strict) frames)) = Some frames.
Proof.
  refine (proj1 (frames_round_trip strict frames [123; 34] frames_valid _)).
  apply (bool_decide_eq_false_1 (10 ∈ [123; 34])). vm_compute. reflexivity.
Defined.

(** ** An allow for a waiting call *)

Definition allow_members : list (str * json) :=
  (s!"x", JNull) :: decision_members (s!"d1") DAllow (Some (s!"ok")).

(** A decision without an action. *)
Definition no_action : list (str * json) :=
  [(s!"type", JStr (s!"decision")); (s!"id", JStr (s!"d1"))].

Lemma decision_line_witness :
  let s' := read_line (parse_inbound strict) (print (JObj allow_members)) Control.Examples.waiting in
  pending s' = delete (s!"d1") (pending Control.Examples.waiting) ∧
  oneshots s' !! 0%nat = Some (OsSent {| d_action := DAllow; d_reason := Some (s!"ok") |}) ∧
  read_line (parse_inbound strict) (print (JObj no_action)) Control.Examples.waiting =
  Control.Examples.waiting.
Proof.
  destruct (decision_line strict (print (JObj allow_members)) Control.Examples.waiting)
    as (Hd & _ & Hm).
  destruct (Hd (JObj allow_members) (s!"d1") DAllow (Some (s!"ok"))) as (Hp & _ & _ & Ho & _).
  - vm_compute. reflexivity.
  - apply (Hm allow_members [(s!"x", JNull)]).
    + intros k Hk Hc. cbn in Hc. apply list_elem_of_singleton in Hc as ->.
      by apply (bool_decide_eq_false_1 (s!"x" ∈ decision_fields)) in Hk; [|vm_compute].
    + apply (Permutation_app_comm [(s!"x", JNull)]).
  - split_and!; [exact Hp| |].
    + rewrite (Ho 0%nat). by rewrite decide_True by (vm_compute; reflexivity).
    + apply (decision_line strict (print (JObj no_action)) Control.Examples.waiting).
      intros v i action reason Hf Hv.
      assert (v = JObj no_action) as -> by (vm_compute in Hf; vm_compute; congruence).
      inversion Hv as [? ? ? ? ? _ _ Ha|]; subst. vm_compute in Ha. done.
Defined.

(** ** A run of the writer: it writes the one frame that waits *)

Definition written_state : ctl := run1 Control.Examples.parse (LWrite Written) Control.Examples.waiting.

Definition write_run (i : nat) : ctl :=
  match i with O => Control.Examples.waiting | S _ => written_state end.

Definition write_labels (i : nat) : option label :=
  match i with O => Some (LWrite Written) | S _ => None end.

Lemma writer_progress_witness :
  ∃ j f, (0 < j)%nat ∧ f ≠ WriteFailed ∧
    taken (write_run j) !! 0%nat = Some (decision_frame Control.Examples.args, f).
Proof.
  destruct (writer_progress Control.Examples.parse write_run write_labels) with (i := 0%nat) (n := 0%nat)
    (fr := decision_frame Control.Examples.args) as (j & f & Hj & Hf & Hl & _).
  - intros [|i]; vm_compute; reflexivity.
  - intros [|i]; [exists 0%nat|exists (S i)]; (split; [lia|]); [left; by eexists|right].
    intros [_ Hq]. apply Hq. vm_compute. reflexivity.
  - by intros [|k].
  - exists true. vm_compute. reflexivity.
  - vm_compute. reflexivity.
  - exists j, f. split; [exact Hj|]. split; [exact Hf|exact Hl].
Defined.

(** ** The events of an allowed connection *)

Lemma allowed_env_typed : env_typed allowed_env.
Proof.
  split; cbn; try done.
  - intros a [= <-]. by split.
  - intros bs [= <-]. by repeat constructor.
  - by apply ascii_wf.
  - intros n. lia.
  - by repeat constructor.
Defined.

Lemma parse_reason line i action reason :
  Control.Examples.parse line = Some (InDecision i action reason) → valid_opt wf_str reason.
Proof. unfold Control.Examples.parse. case_match; [|done]. by intros [= _ _ <-]. Defined.

Lemma allowed_extensions b exts : extensions b = Some exts → Forall ext_typed exts.
Proof. intros [= <-]. by repeat constructor. Defined.

Lemma allowed_heads b req : head_parser b = Ok (Complete req) → head_typed req.
Proof.
  unfold head_parser. destruct (_ <? _)%nat; [done|]. intros [= <-].
  split; [by apply ascii_wf|]. split; [by apply ascii_wf|]. apply Forall_singleton.
  split; [by apply ascii_wf|by repeat constructor].
Defined.

Lemma header_text_wf v s : header_text v = Some s → wf_str s.
Proof.
  unfold header_text. destruct (forallb _ v) eqn:E; [|done]. intros [= <-].
  rewrite List.forallb_forall in E. apply Forall_forall. intros c Hc%list_elem_of_In.
  specialize (E c Hc). unfold scalar. lia.
Defined.

#[local] Existing Instance run_control.
#[local] Existing Instance run_certs.

Lemma mint_typed : cert_typed (T := cache_st) allowed_env cache_start.
Proof.
  intros host err t'. cbn [cert_server_config_for run_certs cert_api].
  unfold server_config_for. cbv zeta. destruct (leaf_cache _ !! host); [done|].
  destruct (mint _ _ _ host) as [cfg|e] eqn:E; [done|]. intros [= <- _].
  unfold mint, build_leaf, leaf_params in E. cbn in E.
  destruct (forallb _ host); [done|]. injection E as <-. by apply ascii_wf.
Defined.

Lemma allowed_env_quiet : quiet_conn allowed_env.
Proof. split; [intros n|..]; repeat constructor. Defined.

(** An opening event, the question, and two more events. *)
Definition allowed_frames : list Outbound :=
  conn_frames plaintext extensions allowed_env ask_policy None allowed_actions.


(** ** The sidecar end to end *)

(** The peer connects before the connection reports itself, and allows it by a
    line 20 milliseconds after it is asked. *)
Definition peer_arrives : rd_env :=
  {| env_mid := [LAccept true]; env_sched := []; env_late := [] |}.

Definition peer_allows : rd_env :=
  {| env_mid := [];
     env_sched := [(20, LLine (print (JObj (decision_members (s!"d1") DAllow None))))];
     env_late := [] |}.

Definition asked_client : client TlsExamples.toy :=
  {| ce_remote := None; ce_little := true;
     ce_getsockopt := Ok {| sin_port := (1, 187); s_addr := (203, 0, 113, 5) |};
     ce_peek := Ok [22; 3; 1]; ce_uuid := s!"d1"; ce_clock n := Z.of_nat n;
     ce_others n := if (n =? 0)%nat then peer_arrives else quiet; ce_decide := peer_allows;
     ce_config := mint_env; ce_accept := Ok None; ce_server_name := Ok tt; ce_connect := Ok tt;
     ce_tls_connect := Ok None; ce_h2 := no_h2;
     ce_client_reads := [Ok (s!"GET /")]; ce_up_writes := []; ce_up_reads := [Ok (s!"200")];
     ce_client_writes := [] |}.

Definition asking : serving TlsExamples.toy (client TlsExamples.toy) :=
  {| sv_policy := ask_policy; sv_ca := TlsExamples.toy_ca; sv_session_id := None;
     sv_clients := [asked_client] |}.

Abbreviation serve_asking :=
  (serve strict TlsExamples.toy plaintext extensions head_parser header_text asking
     (sv_clients _ _ asking) (start, cache_start)) (only parsing).

Lemma sidecar_complete_mediation_witness :
  match serve_asking with
  | Some ([acts], _) => existsb is_egress acts = true ∧
      mediated strict TlsExamples.toy plaintext extensions asking (start, cache_start)
        asked_client acts
  | _ => False
  end.
Proof.
  destruct (sidecar_complete_mediation strict TlsExamples.toy plaintext extensions head_parser
    header_text asking (sv_clients _ _ asking)) as (traces & st' & Hs & _ & Hm).
  destruct (Hm 0%nat asked_client eq_refl) as (acts & st1 & st2 & Ht & Hp & _ & _ & Ha).
  cbn in Hp. injection Hp as <-.
  assert (match serve_asking with
    Some ([a], _) => existsb is_egress a | _ => false end = true) as E
    by (vm_compute; reflexivity).
  rewrite Hs in *. destruct traces as [|a [|]]; try done. cbn in Ht. injection Ht as ->.
  by split.
Defined.

(** ** A pod with default options *)

#[local] Existing Instance NetfilterExamples.ex_iptables.

Definition installed (k : list (list str)) : list (list str) :=
  (Netfilter.run NetfilterExamples.ex_args k).2.

Lemma pod_redirects_to_proxy_witness :
  verdict (installed []) NetfilterExamples.workspace_https = Some (TRedirect 15001) ∧
  listen CliExamples.ca_args = s!"0.0.0.0:" ++ dec 15001.
Proof.
  destruct (pod_redirects_to_proxy CliExamples.long_options strict TlsExamples.toy CliExamples.idle
    [] CliExamples.ca_words CliExamples.no_env CliExamples.no_env NetfilterExamples.ex_args
    CliExamples.ca_args [] (installed []) []
    NetfilterExamples.workspace_https) as [Hv Hl].
  - vm_compute. reflexivity.
  - vm_compute. reflexivity.
  - vm_compute. reflexivity.
  - reflexivity.
  - reflexivity.
  - reflexivity.
  - discriminate.
  - reflexivity.
  - right. reflexivity.
  - reflexivity.
  - split; [exact Hv|].
    refine (Hl [] [(s!"ca-cert-path", s!"/c"); (s!"ca-key-path", s!"/k")] eq_refl _ _ _).
    + vm_compute. reflexivity.
    + split; reflexivity.
    + split; vm_compute; reflexivity.
Defined.
