(* ===== verification/Tests.v ===== *)
(** * The unit tests of the sidecar, run on the model

    Each test function of the [#[cfg(test)]] modules that does not exercise a
    parser of another crate, as a boolean over the model's definitions, and the
    fact that it passes. They check the model against the expectations its
    authors wrote down: the JSON texts through the reader of [JsonText], the
    certificates with the library of [TlsExamples]. *)

From S2P Require Import Prelude Utf8 Strs Json JsonText Policy Event Wire Texts Api Control.
From S2P Require Import OrigDst Sni Http1 Splice Tls Netfilter H2 Conn Proxy Cli Runs WireRuns.

(** [assert_eq!]. *)
Definition assert_eq {A} `{!EqDecision A} (a b : A) : bool := bool_decide (a = b).

(** The conjunction of the assertions of a test. *)
Definition asserts (bs : list bool) : bool := forallb id bs.

(** A text with its double quotes written as apostrophes. *)
Definition dq (s : str) : str := map (λ c, if c =? 39 then 34 else c) s.

Definition crlf : str := [13; 10].

(** ** [policy.rs] *)

Module PolicyTests.

Definition p (rs : list Rule) (dflt : Action) : Policy :=
  {| rules := rs; default_action := dflt; redact := []; max_body_capture := 4096;
     decide_timeout_ms := 5000 |}.

Definition allow_hosts_short_circuits : bool :=
  let policy := p [RuleAllow [s!"api.github.com"]] ActionDeny in
  assert_eq (evaluate policy (s!"api.github.com"))
    (Some (DecisionAllow, Some {| mr_index := 0; mr_kind := s!"allow" |})).

Definition deny_hosts_short_circuits : bool :=
  let policy := p [RuleDeny [s!"secret.example.com"]] ActionDeny in
  match evaluate policy (s!"secret.example.com") with
  | Some (decision, Some m) =>
      asserts [assert_eq decision (DecisionDeny MatchedDenyList);
               assert_eq (mr_kind m) (s!"deny")]
  | _ => false
  end.

Definition order_matters : bool :=
  let deny_first := p [RuleDeny [s!"evil.com"]; RuleAllow [s!"evil.com"]] ActionAllow in
  let allow_first := p [RuleAllow [s!"evil.com"]; RuleDeny [s!"evil.com"]] ActionDeny in
  match evaluate deny_first (s!"evil.com") with
  | Some (decision, Some m) =>
      asserts [assert_eq decision (DecisionDeny MatchedDenyList);
               assert_eq (mr_index m) 0%nat;
               assert_eq (fst <$> evaluate allow_first (s!"evil.com")) (Some DecisionAllow)]
  | _ => false
  end.

Definition decide_rule_returns_decide_variant : bool :=
  match evaluate (p [RuleDecide] ActionDeny) (s!"anything.com") with
  | Some (decision, Some m) =>
      asserts [assert_eq decision DecisionDecide; assert_eq (mr_kind m) (s!"decide")]
  | _ => false
  end.

Definition allow_hosts_before_decide_short_circuits_the_round_trip : bool :=
  let policy := p [RuleAllow [s!"api.github.com"]; RuleDecide] ActionDeny in
  match evaluate policy (s!"evil.com") with
  | Some (decision, Some m) =>
      asserts [assert_eq (fst <$> evaluate policy (s!"api.github.com")) (Some DecisionAllow);
               assert_eq decision DecisionDecide; assert_eq (mr_index m) 1%nat]
  | _ => false
  end.

Definition default_fires_with_no_matched_rule : bool :=
  asserts
    [assert_eq (evaluate (p [] ActionDeny) (s!"anything.com"))
       (Some (DecisionDeny DefaultDeny, None));
     assert_eq (fst <$> evaluate (p [] ActionAllow) (s!"anything.com")) (Some DecisionAllow)].

Definition parses_wire_format : bool :=
  let json := dq (s!"{
          'rules': [
            {'type': 'deny', 'hosts': ['evil.com']},
            {'type': 'allow', 'hosts': ['api.github.com']},
            {'type': 'decide'}
          ],
          'default': 'deny',
          'decide_timeout_ms': 5000
        }") in
  match parse_policy strict json with
  | Ok policy =>
      asserts [assert_eq (length (rules policy)) 3%nat;
               assert_eq (default_action policy) ActionDeny;
               assert_eq (decide_timeout_ms policy) 5000]
  | Err _ => false
  end.

Example policy_tests_pass :
  asserts [allow_hosts_short_circuits; deny_hosts_short_circuits; order_matters;
           decide_rule_returns_decide_variant;
           allow_hosts_before_decide_short_circuits_the_round_trip;
           default_fires_with_no_matched_rule; parses_wire_format] = true.
Proof. vm_compute. reflexivity. Qed.

End PolicyTests.

(** ** [event.rs] *)

Module EventTests.

(** [v[k]] and [v.get(k)]. *)
Definition at_key (k : str) (v : json) : option json :=
  match v with JObj kvs => head (lookups k kvs) | _ => None end.

Definition is_str (o : option json) (s : str) : bool :=
  match o with Some (JStr s') => str_eqb s' s | _ => false end.

Definition is_int (o : option json) (n : Z) : bool :=
  match o with Some (JInt n') => n' =? n | _ => false end.

Definition is_none {A} (o : option A) : bool := match o with None => true | Some _ => false end.

(** The id and the clock are arbitrary. *)
Definition request : Request := Request_new (s!"id") 0 (s!"api.github.com") 443 None (Some (s!"s1")).

Definition request_new_infers_scheme_from_port : bool :=
  let http := Request_new (s!"id") 0 (s!"h") 80 None None in
  asserts [assert_eq (rq_scheme request) (s!"https"); assert_eq (rq_scheme http) (s!"http");
           is_none (rq_session_id http)].

Definition outbound_event_is_tagged_and_snake_cased : bool :=
  let ev := with_matched_rule
    (with_reason (Event_new 0 RequestDenied request) (s!"matched_deny_list"))
    {| mr_index := 1; mr_kind := s!"deny" |} in
  let v := Outbound_value strict (OutEvent ev) in
  asserts [is_str (at_key (s!"type") v) (s!"event");
           is_str (at_key (s!"kind") v) (s!"request_denied");
           is_str (at_key (s!"reason") v) (s!"matched_deny_list");
           is_int (at_key (s!"matched_rule") v ≫= at_key (s!"index")) 1;
           is_str (at_key (s!"matched_rule") v ≫= at_key (s!"kind")) (s!"deny");
           is_str (at_key (s!"request") v ≫= at_key (s!"host")) (s!"api.github.com")].

Definition optional_fields_are_omitted_when_absent : bool :=
  let v := Outbound_value strict (OutEvent (Event_new 0 RequestOpened request)) in
  asserts [is_none (at_key (s!"reason") v); is_none (at_key (s!"matched_rule") v);
           is_none (at_key (s!"request") v ≫= at_key (s!"method"))].

Definition decision_request_is_tagged : bool :=
  let v := Outbound_value strict
    (OutDecisionRequest (s!"d1") (Some (s!"s1")) (s!"evil.com") 443 (s!"https")) in
  asserts [is_str (at_key (s!"type") v) (s!"decision_request");
           is_str (at_key (s!"id") v) (s!"d1"); is_str (at_key (s!"host") v) (s!"evil.com")].

Definition inbound_decision_parses_action_and_optional_reason : bool :=
  assert_eq
    (Inbound_from strict (JObj [(s!"type", JStr (s!"decision")); (s!"id", JStr (s!"d1"));
                                (s!"action", JStr (s!"deny"))]))
    (Some (InDecision (s!"d1") DDeny None)).

Definition unknown_inbound_type_falls_through_instead_of_erroring : bool :=
  assert_eq
    (Inbound_from strict (JObj [(s!"type", JStr (s!"from_the_future")); (s!"x", JInt 1)]))
    (Some InUnknown).

Example event_tests_pass :
  asserts [request_new_infers_scheme_from_port; outbound_event_is_tagged_and_snake_cased;
           optional_fields_are_omitted_when_absent; decision_request_is_tagged;
           inbound_decision_parses_action_and_optional_reason;
           unknown_inbound_type_falls_through_instead_of_erroring] = true.
Proof. vm_compute. reflexivity. Qed.

End EventTests.

(** ** [control.rs] *)

Module ControlTests.

(** A channel whose map holds the sender of task 0 under [d1]. *)
Definition registered : ctl := set_pending {[ s!"d1" := 0%nat ]} {[ 0%nat := OsEmpty ]} start.

Definition handle (line : str) (s : ctl) : ctl := handle_line (parse_inbound strict) line s.

Definition handle_line_resolves_the_matching_pending_decision : bool :=
  let s := handle (dq (s!"{'type':'decision','id':'d1','action':'deny','reason':'nope'}"))
             registered in
  match oneshots s !! 0%nat with
  | Some (OsSent decision) =>
      asserts [assert_eq (d_action decision) DDeny;
               assert_eq (d_reason decision) (Some (s!"nope"));
               assert_eq (pending s) ∅]
  | _ => false
  end.

Definition handle_line_tolerates_unknown_id_bad_json_and_unknown_type : bool :=
  let s := handle (dq (s!"{'type':'decision','id':'ghost','action':'allow'}")) start in
  let s := handle (s!"definitely not json") s in
  let s := handle (dq (s!"{'type':'from_the_future'}")) s in
  assert_eq (pending s) ∅.

Definition request_decision_returns_none_when_no_peer_answers : bool :=
  let a := {| ra_id := s!"d9"; ra_session_id := Some (s!"s1"); ra_host := s!"evil.com";
              ra_port := 443; ra_scheme := s!"https" |} in
  let '(result, channel) :=
    request_decision (parse_inbound strict) 0 a 50
      {| env_mid := []; env_sched := []; env_late := [] |} start in
  asserts [assert_eq result None; assert_eq (pending channel) ∅].

Example control_tests_pass :
  asserts [handle_line_resolves_the_matching_pending_decision;
           handle_line_tolerates_unknown_id_bad_json_and_unknown_type;
           request_decision_returns_none_when_no_peer_answers] = true.
Proof. vm_compute. reflexivity. Qed.

End ControlTests.

(** ** [sni.rs] and [conn.rs] *)

Module HostTests.

Definition looks_like_tls_recognises_handshake : bool :=
  asserts [looks_like_tls [0x16; 0x03; 0x01]; looks_like_tls [0x16; 0x03; 0x03];
           negb (looks_like_tls (s!"GET / HTTP/1.1" ++ crlf)); negb (looks_like_tls [])].

Definition parse_http_host_reads_the_host_header_case_insensitively : bool :=
  let req := s!"GET / HTTP/1.1" ++ crlf ++ s!"Host: api.github.com" ++ crlf
               ++ s!"Accept: */*" ++ crlf ++ crlf in
  let lower := s!"GET / HTTP/1.1" ++ crlf ++ s!"host:  lower.example.com " ++ crlf ++ crlf in
  asserts [assert_eq (parse_http_host req) (Some (s!"api.github.com"));
           assert_eq (parse_http_host lower) (Some (s!"lower.example.com"))].

Definition parse_http_host_is_none_without_a_host_header : bool :=
  asserts [assert_eq (parse_http_host (s!"GET / HTTP/1.1" ++ crlf ++ crlf)) None;
           assert_eq (parse_http_host [0xff; 0xfe; 0x00]) None].

(** No record parses. *)
Definition identify (bs : bytes) (port : Z) (ip : str) : str :=
  identify_host (λ _, None) (λ _, None) bs port ip.

Definition identify_host_uses_the_http_host_on_plain_ports : bool :=
  let req := s!"GET / HTTP/1.1" ++ crlf ++ s!"Host: plain.example.com" ++ crlf ++ crlf in
  assert_eq (identify req 80 (s!"10.0.0.1")) (s!"plain.example.com").

Definition identify_host_falls_back_to_the_destination_ip : bool :=
  asserts [assert_eq (identify (s!"not tls at all") 443 (s!"203.0.113.5")) (s!"203.0.113.5");
           assert_eq (identify [0x00; 0x01; 0x02] 80 (s!"203.0.113.9")) (s!"203.0.113.9")].

Example host_tests_pass :
  asserts [looks_like_tls_recognises_handshake;
           parse_http_host_reads_the_host_header_case_insensitively;
           parse_http_host_is_none_without_a_host_header;
           identify_host_uses_the_http_host_on_plain_ports;
           identify_host_falls_back_to_the_destination_ip] = true.
Proof. vm_compute. reflexivity. Qed.

End HostTests.

(** ** [netfilter.rs] *)

Module NetfilterTests.

Definition rule_prefixes_the_nat_table : bool :=
  assert_eq (rule [s!"-A"; s!"OUTPUT"; s!"-o"; s!"lo"; s!"-j"; s!"RETURN"])
    [s!"-t"; s!"nat"; s!"-A"; s!"OUTPUT"; s!"-o"; s!"lo"; s!"-j"; s!"RETURN"].

(** [rules[i]]; out of range is an empty rule. *)
Definition nth_rule (i : nat) (rs : list (list str)) : list str := default [] (rs !! i).

Definition contains_word (w : str) (r : list str) : bool := bool_decide (w ∈ r).

Definition build_rules_installs_bypasses_before_redirects : bool :=
  let rs := build_rules 15001 1337 in
  asserts
    [assert_eq (length rs) 4%nat;
     forallb (λ r, assert_eq (take 2 r) [s!"-t"; s!"nat"]) rs;
     contains_word (s!"RETURN") (nth_rule 0 rs);
     contains_word (s!"lo") (nth_rule 0 rs);
     assert_eq (nth_rule 1 rs)
       [s!"-t"; s!"nat"; s!"-A"; s!"OUTPUT"; s!"-m"; s!"owner"; s!"--uid-owner"; s!"1337";
        s!"-j"; s!"RETURN"];
     assert_eq (nth_rule 2 rs)
       [s!"-t"; s!"nat"; s!"-A"; s!"OUTPUT"; s!"-p"; s!"tcp"; s!"--dport"; s!"80"; s!"-j";
        s!"REDIRECT"; s!"--to-port"; s!"15001"];
     assert_eq (nth_rule 3 rs)
       [s!"-t"; s!"nat"; s!"-A"; s!"OUTPUT"; s!"-p"; s!"tcp"; s!"--dport"; s!"443"; s!"-j";
        s!"REDIRECT"; s!"--to-port"; s!"15001"]].

Definition build_rules_threads_the_configured_port_and_uid : bool :=
  let rs := build_rules 9999 4242 in
  asserts [contains_word (s!"4242") (nth_rule 1 rs); contains_word (s!"9999") (nth_rule 2 rs);
           contains_word (s!"9999") (nth_rule 3 rs)].

Example netfilter_tests_pass :
  asserts [rule_prefixes_the_nat_table; build_rules_installs_bypasses_before_redirects;
           build_rules_threads_the_configured_port_and_uid] = true.
Proof. vm_compute. reflexivity. Qed.

End NetfilterTests.

(** ** [main.rs] *)

Module MainTests.

Definition try_parse (argv : list str) : result Mode cli_error :=
  try_parse_from CliExamples.long_options argv CliExamples.no_env.

Definition netfilter_setup_parses_with_defaults : bool :=
  match try_parse [s!"condukt-egress"; s!"netfilter-setup"] with
  | Ok (NetfilterSetup args) =>
      asserts [assert_eq (proxy_port args) 15001; assert_eq (sidecar_uid args) 1337;
               assert_eq (iptables_bin args) (s!"iptables")]
  | _ => false
  end.

Definition proxy_requires_the_ca_paths : bool :=
  asserts
    [negb (is_ok (try_parse [s!"condukt-egress"; s!"proxy"]));
     match try_parse [s!"condukt-egress"; s!"proxy"; s!"--ca-cert-path"; s!"/etc/condukt/ca.pem";
                      s!"--ca-key-path"; s!"/etc/condukt/ca.key"] with
     | Ok (Proxy args) =>
         asserts [assert_eq (ca_cert_path args) (s!"/etc/condukt/ca.pem");
                  assert_eq (ca_key_path args) (s!"/etc/condukt/ca.key");
                  assert_eq (listen args) (s!"0.0.0.0:15001");
                  assert_eq (control_listen args) (s!"0.0.0.0:15002");
                  assert_eq (policy_file args) (s!"/etc/condukt/policy.json");
                  assert_eq (pa_session_id args) None]
     | _ => false
     end].

Definition unknown_subcommand_is_rejected : bool :=
  negb (is_ok (try_parse [s!"condukt-egress"; s!"wat"])).

Definition proxy_flags_override_defaults : bool :=
  match try_parse [s!"condukt-egress"; s!"proxy"; s!"--ca-cert-path"; s!"/c"; s!"--ca-key-path";
                   s!"/k"; s!"--listen"; s!"127.0.0.1:1"; s!"--session-id"; s!"sess-9"] with
  | Ok (Proxy args) =>
      asserts [assert_eq (listen args) (s!"127.0.0.1:1");
               assert_eq (pa_session_id args) (Some (s!"sess-9"))]
  | _ => false
  end.

Example main_tests_pass :
  asserts [netfilter_setup_parses_with_defaults; proxy_requires_the_ca_paths;
           unknown_subcommand_is_rejected; proxy_flags_override_defaults] = true.
Proof. vm_compute. reflexivity. Qed.

End MainTests.

(** ** [h2.rs] and [tls.rs] *)

Module TlsTests.

Definition error_response_is_502_carrying_the_message : bool :=
  match error_response (s!"upstream blew up") with
  | ErrorResponse status body =>
      asserts [status =? 502; assert_eq body (s!"upstream blew up")]
  | Forwarded _ => false
  end.

Definition build_leaf_mints_a_cert_for_the_sni_host_issued_by_the_ca : bool :=
  match build_leaf TlsExamples.toy TlsExamples.toy_ca (Ok 1) (s!"api.example.com") with
  | Ok (leaf_der, _) =>
      match x509_of TlsExamples.toy leaf_der,
            x509_of TlsExamples.toy (cert_der _ (issuer_cert _ TlsExamples.toy_ca)) with
      | Some leaf, Some ca =>
          asserts [assert_eq (x_subject leaf).*2 [s!"api.example.com"];
                   assert_eq (map (λ '(DnsName d), d) (x_sans leaf)) [s!"api.example.com"];
                   assert_eq (x_issuer leaf).*2 (x_subject ca).*2;
                   negb (assert_eq (x_issuer leaf).*2 (x_subject leaf).*2);
                   match x_is_ca leaf with NoCa => true | IsCaCert => false end]
      | _, _ => false
      end
  | Err _ => false
  end.

Definition from_pem_rejects_a_bogus_ca_key : bool :=
  match from_pem TlsExamples.toy (s!"CA") [] with Err (ParseCaKey _) => true | _ => false end.

(** One call of [server_config_for] with nothing else going on. *)
Definition alone (k : Z) : tls_env TlsExamples.toy :=
  {| te_before_lookup := []; te_before_mint := [];
     te_generated := (Ok k : result (KeyPair TlsExamples.toy) str); te_before_insert := [] |}.

Definition call (c : nat) (host : str) (s : cache_st) : result nat TlsError * cache_st :=
  server_config_for TlsExamples.toy TlsExamples.toy_ca c (alone 1) host s.

Definition server_config_advertises_h2_and_http11_alpn : bool :=
  let '(r, s) := call 0 (s!"example.com") cache_start in
  match r with
  | Ok arc => assert_eq ((λ p, alpn_protocols p.2) <$> arcs s !! arc)
                (Some [s!"h2"; s!"http/1.1"])
  | Err _ => false
  end.

Definition caches_one_config_per_host : bool :=
  let '(a1, s) := call 0 (s!"a.example.com") cache_start in
  let '(a2, s) := call 1 (s!"a.example.com") s in
  let '(b, s) := call 2 (s!"b.example.com") s in
  match a1, a2, b with
  | Ok a1, Ok a2, Ok b => asserts [(a1 =? a2)%nat; negb (a1 =? b)%nat]
  | _, _, _ => false
  end.

Example tls_tests_pass :
  asserts [error_response_is_502_carrying_the_message;
           build_leaf_mints_a_cert_for_the_sni_host_issued_by_the_ca;
           from_pem_rejects_a_bogus_ca_key; server_config_advertises_h2_and_http11_alpn; caches_one_config_per_host] = true.
Proof. vm_compute. reflexivity. Qed.

End TlsTests.
