(* ===== verification/Shell.v ===== *)
(** * How a POSIX shell splits a command line

    The reference the script builders of the [condukt_bashkit] crate are
    checked against: the token rules of the shell grammar for blanks,
    operators, single quotes, backslashes and comments. A double quote, a
    dollar sign or a backquote outside single quotes starts a construct whose
    meaning the program does not control: [lex] has no result for it. Then how a
    utility tells the options among its arguments from the operands. *)

From S2P Require Import Prelude Utf8 Strs.

Inductive tok := TWord (w : str) | TOp (c : char).

#[global] Instance tok_eq_dec : EqDecision tok.
Proof. solve_decision. Defined.

Definition sq : char := 39.    (** single quote *)
Definition bslash : char := 92.

Definition is_blank (c : char) : bool := (c =? 32) || (c =? 9).

(** [;] [|] [&] [<] [>] [(] [)] and newline. *)
Definition is_op (c : char) : bool :=
  (c =? 59) || (c =? 124) || (c =? 38) || (c =? 60) || (c =? 62) || (c =? 40) || (c =? 41)
  || (c =? 10).

(** A double quote, [$] or a backquote. *)
Definition is_expansion (c : char) : bool := (c =? 34) || (c =? 36) || (c =? 96).

(** Between words, in a word, in single quotes, after a backslash, in a comment. *)
Inductive mode := Between | Word (w : str) | Single (w : str) | Escaped (w : str) | Comment.

(** What [c] does outside quotes, with [w] read so far. *)
Definition plain (w : str) (c : char) : option mode :=
  if c =? sq then Some (Single w)
  else if c =? bslash then Some (Escaped w)
  else if is_expansion c then None
  else Some (Word (w ++ [c])).

Fixpoint lex (m : mode) (s : str) : option (list tok) :=
  match s with
  | [] =>
      match m with
      | Between | Comment => Some []
      | Word w => Some [TWord w]
      | Single _ => None
      | Escaped w => Some [TWord (w ++ [bslash])]
      end
  | c :: s =>
      match m with
      | Between =>
          if is_blank c then lex Between s
          else if is_op c then ts ← lex Between s; Some (TOp c :: ts)
          else if c =? 35 then lex Comment s
          else m ← plain [] c; lex m s
      | Word w =>
          if is_blank c then ts ← lex Between s; Some (TWord w :: ts)
          else if is_op c then ts ← lex Between s; Some (TWord w :: TOp c :: ts)
          else m ← plain w c; lex m s
      | Single w => if c =? sq then lex (Word w) s else lex (Single (w ++ [c])) s
      | Escaped w => if c =? 10 then lex (Word w) s else lex (Word (w ++ [c])) s
      | Comment => if c =? 10 then ts ← lex Between s; Some (TOp c :: ts) else lex Comment s
      end
  end.

(** The tokens of a command line. *)
Definition tokens_of (s : str) : option (list tok) := lex Between s.

Example lex_example :
  tokens_of (s!"cd 'a b' && printf x\ y; z # no") =
  Some [TWord (s!"cd"); TWord (s!"a b"); TOp 38; TOp 38; TWord (s!"printf");
        TWord (s!"x y"); TOp 59; TWord (s!"z")].
Proof. vm_compute. reflexivity. Qed.

(** ** How a utility splits its arguments into options and operands

    A word that starts with a hyphen and has something after it is an option;
    [--] ends the options. The POSIX guidelines take options only in front of the
    first operand; GNU utilities take them anywhere. *)
Definition option_word (w : str) : bool :=
  match w with c :: _ :: _ => c =? 45 | _ => false end.

Fixpoint posix_args (ws : list str) : list str * list str :=
  match ws with
  | [] => ([], [])
  | w :: ws =>
      if str_eqb w (s!"--") then ([], ws)
      else if option_word w then let '(opts, rest) := posix_args ws in (w :: opts, rest)
      else ([], w :: ws)
  end.

Fixpoint gnu_args (ws : list str) : list str * list str :=
  match ws with
  | [] => ([], [])
  | w :: ws =>
      if str_eqb w (s!"--") then ([], ws)
      else let '(opts, rest) := gnu_args ws in
           if option_word w then (w :: opts, rest) else (opts, w :: rest)
  end.

Lemma option_word_not_end w : option_word w = false → str_eqb w (s!"--") = false.
Proof. intros H. apply bool_decide_eq_false. by intros ->. Qed.

(** Two arguments are the two operands exactly when they do not look like
    options. *)
Lemma posix_operands p r :
  (posix_args [p; r]).2 = [p; r] ↔ option_word p = false.
Proof.
  cbn. destruct (option_word p) eqn:Ep.
  - split; [|done]. unfold str_eqb. case_bool_decide; [done|]. cbn.
    case_bool_decide; [done|]. by destruct (option_word r).
  - by rewrite option_word_not_end.
Qed.

Lemma gnu_operands p r :
  (gnu_args [p; r]).2 = [p; r] ↔ option_word p = false ∧ option_word r = false.
Proof.
  cbn. destruct (option_word p) eqn:Ep.
  - split; [|by intros []]. unfold str_eqb. case_bool_decide; [done|]. cbn.
    case_bool_decide; [done|]. by destruct (option_word r).
  - rewrite option_word_not_end by done. destruct (option_word r) eqn:Er.
    + split; [|by intros []]. unfold str_eqb. by case_bool_decide.
    + by rewrite option_word_not_end.
Qed.

(** An option in front is not an operand. *)
Lemma args_after_option f ws :
  option_word f = true → f ≠ s!"--" →
  posix_args (f :: ws) = (f :: (posix_args ws).1, (posix_args ws).2) ∧
  gnu_args (f :: ws) = (f :: (gnu_args ws).1, (gnu_args ws).2).
Proof.
  intros Hf Hne. cbn [posix_args gnu_args]. unfold str_eqb.
  rewrite bool_decide_eq_false_2 by done. rewrite Hf.
  by destruct (posix_args ws), (gnu_args ws).
Qed.

(** Characters that neither end the shell's current command nor start an
    expansion. *)
Definition harmless (c : char) : bool :=
  negb (is_op c) && negb (is_expansion c) && negb (c =? sq).

Lemma harmless_plain w c :
  harmless c = true → ∃ m, plain w c = Some m ∧ (∀ w', m ≠ Single w') ∧ m ≠ Between.
Proof.
  unfold harmless, plain. intros H.
  destruct (c =? sq); [by rewrite andb_false_r in H|].
  destruct (c =? bslash); [by eexists|]. destruct (is_expansion c); [|by eexists].
  by rewrite andb_false_r in H.
Qed.

(** Outside quotes such characters only ever make words. *)
Lemma lex_harmless s m :
  Forall (λ c, harmless c = true) s → (∀ w, m ≠ Single w) →
  ∃ ws, lex m s = Some (TWord <$> ws).
Proof.
  intros Hs. revert m. induction Hs as [|c s Hc _ IH]; intros m Hm.
  - destruct m as [|w|w|w|]; cbn; [by exists []|by exists [w]|by destruct (Hm w)| |by exists []].
    by exists [w ++ [bslash]].
  - assert (is_op c = false) as Hop.
    { unfold harmless in Hc. by destruct (is_op c). }
    destruct m as [|w|w|w|]; cbn [lex]; rewrite ?Hop.
    + destruct (is_blank c); [by apply IH|]. destruct (c =? 35); [by apply IH|].
      destruct (harmless_plain [] c Hc) as (m & -> & Hm' & _). by apply IH.
    + destruct (is_blank c).
      * destruct (IH Between) as [ws ->]; [done|]. by exists (w :: ws).
      * destruct (harmless_plain w c Hc) as (m & -> & Hm' & _). by apply IH.
    + by destruct (Hm w).
    + case_match; by apply IH.
    + destruct (c =? 10) eqn:E; [|by apply IH].
      apply Z.eqb_eq in E as ->. done.
Qed.
