(* ===== verification/Bashkit.v ===== *)
(** * [condukt_bashkit/src/lib.rs]: the virtual sandbox

    The NIFs of the crate over the [bashkit] library, which is an interface:
    an interpreter with a virtual file system. A session is a mutex around it;
    the flag says whether the lock is poisoned. A NIF returns an error term
    ([Err]), or a value that is itself an Elixir [{:ok, _}] or [{:error, _}].
    Calls that drop the lock and go on with the shared file system take the
    steps of the other tasks as an argument. *)

From S2P Require Import Prelude Utf8 Strs Shell.

(** ** Paths ([std::path], as the components of a Unix path) *)

Record path := { p_root : bool; p_comps : list str }.

#[global] Instance path_eq_dec : EqDecision path.
Proof. solve_decision. Defined.

(** The pieces between separators; [cur] is reversed. *)
Fixpoint split_from (sep : char) (cur s : str) : list str :=
  match s with
  | [] => [rev cur]
  | c :: s => if c =? sep then rev cur :: split_from sep [] s else split_from sep (c :: cur) s
  end.

Definition slash : char := 47.

(** [PathBuf::from]: repeated separators and [.] disappear, but for a leading
    [.] of a relative path. *)
Definition path_from (s : str) : path :=
  let root := match s with c :: _ => c =? slash | [] => false end in
  let pieces := split_from slash [] s in
  let keep := filter (λ c, c ≠ [] ∧ c ≠ s!".") pieces in
  {| p_root := root;
     p_comps := match pieces with
                | p :: _ => if str_eqb p (s!".") then p :: keep else keep
                | [] => keep
                end |}.

Definition path_parent (p : path) : option path :=
  match p_comps p with
  | [] => None
  | _ => Some {| p_root := p_root p; p_comps := removelast (p_comps p) |}
  end.

(** [as_os_str().is_empty()]. *)
Definition path_is_empty (p : path) : bool := negb (p_root p) && is_empty (p_comps p).

Definition file_name (p : path) : option str :=
  match last (p_comps p) with
  | Some c => if str_eqb c (s!"..") || str_eqb c (s!".") then None else Some c
  | None => None
  end.

Example path_examples :
  path_from (s!"/a//b/./c.txt") = {| p_root := true; p_comps := [s!"a"; s!"b"; s!"c.txt"] |} ∧
  file_name (path_from (s!"/a/b/")) = Some (s!"b") ∧ file_name (path_from (s!"a/..")) = None ∧
  path_is_empty <$> path_parent (path_from (s!"c.txt")) = Some true.
Proof. vm_compute. split_and!; reflexivity. Qed.

(** ** Data *)

Inductive MountMode := Readonly | Readwrite.
Inductive RealFsMode := ReadOnly | ReadWrite.

Record MountSpec := { m_host_path : str; m_vfs_path : str; m_mode : MountMode }.

Definition RealFsMode_from (m : MountMode) : RealFsMode :=
  match m with Readonly => ReadOnly | Readwrite => ReadWrite end.

(** The atoms the crate returns. *)
Inductive Atom :=
| a_ok | a_error | a_enoent | a_eisdir | a_eexist | a_eacces | a_timeout
| a_not_found | a_invalid_path.

Record ExecResult := { er_output : str; er_exit_code : Z }.
Record EditResult := { ed_occurrences : nat; ed_content : str }.
Record GrepMatch := { gm_path : str; gm_line_number : Z; gm_line : str }.

#[global] Instance GrepMatch_eq_dec : EqDecision GrepMatch.
Proof. solve_decision. Defined.

(** ** Helpers *)

Definition map_bashkit_error (s : str) : Atom :=
  let lower := to_ascii_lowercase s in
  if contains (s!"not found") lower || contains (s!"no such") lower then a_enoent
  else if contains (s!"is a directory") lower then a_eisdir
  else if contains (s!"already exists") lower then a_eexist
  else if contains (s!"permission") lower || contains (s!"denied") lower then a_eacces
  else a_error.

Definition poisoned : str := s!"bashkit session lock poisoned".

(** [haystack.matches(needle).count()], for a needle that is not empty: after a
    match the scan goes on behind it; [skip] is what is left of the match. *)
Fixpoint matches_count (needle : str) (skip : nat) (s : str) : nat :=
  match s with
  | [] => 0
  | _ :: s' =>
      match skip with
      | S skip => matches_count needle skip s'
      | O =>
          match strip_prefix needle s with
          | Some _ => S (matches_count needle (length needle - 1) s')
          | None => matches_count needle 0 s'
          end
      end
  end.

Definition count_occurrences (haystack needle : str) : nat :=
  if is_empty needle then 0 else matches_count needle 0 haystack.

(** [s.replacen(old, new, 1)], for an [old] that is not empty. *)
Fixpoint replace_first (old new s : str) : str :=
  match strip_prefix old s with
  | Some rest => new ++ rest
  | None => match s with [] => [] | c :: s => c :: replace_first old new s end
  end.

Definition escape_single_quotes (s : str) : str :=
  s ≫= λ c, if c =? sq then [sq; bslash; sq; sq] else [c].

Definition combine_output (stdout stderr : str) : str :=
  if is_empty stderr then stdout
  else if is_empty stdout then stderr
  else stdout ++ stderr.

(** Backquote, dollar, semicolon, bar, ampersand, angle brackets, parentheses,
    LF, CR, single and double quote. *)
Definition unsafe_chars : list char := [96; 36; 59; 124; 38; 60; 62; 40; 41; 10; 13; 39; 34].

Definition is_safe_glob (pattern : str) : bool :=
  forallb (λ c, negb (bool_decide (c ∈ unsafe_chars))) pattern.

(** [helper] of [glob_match]: the recursion on the text inside the [*] case is
    the inner loop. *)
Fixpoint glob_helper (pattern : bytes) : bytes → bool :=
  fix go (text : bytes) : bool :=
    match pattern, text with
    | [], [] => true
    | [], _ => false
    | p :: pattern', _ =>
        if p =? 42 then
          if glob_helper pattern' text then true
          else match text with _ :: rest => go rest | [] => false end
        else
          match text with
          | [] => false
          | t :: text' =>
              if p =? 63 then glob_helper pattern' text'
              else if p =? t then glob_helper pattern' text'
              else false
          end
    end.

Definition glob_match (pattern text : str) : bool :=
  glob_helper (as_bytes pattern) (as_bytes text).

Definition matches_basename_glob (full_path glob : str) : bool :=
  glob_match glob (default full_path (file_name (path_from full_path))).

(** [line.splitn(3, ':')]: up to the first separator, and the rest. *)
Fixpoint split_once (sep : char) (s : str) : option (str * str) :=
  match s with
  | [] => None
  | c :: s =>
      if c =? sep then Some ([], s)
      else '(a, b) ← split_once sep s; Some (c :: a, b)
  end.

Definition colon : char := 58.

Definition parse_grep_line (line : str) : option GrepMatch :=
  '(p, rest) ← split_once colon line;
  '(line_num_str, content) ← split_once colon rest;
  line_number ← parse_u64 line_num_str;
  Some {| gm_path := p; gm_line_number := line_number; gm_line := content |}.

Definition parse_grep (output : str) : list GrepMatch := omap parse_grep_line (lines output).

(** ** Scripts *)

Definition quoted (s : str) : str := sq :: escape_single_quotes s ++ [sq].

(** [cd '{}' && ], or nothing. *)
Definition cd_prefix (cwd : option str) : str :=
  match cwd with Some c => s!"cd " ++ quoted c ++ s!" && " | None => [] end.

Definition glob_script (cwd : option str) (pattern : str) : str :=
  cd_prefix cwd ++ s!"shopt -s nullglob 2>/dev/null; printf '%s\n' " ++ pattern.

Definition grep_script (case_sensitive : bool) (pattern search_root : str) : str :=
  s!"grep -rnHE" ++ (if case_sensitive then [] else s!"-i") ++ s!" " ++ quoted pattern
    ++ s!" " ++ quoted search_root ++ s!" || true".

(** ** The library *)

(** The outcome of running a script to its end. *)
Inductive exec_outcome :=
| ExecFailed (e : str)
| ExecDone (stdout stderr : str) (exit_code : Z).

(** What the crate uses of [bashkit]: [B] is an interpreter with its file
    system, [Builder] its builder, [RealFs] a host directory. Errors are their
    [Display] text. *)
Class BashLib (B : Type) := {
  Builder : Type;
  RealFs : Type;
  builder : Builder;
  mount_real_readonly_at : path → str → Builder → Builder;
  mount_real_readwrite_at : path → str → Builder → Builder;
  build : Builder → B;
  RealFs_new : str → RealFsMode → result RealFs str;
  bash_mount : str → RealFs → B → result unit str * B;
  bash_unmount : str → B → result unit str * B;
  bash_exec : str → B → exec_outcome * B;
  (** under [tokio::time::timeout]: [None] when the time has elapsed *)
  bash_exec_within : Z → str → B → option exec_outcome * B;
  fs_read : path → B → result bytes str;
  fs_write : path → bytes → B → result unit str * B;
  fs_mkdir : path → bool → B → result unit str * B;
  (** a file that was written is read back *)
  fs_read_write p bs b b' : fs_write p bs b = (Ok tt, b') → fs_read p b' = Ok bs;
}.

Section bashkit.

Context {B : Type} `{!BashLib B}.

Record Session := { ss_poisoned : bool; ss_bash : B }.

Definition with_bash (s : Session) (b : B) : Session :=
  {| ss_poisoned := ss_poisoned s; ss_bash := b |}.

(** A NIF: an error term, or [{:ok, a}] or [{:error, atom}]. *)
Definition nif (A : Type) : Type := result (result A Atom) str.

Definition build_bash (mounts : list MountSpec) : result B str :=
  Ok (build (foldl (λ b m,
    match m_mode m with
    | Readonly => mount_real_readonly_at (path_from (m_host_path m)) (m_vfs_path m) b
    | Readwrite => mount_real_readwrite_at (path_from (m_host_path m)) (m_vfs_path m) b
    end) builder mounts)).

Definition new_session (mounts : list MountSpec) : result Session str :=
  bash ←? build_bash mounts; Ok {| ss_poisoned := false; ss_bash := bash |}.

Definition shutdown (s : Session) : Atom * Session := (a_ok, s).

Definition exec (command : str) (timeout_ms : option Z) (s : Session)
    : nif ExecResult * Session :=
  if ss_poisoned s then (Err poisoned, s)
  else
    let '(r, b) := match timeout_ms with
                   | Some d => bash_exec_within d command (ss_bash s)
                   | None => let '(r, b) := bash_exec command (ss_bash s) in (Some r, b)
                   end in
    (match r with
     | None => Ok (Err a_timeout)
     | Some (ExecFailed e) => Ok (Err (map_bashkit_error e))
     | Some (ExecDone stdout stderr code) =>
         Ok (Ok {| er_output := combine_output stdout stderr; er_exit_code := code |})
     end, with_bash s b).

(** The lock is dropped before the read: [others] is what other tasks do to the
    interpreter meanwhile. [alloc] is whether the binary can be allocated. *)
Definition read_file (others : B → B) (alloc : bool) (p : str) (s : Session)
    : nif bytes * Session :=
  if ss_poisoned s then (Err poisoned, s)
  else
    let b := others (ss_bash s) in
    (match fs_read (path_from p) b with
     | Ok bs => if alloc then Ok (Ok bs) else Err (s!"failed to allocate binary")
     | Err e => Ok (Err (map_bashkit_error e))
     end, with_bash s b).

Definition write_file (others : B → B) (p : str) (content : bytes) (s : Session)
    : nif Atom * Session :=
  if ss_poisoned s then (Err poisoned, s)
  else
    let b := others (ss_bash s) in
    let b := match path_parent (path_from p) with
             | Some parent => if negb (path_is_empty parent) then (fs_mkdir parent true b).2 else b
             | None => b
             end in
    let '(r, b) := fs_write (path_from p) content b in
    (match r with
     | Ok _ => Ok (Ok a_ok)
     | Err e => Ok (Err (map_bashkit_error e))
     end, with_bash s b).

(** [before] acts before the read, [between] between the read and the write. *)
Definition edit_file (before between : B → B) (p old_text new_text : str) (s : Session)
    : nif EditResult * Session :=
  if ss_poisoned s then (Err poisoned, s)
  else
    let b := before (ss_bash s) in
    match fs_read (path_from p) b with
    | Err e => (Ok (Err (map_bashkit_error e)), with_bash s b)
    | Ok bs =>
        let content := from_utf8_lossy bs in
        let occurrences := count_occurrences content old_text in
        if negb (occurrences =? 1)%nat
        then (Ok (Ok {| ed_occurrences := occurrences; ed_content := content |}), with_bash s b)
        else
          let new_content := replace_first old_text new_text content in
          let '(w, b) := fs_write (path_from p) (as_bytes new_content) (between b) in
          (match w with
           | Ok _ => Ok (Ok {| ed_occurrences := 1; ed_content := new_content |})
           | Err e => Ok (Err (map_bashkit_error e))
           end, with_bash s b)
    end.

Definition glob (pattern : str) (cwd : option str) (s : Session) : nif (list str) * Session :=
  if ss_poisoned s then (Err poisoned, s)
  else if negb (is_safe_glob pattern) then (Ok (Ok []), s)
  else
    let '(r, b) := bash_exec (glob_script cwd pattern) (ss_bash s) in
    (match r with
     | ExecDone stdout _ _ => Ok (Ok (filter (λ l, l ≠ []) (lines stdout)))
     | ExecFailed e => Ok (Err (map_bashkit_error e))
     end, with_bash s b).

Definition grep (pattern : str) (root : option str) (case_sensitive : bool)
    (file_glob : option str) (s : Session) : nif (list GrepMatch) * Session :=
  if ss_poisoned s then (Err poisoned, s)
  else
    let search_root := default (s!"/") root in
    let '(r, b) := bash_exec (grep_script case_sensitive pattern search_root) (ss_bash s) in
    (match r with
     | ExecDone stdout _ _ =>
         let matches := parse_grep stdout in
         Ok (Ok (match file_glob with
                 | None => matches
                 | Some g => filter (λ m, matches_basename_glob (gm_path m) g = true) matches
                 end))
     | ExecFailed e => Ok (Err (map_bashkit_error e))
     end, with_bash s b).

Definition mount (host_path vfs_path : str) (mode : MountMode) (s : Session)
    : nif Atom * Session :=
  if ss_poisoned s then (Err poisoned, s)
  else
    match RealFs_new host_path (RealFsMode_from mode) with
    | Err _ => (Ok (Err a_invalid_path), s)
    | Ok fs =>
        let '(r, b) := bash_mount vfs_path fs (ss_bash s) in
        (match r with
         | Ok _ => Ok (Ok a_ok)
         | Err e => Ok (Err (map_bashkit_error e))
         end, with_bash s b)
    end.

Definition unmount (vfs_path : str) (s : Session) : nif Atom * Session :=
  if ss_poisoned s then (Err poisoned, s)
  else
    let '(r, b) := bash_unmount vfs_path (ss_bash s) in
    (match r with
     | Ok _ => Ok (Ok a_ok)
     | Err _ => Ok (Err a_not_found)
     end, with_bash s b).

(** ** Quoting *)

Lemma lex_single w s rest :
  lex (Single w) (escape_single_quotes s ++ sq :: rest) = lex (Word (w ++ s)) rest.
Proof.
  revert w. induction s as [|c s IH]; intros w.
  - cbn. by rewrite app_nil_r.
  - unfold escape_single_quotes in *. cbn [mbind list_bind].
    rewrite <-app_assoc. destruct (Z.eqb_spec c sq) as [->|Hc]; cbn [app lex].
    + change (sq =? sq) with true. cbn [lex].
      change (is_blank bslash) with false. change (is_op bslash) with false.
      change (plain w bslash) with (Some (Escaped w)). cbn [mbind option_bind lex].
      change (sq =? 10) with false. cbn [lex].
      change (is_blank sq) with false. change (is_op sq) with false.
      change (plain (w ++ [sq]) sq) with (Some (Single (w ++ [sq]))). cbn [mbind option_bind].
      rewrite IH. by rewrite <-app_assoc.
    + rewrite (proj2 (Z.eqb_neq c sq)) by done. rewrite IH. by rewrite <-app_assoc.
Qed.

(** A quoted string is one word, whatever it holds. *)
Lemma lex_quoted s rest : lex Between (quoted s ++ rest) = lex (Word s) rest.
Proof.
  unfold quoted. cbn [app]. rewrite <-app_assoc. cbn [app].
  change (lex Between (sq :: ?x)) with (lex (Single []) x). apply (lex_single []).
Qed.

(** The words of [cd_prefix]. *)
Definition cd_tokens (cwd : option str) : list tok :=
  match cwd with Some c => [TWord (s!"cd"); TWord c; TOp 38; TOp 38] | None => [] end.

Lemma lex_cd_prefix cwd rest ts :
  lex Between rest = Some ts → lex Between (cd_prefix cwd ++ rest) = Some (cd_tokens cwd ++ ts).
Proof.
  intros H. destruct cwd as [c|]; [|done]. unfold cd_prefix, cd_tokens.
  rewrite <-!app_assoc.
  change (lex Between (s!"cd " ++ ?x)) with (ts ← lex Between x; Some (TWord (s!"cd") :: ts)).
  rewrite lex_quoted.
  change (lex (Word c) (s!" && " ++ rest))
    with (ts ← (ts ← (ts ← lex Between rest; Some (TOp 38 :: ts)); Some (TOp 38 :: ts));
          Some (TWord c :: ts)).
  by rewrite H.
Qed.

(** C27: what quoting gives a search, and what it does not. Whatever characters
    the pattern and the root hold, quotes included, the shell runs one [grep] with
    three arguments, the flags (to which the case flag is glued), the pattern and
    the root, unchanged, and the fallback: no text becomes shell syntax. But the
    arguments are the operands of [grep] exactly when they do not look like
    options: the script has no [--] or [-e], so a pattern that starts with a hyphen
    is taken for options of [grep], and so is such a root where options may follow
    operands. *)
Theorem grep_script_words (case_sensitive : bool) (pattern root : str) :
  let flags := if case_sensitive then s!"-rnHE" else s!"-rnHE-i" in
  let args := [flags; pattern; root] in
  tokens_of (grep_script case_sensitive pattern root) =
    Some ((TWord <$> s!"grep" :: args) ++ [TOp 124; TOp 124; TWord (s!"true")]) ∧
  ((posix_args args).2 = [pattern; root] ↔ option_word pattern = false) ∧
  ((gnu_args args).2 = [pattern; root] ↔
     option_word pattern = false ∧ option_word root = false) ∧
  (option_word pattern = true → pattern ≠ s!"--" →
     pattern ∈ (posix_args args).1 ∧ pattern ∈ (gnu_args args).1).
Proof.
  cbv zeta. set (flags := if case_sensitive then s!"-rnHE" else s!"-rnHE-i").
  destruct (args_after_option flags [pattern; root]) as [Ep Eg];
    [subst flags; by destruct case_sensitive..|].
  rewrite Ep, Eg. split_and!.
  - unfold tokens_of, grep_script.
    assert (∀ x, lex Between (s!"grep -rnHE" ++ (if case_sensitive then [] else s!"-i")
        ++ s!" " ++ x) =
      ts ← (ts ← lex Between x; Some (TWord flags :: ts));
      Some (TWord (s!"grep") :: ts)) as E.
    { intros x. subst flags. by destruct case_sensitive. }
    rewrite E, lex_quoted.
    change (lex (Word pattern) (s!" " ++ ?x))
      with (ts ← lex Between x; Some (TWord pattern :: ts)).
    by rewrite lex_quoted.
  - apply posix_operands.
  - apply gnu_operands.
  - intros Hp Hne. destruct (args_after_option pattern [root] Hp Hne) as [-> ->].
    cbn [fst]. set_solver.
Qed.

Lemma safe_glob_harmless pattern :
  is_safe_glob pattern = true → Forall (λ c, harmless c = true) pattern.
Proof.
  unfold is_safe_glob. intros H. apply Forall_forall. intros c Hin.
  rewrite List.forallb_forall in H. apply list_elem_of_In in Hin. specialize (H c Hin) as Hc.
  cbn in Hc. apply negb_true_iff, bool_decide_eq_false in Hc.
  unfold harmless, is_op, is_expansion, sq.
  repeat match goal with
  | |- context [c =? ?k] =>
      destruct (Z.eqb_spec c k) as [->|_];
        [exfalso; apply Hc; apply (bool_decide_unpack _); vm_compute; exact I|]
  end. done.
Qed.

(** The fixed part of the glob script, in front of what follows it. *)
Definition lex_printf (rest : option (list tok)) : option (list tok) :=
  foldr (λ new r, ts ← r; Some (new ++ ts)) rest
    [[TWord (s!"shopt")]; [TWord (s!"-s")]; [TWord (s!"nullglob")]; [TWord (s!"2"); TOp 62];
     [TWord (s!"/dev/null"); TOp 59]; [TWord (s!"printf")]; [TWord (s!"%s\n")]].

(** C28: a glob cannot inject code: a pattern that passes the filter adds only
    words to the last command of the script (no operator, no expansion, no
    second command), whatever the working directory is called; one that does
    not pass runs nothing at all and yields no paths. *)
Theorem glob_no_injection (pattern : str) (cwd : option str) :
  if is_safe_glob pattern
  then ∃ ws, tokens_of (glob_script cwd pattern) =
    Some (cd_tokens cwd ++
          [TWord (s!"shopt"); TWord (s!"-s"); TWord (s!"nullglob"); TWord (s!"2"); TOp 62;
           TWord (s!"/dev/null"); TOp 59; TWord (s!"printf"); TWord (s!"%s\n")]
          ++ (TWord <$> ws))
  else ∀ s : Session, ss_poisoned s = false → glob pattern cwd s = (Ok (Ok []), s).
Proof.
  destruct (is_safe_glob pattern) eqn:E.
  - destruct (lex_harmless pattern Between) as [ws Hws]; [by apply safe_glob_harmless|done|].
    exists ws. unfold tokens_of, glob_script. apply lex_cd_prefix.
    change (lex Between (s!"shopt -s nullglob 2>/dev/null; printf '%s\n' " ++ pattern))
      with (lex_printf (lex Between pattern)). by rewrite Hws.
  - intros s Hs. unfold glob. by rewrite Hs, E.
Qed.

(** ** Editing *)

Lemma matches_count_skip needle skip s :
  matches_count needle skip s = matches_count needle 0 (drop skip s).
Proof.
  revert skip. induction s as [|c s IH]; intros skip; [by destruct skip|].
  destruct skip as [|skip]; [done|]. exact (IH skip).
Qed.

Lemma matches_count_zero needle s :
  needle ≠ [] → matches_count needle 0 s = 0%nat → contains needle s = false.
Proof.
  intros Hn. induction s as [|c s IH]; [by destruct needle|]. cbn [matches_count contains].
  destruct (strip_prefix needle (c :: s)); [done|exact IH].
Qed.

(** One match: the leftmost occurrence, and none behind it. *)
Lemma matches_count_one old new s :
  old ≠ [] → matches_count old 0 s = 1%nat →
  ∃ pre post, s = pre ++ old ++ post ∧ replace_first old new s = pre ++ new ++ post ∧
    contains old post = false ∧
    ∀ pre' post', s = pre' ++ old ++ post' → (length pre ≤ length pre')%nat.
Proof.
  intros Hn. induction s as [|c s IH]; [done|]. cbn [matches_count replace_first].
  destruct (strip_prefix old (c :: s)) as [rest|] eqn:E; intros Hc.
  - exists [], rest. apply strip_prefix_Some in E as E'. split_and!; [done|done| |cbn; lia].
    apply matches_count_zero; [done|]. injection Hc as Hc.
    rewrite matches_count_skip in Hc. destruct old as [|o old]; [done|].
    cbn in E'. injection E' as <- ->. cbn in Hc.
    by rewrite Nat.sub_0_r, drop_app_length in Hc.
  - destruct (IH Hc) as (pre & post & -> & Hr & Hp & Hmin).
    exists (c :: pre), post. split_and!; [done|by rewrite Hr|done|].
    intros [|c' pre'] post' Heq.
    + change (c :: pre ++ old ++ post = old ++ post') in Heq.
      apply strip_prefix_Some in Heq. congruence.
    + injection Heq as <- Heq. apply Hmin in Heq. cbn. lia.
Qed.

(** C26: an edit is all or nothing. When the text to replace does not occur
    exactly once (counted without overlaps; an empty one counts as absent)
    nothing is written and the caller gets the count and the content. When it
    does, its leftmost occurrence is replaced and the rest of the content kept;
    on success the file then holds exactly the returned content, so whatever
    other tasks wrote to it between the read and the write is lost; a failed
    read or write is reported as the atom of its error. *)
Theorem edit_file_spec (before between : B → B) (p old_text new_text : str) (s : Session)
    (Hlock : ss_poisoned s = false) :
  let b := before (ss_bash s) in
  let '(r, s') := edit_file before between p old_text new_text s in
  match fs_read (path_from p) b with
  | Err e => r = Ok (Err (map_bashkit_error e)) ∧ ss_bash s' = b
  | Ok bs =>
      let content := from_utf8_lossy bs in
      let n := count_occurrences content old_text in
      (n ≠ 1%nat →
         r = Ok (Ok {| ed_occurrences := n; ed_content := content |}) ∧ ss_bash s' = b) ∧
      (n = 1%nat →
         ∃ pre post, content = pre ++ old_text ++ post ∧ contains old_text post = false ∧
           (∀ pre' post', content = pre' ++ old_text ++ post' →
              (length pre ≤ length pre')%nat) ∧
           ((r = Ok (Ok {| ed_occurrences := 1; ed_content := pre ++ new_text ++ post |}) ∧
             fs_read (path_from p) (ss_bash s') = Ok (as_bytes (pre ++ new_text ++ post))) ∨
            (∃ e, (fs_write (path_from p) (as_bytes (pre ++ new_text ++ post)) (between b)).1
                    = Err e ∧ r = Ok (Err (map_bashkit_error e)))))
  end.
Proof.
  cbv zeta. unfold edit_file. rewrite Hlock.
  destruct (fs_read (path_from p) (before (ss_bash s))) as [bs|e]; [|done].
  unfold count_occurrences.
  destruct (is_empty old_text) eqn:Ho; cbn [negb Nat.eqb]; [done|].
  assert (old_text ≠ []) as Hne by (by intros ->).
  destruct (Nat.eqb_spec (matches_count old_text 0 (from_utf8_lossy bs)) 1) as [H1|H1];
    cbn [negb]; [|by split].
  destruct (fs_write _ _ _) as [[[]|e] b'] eqn:Hw.
  all: split; [done|]; intros _.
  all: destruct (matches_count_one old_text new_text (from_utf8_lossy bs) Hne H1)
    as (pre & post & Hc & Hr & Hp & Hmin); exists pre, post; split_and!; try done.
  - left. rewrite Hr in *. split; [done|]. by eapply fs_read_write.
  - right. exists e. rewrite <-Hr, Hw. done.
Qed.

End bashkit.
Arguments Session : clear implicits.

(** ** Globs on file names *)

(** The declarative meaning of a pattern: [*] stands for any bytes, [?] for one
    byte, anything else for itself. *)
Inductive glob_rel : bytes → bytes → Prop :=
| gr_nil : glob_rel [] []
| gr_star p x t : glob_rel p t → glob_rel (42 :: p) (x ++ t)
| gr_any p c t : glob_rel p t → glob_rel (63 :: p) (c :: t)
| gr_byte p c t : c ≠ 42 → c ≠ 63 → glob_rel p t → glob_rel (c :: p) (c :: t).

Lemma glob_helper_star p t :
  glob_helper (42 :: p) t = true ↔ ∃ x t', t = x ++ t' ∧ glob_helper p t' = true.
Proof.
  induction t as [|c t IH].
  - change (glob_helper (42 :: p) []) with (if glob_helper p [] then true else false).
    split.
    + intros H. exists [], []. by destruct (glob_helper p []).
    + intros (x & t' & Ht & H). symmetry in Ht. apply app_eq_nil in Ht as [-> ->].
      by rewrite H.
  - change (glob_helper (42 :: p) (c :: t))
      with (if glob_helper p (c :: t) then true else glob_helper (42 :: p) t).
    destruct (glob_helper p (c :: t)) eqn:E.
    + split; [|done]. intros _. by exists [], (c :: t).
    + rewrite IH. split.
      * intros (x & t' & -> & H). by exists (c :: x), t'.
      * intros ([|c' x] & t' & Ht & H); cbn in Ht; simplify_eq; [congruence|]. by exists x, t'.
Qed.

Lemma glob_helper_rel p t : glob_helper p t = true ↔ glob_rel p t.
Proof.
  revert t. induction p as [|c p IH]; intros t.
  - destruct t; split; intros H; [constructor|done|done|inversion H].
  - destruct (Z.eq_dec c 42) as [->|H42].
    + rewrite glob_helper_star. split.
      * intros (x & t' & -> & H). constructor. by apply IH.
      * intros H. inversion H; simplify_eq. do 2 eexists. split; [done|]. by apply IH.
    + destruct t as [|d t].
      * assert (glob_helper (c :: p) [] = false) as ->.
        { cbn. by rewrite (proj2 (Z.eqb_neq c 42)). }
        split; [done|]. intros H. inversion H; simplify_eq.
      * cbn. rewrite (proj2 (Z.eqb_neq c 42)) by done.
        destruct (Z.eqb_spec c 63) as [->|H63].
        -- rewrite IH. split; [by constructor|]. intros H. by inversion H; simplify_eq.
        -- destruct (Z.eqb_spec c d) as [->|Hd].
           ++ rewrite IH. split; [by constructor|]. intros H. by inversion H; simplify_eq.
           ++ split; [done|]. intros H. inversion H; simplify_eq.
Qed.

(** C29: the backtracking matcher decides the declarative meaning of the
    pattern, on every pattern and text. It works on bytes, so [?] does not match
    a character that takes more than one. *)
Theorem glob_match_correct (pattern text : str) :
  (glob_match pattern text = true ↔ glob_rel (as_bytes pattern) (as_bytes text)) ∧
  glob_match [63] [0xE9] = false.
Proof. split; [apply glob_helper_rel|]. vm_compute. reflexivity. Qed.

(** ** Reading the output of a search *)

(** A line of the output that reports a match. *)
Definition render_match (m : GrepMatch) : str :=
  gm_path m ++ colon :: dec (gm_line_number m) ++ colon :: gm_line m.

Definition printable (m : GrepMatch) : Prop :=
  (colon ∉ gm_path m) ∧ 0 <= gm_line_number m <= u64_max.

(** A line of the output: a match, or something else. *)
Definition render_line (l : GrepMatch + str) : str :=
  match l with inl m => render_match m | inr noise => noise end.

Definition line_ok (l : GrepMatch + str) : Prop :=
  (10 ∉ render_line l) ∧ last (render_line l) ≠ Some 13 ∧
  match l with inl m => printable m | inr noise => parse_grep_line noise = None end.

Lemma split_once_app sep a b : sep ∉ a → split_once sep (a ++ sep :: b) = Some (a, b).
Proof.
  induction a as [|c a IH]; intros Ha; cbn; [by rewrite Z.eqb_refl|].
  apply not_elem_of_cons in Ha as [Hc Ha].
  rewrite (proj2 (Z.eqb_neq c sep)) by done. by rewrite IH.
Qed.

Lemma colon_dec n : 0 <= n → colon ∉ dec n.
Proof.
  intros Hn Hin. destruct (dec_digits n Hn) as [Hd _].
  rewrite Forall_forall in Hd. apply Hd in Hin. unfold colon in Hin. lia.
Qed.

Lemma parse_render_match m : printable m → parse_grep_line (render_match m) = Some m.
Proof.
  intros [Hp Hn]. unfold parse_grep_line, render_match.
  rewrite split_once_app by done. cbn.
  rewrite split_once_app by (apply colon_dec; lia). cbn.
  rewrite parse_u64_dec by done. by destruct m.
Qed.

(** C30: reading back what a search printed: from any mix of match lines and
    other lines (messages, lines without a number) exactly the matches are
    recovered, in order, colons and all in the matched text. A path with a colon
    is the exception: it is not [printable]. *)
Theorem parse_grep_round_trip (ls : list (GrepMatch + str)) (Hls : Forall line_ok ls) :
  parse_grep (concat ((λ l, render_line l ++ [10]) <$> ls)) =
  omap (λ l, match l with inl m => Some m | inr _ => None end) ls.
Proof.
  unfold parse_grep. induction Hls as [|l ls (Hlf & Hcr & Hl) _ IH]; [done|].
  cbn [fmap list_fmap concat]. rewrite <-app_assoc. cbn [app].
  rewrite lines_lf by done. cbn [omap list_omap]. rewrite IH.
  destruct l as [m|noise]; cbn [render_line] in *.
  - by rewrite parse_render_match.
  - by rewrite Hl.
Qed.

(** ** A toy interpreter, to run the file operations *)

Module BashExamples.

(** The files, the newest first; every script prints the list of its files. *)
Definition files : Type := list (path * bytes).

Definition toy_read (p : path) (b : files) : result bytes str :=
  match list_find (λ f, f.1 = p) b with
  | Some (_, (_, bs)) => Ok bs
  | None => Err (s!"File not found")
  end.

Lemma toy_read_write p bs (b : files) : toy_read p ((p, bs) :: b) = Ok bs.
Proof. unfold toy_read. cbn. by rewrite decide_True. Qed.

#[export, refine] Instance toy_bash : BashLib files := {|
  Builder := files; RealFs := unit; builder := [];
  mount_real_readonly_at _ _ b := b; mount_real_readwrite_at _ _ b := b; build b := b;
  RealFs_new _ _ := Ok tt; bash_mount _ _ b := (Ok tt, b); bash_unmount _ b := (Ok tt, b);
  bash_exec _ b := (ExecDone [] [] 0, b); bash_exec_within _ _ b := (None, b);
  fs_read := toy_read;
  fs_write p bs b := (Ok tt, (p, bs) :: b);
  fs_mkdir _ _ b := (Ok tt, b);
|}.
Proof.
  intros p bs b b' [= <-]. apply toy_read_write.
Defined.

Definition home : files := [(path_from (s!"/a.txt"), s!"one two three")].
Definition session : Session files := {| ss_poisoned := false; ss_bash := home |}.

(** Another task appends to the file while it is edited: its change is lost. *)
Definition meanwhile (b : files) : files := (path_from (s!"/a.txt"), s!"one two three four") :: b.

Definition edited : nif EditResult * Session files :=
  edit_file id meanwhile (s!"/a.txt") (s!"two") (s!"2") session.

Lemma edit_file_spec_witness :
  edited.1 = Ok (Ok {| ed_occurrences := 1; ed_content := s!"one 2 three" |}) ∧
  ∃ pre post, s!"one two three" = pre ++ s!"two" ++ post ∧ contains (s!"two") post = false.
Proof.
  split; [vm_compute; reflexivity|].
  assert (edited = (edited.1, edited.2)) as E by apply surjective_pairing.
  pose proof (edit_file_spec id meanwhile (s!"/a.txt") (s!"two") (s!"2") session eq_refl) as H.
  cbv zeta in H. fold edited in H. rewrite E in H.
  destruct H as [_ H].
  destruct H as (pre & post & Hc & Hp & _); [vm_compute; reflexivity|].
  exists pre, post. split; [|exact Hp]. rewrite <-Hc. vm_compute. reflexivity.
Defined.

Lemma parse_grep_round_trip_witness :
  parse_grep (s!"a.rs:12:x: y" ++ [10] ++ s!"grep: b: Permission denied" ++ [10]) =
  [{| gm_path := s!"a.rs"; gm_line_number := 12; gm_line := s!"x: y" |}].
Proof.
  refine (parse_grep_round_trip
    [inl {| gm_path := s!"a.rs"; gm_line_number := 12; gm_line := s!"x: y" |};
     inr (s!"grep: b: Permission denied")] _).
  apply Forall_cons_2; [|apply Forall_cons_2; [|apply Forall_nil_2]].
  - split; [apply (bool_decide_unpack _); vm_compute; exact I|].
    split; [vm_compute; discriminate|].
    split; [apply (bool_decide_unpack _); vm_compute; exact I|].
    split; vm_compute; discriminate.
  - split; [apply (bool_decide_unpack _); vm_compute; exact I|].
    split; [vm_compute; discriminate|vm_compute; reflexivity].
Defined.

End BashExamples.
