(* ===== verification/Microsandbox.v ===== *)
(** * [condukt_microsandbox/src/lib.rs]: sessions in a microVM

    The [microsandbox] library is an interface over the state of the machine.
    A session holds the sandbox and the runtime in two mutexes; the NIFs of the
    BEAM's dirty schedulers interleave, so they are the runs of [m_step]: a NIF
    takes the sandbox lock, then, separately, the runtime lock, under which it
    drives one operation of the library to its end. Dropping the last reference
    finalises the session. *)

From S2P Require Import Prelude Utf8 Strs Bashkit.

(** ** Data *)

Record MMountSpec := { mm_host_path : str; mm_guest_path : str; mm_mode : MountMode }.

Record SessionConfig := {
  sc_name : str;
  sc_image : str;
  sc_cpus : Z;
  sc_memory_mib : Z;
  sc_cwd : str;
  sc_shell : str;
  sc_env : list (str * str);
  sc_mounts : list MMountSpec;
  sc_replace_existing : bool;
}.

(** [std::io::ErrorKind], as far as the source distinguishes. *)
Inductive ErrorKind := NotFound | PermissionDenied | AlreadyExists | IsADirectory | OtherKind.

(** [MicrosandboxError]; texts are [Display] renderings. *)
Inductive MicrosandboxError :=
| ExecTimeout
| Io (kind : ErrorKind) (text : str)
| SandboxFs (message : str)
| OtherError (text : str).

(** The calls of the library's builder. *)
Inductive builder_call :=
| BImage (image : str)
| BCpus (n : Z)
| BMemory (mib : Z)
| BWorkdir (dir : str)
| BShell (sh : str)
| BReplace
| BEnv (key value : str)
| BVolume (guest_path : str) (host_path : path) (readonly : bool).

(** The builder the source ends up with: its name and its calls, in order. *)
Definition build_builder (config : SessionConfig) : str * list builder_call :=
  (sc_name config,
   [BImage (sc_image config); BCpus (sc_cpus config); BMemory (sc_memory_mib config);
    BWorkdir (sc_cwd config); BShell (sc_shell config)]
   ++ (if sc_replace_existing config then [BReplace] else [])
   ++ ((λ '(key, value), BEnv key value) <$> sc_env config)
   ++ ((λ mount, BVolume (mm_guest_path mount) (path_from (mm_host_path mount))
          (match mm_mode mount with Readonly => true | Readwrite => false end))
       <$> sc_mounts config)).

(** ** Error labels *)

Definition label_for_io (kind : ErrorKind) (text : str) : str :=
  match kind with
  | NotFound => s!"enoent"
  | PermissionDenied => s!"eacces"
  | AlreadyExists => s!"eexist"
  | IsADirectory => s!"eisdir"
  | OtherKind => text
  end.

Section microsandbox.

(** [char::to_lowercase] outside ASCII. *)
Variable unicode_lower : char → str.

Definition to_lowercase (s : str) : str :=
  s ≫= λ c, if c <? 128 then [ascii_lower c] else unicode_lower c.

Definition label_for_message (message : str) : str :=
  let lower := to_lowercase message in
  if contains (s!"no such file") lower || contains (s!"not found") lower then s!"enoent"
  else if contains (s!"permission denied") lower then s!"eacces"
  else if contains (s!"already exists") lower then s!"eexist"
  else if contains (s!"is a directory") lower then s!"eisdir"
  else message.

Definition label_for_error (err : MicrosandboxError) : str :=
  match err with
  | ExecTimeout => s!"timeout"
  | Io kind text => label_for_io kind text
  | SandboxFs message => label_for_message message
  | OtherError text => label_for_message text
  end.

(** ** The library *)

Record ExecOptions := {
  eo_args : list str;
  eo_cwd : str;
  eo_env : list (str * str);
  eo_timeout : option Z;
}.

(** [ExecOutput]: the streams are [None] when they are not UTF-8. *)
Record MOutput := { mo_stdout : option str; mo_stderr : option str; mo_code : Z }.

Record MicroLib (W : Type) := {
  create : str → list builder_call → result W MicrosandboxError;
  exec_with : str → ExecOptions → W → result MOutput MicrosandboxError * W;
  vm_read : str → W → result bytes MicrosandboxError;
  vm_write : str → bytes → W → result unit MicrosandboxError * W;
  vm_mkdir : path → W → result unit MicrosandboxError * W;
  stop_and_wait : W → W;
}.
Arguments create {W}.
Arguments exec_with {W}.
Arguments vm_read {W}.
Arguments vm_write {W}.
Arguments vm_mkdir {W}.
Arguments stop_and_wait {W}.

Context {W : Type}.
Variable lib : MicroLib W.

(** ** The NIFs, under the runtime lock *)

Inductive op :=
| OExec (shell command cwd : str) (env : list (str * str)) (timeout_ms : option Z)
| ORead (p : str) (alloc : bool)   (** whether the binary can be allocated *)
| OWrite (p : str) (content : bytes)
| OShutdown.

(** What a NIF returns: a raised term, or its value. *)
Inductive reply :=
| RRaise (e : str)
| RExec (r : result ExecResult str)
| RRead (r : result bytes str)
| RWrite (r : result unit str)
| ROk.

Definition run_exec (shell command cwd : str) (env : list (str * str)) (timeout_ms : option Z)
    (w : W) : reply * W :=
  let exec := {| eo_args := [s!"-c"; command]; eo_cwd := cwd; eo_env := env;
                 eo_timeout := timeout_ms |} in
  let '(r, w) := exec_with lib shell exec w in
  (match r with
   | Ok output =>
       RExec (Ok {| er_output := combine_output (default [] (mo_stdout output))
                                   (default [] (mo_stderr output));
                    er_exit_code := mo_code output |})
   | Err err => RExec (Err (label_for_error err))
   end, w).

Definition run_read (p : str) (alloc : bool) (w : W) : reply :=
  match vm_read lib p w with
  | Ok bs => if alloc then RRead (Ok bs) else RRaise (s!"failed to allocate binary")
  | Err err => RRead (Err (label_for_error err))
  end.

(** The parent directory first; its failure ends the call. *)
Definition run_write (p : str) (content : bytes) (w : W) : reply * W :=
  let '(r, w) :=
    match path_parent (path_from p) with
    | Some parent => if negb (path_is_empty parent) then vm_mkdir lib parent w else (Ok tt, w)
    | None => (Ok tt, w)
    end in
  match r with
  | Err err => (RWrite (Err (label_for_error err)), w)
  | Ok _ =>
      let '(r, w) := vm_write lib p content w in
      (RWrite (map_err label_for_error r), w)
  end.

Definition run_op (o : op) (w : W) : reply * W :=
  match o with
  | OExec shell command cwd env timeout_ms => run_exec shell command cwd env timeout_ms w
  | ORead p alloc => (run_read p alloc w, w)
  | OWrite p content => run_write p content w
  | OShutdown => (ROk, w)
  end.

(** ** Sessions *)

(** Where a NIF is: called, holding a clone of the sandbox, holding what
    [take_sandbox] returned, returned. *)
Inductive m_phase := PStart | PCloned | PTook (got : bool) | PDone (r : reply).

Record m_task := { mt_op : op; mt_phase : m_phase }.

Record m_session := {
  sandbox : bool;             (** the [Option] holds a sandbox *)
  sandbox_poisoned : bool;
  runtime_poisoned : bool;
  detached : bool;            (** the runtime was shut down in the background *)
  dropped : bool;
  m_tasks : gmap nat m_task;
  stops : nat;                (** history: calls of [stop_and_wait] *)
  discards : nat;             (** history: sandboxes let go without it *)
  vm : W;
}.

Definition msg_poisoned : str := s!"microsandbox session lock poisoned".
Definition msg_closed : str := s!"sandbox closed".

(** [new_session], its runtime built. *)
Definition new_session (config : SessionConfig) : result m_session str :=
  let '(name, calls) := build_builder config in
  match create lib name calls with
  | Err err => Err (label_for_error err)
  | Ok w =>
      Ok {| sandbox := true; sandbox_poisoned := false; runtime_poisoned := false;
            detached := false; dropped := false; m_tasks := ∅; stops := 0; discards := 0;
            vm := w |}
  end.

Definition set_mtask (t : nat) (o : op) (p : m_phase) (s : m_session) : m_session :=
  {| sandbox := sandbox s; sandbox_poisoned := sandbox_poisoned s;
     runtime_poisoned := runtime_poisoned s; detached := detached s; dropped := dropped s;
     m_tasks := <[t := {| mt_op := o; mt_phase := p |}]> (m_tasks s);
     stops := stops s; discards := discards s; vm := vm s |}.

Definition set_sandbox (b : bool) (s : m_session) : m_session :=
  {| sandbox := b; sandbox_poisoned := sandbox_poisoned s;
     runtime_poisoned := runtime_poisoned s; detached := detached s; dropped := dropped s;
     m_tasks := m_tasks s; stops := stops s; discards := discards s; vm := vm s |}.

Definition set_vm (w : W) (s : m_session) : m_session :=
  {| sandbox := sandbox s; sandbox_poisoned := sandbox_poisoned s;
     runtime_poisoned := runtime_poisoned s; detached := detached s; dropped := dropped s;
     m_tasks := m_tasks s; stops := stops s; discards := discards s; vm := w |}.

(** A sandbox out of the session is stopped on the runtime, if its lock can be
    taken, and otherwise let go. *)
Definition stop_sandbox (s : m_session) : m_session :=
  {| sandbox := sandbox s; sandbox_poisoned := sandbox_poisoned s;
     runtime_poisoned := runtime_poisoned s; detached := detached s; dropped := dropped s;
     m_tasks := m_tasks s;
     stops := if runtime_poisoned s then stops s else S (stops s);
     discards := if runtime_poisoned s then S (discards s) else discards s;
     vm := if runtime_poisoned s then vm s else stop_and_wait lib (vm s) |}.

(** [clone_sandbox]. *)
Definition clone_sandbox (s : m_session) : result unit str :=
  if sandbox_poisoned s then Err msg_poisoned
  else if sandbox s then Ok tt else Err msg_closed.

(** [take_sandbox]: whether there was one, and the session without it. *)
Definition take_sandbox (s : m_session) : bool * m_session :=
  if sandbox_poisoned s then (false, s) else (sandbox s, set_sandbox false s).

(** [Drop for Session]; what is left in the fields goes with them. *)
Definition drop_session (s : m_session) : m_session :=
  let '(got, s) := take_sandbox s in
  let s := if got then stop_sandbox s else s in
  {| sandbox := false; sandbox_poisoned := sandbox_poisoned s;
     runtime_poisoned := runtime_poisoned s; detached := negb (runtime_poisoned s);
     dropped := true; m_tasks := m_tasks s; stops := stops s;
     discards := if sandbox s then S (discards s) else discards s; vm := vm s |}.

(** Every NIF has returned. *)
Definition all_done (s : m_session) : Prop :=
  map_Forall (λ _ k, match mt_phase k with PDone _ => True | _ => False end) (m_tasks s).

#[global] Instance all_done_dec s : Decision (all_done s).
Proof. apply map_Forall_dec. intros _ k. destruct (mt_phase k); apply _. Defined.

Inductive m_label :=
| MCall (t : nat) (o : op)
| MClone (t : nat)
| MRun (t : nat)
| MTake (t : nat)
| MStop (t : nat)
| MPoison (sandbox_lock : bool)  (** a panic under one of the locks *)
| MDrop.                         (** the last reference goes away *)

Definition poison (sandbox_lock : bool) (s : m_session) : m_session :=
  {| sandbox := sandbox s;
     sandbox_poisoned := sandbox_poisoned s || sandbox_lock;
     runtime_poisoned := runtime_poisoned s || negb sandbox_lock;
     detached := detached s; dropped := dropped s; m_tasks := m_tasks s;
     stops := stops s; discards := discards s; vm := vm s |}.

Definition m_step (l : m_label) (s : m_session) : option m_session :=
  if dropped s then None
  else
  match l with
  | MCall t o =>
      match m_tasks s !! t with None => Some (set_mtask t o PStart s) | Some _ => None end
  | MClone t =>
      match m_tasks s !! t with
      | Some {| mt_op := o; mt_phase := PStart |} =>
          match o with
          | OShutdown => None
          | _ => Some (match clone_sandbox s with
                       | Ok _ => set_mtask t o PCloned s
                       | Err e => set_mtask t o (PDone (RRaise e)) s
                       end)
          end
      | _ => None
      end
  | MRun t =>
      match m_tasks s !! t with
      | Some {| mt_op := o; mt_phase := PCloned |} =>
          Some (if runtime_poisoned s then set_mtask t o (PDone (RRaise msg_poisoned)) s
                else let '(r, w) := run_op o (vm s) in
                     set_mtask t o (PDone r) (set_vm w s))
      | _ => None
      end
  | MTake t =>
      match m_tasks s !! t with
      | Some {| mt_op := OShutdown; mt_phase := PStart |} =>
          let '(got, s) := take_sandbox s in
          Some (set_mtask t OShutdown (PTook got) s)
      | _ => None
      end
  | MStop t =>
      match m_tasks s !! t with
      | Some {| mt_op := OShutdown; mt_phase := PTook got |} =>
          Some (set_mtask t OShutdown (PDone ROk) (if got then stop_sandbox s else s))
      | _ => None
      end
  | MPoison sandbox_lock => Some (poison sandbox_lock s)
  | MDrop => if decide (all_done s) then Some (drop_session s) else None
  end.

(** The sessions a configuration can lead to. *)
Inductive m_reachable (config : SessionConfig) : m_session → Prop :=
| m_reach_start s : new_session config = Ok s → m_reachable config s
| m_reach_step s l s' : m_reachable config s → m_step l s = Some s' → m_reachable config s'.

(** ** Invariant *)

Definition holds (s : m_session) (t : nat) : Prop :=
  ∃ o, m_tasks s !! t = Some {| mt_op := o; mt_phase := PTook true |}.

(** The sandbox is in exactly one place: the session, the hands of one
    [shutdown], or gone, stopped or discarded once. *)
Definition placed (s : m_session) : Prop :=
  (sandbox s = true ∧ (∀ t, ¬ holds s t) ∧ stops s = 0%nat ∧ discards s = 0%nat) ∨
  (sandbox s = false ∧ (∃ t, holds s t ∧ ∀ t', holds s t' → t' = t) ∧
     stops s = 0%nat ∧ discards s = 0%nat) ∨
  (sandbox s = false ∧ (∀ t, ¬ holds s t) ∧ (stops s + discards s = 1)%nat).

(** Discarding takes a poisoned lock; a dropped session holds nothing. *)
Definition accounted (s : m_session) : Prop :=
  (discards s ≠ 0%nat → sandbox_poisoned s = true ∨ runtime_poisoned s = true) ∧
  (dropped s = true → sandbox s = false ∧ all_done s).

Lemma holds_set t o p s t' :
  holds (set_mtask t o p s) t' ↔ (t = t' ∧ p = PTook true) ∨ (t ≠ t' ∧ holds s t').
Proof.
  unfold holds. cbn. destruct (decide (t = t')) as [->|Hne].
  - rewrite lookup_insert_eq. naive_solver.
  - rewrite lookup_insert_ne by done. naive_solver.
Qed.

Lemma placed_ext s s' :
  sandbox s' = sandbox s → stops s' = stops s → discards s' = discards s →
  (∀ t, holds s' t ↔ holds s t) → placed s → placed s'.
Proof.
  intros H1 H2 H3 H4. unfold placed. rewrite H1, H2, H3. setoid_rewrite H4. done.
Qed.

(** A NIF moves on without touching the sandbox. *)
Lemma placed_move t o p s :
  ¬ holds s t → p ≠ PTook true → placed s → placed (set_mtask t o p s).
Proof.
  intros Hn Hp. apply placed_ext; [done..|]. intros t'. rewrite holds_set.
  destruct (decide (t = t')) as [->|]; naive_solver.
Qed.

Lemma not_holds_phase s t o p :
  m_tasks s !! t = Some {| mt_op := o; mt_phase := p |} → p ≠ PTook true → ¬ holds s t.
Proof. intros Ht Hp [o' H]. congruence. Qed.

(** [shutdown] takes the sandbox. *)
Lemma placed_take t o s :
  ¬ holds s t → placed s →
  placed (let '(got, s) := take_sandbox s in set_mtask t o (PTook got) s).
Proof.
  intros Hn Hp. unfold take_sandbox.
  destruct (sandbox_poisoned s); [by apply placed_move|].
  destruct (sandbox s) eqn:Hs.
  - right. left. destruct Hp as [(_ & Hno & Hst & Hd)|[(? & _)|(? & _)]]; [|congruence..].
    split_and!; try done. exists t. split; [apply holds_set; by left|].
    intros t' [[-> _]|[_ H]]%holds_set; [done|]. by destruct (Hno t').
  - eapply (placed_ext s); [by cbn|done|done| |done]. intros t'. rewrite holds_set.
    destruct (decide (t = t')) as [->|]; naive_solver.
Qed.

(** It stops what it took. *)
Lemma placed_stop t o s got :
  m_tasks s !! t = Some {| mt_op := o; mt_phase := PTook got |} → placed s →
  placed (set_mtask t o (PDone ROk) (if got then stop_sandbox s else s)).
Proof.
  intros Ht Hp. destruct got.
  2: { apply placed_move; [by eapply not_holds_phase|done|done]. }
  assert (holds s t) as Hh by by exists o.
  destruct Hp as [(_ & Hno & _)|[(Hs & (t0 & Ht0 & Huniq) & Hst & Hd)|(_ & Hno & _)]];
    [by destruct (Hno t)| |by destruct (Hno t)].
  right. right. pose proof (Huniq t Hh) as ->. split_and!; [done| |].
  - intros t' [[-> ?]|[Hne [o' H]]]%holds_set; [done|].
    apply Hne. symmetry. apply Huniq. by exists o'.
  - cbn. destruct (runtime_poisoned s); lia.
Qed.

Lemma placed_drop s : placed s → all_done s → placed (drop_session s).
Proof.
  intros Hp Hd.
  assert (∀ t, ¬ holds s t) as Hno.
  { intros t [o H]. by apply Hd in H. }
  right. right. unfold drop_session, take_sandbox.
  destruct Hp as [(Hs & _ & Hst & Hdi)|[(_ & (t & Ht & _) & _)|(Hs & _ & Hsum)]];
    [|by destruct (Hno t)|]; destruct (sandbox_poisoned s); rewrite ?Hs;
    split_and!; try done; cbn; rewrite ?Hs; try done;
    destruct (runtime_poisoned s); cbn; lia.
Qed.

Lemma m_step_placed l s s' : m_step l s = Some s' → placed s → placed s'.
Proof.
  intros H Hp. unfold m_step in H. destruct (dropped s); [done|].
  destruct l as [t o|t|t|t|t|b|].
  - destruct (m_tasks s !! t) eqn:Ht; simplify_eq. apply placed_move; [|done|done].
    intros [o' ?]. congruence.
  - destruct (m_tasks s !! t) as [[o []]|] eqn:Ht; simplify_eq.
    assert (¬ holds s t) by by eapply not_holds_phase.
    destruct o; simplify_eq; destruct (clone_sandbox s); by apply placed_move.
  - destruct (m_tasks s !! t) as [[o []]|] eqn:Ht; simplify_eq.
    assert (¬ holds s t) by by eapply not_holds_phase.
    destruct (runtime_poisoned s); [by apply placed_move|].
    destruct (run_op o (vm s)) as [r w]. by apply placed_move.
  - destruct (m_tasks s !! t) as [[[] []]|] eqn:Ht; simplify_eq.
    pose proof (placed_take t OShutdown s) as Htk. destruct (take_sandbox s) as [got s1].
    simplify_eq. apply Htk; [by eapply not_holds_phase|done].
  - destruct (m_tasks s !! t) as [[[] []]|] eqn:Ht; simplify_eq. by apply placed_stop.
  - simplify_eq. by eapply (placed_ext s).
  - case_decide; simplify_eq. by apply placed_drop.
Qed.

(** Every step but those that discard or drop keeps the accounts. *)
Lemma accounted_keep s s' :
  discards s' = discards s →
  (sandbox_poisoned s = true → sandbox_poisoned s' = true) →
  (runtime_poisoned s = true → runtime_poisoned s' = true) →
  dropped s' = false → accounted s → accounted s'.
Proof.
  intros Hd Hs Hr Hdr [H1 _]. split; [|congruence]. rewrite Hd. intros H. destruct (H1 H); auto.
Qed.

Lemma accounted_stop s : dropped s = false → accounted s → accounted (stop_sandbox s).
Proof.
  intros Hdr [H1 _]. split; [|cbn; congruence]. cbn. destruct (runtime_poisoned s); auto.
Qed.

Lemma accounted_drop s : dropped s = false → all_done s → accounted s → accounted (drop_session s).
Proof.
  intros Hdr Hd [H1 _]. unfold drop_session, take_sandbox. split.
  - destruct (sandbox_poisoned s) eqn:Hsp; [intros _; by left|]. 
    destruct (sandbox s) eqn:Hs; cbn; rewrite ?Hs;
      destruct (runtime_poisoned s) eqn:Hr; try rewrite Hr; auto;
      intros H; destruct (H1 H); congruence.
  - intros _. split; [by destruct (sandbox_poisoned s), (sandbox s)|].
    unfold all_done in *. by destruct (sandbox_poisoned s), (sandbox s).
Qed.

Lemma m_step_accounted l s s' : m_step l s = Some s' → accounted s → accounted s'.
Proof.
  intros H Ha. unfold m_step in H. destruct (dropped s) eqn:Hdr; [done|].
  destruct l as [t o|t|t|t|t|b|].
  - destruct (m_tasks s !! t) eqn:Ht; simplify_eq. by eapply (accounted_keep s).
  - destruct (m_tasks s !! t) as [[o []]|] eqn:Ht; simplify_eq.
    destruct o; simplify_eq; destruct (clone_sandbox s); by eapply (accounted_keep s).
  - destruct (m_tasks s !! t) as [[o []]|] eqn:Ht; simplify_eq.
    destruct (runtime_poisoned s) eqn:Hr; [by eapply (accounted_keep s)|].
    destruct (run_op o (vm s)) as [r w]. eapply (accounted_keep s); by cbn.
  - destruct (m_tasks s !! t) as [[[] []]|] eqn:Ht; simplify_eq.
    unfold take_sandbox in H. destruct (sandbox_poisoned s) eqn:Hsp; simplify_eq;
      eapply (accounted_keep s); by cbn.
  - destruct (m_tasks s !! t) as [[[] []]|] eqn:Ht; simplify_eq. destruct got.
    + apply (accounted_keep (stop_sandbox s)); try done. by apply accounted_stop.
    + by eapply (accounted_keep s).
  - simplify_eq. eapply (accounted_keep s); cbn; try done; by intros ->.
  - case_decide; simplify_eq. by apply accounted_drop.
Qed.

Lemma m_reachable_inv config s : m_reachable config s → placed s ∧ accounted s.
Proof.
  induction 1 as [s Hs|s l s' _ [IH1 IH2] Hl].
  - unfold new_session in Hs. destruct (build_builder config) as [name calls].
    destruct (create lib name calls); simplify_eq. split; [|by split].
    left. split_and!; try done. intros t [o H]. cbn in H. by rewrite lookup_empty in H.
  - split; [by eapply m_step_placed|by eapply m_step_accounted].
Qed.

(** ** Properties *)

(** C25: the microVM is stopped once. Whatever the interleaving of the NIFs, of
    [shutdown]s among them and of the finaliser, the machine is stopped at most
    once, and a finalised session has stopped it exactly once unless a panic
    poisoned a lock; and once the sandbox was taken, a NIF that starts raises
    without reaching the machine. *)
Theorem sandbox_stopped_once (config : SessionConfig) (s : m_session)
    (Hr : m_reachable config s) :
  (stops s ≤ 1)%nat ∧
  (dropped s = true → sandbox_poisoned s = false → runtime_poisoned s = false →
     stops s = 1%nat) ∧
  (sandbox s = false → ∀ t s', m_step (MClone t) s = Some s' →
     vm s' = vm s ∧ ∃ o e, m_tasks s' !! t = Some {| mt_op := o; mt_phase := PDone (RRaise e) |}).
Proof.
  destruct (m_reachable_inv config s Hr) as [Hp [Ha1 Ha2]]. split_and!.
  - destruct Hp as [(_ & _ & -> & _)|[(_ & _ & -> & _)|(_ & _ & ?)]]; lia.
  - intros Hd Hsp Hrp. destruct (Ha2 Hd) as [Hs Hall].
    destruct Hp as [(? & _)|[(_ & (t & [o Ht] & _) & _)|(_ & _ & Hsum)]]; [congruence| |].
    + by apply Hall in Ht.
    + destruct (discards s) eqn:Hdi; [lia|]. destruct Ha1; congruence.
  - intros Hs t s' H. unfold m_step in H. destruct (dropped s); [done|].
    destruct (m_tasks s !! t) as [[o []]|] eqn:Ht; simplify_eq.
    unfold clone_sandbox in H. rewrite Hs in H.
    destruct o; simplify_eq; destruct (sandbox_poisoned s); simplify_eq; (split; [done|]);
      cbn; rewrite lookup_insert_eq; eauto.
Qed.

End microsandbox.

(** ** A toy machine, to run sessions *)

Module MicroExamples.

(** The machine counts the commands it ran and the times it was stopped. *)
Definition toy_vm : MicroLib (nat * nat) := {|
  create name calls := if is_empty name then Err (OtherError (s!"no name")) else Ok (0%nat, 0%nat);
  exec_with sh o w := (Ok {| mo_stdout := Some (s!"hi"); mo_stderr := None; mo_code := 0 |},
                       (S w.1, w.2));
  vm_read p w := Err (Io NotFound (s!"no such file"));
  vm_write p bs w := (Ok tt, w);
  vm_mkdir p w := (Ok tt, w);
  stop_and_wait w := (w.1, S w.2);
|}.

Definition config : SessionConfig :=
  {| sc_name := s!"s1"; sc_image := s!"alpine"; sc_cpus := 1; sc_memory_mib := 512;
     sc_cwd := s!"/work"; sc_shell := s!"/bin/sh"; sc_env := []; sc_mounts := [];
     sc_replace_existing := true |}.

Definition fresh_session : m_session (W := nat * nat) :=
  {| sandbox := true; sandbox_poisoned := false; runtime_poisoned := false; detached := false;
     dropped := false; m_tasks := ∅; stops := 0; discards := 0; vm := (0%nat, 0%nat) |}.

Definition lower (c : char) : str := [c].

Definition run (ls : list m_label) : m_session (W := nat * nat) :=
  foldl (λ s l, default s (m_step lower toy_vm l s)) fresh_session ls.

Lemma m_run_reachable ls : m_reachable lower toy_vm config (run ls).
Proof.
  assert (m_reachable lower toy_vm config fresh_session) as H by by apply m_reach_start.
  unfold run. revert H. generalize fresh_session.
  induction ls as [|l ls IH]; intros s Hs; [done|]. apply IH.
  destruct (m_step lower toy_vm l s) eqn:E; [by eapply m_reach_step|done].
Defined.

(** A command races with two shutdowns, then the session is finalised. *)
Definition busy : list m_label :=
  [MCall 0 (OExec (s!"sh") (s!"ls") (s!"/") [] None); MCall 1 OShutdown; MCall 2 OShutdown;
   MClone 0; MTake 1; MTake 2; MStop 2; MStop 1; MRun 0; MDrop].

Lemma sandbox_stopped_once_witness :
  dropped (run busy) = true ∧ stops (run busy) = 1%nat ∧ vm (run busy) = (1%nat, 1%nat).
Proof.
  assert (dropped (run busy) = true) as Hd by (vm_compute; reflexivity).
  split; [exact Hd|]. split; [|vm_compute; reflexivity].
  destruct (sandbox_stopped_once lower toy_vm config (run busy) (m_run_reachable busy))
    as (_ & H & _).
  apply H; [exact Hd|vm_compute; reflexivity|vm_compute; reflexivity].
Defined.

End MicroExamples.
